(** * JerryScript new parser: statement parser, pre-scanner and VM prologue

    A shallow embedding of
    - [js-parser-scanner.c]  (the pre-scanner [parser_scan_until] and the
      interpreter fragments [vm_op_add] and [vm_loop] that follow it), and
    - the statement parser ([parser_parse_statements] and its helpers,
      [parser_free_jumps]),
    together with the properties of these functions that the design
    document states. *)

From Stdlib Require Import ZArith Lia Bool String Ascii.
From stdpp Require Import base decidable option list.

#[local] Open Scope Z_scope.

(* ===================================================================== *)
(** * Part I. The interpreter fragments                                  *)
(* ===================================================================== *)

Module Vm.

(** ** Literal-index decoding parameters ([vm_loop], "Prepare") *)

Section literal_encoding.

(** The two constants come from the byte-code header file, which is not
    part of the sources at hand; every statement below holds for all of
    their values. *)
Variable CBC_CODE_FLAGS_FULL_LITERAL_ENCODING : Z.
Variable cbc_literal_encoding_small : Z.

(** C's [a == b]: an [int] that is 1 or 0. *)
Definition c_equal (a b : Z) : Z := if a =? b then 1 else 0.

(** The condition as the C grammar parses it.  [==] binds tighter than
    [&], so
    [status_flags & CBC_CODE_FLAGS_FULL_LITERAL_ENCODING == cbc_literal_encoding_small]
    is [status_flags & (FULL == small)]. *)
Definition vm_loop_encoding_test (status_flags : Z) : bool :=
  negb (Z.land status_flags
          (c_equal CBC_CODE_FLAGS_FULL_LITERAL_ENCODING
                   cbc_literal_encoding_small) =? 0).

(** [(encoding_limit, encoding_delta)] as [vm_loop] sets them. *)
Definition vm_loop_prepare (status_flags : Z) : Z * Z :=
  if vm_loop_encoding_test status_flags
  then (255, 0xfe01)
  else (128, 0x8000).

(** The test the design document asks for: [(status_flags & X) == Y]. *)
Definition intended_encoding_test (status_flags : Z) : bool :=
  Z.land status_flags CBC_CODE_FLAGS_FULL_LITERAL_ENCODING
    =? cbc_literal_encoding_small.

(** Decoding of one literal index ([VM_OC_OP_LITERAL]): [b0] is the first
    operand byte, [b1] the byte that follows it; the result is the index
    (a [uint16_t]) and the number of operand bytes consumed. *)
Definition vm_decode_literal_index (encoding_limit encoding_delta b0 b1 : Z)
  : Z * Z :=
  if encoding_limit <=? b0
  then ((Z.lor (Z.shiftl b0 8) b1 - encoding_delta) mod 2 ^ 16, 2)
  else (b0, 1).

End literal_encoding.

(** ** [vm_op_add] *)

Inductive ecma_type_t : Set :=
| ECMA_TYPE_SIMPLE
| ECMA_TYPE_NUMBER
| ECMA_TYPE_STRING
| ECMA_TYPE_OBJECT.

Inductive ecma_simple_value_t : Set :=
| ECMA_SIMPLE_VALUE_EMPTY
| ECMA_SIMPLE_VALUE_UNDEFINED
| ECMA_SIMPLE_VALUE_NULL
| ECMA_SIMPLE_VALUE_FALSE
| ECMA_SIMPLE_VALUE_TRUE
| ECMA_SIMPLE_VALUE_ARRAY_HOLE
| ECMA_SIMPLE_VALUE_REGISTER_REF.

(** An [ecma_value_t] packs a type field with a payload: a simple value,
    or a (compressed) pointer to a number, a string or an object. *)
Inductive ecma_value_t : Set :=
| ecma_simple (v : ecma_simple_value_t)
| ecma_number_value (p : nat)
| ecma_string_value (p : nat)
| ecma_object_value (p : nat).

Definition ecma_get_value_type_field (v : ecma_value_t) : ecma_type_t :=
  match v with
  | ecma_simple _ => ECMA_TYPE_SIMPLE
  | ecma_number_value _ => ECMA_TYPE_NUMBER
  | ecma_string_value _ => ECMA_TYPE_STRING
  | ecma_object_value _ => ECMA_TYPE_OBJECT
  end.

Definition ecma_make_simple_value (v : ecma_simple_value_t) : ecma_value_t :=
  ecma_simple v.

Definition ecma_is_value_undefined (v : ecma_value_t) : bool :=
  match v with ecma_simple ECMA_SIMPLE_VALUE_UNDEFINED => true | _ => false end.

Definition ecma_is_value_null (v : ecma_value_t) : bool :=
  match v with ecma_simple ECMA_SIMPLE_VALUE_NULL => true | _ => false end.

Definition ecma_is_value_boolean (v : ecma_value_t) : bool :=
  match v with
  | ecma_simple ECMA_SIMPLE_VALUE_FALSE | ecma_simple ECMA_SIMPLE_VALUE_TRUE => true
  | _ => false
  end.

Definition ecma_is_value_number (v : ecma_value_t) : bool :=
  match v with ecma_number_value _ => true | _ => false end.

Definition ecma_is_value_string (v : ecma_value_t) : bool :=
  match v with ecma_string_value _ => true | _ => false end.

Definition ecma_is_value_object (v : ecma_value_t) : bool :=
  match v with ecma_object_value _ => true | _ => false end.

#[global] Instance ecma_type_eq_dec : EqDecision ecma_type_t.
Proof. solve_decision. Defined.

Section op_add.

(** [ecma_number_t] is a C floating-point type; the addition is taken as
    it is, whatever its rounding. *)
Variable ecma_number_t : Type.
Variable ecma_number_add : ecma_number_t -> ecma_number_t -> ecma_number_t.

(** The number heap is a list of cells: cell [p] is [Some n] when a
    number is allocated there. *)
Definition ecma_get_number_from_value (h : list (option ecma_number_t))
    (v : ecma_value_t)
  : option ecma_number_t :=
  match v with
  | ecma_number_value p => mjoin (h !! p)
  | _ => None
  end.

(** [ecma_alloc_number] followed by the store [*retval = n]. *)
Definition ecma_alloc_number (h : list (option ecma_number_t))
    (n : ecma_number_t) : nat * list (option ecma_number_t) :=
  (length h, h ++ [Some n]).

(** [vm_op_add]; [None] stands for [JERRY_UNREACHABLE] and for a
    dereference of a number pointer that is not allocated. *)
Definition vm_op_add (h : list (option ecma_number_t))
    (lhs rhs : ecma_value_t)
  : option (ecma_value_t * list (option ecma_number_t)) :=
  if negb (bool_decide (ecma_get_value_type_field lhs
                        = ecma_get_value_type_field rhs))
  then Some (ecma_make_simple_value ECMA_SIMPLE_VALUE_UNDEFINED, h)
  else if ecma_is_value_undefined lhs then Some (lhs, h)
  else if ecma_is_value_null lhs then Some (lhs, h)
  else if ecma_is_value_boolean lhs
  then Some (ecma_make_simple_value ECMA_SIMPLE_VALUE_UNDEFINED, h)
  else if ecma_is_value_number lhs
  then
    match ecma_get_number_from_value h lhs,
          ecma_get_number_from_value h rhs with
    | Some lnum, Some rnum =>
        let '(retval, h') := ecma_alloc_number h (ecma_number_add lnum rnum) in
        Some (ecma_number_value retval, h')
    | _, _ => None
    end
  else if ecma_is_value_string lhs
  then Some (ecma_make_simple_value ECMA_SIMPLE_VALUE_UNDEFINED, h)
  else if ecma_is_value_object lhs
  then Some (ecma_make_simple_value ECMA_SIMPLE_VALUE_UNDEFINED, h)
  else None.

End op_add.

(** ** The operand stack of [vm_loop] *)

(** [static ecma_value_t vm_stack[1024]; static ecma_value_t
    *vm_stack_top_p = vm_stack;]: the array, and the pointer as an
    index into it. *)
Record vm_stack_t : Set := mk_vm_stack {
  vm_stack : list ecma_value_t;
  vm_stack_top_p : nat
}.

(** [case VM_OC_OP_STACK: JERRY_ASSERT (vm_stack_top_p > vm_stack);
    value = *(vm_stack_top_p--);]; [None] where the assertion fails or
    the read is outside the array. *)
Definition vm_operand_from_stack (s : vm_stack_t)
  : option (ecma_value_t * vm_stack_t) :=
  if decide (0 < vm_stack_top_p s)%nat
  then
    match vm_stack s !! vm_stack_top_p s with
    | Some value =>
        Some (value, mk_vm_stack (vm_stack s) (vm_stack_top_p s - 1))
    | None => None
    end
  else None.

(** [case VM_OC_POST_PUSH_RESULT: *(vm_stack_top_p++) = result;];
    [None] where the write is outside the array. *)
Definition vm_push_result (result : ecma_value_t) (s : vm_stack_t)
  : option vm_stack_t :=
  if decide (vm_stack_top_p s < length (vm_stack s))%nat
  then Some (mk_vm_stack (<[vm_stack_top_p s := result]> (vm_stack s))
                         (S (vm_stack_top_p s)))
  else None.

(** [case VM_OC_GROUP_POP: vm_stack_top_p--;]; [None] where the pointer
    would leave the array. *)
Definition vm_group_pop (s : vm_stack_t) : option vm_stack_t :=
  if decide (0 < vm_stack_top_p s)%nat
  then Some (mk_vm_stack (vm_stack s) (vm_stack_top_p s - 1))
  else None.

End Vm.
(* ===================================================================== *)
(** * Part II. The pre-scanner and the statement parser                  *)
(* ===================================================================== *)

Module Parser.

(** ** Tokens, literals, errors and opcodes

    The enumerations are declared in headers that are not among the
    sources; each type below lists the members the two C files name and
    keeps one constructor for all the others. *)

Inductive lexer_token_type_t : Set :=
| LEXER_EOS
| LEXER_LITERAL
| LEXER_KEYW_BREAK
| LEXER_KEYW_DO
| LEXER_KEYW_CASE
| LEXER_KEYW_ELSE
| LEXER_KEYW_NEW
| LEXER_KEYW_VAR
| LEXER_KEYW_CATCH
| LEXER_KEYW_FINALLY
| LEXER_KEYW_RETURN
| LEXER_KEYW_CONTINUE
| LEXER_KEYW_FOR
| LEXER_KEYW_SWITCH
| LEXER_KEYW_WHILE
| LEXER_KEYW_DEBUGGER
| LEXER_KEYW_FUNCTION
| LEXER_KEYW_THIS
| LEXER_KEYW_WITH
| LEXER_KEYW_DEFAULT
| LEXER_KEYW_IF
| LEXER_KEYW_THROW
| LEXER_KEYW_TRY
| LEXER_KEYW_IN
| LEXER_LIT_TRUE
| LEXER_LIT_FALSE
| LEXER_LIT_NULL
| LEXER_LEFT_BRACE
| LEXER_RIGHT_BRACE
| LEXER_LEFT_PAREN
| LEXER_RIGHT_PAREN
| LEXER_LEFT_SQUARE
| LEXER_RIGHT_SQUARE
| LEXER_DOT
| LEXER_SEMICOLON
| LEXER_COLON
| LEXER_COMMA
| LEXER_QUESTION_MARK
| LEXER_ASSIGN
| LEXER_ASSIGN_DIVIDE
| LEXER_ADD
| LEXER_SUBTRACT
| LEXER_DIVIDE
| LEXER_INCREASE
| LEXER_DECREASE
| LEXER_PROPERTY_GETTER
| LEXER_PROPERTY_SETTER
| LEXER_EXPRESSION_START
| LEXER_SCAN_SWITCH
| LEXER_UNNAMED_TOKEN (n : nat).

Inductive lexer_literal_type_t : Set :=
| LEXER_IDENT_LITERAL
| LEXER_STRING_LITERAL
| LEXER_UNNAMED_LITERAL (n : nat).

Inductive lexer_literal_object_type_t : Set :=
| lexer_literal_object_any
| lexer_literal_object_eval
| lexer_literal_object_arguments.

Inductive parser_error_t : Set :=
| PARSER_ERR_LEFT_PAREN_EXPECTED
| PARSER_ERR_RIGHT_PAREN_EXPECTED
| PARSER_ERR_LEFT_BRACE_EXPECTED
| PARSER_ERR_COLON_EXPECTED
| PARSER_ERR_SEMICOLON_EXPECTED
| PARSER_ERR_IN_EXPECTED
| PARSER_ERR_WHILE_EXPECTED
| PARSER_ERR_CATCH_FINALLY_EXPECTED
| PARSER_ERR_ARGUMENT_LIST_EXPECTED
| PARSER_ERR_IDENTIFIER_EXPECTED
| PARSER_ERR_OBJECT_ITEM_SEPARATOR_EXPECTED
| PARSER_ERR_PRIMARY_EXP_EXPECTED
| PARSER_ERR_EXPRESSION_EXPECTED
| PARSER_ERR_STATEMENT_EXPECTED
| PARSER_ERR_INVALID_EXPRESSION
| PARSER_ERR_INVALID_SWITCH
| PARSER_ERR_INVALID_BREAK
| PARSER_ERR_INVALID_BREAK_LABEL
| PARSER_ERR_INVALID_CONTINUE
| PARSER_ERR_INVALID_CONTINUE_LABEL
| PARSER_ERR_INVALID_RETURN
| PARSER_ERR_INVALID_RIGHT_SQUARE
| PARSER_ERR_DUPLICATED_LABEL
| PARSER_ERR_MULTIPLE_DEFAULTS_NOT_ALLOWED
| PARSER_ERR_DEFAULT_NOT_IN_SWITCH
| PARSER_ERR_CASE_NOT_IN_SWITCH
| PARSER_ERR_WITH_NOT_ALLOWED
| PARSER_ERR_STRICT_IDENT_NOT_ALLOWED
| PARSER_ERR_NON_STRICT_ARG_DEFINITION
| PARSER_ERR_UNNAMED (n : nat).

(** [uint16_t] opcodes as the parser holds them: plain CBC opcodes,
    extended ones ([CBC_EXT_*], stored as [PARSER_TO_EXT_OPCODE]) and the
    marker [PARSER_CBC_UNAVAILABLE] of an empty last-opcode cache. *)
Inductive cbc_opcode_t : Set :=
| PARSER_CBC_UNAVAILABLE
| CBC_PUSH_IDENT
| CBC_PUSH_LITERAL
| CBC_PUSH_TRUE
| CBC_PUSH_FALSE
| CBC_LOGICAL_NOT
| CBC_POP
| CBC_STRICT_EQUAL
| CBC_PROP_GET
| CBC_PROP_STRING_GET
| CBC_ASSIGN
| CBC_ASSIGN_IDENT
| CBC_ASSIGN_PROP_STRING
| CBC_THROW
| CBC_RETURN
| CBC_RETURN_WITH_UNDEFINED
| CBC_CONTEXT_END
| CBC_JUMP_FORWARD
| CBC_JUMP_FORWARD_EXIT_CONTEXT
| CBC_JUMP_BACKWARD
| CBC_BRANCH_IF_TRUE_FORWARD
| CBC_BRANCH_IF_FALSE_FORWARD
| CBC_BRANCH_IF_TRUE_BACKWARD
| CBC_BRANCH_IF_FALSE_BACKWARD
| CBC_BRANCH_IF_STRICT_EQUAL
| CBC_EXT_WITH_CREATE_CONTEXT
| CBC_EXT_FOR_IN_CREATE_CONTEXT
| CBC_EXT_FOR_IN_GET_NEXT
| CBC_EXT_BRANCH_IF_FOR_IN_HAS_NEXT
| CBC_EXT_PUSH_UNDEFINED_BASE
| CBC_EXT_TRY_CREATE_CONTEXT
| CBC_EXT_CATCH
| CBC_EXT_FINALLY
| CBC_EXT_DEBUGGER
| CBC_UNNAMED_OPCODE (n : nat).

#[global] Instance lexer_token_type_eq_dec : EqDecision lexer_token_type_t.
Proof. solve_decision. Defined.
#[global] Instance lexer_literal_type_eq_dec : EqDecision lexer_literal_type_t.
Proof. solve_decision. Defined.
#[global] Instance lexer_literal_object_type_eq_dec :
  EqDecision lexer_literal_object_type_t.
Proof. solve_decision. Defined.
#[global] Instance parser_error_eq_dec : EqDecision parser_error_t.
Proof. solve_decision. Defined.
#[global] Instance cbc_opcode_eq_dec : EqDecision cbc_opcode_t.
Proof. solve_decision. Defined.


(** ** Lexer data *)

(** [lexer_lit_location_t].  [loc_char_p] is the source text that starts
    at the literal's first byte ([char_p] points into the source). *)
Record lexer_lit_location_t : Set := mk_lit_location {
  loc_char_p : string;
  loc_length : Z;
  loc_type : lexer_literal_type_t;
  loc_has_escape : bool
}.

(** [token.literal_is_reserved] is a [uint8_t] that the lexer uses as a
    flag and that [parser_parse_statements] reuses to save a token type
    ("The literal_is_reserved is reused for saving the token"). *)
Inductive literal_is_reserved_t : Set :=
| reserved_flag (b : bool)
| saved_token_type (t : lexer_token_type_t).

(** The member read as a C condition; [LEXER_EOS] is the enumeration's
    zero. *)
Definition literal_is_reserved_set (r : literal_is_reserved_t) : bool :=
  match r with
  | reserved_flag b => b
  | saved_token_type t => negb (bool_decide (t = LEXER_EOS))
  end.

(** The member read back as a token type. *)
Definition literal_is_reserved_token (r : literal_is_reserved_t)
  : lexer_token_type_t :=
  match r with
  | saved_token_type t => t
  | reserved_flag false => LEXER_EOS
  | reserved_flag true => LEXER_UNNAMED_TOKEN 1
  end.

Record lexer_token_t : Set := mk_token {
  tok_type : lexer_token_type_t;
  tok_literal_is_reserved : literal_is_reserved_t;
  tok_was_newline : bool;
  tok_lit_location : lexer_lit_location_t
}.

(** [lexer_range_t]; [source_p] and [source_end_p] are offsets into the
    source buffer. *)
Record lexer_range_t : Set := mk_range {
  range_source_p : Z;
  range_source_end_p : Z;
  range_line : Z;
  range_column : Z
}.

(** An entry of the literal pool; the statement parser touches only its
    [status_flags]. *)
Record lexer_literal_t : Set := mk_literal {
  literal_status_flags : Z
}.

(** [lexer_lit_object_t]: [literal_p] is the pool index of the literal. *)
Record lexer_lit_object_t : Set := mk_lit_object {
  lit_literal_p : nat;
  lit_index : Z;
  lit_type : lexer_literal_object_type_t
}.

(** The members of [parser_context_t] that the lexer owns. *)
Record lexer_context_t : Set := mk_lexer_context {
  token : lexer_token_t;
  source_p : Z;
  source_end_p : Z;
  line : Z;
  column : Z;
  lit_object : lexer_lit_object_t;
  literal_pool : list lexer_literal_t
}.

(** ** Byte code *)

Record cbc_argument_t : Set := mk_argument {
  arg_literal_index : Z;
  arg_value : Z
}.

(** One emitted instruction.  A forward branch carries [None] until it is
    patched; positions and displacements count instructions (operand
    widths are private to the emitter). *)
Inductive cbc_instr_t : Set :=
| cbc_plain (op : cbc_opcode_t) (arg : cbc_argument_t)
| cbc_forward_branch (op : cbc_opcode_t) (displacement : option Z)
| cbc_backward_branch (op : cbc_opcode_t) (displacement : Z).

(** The members of [parser_context_t] that the emitter owns. *)
Record emitter_t : Set := mk_emitter {
  last_cbc_opcode : cbc_opcode_t;
  last_cbc : cbc_argument_t;
  byte_code : list cbc_instr_t;
  stack_depth : Z
}.

(** [parser_branch_t]: where the operand of a pending forward branch
    awaits its patch.  The highest bit of [offset] marks a continue. *)
Record parser_branch_t : Set := mk_branch {
  branch_offset : Z
}.

(** [parser_branch_node_t]; [None] is the NULL pointer. *)
Record parser_branch_node_t : Set := mk_branch_node {
  node_branch : parser_branch_t;
  node_next_p : option nat
}.

(** ** Statement frames (payload structures of the statement stack) *)

Record parser_loop_statement_t : Set := mk_loop {
  loop_branch_list_p : option nat
}.

Record parser_label_statement_t : Set := mk_label {
  label_ident : lexer_lit_location_t;
  label_break_list_p : option nat
}.

Record parser_if_else_statement_t : Set := mk_if_else {
  if_else_branch : parser_branch_t
}.

Record parser_switch_statement_t : Set := mk_switch {
  switch_default_branch : parser_branch_t;
  switch_branch_list_p : option nat
}.

Record parser_do_while_statement_t : Set := mk_do_while {
  do_while_start_offset : Z
}.

Record parser_while_statement_t : Set := mk_while {
  while_branch : parser_branch_t;
  while_condition_range : lexer_range_t;
  while_start_offset : Z
}.

Record parser_for_statement_t : Set := mk_for {
  for_branch : parser_branch_t;
  for_condition_range : lexer_range_t;
  for_expression_range : lexer_range_t;
  for_start_offset : Z
}.

Record parser_for_in_statement_t : Set := mk_for_in {
  for_in_branch : parser_branch_t;
  for_in_start_offset : Z
}.

Record parser_with_statement_t : Set := mk_with {
  with_branch : parser_branch_t
}.

Inductive parser_try_block_type_t : Set :=
| parser_try_block
| parser_catch_block
| parser_finally_block.

Record parser_try_statement_t : Set := mk_try {
  try_type : parser_try_block_type_t;
  try_branch : parser_branch_t
}.

(** [parser_statement_type_t], with the values the enumeration gives. *)
Definition PARSER_STATEMENT_START : Z := 0.
Definition PARSER_STATEMENT_BLOCK : Z := 1.
Definition PARSER_STATEMENT_LABEL : Z := 2.
Definition PARSER_STATEMENT_IF : Z := 3.
Definition PARSER_STATEMENT_ELSE : Z := 4.
Definition PARSER_STATEMENT_SWITCH : Z := 5.
Definition PARSER_STATEMENT_SWITCH_NO_DEFAULT : Z := 6.
Definition PARSER_STATEMENT_DO_WHILE : Z := 7.
Definition PARSER_STATEMENT_WHILE : Z := 8.
Definition PARSER_STATEMENT_FOR : Z := 9.
Definition PARSER_STATEMENT_FOR_IN : Z := 10.
Definition PARSER_STATEMENT_WITH : Z := 11.
Definition PARSER_STATEMENT_TRY : Z := 12.

(** [scan_stack_modes_t], likewise. *)
Definition SCAN_STACK_HEAD : Z := 0.
Definition SCAN_STACK_PAREN_EXPRESSION : Z := 1.
Definition SCAN_STACK_PAREN_STATEMENT : Z := 2.
Definition SCAN_STACK_COLON_EXPRESSION : Z := 3.
Definition SCAN_STACK_COLON_STATEMENT : Z := 4.
Definition SCAN_STACK_SQUARE_BRACKETED_EXPRESSION : Z := 5.
Definition SCAN_STACK_OBJECT_LITERAL : Z := 6.
Definition SCAN_STACK_BLOCK_STATEMENT : Z := 7.
Definition SCAN_STACK_BLOCK_EXPRESSION : Z := 8.
Definition SCAN_STACK_BLOCK_PROPERTY : Z := 9.

Inductive scan_modes_t : Set :=
| SCAN_MODE_PRIMARY_EXPRESSION
| SCAN_MODE_PRIMARY_EXPRESSION_AFTER_NEW
| SCAN_MODE_POST_PRIMARY_EXPRESSION
| SCAN_MODE_PRIMARY_EXPRESSION_END
| SCAN_MODE_STATEMENT
| SCAN_MODE_FUNCTION_ARGUMENTS
| SCAN_MODE_PROPERTY_NAME.

(** One item of the parser stack, top byte last in memory.  The paged
    byte buffer is abstracted to a list of items: a lone byte (pushed by
    [parser_stack_push_uint8] with no payload: [START], [BLOCK] and the
    scanner's symbols), or a statement's payload with its type tag. *)
Inductive stack_item_t : Set :=
| item_uint8 (b : Z)
| item_label (s : parser_label_statement_t)
| item_if (s : parser_if_else_statement_t)
| item_else (s : parser_if_else_statement_t)
| item_switch (s : parser_switch_statement_t) (l : parser_loop_statement_t)
| item_switch_no_default (s : parser_switch_statement_t)
                         (l : parser_loop_statement_t)
| item_do_while (s : parser_do_while_statement_t) (l : parser_loop_statement_t)
| item_while (s : parser_while_statement_t) (l : parser_loop_statement_t)
| item_for (s : parser_for_statement_t) (l : parser_loop_statement_t)
| item_for_in (s : parser_for_in_statement_t) (l : parser_loop_statement_t)
| item_with (s : parser_with_statement_t)
| item_try (s : parser_try_statement_t).

(** The byte on top of an item: its type tag. *)
Definition item_type (i : stack_item_t) : Z :=
  match i with
  | item_uint8 b => b
  | item_label _ => PARSER_STATEMENT_LABEL
  | item_if _ => PARSER_STATEMENT_IF
  | item_else _ => PARSER_STATEMENT_ELSE
  | item_switch _ _ => PARSER_STATEMENT_SWITCH
  | item_switch_no_default _ _ => PARSER_STATEMENT_SWITCH_NO_DEFAULT
  | item_do_while _ _ => PARSER_STATEMENT_DO_WHILE
  | item_while _ _ => PARSER_STATEMENT_WHILE
  | item_for _ _ => PARSER_STATEMENT_FOR
  | item_for_in _ _ => PARSER_STATEMENT_FOR_IN
  | item_with _ => PARSER_STATEMENT_WITH
  | item_try _ => PARSER_STATEMENT_TRY
  end.

(** ** The parser context *)

(** [parser_context_t].  [stack] lists the items top first;
    [last_statement] is a stack iterator: the number of items at or
    below the one it points at, [None] for a NULL [current_p];
    [branch_nodes] is the store of [parser_branch_node_t] objects
    ([parser_malloc] / [parser_free]), cell [p] being [Some n] while the
    node at address [p] is allocated. *)
Record parser_context_t : Set := mk_context {
  lex : lexer_context_t;
  cbc : emitter_t;
  status_flags : Z;
  stack : list stack_item_t;
  last_statement : option nat;
  branch_nodes : list (option parser_branch_node_t)
}.

Definition set_lex (c : parser_context_t) (l : lexer_context_t) :=
  mk_context l (cbc c) (status_flags c) (stack c) (last_statement c)
             (branch_nodes c).
Definition set_cbc (c : parser_context_t) (e : emitter_t) :=
  mk_context (lex c) e (status_flags c) (stack c) (last_statement c)
             (branch_nodes c).
Definition set_status_flags (c : parser_context_t) (f : Z) :=
  mk_context (lex c) (cbc c) f (stack c) (last_statement c) (branch_nodes c).
Definition set_stack (c : parser_context_t) (s : list stack_item_t) :=
  mk_context (lex c) (cbc c) (status_flags c) s (last_statement c)
             (branch_nodes c).
Definition set_last_statement (c : parser_context_t) (i : option nat) :=
  mk_context (lex c) (cbc c) (status_flags c) (stack c) i (branch_nodes c).
Definition set_branch_nodes (c : parser_context_t)
    (h : list (option parser_branch_node_t)) :=
  mk_context (lex c) (cbc c) (status_flags c) (stack c) (last_statement c) h.

Definition set_token (l : lexer_context_t) (t : lexer_token_t) :=
  mk_lexer_context t (source_p l) (source_end_p l) (line l) (column l)
                   (lit_object l) (literal_pool l).
Definition set_token_type (t : lexer_token_t) (ty : lexer_token_type_t) :=
  mk_token ty (tok_literal_is_reserved t) (tok_was_newline t)
           (tok_lit_location t).
Definition set_literal_is_reserved (t : lexer_token_t)
    (r : literal_is_reserved_t) :=
  mk_token (tok_type t) r (tok_was_newline t) (tok_lit_location t).
Definition set_literal_pool (l : lexer_context_t)
    (p : list lexer_literal_t) :=
  mk_lexer_context (token l) (source_p l) (source_end_p l) (line l)
                   (column l) (lit_object l) p.

Definition set_last_cbc_opcode (e : emitter_t) (op : cbc_opcode_t) :=
  mk_emitter op (last_cbc e) (byte_code e) (stack_depth e).
Definition set_last_cbc (e : emitter_t) (a : cbc_argument_t) :=
  mk_emitter (last_cbc_opcode e) a (byte_code e) (stack_depth e).
Definition set_byte_code (e : emitter_t) (b : list cbc_instr_t) :=
  mk_emitter (last_cbc_opcode e) (last_cbc e) b (stack_depth e).
Definition set_stack_depth (e : emitter_t) (d : Z) :=
  mk_emitter (last_cbc_opcode e) (last_cbc e) (byte_code e) d.

(** [context_p->byte_code_size]. *)
Definition byte_code_size (c : parser_context_t) : Z :=
  Z.of_nat (length (byte_code (cbc c))).

(** [context_p->stack_top_uint8] mirrors the top byte of the stack. *)
Definition stack_top_uint8 (c : parser_context_t) : Z :=
  match stack c with
  | i :: _ => item_type i
  | [] => 0
  end.

(** ** The parser monad: state, parse errors, faults *)

(** A run stops without a result when the C code would leave defined
    behaviour (a NULL or dangling pointer is followed, the stack is read
    past its bottom), or when the fuel of a loop is used up. *)
Inductive fault_t : Set :=
| undefined_behaviour
| out_of_fuel.

(** [Raise] is [parser_raise_error]: the non-local exit to the entry of
    the compilation, with the context as it is at the raise. *)
Inductive outcome (A : Type) : Type :=
| Done (a : A) (c : parser_context_t)
| Raise (e : parser_error_t) (c : parser_context_t)
| Fault (f : fault_t).

Arguments Done {A} a c.
Arguments Raise {A} e c.
Arguments Fault {A} f.

Definition M (A : Type) : Type := parser_context_t -> outcome A.

Definition ret {A : Type} (a : A) : M A := fun c => Done a c.

Definition bind {A B : Type} (m : M A) (f : A -> M B) : M B :=
  fun c =>
    match m c with
    | Done a c' => f a c'
    | Raise e c' => Raise e c'
    | Fault f => Fault f
    end.

Declare Scope parser_scope.
Delimit Scope parser_scope with parser.
Notation "x ← y ; z" := (bind y (fun x => z))
  (at level 20, y at level 100, z at level 200, only parsing) : parser_scope.
Notation "' x ← y ; z" := (bind y (fun x => z))
  (at level 20, x pattern, y at level 100, z at level 200, only parsing)
  : parser_scope.
Notation "x ;; z" := (bind x (fun _ => z))
  (at level 100, z at level 200, only parsing, right associativity)
  : parser_scope.
#[local] Open Scope parser_scope.

Definition parser_raise_error {A : Type} (e : parser_error_t) : M A :=
  fun c => Raise e c.

Definition fault {A : Type} (f : fault_t) : M A := fun _ => Fault f.

Definition get : M parser_context_t := fun c => Done c c.
Definition gets {A : Type} (f : parser_context_t -> A) : M A :=
  fun c => Done (f c) c.
Definition modify (f : parser_context_t -> parser_context_t) : M unit :=
  fun c => Done tt (f c).

(** [if (cond) parser_raise_error (context_p, e);] *)
Definition raise_if (cond : bool) (e : parser_error_t) : M unit :=
  if cond then parser_raise_error e else ret tt.

(** [when b m]: [if (b) { m }]. *)
Definition when (b : bool) (m : M unit) : M unit :=
  if b then m else ret tt.

(** ** What the two files take from the rest of the parser

    The lexer, the expression parser and the constants of the internal
    header are not among the sources.  They are the members of one
    interface; every definition and theorem below is stated for an
    arbitrary implementation of it. *)

Inductive ext_result (S : Type) : Type :=
| ext_ok (s : S)
| ext_error (e : parser_error_t).

Arguments ext_ok {S} s.
Arguments ext_error {S} e.

Class ParserInterface : Type := {
  (** Status flags of [parser_context_t]. *)
  PARSER_IS_STRICT : Z;
  PARSER_IS_FUNCTION : Z;
  PARSER_IS_CLOSURE : Z;
  PARSER_HAS_NON_STRICT_ARG : Z;
  PARSER_IN_WIDTH : Z;
  (** Status flags of a literal. *)
  LEXER_FLAG_VAR : Z;
  LEXER_FLAG_INITIALIZED : Z;
  (** Options of [parser_parse_expression]. *)
  PARSE_EXPR : Z;
  PARSE_EXPR_STATEMENT : Z;
  PARSE_EXPR_BLOCK : Z;
  PARSE_EXPR_NO_COMMA : Z;
  PARSE_EXPR_HAS_LITERAL : Z;
  (** Context-stack allocations. *)
  PARSER_WITH_CONTEXT_STACK_ALLOCATION : Z;
  PARSER_TRY_CONTEXT_STACK_ALLOCATION : Z;
  PARSER_FOR_IN_CONTEXT_STACK_ALLOCATION : Z;
  (** The continue marker of a branch offset. *)
  CBC_HIGHEST_BIT_MASK : Z;
  (** Token classes (macros of the lexer's header). *)
  LEXER_IS_BINARY_OP_TOKEN : lexer_token_type_t -> bool;
  LEXER_IS_UNARY_OP_TOKEN : lexer_token_type_t -> bool;
  (** The lexer.  Each function reads the status flags and works on the
      members of the context that the lexer owns. *)
  ext_next_token : Z -> lexer_context_t -> ext_result lexer_context_t;
  ext_expect_identifier :
    lexer_literal_type_t -> Z -> lexer_context_t -> ext_result lexer_context_t;
  ext_scan_identifier :
    bool -> Z -> lexer_context_t -> ext_result lexer_context_t;
  ext_construct_regexp_object :
    bool -> Z -> lexer_context_t -> ext_result lexer_context_t;
  ext_construct_literal_object :
    lexer_lit_location_t -> lexer_literal_type_t ->
    Z -> lexer_context_t -> ext_result lexer_context_t;
  lexer_same_identifiers :
    lexer_lit_location_t -> lexer_lit_location_t -> bool;
  (** [lexer_construct_function_object] compiles a nested function; for
      the enclosing context it yields new status flags and a new lexer
      state. *)
  ext_construct_function_object :
    Z -> Z -> Z -> lexer_context_t -> ext_result (Z * lexer_context_t);
  (** The expression parser: from the options, the status flags, the
      lexer state and the emitter state to their new values. *)
  ext_parse_expression :
    Z -> Z -> lexer_context_t -> emitter_t ->
    ext_result (Z * lexer_context_t * emitter_t);
  (** The emitter's fusion table: [Some] when an opcode requested while
      another is pending combines with it into one. *)
  cbc_fusion :
    cbc_opcode_t -> cbc_argument_t -> cbc_opcode_t -> cbc_argument_t ->
    option (cbc_opcode_t * cbc_argument_t)
}.


(** ** A small implementation of the interface

    A lexer over a source that is given token by token (offsets count
    tokens), and an expression parser for primary expressions with an
    optional logical not.  It serves to run the parser on concrete
    programs. *)

Definition toy_eos : lexer_token_t :=
  mk_token LEXER_EOS (reserved_flag false) false
           (mk_lit_location "" 0 (LEXER_UNNAMED_LITERAL 0) false).

(** A token without literal. *)
Definition tk (type : lexer_token_type_t) : lexer_token_t :=
  mk_token type (reserved_flag false) false
           (mk_lit_location "" 0 (LEXER_UNNAMED_LITERAL 0) false).

(** An identifier and a string literal without escape sequences. *)
Definition tk_ident (name : string) : lexer_token_t :=
  mk_token LEXER_LITERAL (reserved_flag false) false
           (mk_lit_location name (Z.of_nat (String.length name))
                            LEXER_IDENT_LITERAL false).
Definition tk_string (text : string) : lexer_token_t :=
  mk_token LEXER_LITERAL (reserved_flag false) false
           (mk_lit_location text (Z.of_nat (String.length text))
                            LEXER_STRING_LITERAL false).

(** The same token at the start of a line. *)
Definition on_new_line (t : lexer_token_t) : lexer_token_t :=
  mk_token (tok_type t) (tok_literal_is_reserved t) true (tok_lit_location t).

(** The logical not of the small expression language. *)
Definition TOY_NOT : lexer_token_type_t := LEXER_UNNAMED_TOKEN 0.

Definition toy_next_token (source : list lexer_token_t) (flags : Z)
    (l : lexer_context_t) : ext_result lexer_context_t :=
  let t := if source_p l <? source_end_p l
           then default toy_eos (source !! Z.to_nat (source_p l))
           else toy_eos in
  ext_ok (mk_lexer_context t
            (if source_p l <? source_end_p l then source_p l + 1
             else source_p l)
            (source_end_p l) (line l) (column l + 1)
            (lit_object l) (literal_pool l)).

(** The literal becomes a new entry of the pool. *)
Definition toy_construct_literal (l : lexer_context_t) : lexer_context_t :=
  mk_lexer_context (token l) (source_p l) (source_end_p l) (line l) (column l)
    (mk_lit_object (length (literal_pool l))
                   (Z.of_nat (length (literal_pool l)))
                   lexer_literal_object_any)
    (literal_pool l ++ [mk_literal 0]).

Definition toy_expect_identifier (source : list lexer_token_t)
    (t : lexer_literal_type_t) (flags : Z) (l : lexer_context_t)
  : ext_result lexer_context_t :=
  match toy_next_token source flags l with
  | ext_ok l' =>
      if bool_decide (tok_type (token l') = LEXER_LITERAL)
         && bool_decide (loc_type (tok_lit_location (token l')) = t)
      then ext_ok (toy_construct_literal l')
      else ext_error PARSER_ERR_IDENTIFIER_EXPECTED
  | ext_error e => ext_error e
  end.

Definition toy_flush (e : emitter_t) : emitter_t :=
  match last_cbc_opcode e with
  | PARSER_CBC_UNAVAILABLE => e
  | op =>
      mk_emitter PARSER_CBC_UNAVAILABLE (last_cbc e)
                 (byte_code e ++ [cbc_plain op (last_cbc e)]) (stack_depth e)
  end.

(** A primary expression: the pending opcode is committed and the
    primary becomes the pending one. *)
Definition toy_primary (source : list lexer_token_t) (flags : Z)
    (l : lexer_context_t) (e : emitter_t)
  : ext_result (Z * lexer_context_t * emitter_t) :=
  let push op arg l' :=
    match toy_next_token source flags l' with
    | ext_ok l'' =>
        ext_ok (flags, l'',
                mk_emitter op arg (byte_code (toy_flush e)) (stack_depth e))
    | ext_error err => ext_error err
    end in
  match tok_type (token l) with
  | LEXER_LIT_TRUE => push CBC_PUSH_TRUE (mk_argument 0 0) l
  | LEXER_LIT_FALSE => push CBC_PUSH_FALSE (mk_argument 0 0) l
  | LEXER_LITERAL =>
      let l' := toy_construct_literal l in
      push (if bool_decide (loc_type (tok_lit_location (token l))
                            = LEXER_IDENT_LITERAL)
            then CBC_PUSH_IDENT else CBC_PUSH_LITERAL)
           (mk_argument (lit_index (lit_object l')) 0) l'
  | _ => ext_error PARSER_ERR_PRIMARY_EXP_EXPECTED
  end.

Definition TOY_PARSE_EXPR_HAS_LITERAL : Z := 8.

Definition toy_parse_expression (source : list lexer_token_t)
    (options flags : Z) (l : lexer_context_t) (e : emitter_t)
  : ext_result (Z * lexer_context_t * emitter_t) :=
  if negb (Z.land options TOY_PARSE_EXPR_HAS_LITERAL =? 0)
  then ext_ok (flags, l, e)
  else if bool_decide (tok_type (token l) = TOY_NOT)
  then
    match toy_next_token source flags l with
    | ext_ok l' =>
        match toy_primary source flags l' e with
        | ext_ok (f, l'', e') =>
            ext_ok (f, l'',
                    mk_emitter CBC_LOGICAL_NOT (mk_argument 0 0)
                               (byte_code (toy_flush e')) (stack_depth e'))
        | ext_error err => ext_error err
        end
    | ext_error err => ext_error err
    end
  else toy_primary source flags l e.

(** The interface for the source [source]. *)
Definition toy_interface (source : list lexer_token_t) : ParserInterface := {|
  PARSER_IS_STRICT := 1;
  PARSER_IS_FUNCTION := 2;
  PARSER_IS_CLOSURE := 4;
  PARSER_HAS_NON_STRICT_ARG := 8;
  PARSER_IN_WIDTH := 16;
  LEXER_FLAG_VAR := 1;
  LEXER_FLAG_INITIALIZED := 2;
  PARSE_EXPR := 0;
  PARSE_EXPR_STATEMENT := 1;
  PARSE_EXPR_BLOCK := 2;
  PARSE_EXPR_NO_COMMA := 4;
  PARSE_EXPR_HAS_LITERAL := TOY_PARSE_EXPR_HAS_LITERAL;
  PARSER_WITH_CONTEXT_STACK_ALLOCATION := 1;
  PARSER_TRY_CONTEXT_STACK_ALLOCATION := 2;
  PARSER_FOR_IN_CONTEXT_STACK_ALLOCATION := 3;
  CBC_HIGHEST_BIT_MASK := 0x80000000;
  LEXER_IS_BINARY_OP_TOKEN := fun t =>
    bool_decide (t = LEXER_ASSIGN) || bool_decide (t = LEXER_ADD)
    || bool_decide (t = LEXER_SUBTRACT) || bool_decide (t = LEXER_DIVIDE)
    || bool_decide (t = LEXER_ASSIGN_DIVIDE) || bool_decide (t = LEXER_KEYW_IN);
  LEXER_IS_UNARY_OP_TOKEN := fun t => bool_decide (t = TOY_NOT);
  ext_next_token := toy_next_token source;
  ext_expect_identifier := toy_expect_identifier source;
  ext_scan_identifier := fun _ => toy_next_token source;
  ext_construct_regexp_object := fun _ _ l => ext_ok l;
  ext_construct_literal_object := fun _ _ _ l => ext_ok (toy_construct_literal l);
  lexer_same_identifiers := fun a b => String.eqb (loc_char_p a) (loc_char_p b);
  ext_construct_function_object := fun _ _ _ _ =>
    ext_error (PARSER_ERR_UNNAMED 0);
  ext_parse_expression := toy_parse_expression source;
  cbc_fusion := fun _ _ _ _ => None
|}.

(** The context at the entry of [parser_parse_statements] for [source]:
    the first token is read, the code and the stack are empty. *)
Definition toy_context (source : list lexer_token_t) (flags : Z)
  : parser_context_t :=
  mk_context
    (mk_lexer_context (default toy_eos (source !! 0%nat))
       (if source is [] then 0 else 1) (Z.of_nat (length source)) 1 1
       (mk_lit_object 0 0 lexer_literal_object_any) [])
    (mk_emitter PARSER_CBC_UNAVAILABLE (mk_argument 0 0) [] 0)
    flags [] None [].

(** *** Programs for the small implementation *)

(** [default: ...] inside a switch body, from the [default] on. *)
Definition source_default : list lexer_token_t :=
  [tk LEXER_KEYW_DEFAULT; tk LEXER_COLON].

(** [( function f], where the source ends. *)
Definition source_function_name : list lexer_token_t :=
  [tk LEXER_LEFT_PAREN; tk LEXER_KEYW_FUNCTION; tk_ident "f"].

(** [( x], where the source ends. *)
Definition source_open_paren : list lexer_token_t :=
  [tk LEXER_LEFT_PAREN; tk_ident "x"].

(** [( x ) ...], the head of a [while], from its parenthesis on. *)
Definition source_condition : list lexer_token_t :=
  [tk LEXER_LEFT_PAREN; tk_ident "x"; tk LEXER_RIGHT_PAREN;
   tk LEXER_SEMICOLON].

(** The context in which the token at position [p] of [source] is the
    current one, with the code, the stack and the branch nodes given;
    nothing is pending, and the last statement is the top of the
    stack. *)
Definition toy_context_at (source : list lexer_token_t) (flags : Z) (p : nat)
    (code : list cbc_instr_t) (s : list stack_item_t)
    (nodes : list (option parser_branch_node_t)) : parser_context_t :=
  mk_context
    (mk_lexer_context (default toy_eos (source !! p))
       (Z.min (Z.of_nat p + 1) (Z.of_nat (length source)))
       (Z.of_nat (length source)) 1 1
       (mk_lit_object 0 0 lexer_literal_object_any) [])
    (mk_emitter PARSER_CBC_UNAVAILABLE (mk_argument 0 0) code 0)
    flags s (Some (length s)) nodes.

(** [do break; while (false)], and the parser at its [while]: the
    [break] has emitted a forward jump and filed it into the list of
    the loop. *)
Definition source_do_while_false : list lexer_token_t :=
  [tk LEXER_KEYW_DO; tk LEXER_KEYW_BREAK; tk LEXER_SEMICOLON;
   tk LEXER_KEYW_WHILE; tk LEXER_LEFT_PAREN; tk LEXER_LIT_FALSE;
   tk LEXER_RIGHT_PAREN].

Definition context_do_while_false : parser_context_t :=
  toy_context_at source_do_while_false 0 3
    [cbc_forward_branch CBC_JUMP_FORWARD None]
    [item_do_while (mk_do_while 0) (mk_loop (Some 0%nat));
     item_uint8 PARSER_STATEMENT_START]
    [Some (mk_branch_node (mk_branch 0) None)].

(** [while (!x) ;], and the parser after the body: the head has emitted
    the forward jump to the condition, which is the range of the tokens
    2 and 3. *)
Definition source_while_not : list lexer_token_t :=
  [tk LEXER_KEYW_WHILE; tk LEXER_LEFT_PAREN; tk TOY_NOT; tk_ident "x";
   tk LEXER_RIGHT_PAREN; tk LEXER_SEMICOLON].

Definition context_while_not : parser_context_t :=
  toy_context_at source_while_not 0 6
    [cbc_forward_branch CBC_JUMP_FORWARD None]
    [item_while (mk_while (mk_branch 0) (mk_range 2 4 1 2) 1) (mk_loop None);
     item_uint8 PARSER_STATEMENT_START]
    [].

(** [for (;;) ;], and the parser after the body: the ranges of the
    condition and of the increment are empty. *)
Definition source_for_ever : list lexer_token_t :=
  [tk LEXER_KEYW_FOR; tk LEXER_LEFT_PAREN; tk LEXER_SEMICOLON;
   tk LEXER_SEMICOLON; tk LEXER_RIGHT_PAREN; tk LEXER_SEMICOLON].

Definition context_for_ever : parser_context_t :=
  toy_context_at source_for_ever 0 6
    [cbc_forward_branch CBC_JUMP_FORWARD None]
    [item_for (mk_for (mk_branch 0) (mk_range 3 3 1 3) (mk_range 4 4 1 4) 1)
              (mk_loop None);
     item_uint8 PARSER_STATEMENT_START]
    [].

(** [try { } catch (e) { } finally { }], and the parser at the brace
    that closes the catch block. *)
Definition source_try_catch_finally : list lexer_token_t :=
  [tk LEXER_KEYW_TRY; tk LEXER_LEFT_BRACE; tk LEXER_RIGHT_BRACE;
   tk LEXER_KEYW_CATCH; tk LEXER_LEFT_PAREN; tk_ident "e";
   tk LEXER_RIGHT_PAREN; tk LEXER_LEFT_BRACE; tk LEXER_RIGHT_BRACE;
   tk LEXER_KEYW_FINALLY; tk LEXER_LEFT_BRACE; tk LEXER_RIGHT_BRACE].

Definition context_catch_end : parser_context_t :=
  toy_context_at source_try_catch_finally 0 8
    [cbc_forward_branch CBC_EXT_TRY_CREATE_CONTEXT (Some 1);
     cbc_forward_branch CBC_EXT_CATCH None;
     cbc_plain CBC_ASSIGN_IDENT (mk_argument 0 0)]
    [item_try (mk_try parser_catch_block (mk_branch 1));
     item_uint8 PARSER_STATEMENT_START]
    [].

(** [for (var x = true in y) ;] *)
Definition source_for_in_var : list lexer_token_t :=
  [tk LEXER_KEYW_FOR; tk LEXER_LEFT_PAREN; tk LEXER_KEYW_VAR; tk_ident "x";
   tk LEXER_ASSIGN; tk LEXER_LIT_TRUE; tk LEXER_KEYW_IN; tk_ident "y";
   tk LEXER_RIGHT_PAREN; tk LEXER_SEMICOLON].

(** [do break; while ( )]: the condition is missing. *)
Definition source_do_break_while_empty : list lexer_token_t :=
  [tk LEXER_KEYW_DO; tk LEXER_KEYW_BREAK; tk LEXER_SEMICOLON;
   tk LEXER_KEYW_WHILE; tk LEXER_LEFT_PAREN; tk LEXER_RIGHT_PAREN].

(** [A: B: while (true) continue A;], and the parser at its
    [continue]: the frame of the loop is on top of the frames of the
    labels [B] and [A]. *)
Definition source_continue_outer_label : list lexer_token_t :=
  [tk_ident "A"; tk LEXER_COLON; tk_ident "B"; tk LEXER_COLON;
   tk LEXER_KEYW_WHILE; tk LEXER_LEFT_PAREN; tk LEXER_LIT_TRUE;
   tk LEXER_RIGHT_PAREN; tk LEXER_KEYW_CONTINUE; tk_ident "A";
   tk LEXER_SEMICOLON].

Definition label_A : lexer_lit_location_t := tok_lit_location (tk_ident "A").
Definition label_B : lexer_lit_location_t := tok_lit_location (tk_ident "B").

Definition frames_continue_outer_label : list stack_item_t :=
  [item_while (mk_while (mk_branch 0) (mk_range 6 7 1 6) 1) (mk_loop None);
   item_label (mk_label label_B None);
   item_label (mk_label label_A None)].

Definition context_continue_outer_label : parser_context_t :=
  toy_context_at source_continue_outer_label 0 8
    [cbc_forward_branch CBC_JUMP_FORWARD None]
    (frames_continue_outer_label ++ [item_uint8 PARSER_STATEMENT_START])
    [].

(** ["use strict"; x] *)
Definition source_use_strict : list lexer_token_t :=
  [tk_string "use strict"; tk LEXER_SEMICOLON; tk_ident "x"].

(** ["a"; "use strict"; x]: two directives. *)
Definition source_second_use_strict : list lexer_token_t :=
  [tk_string "a"; tk LEXER_SEMICOLON; tk_string "use strict";
   tk LEXER_SEMICOLON; tk_ident "x"].

(** [x; "use strict";]: the string is the second statement. *)
Definition source_late_use_strict : list lexer_token_t :=
  [tk_ident "x"; tk LEXER_SEMICOLON; tk_string "use strict";
   tk LEXER_SEMICOLON].

(** The parser at the string of [x; "use strict";], in the main loop. *)
Definition context_late_use_strict : parser_context_t :=
  toy_context_at source_late_use_strict 0 2
    [cbc_plain CBC_PUSH_IDENT (mk_argument 0 0);
     cbc_plain CBC_POP (mk_argument 0 0)]
    [item_uint8 PARSER_STATEMENT_START] [].

(** [for (x in y) { break; }], and the parser at its [break]: the block
    is on top of the frame of the for-in. *)
Definition source_for_in_break : list lexer_token_t :=
  [tk LEXER_KEYW_FOR; tk LEXER_LEFT_PAREN; tk_ident "x"; tk LEXER_KEYW_IN;
   tk_ident "y"; tk LEXER_RIGHT_PAREN; tk LEXER_LEFT_BRACE;
   tk LEXER_KEYW_BREAK; tk LEXER_SEMICOLON; tk LEXER_RIGHT_BRACE].

Definition code_for_in_head : list cbc_instr_t :=
  [cbc_plain CBC_PUSH_IDENT (mk_argument 0 0);
   cbc_forward_branch CBC_EXT_FOR_IN_CREATE_CONTEXT None;
   cbc_plain CBC_EXT_FOR_IN_GET_NEXT (mk_argument 0 0);
   cbc_plain CBC_ASSIGN_IDENT (mk_argument 1 0)].

Definition frame_for_in : stack_item_t :=
  item_for_in (mk_for_in (mk_branch 1) 2) (mk_loop None).

Definition context_for_in_break : parser_context_t :=
  toy_context_at source_for_in_break 0 7 code_for_in_head
    [item_uint8 PARSER_STATEMENT_BLOCK; frame_for_in;
     item_uint8 PARSER_STATEMENT_START]
    [].

(** [A: while (x) { break A; }], and the parser at its [break]. *)
Definition source_break_label : list lexer_token_t :=
  [tk_ident "A"; tk LEXER_COLON; tk LEXER_KEYW_WHILE; tk LEXER_LEFT_PAREN;
   tk_ident "x"; tk LEXER_RIGHT_PAREN; tk LEXER_LEFT_BRACE;
   tk LEXER_KEYW_BREAK; tk_ident "A"; tk LEXER_SEMICOLON;
   tk LEXER_RIGHT_BRACE].

Definition frame_while_x : stack_item_t :=
  item_while (mk_while (mk_branch 0) (mk_range 4 5 1 4) 1) (mk_loop None).

Definition context_break_label : parser_context_t :=
  toy_context_at source_break_label 0 7
    [cbc_forward_branch CBC_JUMP_FORWARD None]
    [item_uint8 PARSER_STATEMENT_BLOCK; frame_while_x;
     item_label (mk_label label_A None);
     item_uint8 PARSER_STATEMENT_START]
    [].

(** [while (x) switch (y) { default: continue; }], and the parser at
    its [continue]: the frame of the switch is on top of the frame of
    the loop. *)
Definition source_switch_continue : list lexer_token_t :=
  [tk LEXER_KEYW_WHILE; tk LEXER_LEFT_PAREN; tk_ident "x";
   tk LEXER_RIGHT_PAREN; tk LEXER_KEYW_SWITCH; tk LEXER_LEFT_PAREN;
   tk_ident "y"; tk LEXER_RIGHT_PAREN; tk LEXER_LEFT_BRACE;
   tk LEXER_KEYW_DEFAULT; tk LEXER_COLON; tk LEXER_KEYW_CONTINUE;
   tk LEXER_SEMICOLON; tk LEXER_RIGHT_BRACE].

Definition frame_while_outer : stack_item_t :=
  item_while (mk_while (mk_branch 0) (mk_range 2 3 1 2) 1) (mk_loop None).

Definition frame_switch_default : stack_item_t :=
  item_switch (mk_switch (mk_branch 3) None) (mk_loop None).

Definition context_switch_continue : parser_context_t :=
  toy_context_at source_switch_continue 0 11
    [cbc_forward_branch CBC_JUMP_FORWARD None;
     cbc_plain CBC_PUSH_IDENT (mk_argument 0 0);
     cbc_plain CBC_POP (mk_argument 0 0);
     cbc_forward_branch CBC_JUMP_FORWARD (Some 1)]
    [frame_switch_default; frame_while_outer;
     item_uint8 PARSER_STATEMENT_START]
    [].

(** [A: A: ;], and the parser at the colon of the second label. *)
Definition source_label_twice : list lexer_token_t :=
  [tk_ident "A"; tk LEXER_COLON; tk_ident "A"; tk LEXER_COLON;
   tk LEXER_SEMICOLON].

Definition context_label_twice : parser_context_t :=
  toy_context_at source_label_twice 0 3 []
    [item_label (mk_label label_A None); item_uint8 PARSER_STATEMENT_START]
    [].

(** [with (a) with (b) ;], and the parser after the body, in a context
    whose flags are [PARSER_IN_WIDTH]: the frame of the inner [with] is
    on top of the frame of the outer one. *)
Definition source_with_nested : list lexer_token_t :=
  [tk LEXER_KEYW_WITH; tk LEXER_LEFT_PAREN; tk_ident "a";
   tk LEXER_RIGHT_PAREN; tk LEXER_KEYW_WITH; tk LEXER_LEFT_PAREN;
   tk_ident "b"; tk LEXER_RIGHT_PAREN; tk LEXER_SEMICOLON].

Definition context_with_nested : parser_context_t :=
  toy_context_at source_with_nested 16 9
    [cbc_plain CBC_PUSH_IDENT (mk_argument 0 0);
     cbc_forward_branch CBC_EXT_WITH_CREATE_CONTEXT None;
     cbc_plain CBC_PUSH_IDENT (mk_argument 1 0);
     cbc_forward_branch CBC_EXT_WITH_CREATE_CONTEXT None]
    [item_with (mk_with (mk_branch 3)); item_with (mk_with (mk_branch 1));
     item_uint8 PARSER_STATEMENT_START]
    [].

(** [if (x) ; else ;], and the parser at its [else]. *)
Definition source_if_else : list lexer_token_t :=
  [tk LEXER_KEYW_IF; tk LEXER_LEFT_PAREN; tk_ident "x";
   tk LEXER_RIGHT_PAREN; tk LEXER_SEMICOLON; tk LEXER_KEYW_ELSE;
   tk LEXER_SEMICOLON].

Definition context_if_else : parser_context_t :=
  toy_context_at source_if_else 0 5
    [cbc_plain CBC_PUSH_IDENT (mk_argument 0 0);
     cbc_forward_branch CBC_BRANCH_IF_FALSE_FORWARD None]
    [item_if (mk_if_else (mk_branch 1)); item_uint8 PARSER_STATEMENT_START]
    [].

(** [try { } finally { }], and the parser at the brace that closes the
    finally block. *)
Definition source_try_finally : list lexer_token_t :=
  [tk LEXER_KEYW_TRY; tk LEXER_LEFT_BRACE; tk LEXER_RIGHT_BRACE;
   tk LEXER_KEYW_FINALLY; tk LEXER_LEFT_BRACE; tk LEXER_RIGHT_BRACE].

Definition context_finally_end : parser_context_t :=
  toy_context_at source_try_finally 0 5
    [cbc_forward_branch CBC_EXT_TRY_CREATE_CONTEXT (Some 1);
     cbc_forward_branch CBC_EXT_FINALLY None]
    [item_try (mk_try parser_finally_block (mk_branch 1));
     item_uint8 PARSER_STATEMENT_START]
    [].

(** [{ for ( (]: the source ends inside the head of the [for], while
    the scan for [in] is under way. *)
Definition source_for_unfinished : list lexer_token_t :=
  [tk LEXER_LEFT_BRACE; tk LEXER_KEYW_FOR; tk LEXER_LEFT_PAREN;
   tk LEXER_LEFT_PAREN].

(** [switch (y) { case true: ; }], and the parser at its [case], after
    the head of the switch has emitted the comparison and the branch
    of the case. *)
Definition source_switch_case : list lexer_token_t :=
  [tk LEXER_KEYW_SWITCH; tk LEXER_LEFT_PAREN; tk_ident "y";
   tk LEXER_RIGHT_PAREN; tk LEXER_LEFT_BRACE; tk LEXER_KEYW_CASE;
   tk LEXER_LIT_TRUE; tk LEXER_COLON; tk LEXER_SEMICOLON;
   tk LEXER_RIGHT_BRACE].

Definition code_switch_head : list cbc_instr_t :=
  [cbc_plain CBC_PUSH_IDENT (mk_argument 0 0);
   cbc_plain CBC_PUSH_TRUE (mk_argument 0 0);
   cbc_plain CBC_STRICT_EQUAL (mk_argument 0 0);
   cbc_forward_branch CBC_BRANCH_IF_TRUE_FORWARD None;
   cbc_forward_branch CBC_JUMP_FORWARD None].

Definition context_switch_case : parser_context_t :=
  toy_context_at source_switch_case 0 5 code_switch_head
    [item_switch_no_default (mk_switch (mk_branch 4) (Some 0%nat))
                            (mk_loop None);
     item_uint8 PARSER_STATEMENT_START]
    [Some (mk_branch_node (mk_branch 3) None)].

(** [while (x) { continue; break; }], and the parser after the body:
    the head has emitted the forward jump to the condition, the
    [continue] and the [break] a forward jump each, both filed into the
    list of the loop; the offset of the [continue] carries the mark. *)
Definition source_while_jumps : list lexer_token_t :=
  [tk LEXER_KEYW_WHILE; tk LEXER_LEFT_PAREN; tk_ident "x";
   tk LEXER_RIGHT_PAREN; tk LEXER_LEFT_BRACE; tk LEXER_KEYW_CONTINUE;
   tk LEXER_SEMICOLON; tk LEXER_KEYW_BREAK; tk LEXER_SEMICOLON;
   tk LEXER_RIGHT_BRACE].

Definition context_while_jumps : parser_context_t :=
  toy_context_at source_while_jumps 0 10
    [cbc_forward_branch CBC_JUMP_FORWARD None;
     cbc_forward_branch CBC_JUMP_FORWARD None;
     cbc_forward_branch CBC_JUMP_FORWARD None]
    [item_while (mk_while (mk_branch 0) (mk_range 2 3 1 2) 1)
                (mk_loop (Some 1%nat));
     item_uint8 PARSER_STATEMENT_START]
    [Some (mk_branch_node
             (mk_branch
                (Z.lor 1 (CBC_HIGHEST_BIT_MASK
                            (ParserInterface :=
                               toy_interface source_while_jumps))))
             None);
     Some (mk_branch_node (mk_branch 2) (Some 0%nat))].

Section with_interface.

Context {I : ParserInterface}.

(** *** The lexer and the expression parser, as actions on the context *)

Definition lift_lexer
    (f : Z -> lexer_context_t -> ext_result lexer_context_t) : M unit :=
  fun c =>
    match f (status_flags c) (lex c) with
    | ext_ok l => Done tt (set_lex c l)
    | ext_error e => Raise e c
    end.

Definition lexer_next_token : M unit := lift_lexer ext_next_token.

Definition lexer_expect_identifier (t : lexer_literal_type_t) : M unit :=
  lift_lexer (ext_expect_identifier t).

Definition lexer_scan_identifier (propety_name : bool) : M unit :=
  lift_lexer (ext_scan_identifier propety_name).

Definition lexer_construct_regexp_object (parse_only : bool) : M unit :=
  lift_lexer (ext_construct_regexp_object parse_only).

Definition lexer_construct_literal_object
    (lit_location : lexer_lit_location_t) (t : lexer_literal_type_t)
  : M unit :=
  lift_lexer (ext_construct_literal_object lit_location t).

Definition lexer_construct_function_object (index flags : Z) : M unit :=
  fun c =>
    match ext_construct_function_object index flags (status_flags c) (lex c)
    with
    | ext_ok (f, l) => Done tt (set_lex (set_status_flags c f) l)
    | ext_error e => Raise e c
    end.

Definition parser_parse_expression (options : Z) : M unit :=
  fun c =>
    match ext_parse_expression options (status_flags c) (lex c) (cbc c) with
    | ext_ok (f, l, e) =>
        Done tt (set_cbc (set_lex (set_status_flags c f) l) e)
    | ext_error e => Raise e c
    end.

(** Shorthands for the current token. *)
Definition token_type (c : parser_context_t) : lexer_token_type_t :=
  tok_type (token (lex c)).

Definition token_is (c : parser_context_t) (t : lexer_token_type_t) : bool :=
  bool_decide (token_type c = t).

(** [token.type == LEXER_LITERAL && token.lit_location.type == t] *)
Definition token_is_literal (c : parser_context_t)
    (t : lexer_literal_type_t) : bool :=
  token_is c LEXER_LITERAL
  && bool_decide (loc_type (tok_lit_location (token (lex c))) = t).

(** [status_flags & flag] as a C condition. *)
Definition has_flag (flags flag : Z) : bool := negb (Z.land flags flag =? 0).

(** *** The parser stack *)

(** Modelled from the spec: [parser_stack_push_uint8] writes one byte on
    top of the statement stack, "an unstructured byte stream" in which
    "each logical frame is a struct payload followed by a one-byte type
    tag on top". *)
Definition parser_stack_push_uint8 (b : Z) : M unit :=
  modify (fun c => set_stack c (item_uint8 b :: stack c)).

(** Modelled from the spec: [parser_stack_push (payload...)] followed
    by [parser_stack_push_uint8 (type)]: one statement frame. *)
Definition parser_stack_push_statement (i : stack_item_t) : M unit :=
  modify (fun c => set_stack c (i :: stack c)).

(** Modelled from the spec: [parser_stack_pop_uint8] on a lone byte. *)
Definition parser_stack_pop_uint8 : M unit :=
  fun c =>
    match stack c with
    | item_uint8 _ :: s => Done tt (set_stack c s)
    | _ => Fault undefined_behaviour
    end.

(** Modelled from the spec: [parser_stack_pop_uint8] followed by the
    [parser_stack_pop] calls that take the payload of the statement on
    top. *)
Definition parser_stack_pop_statement : M stack_item_t :=
  fun c =>
    match stack c with
    | i :: s => Done i (set_stack c s)
    | [] => Fault undefined_behaviour
    end.

(** [parser_stack_iterator_init (context_p, &context_p->last_statement)] *)
Definition parser_stack_iterator_init_last_statement : M unit :=
  modify (fun c => set_last_statement c (Some (length (stack c)))).

(** [parser_stack_iterator_init (context_p, &iterator)] *)
Definition parser_stack_iterator_init : M nat :=
  gets (fun c => length (stack c)).

(** The item an iterator points at. *)
Definition stack_item_at (s : list stack_item_t) (iterator : nat)
  : option stack_item_t :=
  match iterator with
  | O => None
  | S _ => if decide (iterator <= length s)%nat
           then s !! (length s - iterator)%nat
           else None
  end.

(** Modelled from the spec: [parser_stack_iterator_skip] and [_read] on
    the item at [iterator] ("frames are located and skipped using a
    per-type length table"). *)
Definition parser_stack_iterator_read (iterator : nat) : M stack_item_t :=
  fun c =>
    match stack_item_at (stack c) iterator with
    | Some i => Done i c
    | None => Fault undefined_behaviour
    end.

(** Modelled from the spec: [parser_stack_iterator_write]: the item at
    [iterator] is replaced. *)
Definition parser_stack_iterator_write (iterator : nat) (i : stack_item_t)
  : M unit :=
  fun c =>
    match stack_item_at (stack c) iterator with
    | Some _ =>
        Done tt (set_stack c (<[(length (stack c) - iterator)%nat := i]>
                                (stack c)))
    | None => Fault undefined_behaviour
    end.

(** [parser_stack_change_last_uint8]: the tag on top is overwritten; the
    payload below it stays.  The parser turns [IF] into [ELSE] and
    [SWITCH] into [SWITCH_NO_DEFAULT], structures of one layout. *)
Definition parser_stack_change_last_uint8 (new_value : Z) : M unit :=
  fun c =>
    match stack c with
    | item_uint8 _ :: s => Done tt (set_stack c (item_uint8 new_value :: s))
    | item_if st :: s =>
        if new_value =? PARSER_STATEMENT_ELSE
        then Done tt (set_stack c (item_else st :: s))
        else if new_value =? PARSER_STATEMENT_IF then Done tt c
        else Fault undefined_behaviour
    | item_switch st l :: s =>
        if new_value =? PARSER_STATEMENT_SWITCH_NO_DEFAULT
        then Done tt (set_stack c (item_switch_no_default st l :: s))
        else if new_value =? PARSER_STATEMENT_SWITCH then Done tt c
        else Fault undefined_behaviour
    | _ => Fault undefined_behaviour
    end.

(** *** Branch nodes: [parser_malloc], [parser_free] and pointer access *)

(** Modelled from the spec: [parser_malloc] of a [BranchNode], a
    "singly-linked list element holding a pending forward branch"; the
    new cell is the next address of the store. *)
Definition parser_malloc (n : parser_branch_node_t) : M nat :=
  fun c =>
    Done (length (branch_nodes c))
         (set_branch_nodes c (branch_nodes c ++ [Some n])).

Definition node_at (h : list (option parser_branch_node_t)) (p : nat)
  : option parser_branch_node_t :=
  mjoin (h !! p).

(** Modelled from the spec: [parser_free] releases the node at [p];
    freeing what is not allocated is undefined. *)
Definition parser_free (p : nat) : M unit :=
  fun c =>
    match node_at (branch_nodes c) p with
    | Some _ => Done tt (set_branch_nodes c (<[p := None]> (branch_nodes c)))
    | None => Fault undefined_behaviour
    end.

(** [*p] *)
Definition node_read (p : nat) : M parser_branch_node_t :=
  fun c =>
    match node_at (branch_nodes c) p with
    | Some n => Done n c
    | None => Fault undefined_behaviour
    end.

(** [*p = n] *)
Definition node_write (p : nat) (n : parser_branch_node_t) : M unit :=
  fun c =>
    match node_at (branch_nodes c) p with
    | Some _ =>
        Done tt (set_branch_nodes c (<[p := Some n]> (branch_nodes c)))
    | None => Fault undefined_behaviour
    end.

(** The number of branch nodes that are allocated. *)
Definition allocated_nodes (h : list (option parser_branch_node_t)) : nat :=
  length (filter (fun n => is_Some n) h).

(** *** The emitter *)

Definition modify_cbc (f : emitter_t -> emitter_t) : M unit :=
  modify (fun c => set_cbc c (f (cbc c))).

(** Modelled from the spec: [flush_cbc] "commits the cache unmodified":
    the pending opcode and its operands become the next instruction and
    the cache is empty afterwards. *)
Definition flush_emitter (e : emitter_t) : emitter_t :=
  match last_cbc_opcode e with
  | PARSER_CBC_UNAVAILABLE => e
  | op =>
      set_last_cbc_opcode
        (set_byte_code e (byte_code e ++ [cbc_plain op (last_cbc e)]))
        PARSER_CBC_UNAVAILABLE
  end.

Definition parser_flush_cbc : M unit := modify_cbc flush_emitter.

(** "The last-opcode cache means observable bytecode is what flush_cbc
    produces": the code emitted so far, the pending opcode included. *)
Definition emitted_code (c : parser_context_t) : list cbc_instr_t :=
  byte_code (flush_emitter (cbc c)).

(** Modelled from the spec: [emit_cbc] and its variants put an opcode
    and its operands into the last-opcode cache; a pending opcode is
    "merged into a combined opcode when the next emit requests a fusable
    combination" and is committed otherwise. *)
Definition emit_into (op : cbc_opcode_t) (a : cbc_argument_t)
    (e : emitter_t) : emitter_t :=
  match last_cbc_opcode e with
  | PARSER_CBC_UNAVAILABLE => set_last_cbc (set_last_cbc_opcode e op) a
  | pending =>
      match cbc_fusion pending (last_cbc e) op a with
      | Some (op', a') => set_last_cbc (set_last_cbc_opcode e op') a'
      | None => set_last_cbc (set_last_cbc_opcode (flush_emitter e) op) a
      end
  end.

Definition emit_with_argument (op : cbc_opcode_t) (a : cbc_argument_t)
  : M unit :=
  modify_cbc (emit_into op a).

Definition no_argument : cbc_argument_t := mk_argument 0 0.

(** Modelled from the spec: [emit_cbc(op)], an opcode without operand. *)
Definition parser_emit_cbc (op : cbc_opcode_t) : M unit :=
  emit_with_argument op no_argument.

(** Modelled from the spec: [emit_cbc_ext(ext_op)]; extended opcodes are
    members of [cbc_opcode_t] here. *)
Definition parser_emit_cbc_ext (op : cbc_opcode_t) : M unit :=
  emit_with_argument op no_argument.

(** Modelled from the spec: [emit_cbc_literal(op, idx)]. *)
Definition parser_emit_cbc_literal (op : cbc_opcode_t) (literal_index : Z)
  : M unit :=
  emit_with_argument op (mk_argument literal_index 0).

(** Modelled from the spec: [emit_cbc_literal] with the index of the
    literal of the current token ([lit_object.index]). *)
Definition parser_emit_cbc_literal_from_token (op : cbc_opcode_t) : M unit :=
  idx ← gets (fun c => lit_index (lit_object (lex c)));
  parser_emit_cbc_literal op idx.

(** Modelled from the spec: [emit_cbc_forward_branch(op, &out_branch)]
    emits "an opcode with a wide operand reserving space for a later
    patch; the out_branch captures the write position and byte_code_size
    at emission time".  A pending opcode is committed first. *)
Definition parser_emit_cbc_forward_branch (op : cbc_opcode_t)
  : M parser_branch_t :=
  parser_flush_cbc;;
  site ← gets byte_code_size;
  modify_cbc (fun e =>
    set_byte_code e (byte_code e ++ [cbc_forward_branch op None]));;
  ret (mk_branch site).

(** Modelled from the spec: the extended form of the same. *)
Definition parser_emit_cbc_ext_forward_branch (op : cbc_opcode_t)
  : M parser_branch_t :=
  parser_emit_cbc_forward_branch op.

(** Modelled from the spec: [emit_cbc_backward_branch(op, target_offset)]
    emits "an opcode whose operand is current_size - target_offset". *)
Definition parser_emit_cbc_backward_branch (op : cbc_opcode_t)
    (target_offset : Z) : M unit :=
  parser_flush_cbc;;
  size ← gets byte_code_size;
  modify_cbc (fun e =>
    set_byte_code e
      (byte_code e ++ [cbc_backward_branch op (size - target_offset)])).

(** Modelled from the spec: the extended form of the same. *)
Definition parser_emit_cbc_ext_backward_branch (op : cbc_opcode_t)
    (target_offset : Z) : M unit :=
  parser_emit_cbc_backward_branch op target_offset.

(** Modelled from the spec: [emit_cbc_forward_branch_item(op, list_head)]
    emits a forward branch and prepends a new [BranchNode] for it to the
    list; the result is the new head. *)
Definition parser_emit_cbc_forward_branch_item (op : cbc_opcode_t)
    (next_p : option nat) : M (option nat) :=
  branch ← parser_emit_cbc_forward_branch op;
  p ← parser_malloc (mk_branch_node branch next_p);
  ret (Some p).

(** The operand of the forward branch emitted at [branch] receives its
    displacement. *)
Definition patch_forward_branch (branch : parser_branch_t) : M unit :=
  fun c =>
    let site := Z.ldiff (branch_offset branch) CBC_HIGHEST_BIT_MASK in
    match byte_code (cbc c) !! Z.to_nat site with
    | Some (cbc_forward_branch op _) =>
        if 0 <=? site
        then Done tt
               (set_cbc c
                  (set_byte_code (cbc c)
                     (<[Z.to_nat site :=
                          cbc_forward_branch op
                            (Some (byte_code_size c - site))]>
                        (byte_code (cbc c)))))
        else Fault undefined_behaviour
    | _ => Fault undefined_behaviour
    end.

(** Modelled from the spec: [set_branch_to_current_position(&branch)]
    "back-patches the operand to the current code size minus the
    emission site"; the continue marker "is masked out before it becomes
    a displacement".  A pending opcode is committed first. *)
Definition parser_set_branch_to_current_position (branch : parser_branch_t)
  : M unit :=
  parser_flush_cbc;;
  patch_forward_branch branch.

(** Modelled from the spec: [set_breaks_to_current_position(list)]
    drains the list: a node without the continue marker is patched to
    the current position, and "each node is freed after patching". *)
Fixpoint set_breaks_loop (fuel : nat) (current_p : option nat) : M unit :=
  match current_p with
  | None => ret tt
  | Some p =>
      match fuel with
      | O => fault out_of_fuel
      | S fuel' =>
          n ← node_read p;
          when (Z.land (branch_offset (node_branch n)) CBC_HIGHEST_BIT_MASK
                =? 0)
               (parser_set_branch_to_current_position (node_branch n));;
          parser_free p;;
          set_breaks_loop fuel' (node_next_p n)
      end
  end.

Definition parser_set_breaks_to_current_position (list_p : option nat)
  : M unit :=
  fun c => set_breaks_loop (S (length (branch_nodes c))) list_p c.

(** Modelled from the spec: [set_continues_to_current_position(list)]
    patches the nodes that carry the continue marker.  The statement
    parser hands the same list to [set_breaks_to_current_position]
    afterwards, so the nodes stay allocated here. *)
Fixpoint set_continues_loop (fuel : nat) (current_p : option nat) : M unit :=
  match current_p with
  | None => ret tt
  | Some p =>
      match fuel with
      | O => fault out_of_fuel
      | S fuel' =>
          n ← node_read p;
          when (negb (Z.land (branch_offset (node_branch n))
                             CBC_HIGHEST_BIT_MASK =? 0))
               (parser_set_branch_to_current_position (node_branch n));;
          set_continues_loop fuel' (node_next_p n)
      end
  end.

Definition parser_set_continues_to_current_position (list_p : option nat)
  : M unit :=
  fun c => set_continues_loop (S (length (branch_nodes c))) list_p c.

(** [PARSER_MINUS_EQUAL_U16 (context_p->stack_depth, value)] *)
Definition stack_depth_minus_equal (value : Z) : M unit :=
  modify_cbc (fun e => set_stack_depth e ((stack_depth e - value) mod 2 ^ 16)).

(** [context_p->last_cbc_opcode = op] *)
Definition assign_last_cbc_opcode (op : cbc_opcode_t) : M unit :=
  modify_cbc (fun e => set_last_cbc_opcode e op).

Definition last_opcode_is (c : parser_context_t) (op : cbc_opcode_t) : bool :=
  bool_decide (last_cbc_opcode (cbc c) = op).

(** ** The pre-scanner ([js-parser-scanner.c]) *)

(** The loops of the two files end because the lexer moves through the
    source; [fuel] bounds the number of iterations of each of them, and a
    loop that uses it up ends in [Fault out_of_fuel]. *)
Variable fuel : nat.

Definition was_newline (c : parser_context_t) : bool :=
  tok_was_newline (token (lex c)).

(** [parser_scan_primary_expression]: the result pairs the returned flag
    ([true] for continue, [false] for break) with the new [*mode]. *)
Definition parser_scan_primary_expression (type : lexer_token_type_t)
    (stack_top : Z) (mode : scan_modes_t) : M (bool * scan_modes_t) :=
  match type with
  | LEXER_KEYW_NEW => ret (false, SCAN_MODE_PRIMARY_EXPRESSION_AFTER_NEW)
  | LEXER_DIVIDE | LEXER_ASSIGN_DIVIDE =>
      lexer_construct_regexp_object true;;
      ret (false, SCAN_MODE_POST_PRIMARY_EXPRESSION)
  | LEXER_KEYW_FUNCTION =>
      parser_stack_push_uint8 SCAN_STACK_BLOCK_EXPRESSION;;
      ret (false, SCAN_MODE_FUNCTION_ARGUMENTS)
  | LEXER_LEFT_PAREN =>
      parser_stack_push_uint8 SCAN_STACK_PAREN_EXPRESSION;;
      ret (false, SCAN_MODE_PRIMARY_EXPRESSION)
  | LEXER_LEFT_SQUARE =>
      parser_stack_push_uint8 SCAN_STACK_SQUARE_BRACKETED_EXPRESSION;;
      ret (false, SCAN_MODE_PRIMARY_EXPRESSION)
  | LEXER_LEFT_BRACE =>
      parser_stack_push_uint8 SCAN_STACK_OBJECT_LITERAL;;
      ret (true, SCAN_MODE_PROPERTY_NAME)
  | LEXER_LITERAL | LEXER_KEYW_THIS | LEXER_LIT_TRUE | LEXER_LIT_FALSE
  | LEXER_LIT_NULL =>
      ret (false, SCAN_MODE_POST_PRIMARY_EXPRESSION)
  | LEXER_RIGHT_SQUARE =>
      raise_if (negb (stack_top =? SCAN_STACK_SQUARE_BRACKETED_EXPRESSION))
               PARSER_ERR_PRIMARY_EXP_EXPECTED;;
      parser_stack_pop_uint8;;
      ret (false, SCAN_MODE_POST_PRIMARY_EXPRESSION)
  | LEXER_COMMA =>
      raise_if (negb (stack_top =? SCAN_STACK_SQUARE_BRACKETED_EXPRESSION))
               PARSER_ERR_PRIMARY_EXP_EXPECTED;;
      ret (false, SCAN_MODE_PRIMARY_EXPRESSION)
  | LEXER_RIGHT_PAREN =>
      raise_if (negb (stack_top =? SCAN_STACK_PAREN_STATEMENT)
                && negb (stack_top =? SCAN_STACK_PAREN_EXPRESSION))
               PARSER_ERR_PRIMARY_EXP_EXPECTED;;
      parser_stack_pop_uint8;;
      ret (false,
            if stack_top =? SCAN_STACK_PAREN_STATEMENT
            then SCAN_MODE_STATEMENT
            else SCAN_MODE_POST_PRIMARY_EXPRESSION)
  | LEXER_SEMICOLON =>
      (* Needed by for (;;) statements. *)
      raise_if (negb (stack_top =? SCAN_STACK_PAREN_STATEMENT))
               PARSER_ERR_PRIMARY_EXP_EXPECTED;;
      ret (false, SCAN_MODE_PRIMARY_EXPRESSION)
  | _ => parser_raise_error PARSER_ERR_PRIMARY_EXP_EXPECTED
  end.

(** [parser_scan_post_primary_expression]: [true] for break, [false] for
    fall through. *)
Definition parser_scan_post_primary_expression (type : lexer_token_type_t)
    (mode : scan_modes_t) : M (bool * scan_modes_t) :=
  match type with
  | LEXER_DOT =>
      lexer_scan_identifier false;;
      ret (true, mode)
  | LEXER_LEFT_PAREN =>
      parser_stack_push_uint8 SCAN_STACK_PAREN_EXPRESSION;;
      ret (true, SCAN_MODE_PRIMARY_EXPRESSION)
  | LEXER_LEFT_SQUARE =>
      parser_stack_push_uint8 SCAN_STACK_SQUARE_BRACKETED_EXPRESSION;;
      ret (true, SCAN_MODE_PRIMARY_EXPRESSION)
  | LEXER_INCREASE | LEXER_DECREASE =>
      newline ← gets was_newline;
      if negb newline
      then ret (true, SCAN_MODE_PRIMARY_EXPRESSION_END)
      else ret (false, mode)
  | _ => ret (false, mode)
  end.

(** The part of [parser_scan_primary_expression_end] below its
    [switch]. *)
Definition parser_scan_primary_expression_end_tail
    (type : lexer_token_type_t) (stack_top : Z)
    (end_type : lexer_token_type_t) : M (bool * scan_modes_t) :=
  if LEXER_IS_BINARY_OP_TOKEN type
     || (bool_decide (type = LEXER_SEMICOLON)
         && (stack_top =? SCAN_STACK_PAREN_STATEMENT))
  then ret (false, SCAN_MODE_PRIMARY_EXPRESSION)
  else if (bool_decide (type = LEXER_RIGHT_SQUARE)
           && (stack_top =? SCAN_STACK_SQUARE_BRACKETED_EXPRESSION))
          || (bool_decide (type = LEXER_RIGHT_PAREN)
              && (stack_top =? SCAN_STACK_PAREN_EXPRESSION))
          || (bool_decide (type = LEXER_RIGHT_BRACE)
              && (stack_top =? SCAN_STACK_OBJECT_LITERAL))
  then
    parser_stack_pop_uint8;;
    ret (false, SCAN_MODE_POST_PRIMARY_EXPRESSION)
  else if bool_decide (type = LEXER_RIGHT_PAREN)
          && (stack_top =? SCAN_STACK_PAREN_STATEMENT)
  then
    parser_stack_pop_uint8;;
    ret (false, SCAN_MODE_STATEMENT)
  else
    (* Check whether we can enter to statement mode. *)
    raise_if (negb (stack_top =? SCAN_STACK_BLOCK_STATEMENT)
              && negb (stack_top =? SCAN_STACK_BLOCK_EXPRESSION)
              && negb ((stack_top =? SCAN_STACK_HEAD)
                       && bool_decide (end_type = LEXER_SCAN_SWITCH)))
             PARSER_ERR_INVALID_EXPRESSION;;
    newline ← gets was_newline;
    if bool_decide (type = LEXER_RIGHT_BRACE) || newline
    then ret (true, SCAN_MODE_STATEMENT)
    else
      raise_if (negb (bool_decide (type = LEXER_SEMICOLON)))
               PARSER_ERR_INVALID_EXPRESSION;;
      ret (false, SCAN_MODE_STATEMENT).

(** [parser_scan_primary_expression_end]: [true] for continue, [false]
    for break. *)
Definition parser_scan_primary_expression_end (type : lexer_token_type_t)
    (stack_top : Z) (end_type : lexer_token_type_t)
  : M (bool * scan_modes_t) :=
  match type with
  | LEXER_QUESTION_MARK =>
      parser_stack_push_uint8 SCAN_STACK_COLON_EXPRESSION;;
      ret (false, SCAN_MODE_PRIMARY_EXPRESSION)
  | LEXER_COMMA =>
      if stack_top =? SCAN_STACK_OBJECT_LITERAL
      then ret (true, SCAN_MODE_PROPERTY_NAME)
      else ret (false, SCAN_MODE_PRIMARY_EXPRESSION)
  | LEXER_COLON =>
      if (stack_top =? SCAN_STACK_COLON_EXPRESSION)
         || (stack_top =? SCAN_STACK_COLON_STATEMENT)
      then
        parser_stack_pop_uint8;;
        ret (false,
              if stack_top =? SCAN_STACK_COLON_EXPRESSION
              then SCAN_MODE_PRIMARY_EXPRESSION
              else SCAN_MODE_STATEMENT)
      else parser_scan_primary_expression_end_tail type stack_top end_type
  | _ => parser_scan_primary_expression_end_tail type stack_top end_type
  end.

(** The part of [parser_scan_statement] below its [switch]. *)
Definition parser_scan_statement_tail (type : lexer_token_type_t)
  : M (bool * scan_modes_t) :=
  is_ident ← gets (fun c =>
    bool_decide (type = LEXER_LITERAL)
    && bool_decide (loc_type (tok_lit_location (token (lex c)))
                    = LEXER_IDENT_LITERAL));
  if is_ident
  then
    lexer_next_token;;
    colon ← gets (fun c => token_is c LEXER_COLON);
    if colon
    then ret (false, SCAN_MODE_STATEMENT)
    else ret (true, SCAN_MODE_POST_PRIMARY_EXPRESSION)
  else ret (true, SCAN_MODE_PRIMARY_EXPRESSION).

(** [parser_scan_statement]: [true] for continue, [false] for break. *)
Definition parser_scan_statement (type : lexer_token_type_t) (stack_top : Z)
    (mode : scan_modes_t) : M (bool * scan_modes_t) :=
  match type with
  | LEXER_SEMICOLON | LEXER_KEYW_ELSE | LEXER_KEYW_DO | LEXER_KEYW_RETURN
  | LEXER_KEYW_TRY | LEXER_KEYW_FINALLY | LEXER_KEYW_DEBUGGER =>
      ret (false, mode)
  | LEXER_KEYW_IF | LEXER_KEYW_WHILE | LEXER_KEYW_WITH | LEXER_KEYW_SWITCH
  | LEXER_KEYW_CATCH =>
      lexer_next_token;;
      paren ← gets (fun c => token_is c LEXER_LEFT_PAREN);
      raise_if (negb paren) PARSER_ERR_LEFT_PAREN_EXPECTED;;
      parser_stack_push_uint8 SCAN_STACK_PAREN_STATEMENT;;
      ret (false, SCAN_MODE_PRIMARY_EXPRESSION)
  | LEXER_KEYW_FOR =>
      lexer_next_token;;
      paren ← gets (fun c => token_is c LEXER_LEFT_PAREN);
      raise_if (negb paren) PARSER_ERR_LEFT_PAREN_EXPECTED;;
      lexer_next_token;;
      parser_stack_push_uint8 SCAN_STACK_PAREN_STATEMENT;;
      var ← gets (fun c => token_is c LEXER_KEYW_VAR);
      if var
      then ret (false, SCAN_MODE_PRIMARY_EXPRESSION)
      else ret (true, SCAN_MODE_PRIMARY_EXPRESSION)
  | LEXER_KEYW_VAR | LEXER_KEYW_THROW =>
      ret (false, SCAN_MODE_PRIMARY_EXPRESSION)
  | LEXER_KEYW_BREAK | LEXER_KEYW_CONTINUE =>
      lexer_next_token;;
      label ← gets (fun c =>
        negb (was_newline c) && token_is_literal c LEXER_IDENT_LITERAL);
      if label then ret (false, mode) else ret (true, mode)
  | LEXER_KEYW_DEFAULT =>
      lexer_next_token;;
      colon ← gets (fun c => token_is c LEXER_COLON);
      raise_if (negb colon) PARSER_ERR_COLON_EXPECTED;;
      ret (false, mode)
  | LEXER_KEYW_CASE =>
      parser_stack_push_uint8 SCAN_STACK_COLON_STATEMENT;;
      ret (false, SCAN_MODE_PRIMARY_EXPRESSION)
  | LEXER_RIGHT_BRACE =>
      if (stack_top =? SCAN_STACK_BLOCK_STATEMENT)
         || (stack_top =? SCAN_STACK_BLOCK_EXPRESSION)
         || (stack_top =? SCAN_STACK_BLOCK_PROPERTY)
      then
        parser_stack_pop_uint8;;
        if stack_top =? SCAN_STACK_BLOCK_EXPRESSION
        then ret (false, SCAN_MODE_POST_PRIMARY_EXPRESSION)
        else if stack_top =? SCAN_STACK_BLOCK_PROPERTY
        then
          lexer_next_token;;
          separator ← gets (fun c =>
            token_is c LEXER_COMMA || token_is c LEXER_RIGHT_BRACE);
          raise_if (negb separator)
                   PARSER_ERR_OBJECT_ITEM_SEPARATOR_EXPECTED;;
          ret (true, SCAN_MODE_POST_PRIMARY_EXPRESSION)
        else ret (false, mode)
      else parser_scan_statement_tail type
  | LEXER_LEFT_BRACE =>
      parser_stack_push_uint8 SCAN_STACK_BLOCK_STATEMENT;;
      ret (false, mode)
  | LEXER_KEYW_FUNCTION =>
      parser_stack_push_uint8 SCAN_STACK_BLOCK_STATEMENT;;
      ret (false, SCAN_MODE_FUNCTION_ARGUMENTS)
  | _ => parser_scan_statement_tail type
  end.

(** The identifier list of [SCAN_MODE_FUNCTION_ARGUMENTS]:
    [while (PARSER_TRUE) { ident; if (token != ',') break; }]. *)
Fixpoint parser_scan_argument_list (n : nat) : M unit :=
  match n with
  | O => fault out_of_fuel
  | S n' =>
      ident ← gets (fun c => token_is_literal c LEXER_IDENT_LITERAL);
      raise_if (negb ident) PARSER_ERR_IDENTIFIER_EXPECTED;;
      lexer_next_token;;
      comma ← gets (fun c => token_is c LEXER_COMMA);
      if negb comma
      then ret tt
      else
        lexer_next_token;;
        parser_scan_argument_list n'
  end.

(** [case SCAN_MODE_FUNCTION_ARGUMENTS] of [parser_scan_until]. *)
Definition parser_scan_function_arguments : M scan_modes_t :=
  ident ← gets (fun c => token_is_literal c LEXER_IDENT_LITERAL);
  when ident lexer_next_token;;
  paren ← gets (fun c => token_is c LEXER_LEFT_PAREN);
  raise_if (negb paren) PARSER_ERR_ARGUMENT_LIST_EXPECTED;;
  lexer_next_token;;
  empty ← gets (fun c => token_is c LEXER_RIGHT_PAREN);
  when (negb empty) (parser_scan_argument_list fuel);;
  paren ← gets (fun c => token_is c LEXER_RIGHT_PAREN);
  raise_if (negb paren) PARSER_ERR_RIGHT_PAREN_EXPECTED;;
  lexer_next_token;;
  brace ← gets (fun c => token_is c LEXER_LEFT_BRACE);
  raise_if (negb brace) PARSER_ERR_LEFT_BRACE_EXPECTED;;
  ret SCAN_MODE_STATEMENT.

(** [case SCAN_MODE_PROPERTY_NAME] of [parser_scan_until]. *)
Definition parser_scan_property_name : M scan_modes_t :=
  lexer_scan_identifier true;;
  brace ← gets (fun c => token_is c LEXER_RIGHT_BRACE);
  if brace
  then
    parser_stack_pop_uint8;;
    ret SCAN_MODE_POST_PRIMARY_EXPRESSION
  else
    accessor ← gets (fun c =>
      token_is c LEXER_PROPERTY_GETTER || token_is c LEXER_PROPERTY_SETTER);
    if accessor
    then
      parser_stack_push_uint8 SCAN_STACK_BLOCK_PROPERTY;;
      ret SCAN_MODE_FUNCTION_ARGUMENTS
    else
      lexer_next_token;;
      colon ← gets (fun c => token_is c LEXER_COLON);
      raise_if (negb colon) PARSER_ERR_COLON_EXPECTED;;
      ret SCAN_MODE_PRIMARY_EXPRESSION.

(** How one pass through the body of the loop of [parser_scan_until]
    ends: at a [return], at a [continue], or at the foot of the body
    (the [break]s of the [switch]). *)
Inductive scan_step_t : Set :=
| scan_return
| scan_continue (mode : scan_modes_t)
| scan_break (mode : scan_modes_t).

(** A helper's flag is [true] for continue and [false] for break. *)
Definition continue_or_break (r : bool * scan_modes_t) : scan_step_t :=
  if r.1 then scan_continue r.2 else scan_break r.2.

(** The [switch (mode)] of [parser_scan_until]. *)
Definition parser_scan_switch (mode : scan_modes_t)
    (type : lexer_token_type_t) (stack_top : Z)
    (end_type : lexer_token_type_t) : M scan_step_t :=
  match mode with
  | SCAN_MODE_PRIMARY_EXPRESSION =>
      if bool_decide (type = LEXER_ADD) || bool_decide (type = LEXER_SUBTRACT)
         || LEXER_IS_UNARY_OP_TOKEN type
      then ret (scan_break mode)
      else
        r ← parser_scan_primary_expression type stack_top mode;
        ret (continue_or_break r)
  | SCAN_MODE_PRIMARY_EXPRESSION_AFTER_NEW =>
      r ← parser_scan_primary_expression type stack_top mode;
      ret (continue_or_break r)
  | SCAN_MODE_POST_PRIMARY_EXPRESSION =>
      r ← parser_scan_post_primary_expression type mode;
      if r.1
      then ret (scan_break r.2)
      else
        r' ← parser_scan_primary_expression_end type stack_top end_type;
        ret (continue_or_break r')
  | SCAN_MODE_PRIMARY_EXPRESSION_END =>
      r ← parser_scan_primary_expression_end type stack_top end_type;
      ret (continue_or_break r)
  | SCAN_MODE_STATEMENT =>
      if bool_decide (end_type = LEXER_SCAN_SWITCH)
         && (stack_top =? SCAN_STACK_HEAD)
         && (bool_decide (type = LEXER_KEYW_DEFAULT)
             || bool_decide (type = LEXER_KEYW_CASE)
             || bool_decide (type = LEXER_RIGHT_BRACE))
      then
        parser_stack_pop_uint8;;
        ret scan_return
      else
        r ← parser_scan_statement type stack_top mode;
        ret (continue_or_break r)
  | SCAN_MODE_FUNCTION_ARGUMENTS =>
      mode' ← parser_scan_function_arguments;
      ret (scan_break mode')
  | SCAN_MODE_PROPERTY_NAME =>
      mode' ← parser_scan_property_name;
      ret (scan_break mode')
  end.

(** One pass through the body of [while (PARSER_TRUE)] of
    [parser_scan_until], up to its [return], [continue] or foot. *)
Definition parser_scan_iteration (end_type end_type_b : lexer_token_type_t)
    (mode : scan_modes_t) : M scan_step_t :=
  type ← gets token_type;
  stack_top ← gets stack_top_uint8;
  raise_if (bool_decide (type = LEXER_EOS)) PARSER_ERR_EXPRESSION_EXPECTED;;
  if (stack_top =? SCAN_STACK_HEAD)
     && (bool_decide (type = end_type) || bool_decide (type = end_type_b))
  then
    parser_stack_pop_uint8;;
    ret scan_return
  else parser_scan_switch mode type stack_top end_type.

Definition set_range_source_end_p (r : lexer_range_t) (p : Z) : lexer_range_t :=
  mk_range (range_source_p r) p (range_line r) (range_column r).

(** The loop of [parser_scan_until]. *)
Fixpoint parser_scan_loop (n : nat)
    (end_type end_type_b : lexer_token_type_t) (mode : scan_modes_t)
    (range : lexer_range_t) : M lexer_range_t :=
  match n with
  | O => fault out_of_fuel
  | S n' =>
      step ← parser_scan_iteration end_type end_type_b mode;
      match step with
      | scan_return => ret range
      | scan_continue mode' =>
          parser_scan_loop n' end_type end_type_b mode' range
      | scan_break mode' =>
          p ← gets (fun c => source_p (lex c));
          lexer_next_token;;
          parser_scan_loop n' end_type end_type_b mode'
                           (set_range_source_end_p range p)
      end
  end.

(** The terminators after [parser_scan_until] has normalized them:
    [(end_type, end_type_b)]. *)
Definition scan_end_types (end_type : lexer_token_type_t)
  : lexer_token_type_t * lexer_token_type_t :=
  if bool_decide (end_type = LEXER_KEYW_CASE)
  then (LEXER_SCAN_SWITCH, LEXER_SCAN_SWITCH)
  else if bool_decide (end_type = LEXER_KEYW_IN)
  then (end_type, LEXER_SEMICOLON)
  else (end_type, end_type).

(** The statements of [parser_scan_until] before its loop. *)
Definition parser_scan_prepare (end_type : lexer_token_type_t)
  : M (scan_modes_t * lexer_range_t) :=
  range ← gets (fun c =>
    mk_range (source_p (lex c)) (source_p (lex c)) (line (lex c))
             (column (lex c)));
  mode ← (if bool_decide (end_type = LEXER_KEYW_CASE)
          then ret SCAN_MODE_STATEMENT
          else
            lexer_next_token;;
            (if bool_decide (end_type = LEXER_KEYW_IN)
             then
               var ← gets (fun c => token_is c LEXER_KEYW_VAR);
               when var lexer_next_token
             else ret tt);;
            ret SCAN_MODE_PRIMARY_EXPRESSION);
  parser_stack_push_uint8 SCAN_STACK_HEAD;;
  ret (mode, range).

(** [parser_scan_until (context_p, range_p, end_type)]; the result is
    [*range_p]. *)
Definition parser_scan_until (end_type : lexer_token_type_t)
  : M lexer_range_t :=
  '(mode, range) ← parser_scan_prepare end_type;
  parser_scan_loop fuel (scan_end_types end_type).1
                   (scan_end_types end_type).2 mode range.

(** ** The statement parser *)

Definition PARSER_USE_STRICT_LITERAL : string := "use strict".
Definition PARSER_USE_STRICT_LENGTH : Z := 10.

(** [parser_statement_length]: every walk over the stack skips one whole
    item, which is what the table of lengths amounts to.  A lone byte
    that is neither [START] nor [BLOCK] carries no payload of its type:
    reading it as a statement reads what is not there. *)
Definition is_statement_item (i : stack_item_t) : bool :=
  match i with
  | item_uint8 b => (b =? PARSER_STATEMENT_START) || (b =? PARSER_STATEMENT_BLOCK)
  | _ => true
  end.

(** [parser_save_range] *)
Definition parser_save_range (source_end : Z) : M lexer_range_t :=
  gets (fun c =>
    mk_range (source_p (lex c)) source_end (line (lex c)) (column (lex c))).

(** [parser_set_range] *)
Definition parser_set_range (range : lexer_range_t) : M unit :=
  modify (fun c =>
    set_lex c
      (mk_lexer_context (token (lex c)) (range_source_p range)
         (range_source_end_p range) (range_line range) (range_column range)
         (lit_object (lex c)) (literal_pool (lex c)))).

(** [context_p->token = t] *)
Definition assign_token (t : lexer_token_t) : M unit :=
  modify (fun c => set_lex c (set_token (lex c) t)).

(** [context_p->lit_object.literal_p->status_flags |= flags] *)
Definition literal_status_flags_or (flags : Z) : M unit :=
  fun c =>
    let p := lit_literal_p (lit_object (lex c)) in
    match literal_pool (lex c) !! p with
    | Some l =>
        Done tt
          (set_lex c
             (set_literal_pool (lex c)
                (<[p := mk_literal (Z.lor (literal_status_flags l) flags)]>
                   (literal_pool (lex c)))))
    | None => Fault undefined_behaviour
    end.

(** [parser_parse_enclosed_expr] *)
Definition parser_parse_enclosed_expr : M unit :=
  lexer_next_token;;
  paren ← gets (fun c => token_is c LEXER_LEFT_PAREN);
  raise_if (negb paren) PARSER_ERR_LEFT_PAREN_EXPECTED;;
  lexer_next_token;;
  parser_parse_expression PARSE_EXPR;;
  paren ← gets (fun c => token_is c LEXER_RIGHT_PAREN);
  raise_if (negb paren) PARSER_ERR_RIGHT_PAREN_EXPECTED;;
  lexer_next_token.

(** [parser_parse_var_statement]: its [while (PARSER_TRUE)] loop. *)
Fixpoint parser_parse_var_loop (n : nat) : M unit :=
  match n with
  | O => fault out_of_fuel
  | S n' =>
      lexer_expect_identifier LEXER_IDENT_LITERAL;;
      literal_status_flags_or LEXER_FLAG_VAR;;
      parser_emit_cbc_literal_from_token CBC_PUSH_IDENT;;
      lexer_next_token;;
      assign ← gets (fun c => token_is c LEXER_ASSIGN);
      (if assign
       then
         parser_parse_expression
           (Z.lor (Z.lor PARSE_EXPR_STATEMENT PARSE_EXPR_NO_COMMA)
                  PARSE_EXPR_HAS_LITERAL)
       else
         (* We don't need to assign anything to this variable. *)
         assign_last_cbc_opcode PARSER_CBC_UNAVAILABLE);;
      comma ← gets (fun c => token_is c LEXER_COMMA);
      if negb comma then ret tt else parser_parse_var_loop n'
  end.

Definition parser_parse_var_statement : M unit :=
  parser_parse_var_loop fuel.

(** [parser_parse_function_statement] *)
Definition parser_parse_function_statement : M unit :=
  lexer_expect_identifier LEXER_IDENT_LITERAL;;
  literal_status_flags_or (Z.lor LEXER_FLAG_VAR LEXER_FLAG_INITIALIZED);;
  object ← gets (fun c => lit_object (lex c));
  lexer_construct_function_object
    (lit_index object)
    (if bool_decide (lit_type object = lexer_literal_object_eval)
        || bool_decide (lit_type object = lexer_literal_object_arguments)
     then Z.lor (Z.lor PARSER_IS_FUNCTION PARSER_IS_CLOSURE)
                PARSER_HAS_NON_STRICT_ARG
     else Z.lor PARSER_IS_FUNCTION PARSER_IS_CLOSURE);;
  lexer_next_token.

(** [parser_parse_if_statement_start] *)
Definition parser_parse_if_statement_start : M unit :=
  parser_parse_enclosed_expr;;
  branch ← parser_emit_cbc_forward_branch CBC_BRANCH_IF_FALSE_FORWARD;
  parser_stack_push_statement (item_if (mk_if_else branch));;
  parser_stack_iterator_init_last_statement.

(** [parser_parse_if_statement_end] *)
Definition parser_parse_if_statement_end : M bool :=
  is_else ← gets (fun c => token_is c LEXER_KEYW_ELSE);
  if negb is_else
  then
    i ← parser_stack_pop_statement;
    match i with
    | item_if if_statement =>
        parser_stack_iterator_init_last_statement;;
        parser_set_branch_to_current_position (if_else_branch if_statement);;
        ret false
    | _ => fault undefined_behaviour
    end
  else
    parser_stack_change_last_uint8 PARSER_STATEMENT_ELSE;;
    iterator ← parser_stack_iterator_init;
    i ← parser_stack_iterator_read iterator;
    match i with
    | item_else if_statement =>
        branch ← parser_emit_cbc_forward_branch CBC_JUMP_FORWARD;
        parser_set_branch_to_current_position (if_else_branch if_statement);;
        parser_stack_iterator_write iterator (item_else (mk_if_else branch));;
        lexer_next_token;;
        ret true
    | _ => fault undefined_behaviour
    end.

(** [parser_parse_with_statement_start] *)
Definition parser_parse_with_statement_start : M unit :=
  strict ← gets (fun c => has_flag (status_flags c) PARSER_IS_STRICT);
  raise_if strict PARSER_ERR_WITH_NOT_ALLOWED;;
  parser_parse_enclosed_expr;;
  modify (fun c => set_status_flags c (Z.lor (status_flags c) PARSER_IN_WIDTH));;
  branch ← parser_emit_cbc_ext_forward_branch CBC_EXT_WITH_CREATE_CONTEXT;
  parser_stack_push_statement (item_with (mk_with branch));;
  parser_stack_iterator_init_last_statement.

(** The search that ends [parser_parse_with_statement_end]: [Some true]
    when [START] is met before any [WITH], [Some false] when a [WITH] is
    met first. *)
Fixpoint with_statement_search (s : list stack_item_t) : option bool :=
  match s with
  | [] => None
  | i :: s' =>
      if item_type i =? PARSER_STATEMENT_START then Some true
      else if item_type i =? PARSER_STATEMENT_WITH then Some false
      else if is_statement_item i then with_statement_search s'
      else None
  end.

(** [parser_parse_with_statement_end] *)
Definition parser_parse_with_statement_end : M unit :=
  i ← parser_stack_pop_statement;
  match i with
  | item_with with_statement =>
      parser_stack_iterator_init_last_statement;;
      parser_flush_cbc;;
      stack_depth_minus_equal PARSER_WITH_CONTEXT_STACK_ALLOCATION;;
      parser_emit_cbc CBC_CONTEXT_END;;
      parser_set_branch_to_current_position (with_branch with_statement);;
      found ← gets (fun c => with_statement_search (stack c));
      match found with
      | Some true =>
          modify (fun c =>
            set_status_flags c
              (Z.land (status_flags c) (Z.lnot PARSER_IN_WIDTH)))
      | Some false => ret tt
      | None => fault undefined_behaviour
      end
  | _ => fault undefined_behaviour
  end.

(** The lines that the tails of [do-while], [while] and [for] repeat:
    the opcode of the backward branch, chosen from the last opcode of
    the condition, which is dropped from the cache when it is folded
    into the branch. *)
Definition backward_branch_opcode : M cbc_opcode_t :=
  is_not ← gets (fun c => last_opcode_is c CBC_LOGICAL_NOT);
  if is_not
  then
    assign_last_cbc_opcode PARSER_CBC_UNAVAILABLE;;
    ret CBC_BRANCH_IF_FALSE_BACKWARD
  else
    is_true ← gets (fun c => last_opcode_is c CBC_PUSH_TRUE);
    if is_true
    then
      assign_last_cbc_opcode PARSER_CBC_UNAVAILABLE;;
      ret CBC_JUMP_BACKWARD
    else ret CBC_BRANCH_IF_TRUE_BACKWARD.

(** [parser_parse_do_while_statement_end] *)
Definition parser_parse_do_while_statement_end : M unit :=
  is_while ← gets (fun c => token_is c LEXER_KEYW_WHILE);
  raise_if (negb is_while) PARSER_ERR_WHILE_EXPECTED;;
  i ← parser_stack_pop_statement;
  match i with
  | item_do_while do_while_statement loop =>
      parser_stack_iterator_init_last_statement;;
      parser_set_continues_to_current_position (loop_branch_list_p loop);;
      parser_parse_enclosed_expr;;
      is_false ← gets (fun c => last_opcode_is c CBC_PUSH_FALSE);
      (if negb is_false
       then
         opcode ← backward_branch_opcode;
         parser_emit_cbc_backward_branch
           opcode (do_while_start_offset do_while_statement)
       else assign_last_cbc_opcode PARSER_CBC_UNAVAILABLE);;
      parser_set_breaks_to_current_position (loop_branch_list_p loop)
  | _ => fault undefined_behaviour
  end.

(** [parser_parse_while_statement_start] *)
Definition parser_parse_while_statement_start : M unit :=
  lexer_next_token;;
  paren ← gets (fun c => token_is c LEXER_LEFT_PAREN);
  raise_if (negb paren) PARSER_ERR_LEFT_PAREN_EXPECTED;;
  branch ← parser_emit_cbc_forward_branch CBC_JUMP_FORWARD;
  start_offset ← gets byte_code_size;
  (* The conditional part is processed at the end. *)
  condition_range ← parser_scan_until LEXER_RIGHT_PAREN;
  lexer_next_token;;
  parser_stack_push_statement
    (item_while (mk_while branch condition_range start_offset)
                (mk_loop None));;
  parser_stack_iterator_init_last_statement.

(** [parser_parse_while_statement_end] *)
Definition parser_parse_while_statement_end : M unit :=
  i ← parser_stack_pop_statement;
  match i with
  | item_while while_statement loop =>
      parser_stack_iterator_init_last_statement;;
      source_end ← gets (fun c => source_end_p (lex c));
      range ← parser_save_range source_end;
      current_token ← gets (fun c => token (lex c));
      parser_set_branch_to_current_position (while_branch while_statement);;
      parser_set_continues_to_current_position (loop_branch_list_p loop);;
      parser_set_range (while_condition_range while_statement);;
      lexer_next_token;;
      parser_parse_expression PARSE_EXPR;;
      eos ← gets (fun c => token_is c LEXER_EOS);
      raise_if (negb eos) PARSER_ERR_INVALID_EXPRESSION;;
      opcode ← backward_branch_opcode;
      parser_emit_cbc_backward_branch
        opcode (while_start_offset while_statement);;
      parser_set_breaks_to_current_position (loop_branch_list_p loop);;
      parser_set_range range;;
      assign_token current_token
  | _ => fault undefined_behaviour
  end.

(** Lines 670-698 of the statement parser: the target of a for-in that
    starts with [var].  The current token is [var]. *)
Definition parser_parse_for_in_var_target : M unit :=
  lexer_expect_identifier LEXER_IDENT_LITERAL;;
  literal_status_flags_or LEXER_FLAG_VAR;;
  literal_index ← gets (fun c => lit_index (lit_object (lex c)));
  lexer_next_token;;
  assign ← gets (fun c => token_is c LEXER_ASSIGN);
  when assign
    ((* Initialiser is never executed. *)
     branch ← parser_emit_cbc_forward_branch CBC_JUMP_FORWARD;
     lexer_next_token;;
     parser_parse_expression (Z.lor PARSE_EXPR_STATEMENT PARSE_EXPR_NO_COMMA);;
     parser_set_branch_to_current_position branch);;
  parser_emit_cbc_ext CBC_EXT_FOR_IN_GET_NEXT;;
  parser_emit_cbc_literal CBC_ASSIGN_IDENT literal_index.

(** The target of a for-in that does not start with [var]. *)
Definition parser_parse_for_in_expression_target : M unit :=
  parser_parse_expression PARSE_EXPR;;
  argument ← gets (fun c => last_cbc (cbc c));
  last ← gets (fun c => last_cbc_opcode (cbc c));
  opcode ← match last with
           | CBC_PUSH_IDENT =>
               assign_last_cbc_opcode PARSER_CBC_UNAVAILABLE;;
               ret CBC_ASSIGN_IDENT
           | CBC_PROP_GET =>
               assign_last_cbc_opcode PARSER_CBC_UNAVAILABLE;;
               ret CBC_ASSIGN
           | CBC_PROP_STRING_GET =>
               assign_last_cbc_opcode PARSER_CBC_UNAVAILABLE;;
               ret CBC_ASSIGN_PROP_STRING
           | _ =>
               (* A runtime error will happen. *)
               parser_emit_cbc_ext CBC_EXT_PUSH_UNDEFINED_BASE;;
               ret CBC_ASSIGN
           end;
  parser_emit_cbc_ext CBC_EXT_FOR_IN_GET_NEXT;;
  parser_flush_cbc;;
  modify_cbc (fun e => set_last_cbc_opcode (set_last_cbc e argument) opcode).

(** The for-in branch of [parser_parse_for_statement_start]; the current
    token is [in]. *)
Definition parser_parse_for_in_statement_start (start_range : lexer_range_t)
  : M unit :=
  lexer_next_token;;
  parser_parse_expression PARSE_EXPR;;
  paren ← gets (fun c => token_is c LEXER_RIGHT_PAREN);
  raise_if (negb paren) PARSER_ERR_RIGHT_PAREN_EXPECTED;;
  branch ← parser_emit_cbc_ext_forward_branch CBC_EXT_FOR_IN_CREATE_CONTEXT;
  start_offset ← gets byte_code_size;
  source_end ← gets (fun c => source_end_p (lex c));
  range ← parser_save_range source_end;
  parser_set_range start_range;;
  lexer_next_token;;
  var ← gets (fun c => token_is c LEXER_KEYW_VAR);
  (if var
   then parser_parse_for_in_var_target
   else parser_parse_for_in_expression_target);;
  eos ← gets (fun c => token_is c LEXER_EOS);
  raise_if (negb eos) PARSER_ERR_IN_EXPECTED;;
  parser_flush_cbc;;
  parser_set_range range;;
  lexer_next_token;;
  parser_stack_push_statement
    (item_for_in (mk_for_in branch start_offset) (mk_loop None));;
  parser_stack_iterator_init_last_statement.

(** The branch of [parser_parse_for_statement_start] for a C-style
    [for]. *)
Definition parser_parse_classic_for_statement_start
    (start_range : lexer_range_t) : M unit :=
  source_end ← gets (fun c => source_end_p (lex c));
  parser_set_range (set_range_source_end_p start_range source_end);;
  lexer_next_token;;
  semicolon ← gets (fun c => token_is c LEXER_SEMICOLON);
  when (negb semicolon)
    (var ← gets (fun c => token_is c LEXER_KEYW_VAR);
     (if var
      then parser_parse_var_statement
      else parser_parse_expression PARSE_EXPR_STATEMENT);;
     semicolon ← gets (fun c => token_is c LEXER_SEMICOLON);
     raise_if (negb semicolon) PARSER_ERR_SEMICOLON_EXPECTED);;
  branch ← parser_emit_cbc_forward_branch CBC_JUMP_FORWARD;
  start_offset ← gets byte_code_size;
  (* The conditional and expression parts are processed at the end. *)
  condition_range ← parser_scan_until LEXER_SEMICOLON;
  expression_range ← parser_scan_until LEXER_RIGHT_PAREN;
  lexer_next_token;;
  parser_stack_push_statement
    (item_for (mk_for branch condition_range expression_range start_offset)
              (mk_loop None));;
  parser_stack_iterator_init_last_statement.

(** [parser_parse_for_statement_start] *)
Definition parser_parse_for_statement_start : M unit :=
  lexer_next_token;;
  paren ← gets (fun c => token_is c LEXER_LEFT_PAREN);
  raise_if (negb paren) PARSER_ERR_LEFT_PAREN_EXPECTED;;
  start_range ← parser_scan_until LEXER_KEYW_IN;
  is_in ← gets (fun c => token_is c LEXER_KEYW_IN);
  if is_in
  then parser_parse_for_in_statement_start start_range
  else parser_parse_classic_for_statement_start start_range.

(** [parser_parse_for_statement_end] *)
Definition parser_parse_for_statement_end : M unit :=
  i ← parser_stack_pop_statement;
  match i with
  | item_for for_statement loop =>
      parser_stack_iterator_init_last_statement;;
      source_end ← gets (fun c => source_end_p (lex c));
      range ← parser_save_range source_end;
      current_token ← gets (fun c => token (lex c));
      parser_set_range (for_expression_range for_statement);;
      lexer_next_token;;
      parser_set_continues_to_current_position (loop_branch_list_p loop);;
      eos ← gets (fun c => token_is c LEXER_EOS);
      when (negb eos)
        (parser_parse_expression PARSE_EXPR_STATEMENT;;
         eos ← gets (fun c => token_is c LEXER_EOS);
         raise_if (negb eos) PARSER_ERR_INVALID_EXPRESSION);;
      parser_set_branch_to_current_position (for_branch for_statement);;
      parser_set_range (for_condition_range for_statement);;
      lexer_next_token;;
      eos ← gets (fun c => token_is c LEXER_EOS);
      opcode ← (if negb eos
                then
                  parser_parse_expression PARSE_EXPR;;
                  eos ← gets (fun c => token_is c LEXER_EOS);
                  raise_if (negb eos) PARSER_ERR_INVALID_EXPRESSION;;
                  backward_branch_opcode
                else ret CBC_JUMP_BACKWARD);
      parser_emit_cbc_backward_branch opcode (for_start_offset for_statement);;
      parser_set_breaks_to_current_position (loop_branch_list_p loop);;
      parser_set_range range;;
      assign_token current_token
  | _ => fault undefined_behaviour
  end.

(** [parser_stack_iterator_write (&iterator, &switch_statement, ...)]:
    the switch part of the frame at [iterator] is replaced. *)
Definition write_switch_statement (iterator : nat)
    (switch_statement : parser_switch_statement_t) : M unit :=
  i ← parser_stack_iterator_read iterator;
  match i with
  | item_switch _ loop =>
      parser_stack_iterator_write iterator (item_switch switch_statement loop)
  | item_switch_no_default _ loop =>
      parser_stack_iterator_write iterator
        (item_switch_no_default switch_statement loop)
  | _ => fault undefined_behaviour
  end.

(** [parser_stack_iterator_read (&iterator, &switch_statement, ...)] *)
Definition read_switch_statement (iterator : nat)
  : M parser_switch_statement_t :=
  i ← parser_stack_iterator_read iterator;
  match i with
  | item_switch s _ | item_switch_no_default s _ => ret s
  | _ => fault undefined_behaviour
  end.

(** The locals of the loop of [parser_parse_switch_statement_start]. *)
Record switch_scan_t : Set := mk_switch_scan {
  switch_case_was_found : bool;
  default_case_was_found : bool;
  cases_p : option nat;
  switch_statement : parser_switch_statement_t
}.

(** A case or the closing brace has been reached: the branch of the
    case before it is emitted and appended to the list of the frame. *)
Definition parser_switch_emit_case (iterator : nat) (st : switch_scan_t)
  : M switch_scan_t :=
  if switch_case_was_found st
  then
    is_case ← gets (fun c => token_is c LEXER_KEYW_CASE);
    when (negb is_case)
      ((* We don't duplicate the value for the last case. *)
       parser_emit_cbc CBC_STRICT_EQUAL);;
    new_case_p ← parser_emit_cbc_forward_branch_item
                   (if negb is_case
                    then CBC_BRANCH_IF_TRUE_FORWARD
                    else CBC_BRANCH_IF_STRICT_EQUAL)
                   None;
    match cases_p st with
    | None =>
        let sw := mk_switch (switch_default_branch (switch_statement st))
                            new_case_p in
        write_switch_statement iterator sw;;
        ret (mk_switch_scan (switch_case_was_found st)
                            (default_case_was_found st) new_case_p sw)
    | Some p =>
        n ← node_read p;
        node_write p (mk_branch_node (node_branch n) new_case_p);;
        ret (mk_switch_scan (switch_case_was_found st)
                            (default_case_was_found st) new_case_p
                            (switch_statement st))
    end
  else ret st.

(** The [while (PARSER_TRUE)] loop of
    [parser_parse_switch_statement_start]. *)
Fixpoint parser_switch_scan_loop (n : nat) (iterator : nat)
    (st : switch_scan_t) : M switch_scan_t :=
  match n with
  | O => fault out_of_fuel
  | S n' =>
      parser_scan_until LEXER_KEYW_CASE;;
      is_default ← gets (fun c => token_is c LEXER_KEYW_DEFAULT);
      is_case ← gets (fun c =>
        token_is c LEXER_KEYW_CASE || token_is c LEXER_RIGHT_BRACE);
      if is_default
      then
        raise_if (default_case_was_found st)
                 PARSER_ERR_MULTIPLE_DEFAULTS_NOT_ALLOWED;;
        lexer_next_token;;
        colon ← gets (fun c => token_is c LEXER_COLON);
        raise_if (negb colon) PARSER_ERR_COLON_EXPECTED;;
        lexer_next_token;;
        parser_switch_scan_loop n' iterator
          (mk_switch_scan (switch_case_was_found st) true (cases_p st)
                          (switch_statement st))
      else if is_case
      then
        st' ← parser_switch_emit_case iterator st;
        (* End of switch statement. *)
        brace ← gets (fun c => token_is c LEXER_RIGHT_BRACE);
        if brace
        then ret st'
        else
          lexer_next_token;;
          parser_parse_expression PARSE_EXPR;;
          colon ← gets (fun c => token_is c LEXER_COLON);
          raise_if (negb colon) PARSER_ERR_COLON_EXPECTED;;
          lexer_next_token;;
          parser_switch_scan_loop n' iterator
            (mk_switch_scan true (default_case_was_found st) (cases_p st')
                            (switch_statement st'))
      else
        lexer_next_token;;
        parser_switch_scan_loop n' iterator st
  end.

(** The [default_branch] of a switch frame before it is first assigned
    (the C structure is uninitialised there). *)
Definition unset_branch : parser_branch_t := mk_branch 0.

(** [parser_parse_switch_statement_start] *)
Definition parser_parse_switch_statement_start : M unit :=
  parser_parse_enclosed_expr;;
  brace ← gets (fun c => token_is c LEXER_LEFT_BRACE);
  raise_if (negb brace) PARSER_ERR_LEFT_BRACE_EXPECTED;;
  source_end ← gets (fun c => source_end_p (lex c));
  switch_body_start ← parser_save_range source_end;
  lexer_next_token;;
  empty ← gets (fun c => token_is c LEXER_RIGHT_BRACE);
  if empty
  then
    (* Unlikely case, but possible. *)
    parser_emit_cbc CBC_POP;;
    parser_flush_cbc;;
    parser_stack_push_uint8 PARSER_STATEMENT_BLOCK;;
    parser_stack_iterator_init_last_statement
  else
    label ← gets (fun c =>
      token_is c LEXER_KEYW_CASE || token_is c LEXER_KEYW_DEFAULT);
    raise_if (negb label) PARSER_ERR_INVALID_SWITCH;;
    (* The current switch data is always stored on the stack, so that
       parser_free_jumps() finds the branches. *)
    parser_stack_push_statement
      (item_switch (mk_switch unset_branch None) (mk_loop None));;
    iterator ← parser_stack_iterator_init;
    parser_stack_iterator_init_last_statement;;
    st ← parser_switch_scan_loop fuel iterator
           (mk_switch_scan false false None (mk_switch unset_branch None));
    when (negb (switch_case_was_found st))
      ((* There was no case statement, so the expression result
          of the switch must be popped from the stack *)
       parser_emit_cbc CBC_POP);;
    default_branch ← parser_emit_cbc_forward_branch CBC_JUMP_FORWARD;
    write_switch_statement iterator
      (mk_switch default_branch (switch_branch_list_p (switch_statement st)));;
    when (negb (default_case_was_found st))
      (parser_stack_change_last_uint8 PARSER_STATEMENT_SWITCH_NO_DEFAULT);;
    parser_set_range switch_body_start;;
    lexer_next_token.

(** The lines that end a try context: [parser_flush_cbc], the stack
    depth, [CBC_CONTEXT_END]. *)
Definition parser_try_context_end : M unit :=
  parser_flush_cbc;;
  stack_depth_minus_equal PARSER_TRY_CONTEXT_STACK_ALLOCATION;;
  parser_emit_cbc CBC_CONTEXT_END.

(** The [catch] clause that follows a try block. *)
Definition parser_parse_catch_clause : M parser_try_statement_t :=
  lexer_next_token;;
  paren ← gets (fun c => token_is c LEXER_LEFT_PAREN);
  raise_if (negb paren) PARSER_ERR_LEFT_PAREN_EXPECTED;;
  lexer_expect_identifier LEXER_IDENT_LITERAL;;
  literal_index ← gets (fun c => lit_index (lit_object (lex c)));
  lexer_next_token;;
  paren ← gets (fun c => token_is c LEXER_RIGHT_PAREN);
  raise_if (negb paren) PARSER_ERR_RIGHT_PAREN_EXPECTED;;
  lexer_next_token;;
  brace ← gets (fun c => token_is c LEXER_LEFT_BRACE);
  raise_if (negb brace) PARSER_ERR_LEFT_BRACE_EXPECTED;;
  branch ← parser_emit_cbc_ext_forward_branch CBC_EXT_CATCH;
  parser_emit_cbc_literal CBC_ASSIGN_IDENT literal_index;;
  parser_flush_cbc;;
  ret (mk_try parser_catch_block branch).

(** The [finally] clause that follows a try or a catch block. *)
Definition parser_parse_finally_clause : M parser_try_statement_t :=
  lexer_next_token;;
  brace ← gets (fun c => token_is c LEXER_LEFT_BRACE);
  raise_if (negb brace) PARSER_ERR_LEFT_BRACE_EXPECTED;;
  branch ← parser_emit_cbc_ext_forward_branch CBC_EXT_FINALLY;
  ret (mk_try parser_finally_block branch).

(** The first [if] of [parser_parse_try_statement_end]: what the end of
    the current block emits; the result is the block type afterwards
    ([parser_finally_block] when the statement is complete). *)
Definition parser_try_block_end (try_statement : parser_try_statement_t)
  : M parser_try_block_type_t :=
  match try_type try_statement with
  | parser_finally_block =>
      parser_try_context_end;;
      parser_set_branch_to_current_position (try_branch try_statement);;
      ret parser_finally_block
  | parser_catch_block =>
      parser_set_branch_to_current_position (try_branch try_statement);;
      finally ← gets (fun c => token_is c LEXER_KEYW_FINALLY);
      if negb finally
      then
        parser_try_context_end;;
        parser_flush_cbc;;
        ret parser_finally_block
      else ret parser_catch_block
  | parser_try_block =>
      parser_set_branch_to_current_position (try_branch try_statement);;
      follows ← gets (fun c =>
        token_is c LEXER_KEYW_CATCH || token_is c LEXER_KEYW_FINALLY);
      raise_if (negb follows) PARSER_ERR_CATCH_FINALLY_EXPECTED;;
      ret parser_try_block
  end.

(** [parser_parse_try_statement_end] *)
Definition parser_parse_try_statement_end : M unit :=
  iterator ← parser_stack_iterator_init;
  i ← parser_stack_iterator_read iterator;
  match i with
  | item_try try_statement =>
      lexer_next_token;;
      type ← parser_try_block_end try_statement;
      match type with
      | parser_finally_block =>
          parser_stack_pop_statement;;
          parser_stack_iterator_init_last_statement
      | _ =>
          is_catch ← gets (fun c => token_is c LEXER_KEYW_CATCH);
          try_statement' ← (if is_catch
                            then parser_parse_catch_clause
                            else parser_parse_finally_clause);
          lexer_next_token;;
          parser_stack_iterator_write iterator (item_try try_statement')
      end
  | _ => fault undefined_behaviour
  end.

Definition top_is_switch (c : parser_context_t) : bool :=
  (stack_top_uint8 c =? PARSER_STATEMENT_SWITCH)
  || (stack_top_uint8 c =? PARSER_STATEMENT_SWITCH_NO_DEFAULT).

(** [parser_parse_default_statement] *)
Definition parser_parse_default_statement : M unit :=
  in_switch ← gets top_is_switch;
  raise_if (negb in_switch) PARSER_ERR_DEFAULT_NOT_IN_SWITCH;;
  lexer_next_token;;
  (* Already checked in parser_parse_switch_statement_start. *)
  lexer_next_token;;
  iterator ← parser_stack_iterator_init;
  switch_statement ← read_switch_statement iterator;
  parser_set_branch_to_current_position
    (switch_default_branch switch_statement).

(** [parser_parse_case_statement] *)
Definition parser_parse_case_statement : M unit :=
  in_switch ← gets top_is_switch;
  raise_if (negb in_switch) PARSER_ERR_CASE_NOT_IN_SWITCH;;
  parser_scan_until LEXER_COLON;;
  lexer_next_token;;
  iterator ← parser_stack_iterator_init;
  switch_statement ← read_switch_statement iterator;
  (* Free memory after the case statement is found. *)
  match switch_branch_list_p switch_statement with
  | None => fault undefined_behaviour
  | Some branch_p =>
      n ← node_read branch_p;
      write_switch_statement iterator
        (mk_switch (switch_default_branch switch_statement) (node_next_p n));;
      parser_set_branch_to_current_position (node_branch n);;
      parser_free branch_p
  end.

(** *** [break] and [continue] *)

(** How a search of the statement stack ends: at the statement that the
    jump targets (its iterator and the opcode to emit), at the [START]
    sentinel, or outside the stack that the walk can read. *)
Inductive search_t : Set :=
| search_found (iterator : nat) (opcode : cbc_opcode_t)
| search_reached_start
| search_ill_formed.

Definition crosses_context (type : Z) : bool :=
  (type =? PARSER_STATEMENT_FOR_IN) || (type =? PARSER_STATEMENT_WITH)
  || (type =? PARSER_STATEMENT_TRY).

Definition is_loop_type (type : Z) : bool :=
  (type =? PARSER_STATEMENT_DO_WHILE) || (type =? PARSER_STATEMENT_WHILE)
  || (type =? PARSER_STATEMENT_FOR) || (type =? PARSER_STATEMENT_FOR_IN).

Definition is_break_target (type : Z) : bool :=
  (type =? PARSER_STATEMENT_SWITCH)
  || (type =? PARSER_STATEMENT_SWITCH_NO_DEFAULT) || is_loop_type type.

(** The first loop of [parser_parse_break_statement]: "The label with
    the same name is searched on the stack."  [s] lists the items from
    the iterator down; the iterator of its head is [length s]. *)
Fixpoint break_label_search (ident : lexer_lit_location_t)
    (s : list stack_item_t) (opcode : cbc_opcode_t) : search_t :=
  match s with
  | [] => search_ill_formed
  | i :: s' =>
      if item_type i =? PARSER_STATEMENT_START then search_reached_start
      else
        let opcode := if crosses_context (item_type i)
                      then CBC_JUMP_FORWARD_EXIT_CONTEXT else opcode in
        match i with
        | item_label label =>
            if lexer_same_identifiers ident (label_ident label)
            then search_found (length s) opcode
            else break_label_search ident s' opcode
        | _ =>
            if is_statement_item i
            then break_label_search ident s' opcode
            else search_ill_formed
        end
  end.

(** The second loop: "The first switch or loop statement is searched." *)
Fixpoint break_target_search (s : list stack_item_t) (opcode : cbc_opcode_t)
  : search_t :=
  match s with
  | [] => search_ill_formed
  | i :: s' =>
      if item_type i =? PARSER_STATEMENT_START then search_reached_start
      else
        let opcode := if crosses_context (item_type i)
                      then CBC_JUMP_FORWARD_EXIT_CONTEXT else opcode in
        if is_break_target (item_type i)
        then search_found (length s) opcode
        else if is_statement_item i
        then break_target_search s' opcode
        else search_ill_formed
  end.

(** The loop part of a statement, and the statement with another loop
    part ([parser_stack_iterator_read] and [_write] of a
    [parser_loop_statement_t] one byte below the tag). *)
Definition item_loop (i : stack_item_t) : option parser_loop_statement_t :=
  match i with
  | item_switch _ l | item_switch_no_default _ l | item_do_while _ l
  | item_while _ l | item_for _ l | item_for_in _ l => Some l
  | _ => None
  end.

Definition item_set_loop (i : stack_item_t) (l : parser_loop_statement_t)
  : stack_item_t :=
  match i with
  | item_switch s _ => item_switch s l
  | item_switch_no_default s _ => item_switch_no_default s l
  | item_do_while s _ => item_do_while s l
  | item_while s _ => item_while s l
  | item_for s _ => item_for s l
  | item_for_in s _ => item_for_in s l
  | _ => i
  end.

(** [node->branch.offset |= CBC_HIGHEST_BIT_MASK] *)
Definition mark_continue (p : option nat) : M unit :=
  match p with
  | None => fault undefined_behaviour
  | Some a =>
      n ← node_read a;
      node_write a
        (mk_branch_node
           (mk_branch (Z.lor (branch_offset (node_branch n))
                             CBC_HIGHEST_BIT_MASK))
           (node_next_p n))
  end.

(** A branch item is emitted and filed into the list of the loop (or
    switch) at [iterator]; a continue is marked. *)
Definition file_branch_into_loop (iterator : nat) (opcode : cbc_opcode_t)
    (is_continue : bool) : M unit :=
  i ← parser_stack_iterator_read iterator;
  match item_loop i with
  | None => fault undefined_behaviour
  | Some loop =>
      p ← parser_emit_cbc_forward_branch_item opcode (loop_branch_list_p loop);
      when is_continue (mark_continue p);;
      parser_stack_iterator_write iterator (item_set_loop i (mk_loop p))
  end.

(** A branch item is emitted and filed into the break list of the label
    at [iterator]. *)
Definition file_branch_into_label (iterator : nat) (opcode : cbc_opcode_t)
  : M unit :=
  i ← parser_stack_iterator_read iterator;
  match i with
  | item_label label =>
      p ← parser_emit_cbc_forward_branch_item opcode (label_break_list_p label);
      parser_stack_iterator_write iterator
        (item_label (mk_label (label_ident label) p))
  | _ => fault undefined_behaviour
  end.

(** [!token.was_newline && token is an identifier literal] *)
Definition label_follows (c : parser_context_t) : bool :=
  negb (was_newline c) && token_is_literal c LEXER_IDENT_LITERAL.

(** [parser_parse_break_statement] *)
Definition parser_parse_break_statement : M unit :=
  lexer_next_token;;
  label ← gets label_follows;
  if label
  then
    r ← gets (fun c =>
      break_label_search (tok_lit_location (token (lex c))) (stack c)
                         CBC_JUMP_FORWARD);
    match r with
    | search_reached_start => parser_raise_error PARSER_ERR_INVALID_BREAK_LABEL
    | search_ill_formed => fault undefined_behaviour
    | search_found iterator opcode =>
        file_branch_into_label iterator opcode;;
        lexer_next_token
    end
  else
    r ← gets (fun c => break_target_search (stack c) CBC_JUMP_FORWARD);
    match r with
    | search_reached_start => parser_raise_error PARSER_ERR_INVALID_BREAK
    | search_ill_formed => fault undefined_behaviour
    | search_found iterator opcode =>
        file_branch_into_loop iterator opcode false
    end.

(** The first loop of [parser_parse_continue_statement]: "The label with
    the same name is searched on the stack."  [loop_iterator] is [None]
    for a NULL [loop_iterator.current_p]. *)
Fixpoint continue_label_search (ident : lexer_lit_location_t)
    (s : list stack_item_t) (loop_iterator : option nat)
    (for_in_was_seen : bool) (opcode : cbc_opcode_t) : search_t :=
  match s with
  | [] => search_ill_formed
  | i :: s' =>
      if item_type i =? PARSER_STATEMENT_START then search_reached_start
      else
        match loop_iterator, i with
        | Some loop, item_label label =>
            (* Only those labels are checked, whose are label of a loop. *)
            if lexer_same_identifiers ident (label_ident label)
            then search_found loop opcode
            else continue_label_search ident s' loop_iterator
                                       for_in_was_seen opcode
        | _, _ =>
            let type := item_type i in
            let exits := (type =? PARSER_STATEMENT_WITH)
                         || (type =? PARSER_STATEMENT_TRY)
                         || for_in_was_seen in
            let opcode' := if exits then CBC_JUMP_FORWARD_EXIT_CONTEXT
                           else opcode in
            let for_in_was_seen' :=
              if exits then for_in_was_seen
              else if type =? PARSER_STATEMENT_FOR_IN then true
              else for_in_was_seen in
            let loop_iterator' :=
              if is_loop_type type then Some (length s) else None in
            if is_statement_item i
            then continue_label_search ident s' loop_iterator'
                                       for_in_was_seen' opcode'
            else search_ill_formed
        end
  end.

(** The second loop: "The first loop statement is searched." *)
Fixpoint continue_target_search (s : list stack_item_t)
    (opcode : cbc_opcode_t) : search_t :=
  match s with
  | [] => search_ill_formed
  | i :: s' =>
      if item_type i =? PARSER_STATEMENT_START then search_reached_start
      else if is_loop_type (item_type i)
      then search_found (length s) opcode
      else
        let opcode := if (item_type i =? PARSER_STATEMENT_WITH)
                         || (item_type i =? PARSER_STATEMENT_TRY)
                      then CBC_JUMP_FORWARD_EXIT_CONTEXT else opcode in
        if is_statement_item i
        then continue_target_search s' opcode
        else search_ill_formed
  end.

(** [parser_parse_continue_statement] *)
Definition parser_parse_continue_statement : M unit :=
  lexer_next_token;;
  label ← gets label_follows;
  if label
  then
    r ← gets (fun c =>
      continue_label_search (tok_lit_location (token (lex c))) (stack c)
                            None false CBC_JUMP_FORWARD);
    match r with
    | search_reached_start =>
        parser_raise_error PARSER_ERR_INVALID_CONTINUE_LABEL
    | search_ill_formed => fault undefined_behaviour
    | search_found iterator opcode =>
        file_branch_into_loop iterator opcode true;;
        lexer_next_token
    end
  else
    r ← gets (fun c => continue_target_search (stack c) CBC_JUMP_FORWARD);
    match r with
    | search_reached_start => parser_raise_error PARSER_ERR_INVALID_CONTINUE
    | search_ill_formed => fault undefined_behaviour
    | search_found iterator opcode =>
        file_branch_into_loop iterator opcode true
    end.

(** The search of [parser_parse_label]: is a label of this name open? *)
Fixpoint label_search (ident : lexer_lit_location_t) (s : list stack_item_t)
  : option bool :=
  match s with
  | [] => None
  | i :: s' =>
      if item_type i =? PARSER_STATEMENT_START then Some false
      else
        match i with
        | item_label label =>
            if lexer_same_identifiers ident (label_ident label)
            then Some true
            else label_search ident s'
        | _ => if is_statement_item i then label_search ident s' else None
        end
  end.

(** [parser_parse_label] *)
Definition parser_parse_label (label_literal : lexer_lit_location_t)
  : M unit :=
  r ← gets (fun c => label_search label_literal (stack c));
  match r with
  | None => fault undefined_behaviour
  | Some true => parser_raise_error PARSER_ERR_DUPLICATED_LABEL
  | Some false =>
      parser_stack_push_statement (item_label (mk_label label_literal None));;
      parser_stack_iterator_init_last_statement
  end.

(** *** [parser_parse_statements] *)

(** [memcmp (a, b, n) == 0] on the texts at two pointers. *)
Definition memcmp_equal (a b : string) (n : nat) : bool :=
  String.eqb (substring 0 n a) (substring 0 n b).

(** The test of the directive prologue: the literal is ["use strict"]. *)
Definition is_use_strict (lit_location : lexer_lit_location_t) : bool :=
  (loc_length lit_location =? PARSER_USE_STRICT_LENGTH)
  && negb (loc_has_escape lit_location)
  && memcmp_equal PARSER_USE_STRICT_LITERAL (loc_char_p lit_location)
                  (Z.to_nat PARSER_USE_STRICT_LENGTH).

(** [token.literal_is_reserved = token.type; token.type =
    LEXER_EXPRESSION_START]: "The literal_is_reserved is reused for
    saving the token." *)
Definition save_token_as_expression_start : M unit :=
  modify (fun c =>
    let t := token (lex c) in
    set_lex c
      (set_token (lex c)
         (set_token_type
            (set_literal_is_reserved t (saved_token_type (tok_type t)))
            LEXER_EXPRESSION_START))).

(** [token.type = token.literal_is_reserved] *)
Definition restore_saved_token : M unit :=
  modify (fun c =>
    let t := token (lex c) in
    set_lex c
      (set_token (lex c)
         (set_token_type t
            (literal_is_reserved_token (tok_literal_is_reserved t))))).

(** The token after a string literal shows that the literal starts an
    expression and is no directive. *)
Definition directive_is_expression (c : parser_context_t) : bool :=
  negb (token_is c LEXER_SEMICOLON) && negb (token_is c LEXER_RIGHT_BRACE)
  && (negb (was_newline c)
      || LEXER_IS_BINARY_OP_TOKEN (token_type c)
      || token_is c LEXER_LEFT_PAREN
      || token_is c LEXER_LEFT_SQUARE
      || token_is c LEXER_DOT).

(** The body of the loop over the directive prologue; the current token
    is a string literal.  The result is [false] at the [break]. *)
Definition parser_parse_directive : M bool :=
  lit_location ← gets (fun c => tok_lit_location (token (lex c)));
  lexer_next_token;;
  expression ← gets directive_is_expression;
  if expression
  then
    lexer_construct_literal_object lit_location LEXER_STRING_LITERAL;;
    parser_emit_cbc_literal_from_token CBC_PUSH_LITERAL;;
    save_token_as_expression_start;;
    ret false
  else
    when (is_use_strict lit_location)
      (modify (fun c =>
         set_status_flags c (Z.lor (status_flags c) PARSER_IS_STRICT));;
       reserved ← gets (fun c =>
         token_is_literal c LEXER_IDENT_LITERAL
         && literal_is_reserved_set (tok_literal_is_reserved (token (lex c))));
       raise_if reserved PARSER_ERR_STRICT_IDENT_NOT_ALLOWED);;
    semicolon ← gets (fun c => token_is c LEXER_SEMICOLON);
    when semicolon lexer_next_token;;
    ret true.

(** The loop over the directive prologue. *)
Fixpoint parser_parse_directive_prologue (n : nat) : M unit :=
  match n with
  | O => fault out_of_fuel
  | S n' =>
      literal ← gets (fun c => token_is_literal c LEXER_STRING_LITERAL);
      if literal
      then
        again ← parser_parse_directive;
        if again then parser_parse_directive_prologue n' else ret tt
      else ret tt
  end.

(** [case LEXER_RIGHT_BRACE] of the statement switch: the statements
    that a brace cannot close. *)
Definition top_needs_statement (c : parser_context_t) : bool :=
  let top := stack_top_uint8 c in
  (top =? PARSER_STATEMENT_LABEL) || (top =? PARSER_STATEMENT_IF)
  || (top =? PARSER_STATEMENT_ELSE) || (top =? PARSER_STATEMENT_DO_WHILE)
  || (top =? PARSER_STATEMENT_WHILE) || (top =? PARSER_STATEMENT_FOR)
  || (top =? PARSER_STATEMENT_FOR_IN) || (top =? PARSER_STATEMENT_WITH).

(** [default:] of the statement switch: an expression statement. *)
Definition parser_parse_expression_statement : M unit :=
  function ← gets (fun c => has_flag (status_flags c) PARSER_IS_FUNCTION);
  start ← gets (fun c => token_is c LEXER_EXPRESSION_START);
  when start restore_saved_token;;
  parser_parse_expression
    (let options := if function then PARSE_EXPR_STATEMENT
                    else PARSE_EXPR_BLOCK in
     if start then Z.lor options PARSE_EXPR_HAS_LITERAL else options).

(** [case LEXER_LITERAL] of the statement switch; [true] at its
    [continue]. *)
Definition parser_parse_literal_statement : M bool :=
  ident ← gets (fun c =>
    bool_decide (loc_type (tok_lit_location (token (lex c)))
                 = LEXER_IDENT_LITERAL));
  if ident
  then
    lit_location ← gets (fun c => tok_lit_location (token (lex c)));
    lexer_next_token;;
    colon ← gets (fun c => token_is c LEXER_COLON);
    if colon
    then
      parser_parse_label lit_location;;
      lexer_next_token;;
      ret true
    else
      lexer_construct_literal_object lit_location LEXER_IDENT_LITERAL;;
      parser_emit_cbc_literal_from_token CBC_PUSH_IDENT;;
      save_token_as_expression_start;;
      parser_parse_expression_statement;;
      ret false
  else
    parser_parse_expression_statement;;
    ret false.

(** [switch (context_p->token.type)] of the main loop.  The result is
    [true] where the C code says [continue] and [false] where it leaves
    the switch. *)
Definition parser_parse_statement : M bool :=
  type ← gets token_type;
  match type with
  | LEXER_SEMICOLON => ret false
  | LEXER_RIGHT_BRACE =>
      needs ← gets top_needs_statement;
      raise_if needs PARSER_ERR_STATEMENT_EXPECTED;;
      ret false
  | LEXER_LEFT_BRACE =>
      parser_stack_push_uint8 PARSER_STATEMENT_BLOCK;;
      parser_stack_iterator_init_last_statement;;
      lexer_next_token;;
      ret true
  | LEXER_KEYW_VAR => parser_parse_var_statement;; ret false
  | LEXER_KEYW_FUNCTION => parser_parse_function_statement;; ret true
  | LEXER_KEYW_IF => parser_parse_if_statement_start;; ret true
  | LEXER_KEYW_SWITCH => parser_parse_switch_statement_start;; ret true
  | LEXER_KEYW_DO =>
      start_offset ← gets byte_code_size;
      parser_stack_push_statement
        (item_do_while (mk_do_while start_offset) (mk_loop None));;
      parser_stack_iterator_init_last_statement;;
      lexer_next_token;;
      ret true
  | LEXER_KEYW_WHILE => parser_parse_while_statement_start;; ret true
  | LEXER_KEYW_FOR => parser_parse_for_statement_start;; ret true
  | LEXER_KEYW_WITH => parser_parse_with_statement_start;; ret true
  | LEXER_KEYW_TRY =>
      lexer_next_token;;
      brace ← gets (fun c => token_is c LEXER_LEFT_BRACE);
      raise_if (negb brace) PARSER_ERR_LEFT_BRACE_EXPECTED;;
      branch ← parser_emit_cbc_ext_forward_branch CBC_EXT_TRY_CREATE_CONTEXT;
      parser_stack_push_statement (item_try (mk_try parser_try_block branch));;
      parser_stack_iterator_init_last_statement;;
      lexer_next_token;;
      ret true
  | LEXER_KEYW_DEFAULT => parser_parse_default_statement;; ret true
  | LEXER_KEYW_CASE => parser_parse_case_statement;; ret true
  | LEXER_KEYW_BREAK => parser_parse_break_statement;; ret false
  | LEXER_KEYW_CONTINUE => parser_parse_continue_statement;; ret false
  | LEXER_KEYW_THROW =>
      lexer_next_token;;
      newline ← gets was_newline;
      raise_if newline PARSER_ERR_EXPRESSION_EXPECTED;;
      parser_parse_expression PARSE_EXPR;;
      parser_emit_cbc CBC_THROW;;
      ret false
  | LEXER_KEYW_RETURN =>
      function ← gets (fun c => has_flag (status_flags c) PARSER_IS_FUNCTION);
      raise_if (negb function) PARSER_ERR_INVALID_RETURN;;
      lexer_next_token;;
      bare ← gets (fun c =>
        was_newline c || token_is c LEXER_SEMICOLON
        || token_is c LEXER_RIGHT_BRACE);
      (if bare
       then parser_emit_cbc CBC_RETURN_WITH_UNDEFINED
       else
         parser_parse_expression PARSE_EXPR;;
         parser_emit_cbc CBC_RETURN);;
      ret false
  | LEXER_KEYW_DEBUGGER =>
      parser_emit_cbc_ext CBC_EXT_DEBUGGER;;
      lexer_next_token;;
      ret false
  | LEXER_LITERAL => parser_parse_literal_statement
  | _ => parser_parse_expression_statement;; ret false
  end.

(** How the statement-terminator loop is left: by the [return] that ends
    a function body at its closing brace, or at its foot. *)
Inductive terminator_t : Set :=
| terminator_return
| terminator_done.

(** The closing brace of a switch body. *)
Definition parser_parse_switch_statement_end (has_default : bool)
    (switch_statement : parser_switch_statement_t)
    (loop : parser_loop_statement_t) : M unit :=
  parser_stack_pop_statement;;
  parser_stack_iterator_init_last_statement;;
  when (negb has_default)
    (parser_set_branch_to_current_position
       (switch_default_branch switch_statement));;
  parser_set_breaks_to_current_position (loop_branch_list_p loop);;
  lexer_next_token.

(** The closing brace when a lone byte [b] is on top of the stack. *)
Definition parser_parse_right_brace_uint8 (b : Z) : M bool :=
  if b =? PARSER_STATEMENT_BLOCK
  then
    parser_stack_pop_uint8;;
    parser_stack_iterator_init_last_statement;;
    lexer_next_token;;
    ret false
  else if b =? PARSER_STATEMENT_START
  then
    closure ← gets (fun c => has_flag (status_flags c) PARSER_IS_CLOSURE);
    if closure
    then
      parser_stack_pop_uint8;;
      modify (fun c => set_last_statement c None);;
      (* There is no lexer_next_token here, since the
         next token belongs to the parent context. *)
      ret true
    else parser_raise_error PARSER_ERR_INVALID_RIGHT_SQUARE
  else if (b =? PARSER_STATEMENT_SWITCH)
          || (b =? PARSER_STATEMENT_SWITCH_NO_DEFAULT)
          || (b =? PARSER_STATEMENT_TRY)
  then fault undefined_behaviour
  else ret false.

(** [if (context_p->token.type == LEXER_RIGHT_BRACE)] of the terminator
    loop; [true] at its [return]. *)
Definition parser_parse_right_brace : M bool :=
  s ← gets stack;
  match s with
  | item_switch switch_statement loop :: _ =>
      parser_parse_switch_statement_end true switch_statement loop;;
      ret false
  | item_switch_no_default switch_statement loop :: _ =>
      parser_parse_switch_statement_end false switch_statement loop;;
      ret false
  | item_try _ :: _ => parser_parse_try_statement_end;; ret false
  | item_uint8 _ :: _ | [] =>
      b ← gets stack_top_uint8;
      parser_parse_right_brace_uint8 b
  | _ => ret false
  end.

(** [if (statement_terminator_required)] of the terminator loop; [true]
    at its [return]. *)
Definition parser_parse_statement_terminator : M bool :=
  brace ← gets (fun c => token_is c LEXER_RIGHT_BRACE);
  if brace
  then parser_parse_right_brace
  else
    semicolon ← gets (fun c => token_is c LEXER_SEMICOLON);
    if semicolon
    then lexer_next_token;; ret false
    else
      missing ← gets (fun c =>
        negb (token_is c LEXER_EOS) && negb (was_newline c));
      raise_if missing PARSER_ERR_SEMICOLON_EXPECTED;;
      ret false.

(** [case PARSER_STATEMENT_FOR_IN] of the terminator loop. *)
Definition parser_parse_for_in_statement_end
    (for_in_statement : parser_for_in_statement_t)
    (loop : parser_loop_statement_t) : M unit :=
  parser_stack_pop_statement;;
  parser_stack_iterator_init_last_statement;;
  parser_set_continues_to_current_position (loop_branch_list_p loop);;
  parser_flush_cbc;;
  stack_depth_minus_equal PARSER_FOR_IN_CONTEXT_STACK_ALLOCATION;;
  parser_emit_cbc_ext_backward_branch CBC_EXT_BRANCH_IF_FOR_IN_HAS_NEXT
    (for_in_start_offset for_in_statement);;
  parser_set_breaks_to_current_position (loop_branch_list_p loop);;
  parser_set_branch_to_current_position (for_in_branch for_in_statement).

(** What [switch (context_p->stack_top_uint8)] of the terminator loop
    does next: [Some required] at a [continue] (with the new value of
    [statement_terminator_required]), [None] where the loop is left. *)
Definition parser_close_statement : M (option bool) :=
  s ← gets stack;
  match s with
  | item_label label :: _ =>
      parser_stack_pop_statement;;
      parser_stack_iterator_init_last_statement;;
      parser_set_breaks_to_current_position (label_break_list_p label);;
      ret (Some false)
  | item_if _ :: _ =>
      has_else ← parser_parse_if_statement_end;
      if has_else then ret None else ret (Some false)
  | item_else else_statement :: _ =>
      parser_stack_pop_statement;;
      parser_stack_iterator_init_last_statement;;
      parser_set_branch_to_current_position (if_else_branch else_statement);;
      ret (Some false)
  | item_do_while _ _ :: _ =>
      parser_parse_do_while_statement_end;;
      ret (Some true)
  | item_while _ _ :: _ =>
      parser_parse_while_statement_end;;
      ret (Some false)
  | item_for _ _ :: _ =>
      parser_parse_for_statement_end;;
      ret (Some false)
  | item_for_in for_in_statement loop :: _ =>
      parser_parse_for_in_statement_end for_in_statement loop;;
      ret (Some false)
  | item_with _ :: _ =>
      parser_parse_with_statement_end;;
      ret (Some false)
  | item_uint8 b :: _ =>
      if (b =? PARSER_STATEMENT_LABEL) || (b =? PARSER_STATEMENT_IF)
         || (b =? PARSER_STATEMENT_ELSE) || is_loop_type b
         || (b =? PARSER_STATEMENT_WITH)
      then fault undefined_behaviour
      else ret None
  | _ => ret None
  end.

(** The statement-terminator loop: [while (1)] at the foot of the main
    loop. *)
Fixpoint parser_terminator_loop (n : nat)
    (statement_terminator_required : bool) : M terminator_t :=
  match n with
  | O => fault out_of_fuel
  | S n' =>
      returned ← (if statement_terminator_required
                  then parser_parse_statement_terminator
                  else ret false);
      if returned
      then ret terminator_return
      else
        next ← parser_close_statement;
        match next with
        | Some required => parser_terminator_loop n' required
        | None => ret terminator_done
        end
  end.

(** The main loop of [parser_parse_statements]; [terminator_return] at
    the [return] inside it. *)
Fixpoint parser_statements_loop (n : nat) : M terminator_t :=
  match n with
  | O => fault out_of_fuel
  | S n' =>
      more ← gets (fun c =>
        negb (token_is c LEXER_EOS)
        || negb (stack_top_uint8 c =? PARSER_STATEMENT_START));
      if more
      then
        continue ← parser_parse_statement;
        if continue
        then parser_statements_loop n'
        else
          parser_flush_cbc;;
          t ← parser_terminator_loop fuel true;
          match t with
          | terminator_return => ret terminator_return
          | terminator_done => parser_statements_loop n'
          end
      else ret terminator_done
  end.

(** The statements of [parser_parse_statements] after its prologue. *)
Definition parser_parse_statements_body : M unit :=
  t ← parser_statements_loop fuel;
  match t with
  | terminator_return => ret tt
  | terminator_done =>
      parser_stack_pop_uint8;;
      modify (fun c => set_last_statement c None);;
      closure ← gets (fun c => has_flag (status_flags c) PARSER_IS_CLOSURE);
      raise_if closure PARSER_ERR_STATEMENT_EXPECTED
  end.

(** [parser_parse_statements] *)
Definition parser_parse_statements : M unit :=
  (* Statement parsing cannot be nested. *)
  parser_stack_push_uint8 PARSER_STATEMENT_START;;
  parser_stack_iterator_init_last_statement;;
  parser_parse_directive_prologue fuel;;
  conflict ← gets (fun c =>
    has_flag (status_flags c) PARSER_IS_STRICT
    && has_flag (status_flags c) PARSER_HAS_NON_STRICT_ARG);
  raise_if conflict PARSER_ERR_NON_STRICT_ARG_DEFINITION;;
  parser_parse_statements_body.

(** *** [parser_free_jumps] *)

(** [while (branch_list_p != NULL) { next_p = branch_list_p->next_p;
    parser_free (branch_list_p); branch_list_p = next_p; }] *)
Fixpoint free_branch_list (n : nat) (branch_list_p : option nat) : M unit :=
  match branch_list_p with
  | None => ret tt
  | Some p =>
      match n with
      | O => fault out_of_fuel
      | S n' =>
          node ← node_read p;
          parser_free p;;
          free_branch_list n' (node_next_p node)
      end
  end.

Definition parser_free_branch_list (branch_list_p : option nat) : M unit :=
  fun c => free_branch_list (S (length (branch_nodes c))) branch_list_p c.

(** The loop of [parser_free_jumps] over the items from the iterator
    down. *)
Fixpoint parser_free_jumps_walk (s : list stack_item_t) : M unit :=
  match s with
  | [] => fault undefined_behaviour
  | i :: s' =>
      match i with
      | item_uint8 b =>
          if b =? PARSER_STATEMENT_START then ret tt
          else if b =? PARSER_STATEMENT_BLOCK then parser_free_jumps_walk s'
          else fault undefined_behaviour
      | item_label label =>
          parser_free_branch_list (label_break_list_p label);;
          parser_free_jumps_walk s'
      | item_switch switch_statement loop
      | item_switch_no_default switch_statement loop =>
          parser_free_branch_list (switch_branch_list_p switch_statement);;
          parser_free_branch_list (loop_branch_list_p loop);;
          parser_free_jumps_walk s'
      | item_do_while _ loop | item_while _ loop | item_for _ loop
      | item_for_in _ loop =>
          parser_free_branch_list (loop_branch_list_p loop);;
          parser_free_jumps_walk s'
      | item_if _ | item_else _ | item_with _ | item_try _ =>
          parser_free_jumps_walk s'
      end
  end.

(** [parser_free_jumps (iterator)] *)
Definition parser_free_jumps (iterator : nat) : M unit :=
  fun c =>
    parser_free_jumps_walk
      (drop (length (stack c) - iterator) (stack c)) c.

(** Modelled from the spec: the recovery of the compile entry, which is
    not among the sources: [free_jumps] is "invoked from the top-level
    catch to release every live BranchNode referenced from the statement
    stack", from the iterator of the last statement. *)
Definition parser_error_recovery : M unit :=
  last ← gets last_statement;
  match last with
  | Some iterator => parser_free_jumps iterator
  | None => ret tt
  end.

(** Modelled from the spec: one compilation: [parse_statements], and on
    a raised error the recovery; the error is the result. *)
Definition parser_compile (c : parser_context_t) : outcome unit :=
  match parser_parse_statements c with
  | Raise e c' =>
      match parser_error_recovery c' with
      | Done _ c'' => Raise e c''
      | Raise e' c'' => Raise e' c''
      | Fault f => Fault f
      end
  | o => o
  end.

(** ** Vocabulary of the properties *)

(** The tokens at which [parser_scan_until (..., end_type)] may return
    from the head of a pass in [mode]: the normalized [end_type] and
    [end_type_b], and, in the statement mode of the switch scan, the
    three tokens that this mode looks for. *)
Definition scan_exit_token (end_type : lexer_token_type_t)
    (mode : scan_modes_t) (t : lexer_token_type_t) : Prop :=
  t = (scan_end_types end_type).1
  \/ t = (scan_end_types end_type).2
  \/ ((scan_end_types end_type).1 = LEXER_SCAN_SWITCH
      /\ mode = SCAN_MODE_STATEMENT
      /\ (t = LEXER_KEYW_DEFAULT \/ t = LEXER_KEYW_CASE
          \/ t = LEXER_RIGHT_BRACE)).

(** [scan_passes end_type end_type_b n mode c mode' c']: the loop of
    [parser_scan_until] that is at the head of a pass in [mode] with
    the context [c] goes through [n] passes, none of which returns or
    fails, and is then at the head of a pass in [mode'] with the
    context [c'].  A pass that ends at a [continue] goes to the next
    head as it is; a pass that ends at the foot of the body reads the
    next token first. *)
Inductive scan_passes (end_type end_type_b : lexer_token_type_t)
  : nat -> scan_modes_t -> parser_context_t
    -> scan_modes_t -> parser_context_t -> Prop :=
| scan_passes_none mode c :
    scan_passes end_type end_type_b 0 mode c mode c
| scan_passes_continue n mode c mode1 c1 mode' c' :
    parser_scan_iteration end_type end_type_b mode c
    = Done (scan_continue mode1) c1 ->
    scan_passes end_type end_type_b n mode1 c1 mode' c' ->
    scan_passes end_type end_type_b (S n) mode c mode' c'
| scan_passes_break n mode c mode1 c1 c2 mode' c' :
    parser_scan_iteration end_type end_type_b mode c
    = Done (scan_break mode1) c1 ->
    lexer_next_token c1 = Done tt c2 ->
    scan_passes end_type end_type_b n mode1 c2 mode' c' ->
    scan_passes end_type end_type_b (S n) mode c mode' c'.

(** [patched_to len bc bc']: [bc'] is [bc] with some of its forward
    branches patched to position [len]: the instruction at [i] is as it
    was, or it was a forward branch and now carries the displacement
    [len - i]. *)
Definition patched_to (len : Z) (bc bc' : list cbc_instr_t) : Prop :=
  length bc' = length bc
  /\ forall i : nat,
       bc' !! i = bc !! i
       \/ exists op old,
            bc !! i = Some (cbc_forward_branch op old)
            /\ bc' !! i = Some (cbc_forward_branch op (Some (len - Z.of_nat i))).

(** The forward branches are patched to the end of the code. *)
Definition patched_to_end (bc bc' : list cbc_instr_t) : Prop :=
  patched_to (Z.of_nat (length bc)) bc bc'.

(** [in_branch_list h list_p p n]: following [next_p] from [list_p]
    through the store [h] one comes to the node [n] at address [p]. *)
Inductive in_branch_list (h : list (option parser_branch_node_t))
  : option nat -> nat -> parser_branch_node_t -> Prop :=
| in_branch_list_head p n :
    node_at h p = Some n -> in_branch_list h (Some p) p n
| in_branch_list_tail p n q m :
    node_at h p = Some n ->
    in_branch_list h (node_next_p n) q m ->
    in_branch_list h (Some p) q m.

(** A branch node that is no continue. *)
Definition is_break_node (n : parser_branch_node_t) : Prop :=
  Z.land (branch_offset (node_branch n)) CBC_HIGHEST_BIT_MASK = 0.

(** The opcode of the backward branch of a loop, in the words of the
    design document: [BRANCH_IF_TRUE_BACKWARD], "downgraded to
    JUMP_BACKWARD if the condition folded to PUSH_TRUE, or to
    BRANCH_IF_FALSE_BACKWARD if it ended in LOGICAL_NOT". *)
Definition select_backward_branch (last : cbc_opcode_t) : cbc_opcode_t :=
  match last with
  | CBC_LOGICAL_NOT => CBC_BRANCH_IF_FALSE_BACKWARD
  | CBC_PUSH_TRUE => CBC_JUMP_BACKWARD
  | _ => CBC_BRANCH_IF_TRUE_BACKWARD
  end.

(** The emitter once the last opcode of the condition is folded into
    the branch: a pending [LOGICAL_NOT] or [PUSH_TRUE] is dropped ("the
    NOT is then elided"). *)
Definition fold_condition (e : emitter_t) : emitter_t :=
  match last_cbc_opcode e with
  | CBC_LOGICAL_NOT | CBC_PUSH_TRUE =>
      set_last_cbc_opcode e PARSER_CBC_UNAVAILABLE
  | _ => e
  end.

(** The code of a loop up to and including its backward branch: the
    code of the emitter [e], what is pending included, then the branch
    back to [start]. *)
Definition loop_tail_code (e : emitter_t) (op : cbc_opcode_t) (start : Z)
  : list cbc_instr_t :=
  let code := byte_code (flush_emitter e) in
  code ++ [cbc_backward_branch op (Z.of_nat (length code) - start)].

(** The loop is closed in [c']: nothing is pending, and the code is
    [loop_tail_code e op start] but for forward branches (the breaks of
    the loop) that are patched to its end. *)
Definition loop_closed (e : emitter_t) (op : cbc_opcode_t) (start : Z)
    (c' : parser_context_t) : Prop :=
  last_cbc_opcode (cbc c') = PARSER_CBC_UNAVAILABLE
  /\ patched_to_end (loop_tail_code e op start) (byte_code (cbc c')).

(** What one break of a list receives when the list is drained: a site
    in the code, and there a forward branch to [len]. *)
Definition break_patched (code : list cbc_instr_t) (len : Z)
    (m : parser_branch_node_t) : Prop :=
  is_break_node m ->
  0 <= branch_offset (node_branch m)
  /\ exists op,
       code !! Z.to_nat (branch_offset (node_branch m))
       = Some (cbc_forward_branch op
                 (Some (len - branch_offset (node_branch m)))).

(** The statement stack, its iterator and the branch nodes are as they
    were. *)
Definition frames_kept (c c' : parser_context_t) : Prop :=
  stack c' = stack c /\ last_statement c' = last_statement c
  /\ branch_nodes c' = branch_nodes c.

(** Nothing but the emitter's part of the context has changed. *)
Definition emitter_only (c c' : parser_context_t) : Prop :=
  lex c' = lex c /\ status_flags c' = status_flags c /\ stack c' = stack c
  /\ last_statement c' = last_statement c
  /\ branch_nodes c' = branch_nodes c.

(** [keeps R m]: [R] relates the context before [m] to the context after
    it, whether [m] ends normally or raises an error. *)
Definition keeps {A : Type} (R : relation parser_context_t) (m : M A) : Prop :=
  forall c,
    match m c with
    | Done _ c' | Raise _ c' => R c c'
    | Fault _ => True
    end.

(** A frame of an open statement: a payload with its tag, or the byte
    of a block; not the [START] sentinel. *)
Definition is_frame (i : stack_item_t) : bool :=
  is_statement_item i && negb (item_type i =? PARSER_STATEMENT_START).

Definition is_loop_frame (i : stack_item_t) : bool :=
  match i with
  | item_do_while _ _ | item_while _ _ | item_for _ _ | item_for_in _ _ =>
      true
  | _ => false
  end.

Definition is_label_frame (i : stack_item_t) : bool :=
  match i with
  | item_label _ => true
  | _ => false
  end.

(** The items [s] (top first) begin with label frames, and one of them
    is named [ident]. *)
Definition chain_label (ident : lexer_lit_location_t)
    (s : list stack_item_t) : Prop :=
  exists labels label below,
    s = labels ++ item_label label :: below
    /\ forallb is_label_frame labels = true
    /\ lexer_same_identifiers ident (label_ident label) = true.

(** Among the frames above the [START] sentinel there is a loop frame,
    at the iterator [iterator], that was pushed right after a label
    named [ident], or after labels one of which is named [ident]: the
    label of a loop. *)
Definition labelled_loop_at (ident : lexer_lit_location_t)
    (frames rest : list stack_item_t) (iterator : nat) : Prop :=
  exists above loop tail,
    frames = above ++ loop :: tail
    /\ is_loop_frame loop = true
    /\ chain_label ident tail
    /\ iterator
       = length (loop :: tail ++ item_uint8 PARSER_STATEMENT_START :: rest).

(** The expression parser hands back the bits [flag] of the status
    flags as it received them. *)
Definition expression_parser_keeps (flag : Z) : Prop :=
  forall options flags l e f l' e',
    ext_parse_expression options flags l e = ext_ok (f, l', e') ->
    Z.land f flag = Z.land flags flag.

(** The constructor of function objects hands back the bits [flag] of
    the status flags as it received them. *)
Definition function_object_keeps (flag : Z) : Prop :=
  forall index fl flags l f l',
    ext_construct_function_object index fl flags l = ext_ok (f, l') ->
    Z.land f flag = Z.land flags flag.

(** The bit [PARSER_IS_STRICT] of the status flags is as it was. *)
Definition strict_kept (c c' : parser_context_t) : Prop :=
  Z.land (status_flags c') PARSER_IS_STRICT
  = Z.land (status_flags c) PARSER_IS_STRICT.

(** The context in which the directive prologue of
    [parser_parse_statements] starts: the [START] sentinel is pushed
    and the iterator of the last statement points at it. *)
Definition statements_entered (c : parser_context_t) : parser_context_t :=
  let c1 := set_stack c (item_uint8 PARSER_STATEMENT_START :: stack c) in
  set_last_statement c1 (Some (length (stack c1))).

(** The directives of the prologue: the literals of the bare
    string-literal statements that the loop over the directive
    prologue, run from [c] with fuel for [n] passes, goes through.  A
    string literal is a directive when the token behind it does not
    continue an expression; the list ends where the loop ends: at a
    token that is no string literal, at a string literal that starts an
    expression, or at an error. *)
Fixpoint prologue_directives (n : nat) (c : parser_context_t)
  : list lexer_lit_location_t :=
  match n with
  | O => []
  | S n' =>
      if token_is_literal c LEXER_STRING_LITERAL
      then
        match lexer_next_token c with
        | Done _ c1 =>
            if directive_is_expression c1
            then []
            else
              tok_lit_location (token (lex c))
              :: match parser_parse_directive c with
                 | Done true c' => prologue_directives n' c'
                 | _ => []
                 end
        | _ => []
        end
      else []
  end.

(** The addresses [ps] are, in order, the nodes of the list that starts
    at [p] in the store [h]. *)
Fixpoint branch_list (h : list (option parser_branch_node_t))
    (p : option nat) (ps : list nat) : Prop :=
  match ps with
  | [] => p = None
  | a :: ps' =>
      p = Some a
      /\ exists n, node_at h a = Some n /\ branch_list h (node_next_p n) ps'
  end.

(** The heads of the branch lists that a frame holds. *)
Definition item_branch_lists (i : stack_item_t) : list (option nat) :=
  match i with
  | item_label label => [label_break_list_p label]
  | item_switch switch_statement loop
  | item_switch_no_default switch_statement loop =>
      [switch_branch_list_p switch_statement; loop_branch_list_p loop]
  | item_do_while _ loop | item_while _ loop | item_for _ loop
  | item_for_in _ loop => [loop_branch_list_p loop]
  | _ => []
  end.

(** The store [h'] is [h] with the nodes at [ps] freed, and these
    only. *)
Definition frees_exactly (h h' : list (option parser_branch_node_t))
    (ps : list nat) : Prop :=
  length h' = length h
  /\ (forall a, a ∈ ps -> node_at h' a = None)
  /\ (forall a, a ∉ ps -> node_at h' a = node_at h a).

(** ** Vocabulary of the further properties *)

(** Of the context, only the lexer and the stack may differ. *)
Definition scanner_only (c c' : parser_context_t) : Prop :=
  cbc c' = cbc c /\ status_flags c' = status_flags c
  /\ last_statement c' = last_statement c
  /\ branch_nodes c' = branch_nodes c.

(** The stack [s] while [parser_scan_until] runs on a stack that was
    [base] at its entry: the symbols [syms] of the open brackets, none
    of which is [SCAN_STACK_HEAD], on top of the head symbol. *)
Definition scan_stack (base : list stack_item_t) (syms : list Z)
    (s : list stack_item_t) : Prop :=
  s = map item_uint8 syms ++ item_uint8 SCAN_STACK_HEAD :: base
  /\ Forall (fun b => b <> SCAN_STACK_HEAD) syms.

(** What a part of the scanner may end in, on a stack that was [base]
    when [parser_scan_until] was entered: the stack is still the
    symbols of the scan on top of [base], with [Q] of the result where
    the part returns; the scanner reads no frame of [base] and pops
    nothing that it has not pushed. *)
Definition scan_run {A : Type} (base : list stack_item_t)
    (Q : A -> list Z -> Prop) (o : outcome A) : Prop :=
  match o with
  | Done a c' => exists syms, scan_stack base syms (stack c') /\ Q a syms
  | Raise _ c' => exists syms, scan_stack base syms (stack c')
  | Fault f => f = out_of_fuel
  end.

(** The mode [SCAN_MODE_PROPERTY_NAME] is entered only inside an object
    literal, whose symbol is then on the stack. *)
Definition property_name_inside (mode : scan_modes_t) (syms : list Z)
  : Prop :=
  mode = SCAN_MODE_PROPERTY_NAME -> syms <> [].

(** The parts of the scanner that only read tokens: they leave the
    stack as it is and end in a result of which [Q] holds, in an error
    or out of fuel. *)
Definition reads_tokens {A : Type} (Q : A -> Prop) (m : M A) : Prop :=
  forall c,
    match m c with
    | Done a c' => stack c' = stack c /\ Q a
    | Raise _ c' => stack c' = stack c
    | Fault f => f = out_of_fuel
    end.

(** What one pass through the loop of [parser_scan_until] may end in:
    at the [return] the stack is [base] again, otherwise it is the
    symbols of the scan on top of [base]. *)
Definition scan_step_run (base : list stack_item_t)
    (o : outcome scan_step_t) : Prop :=
  match o with
  | Done scan_return c' => stack c' = base
  | Done (scan_continue mode) c' | Done (scan_break mode) c' =>
      exists syms,
        scan_stack base syms (stack c') /\ property_name_inside mode syms
  | Raise _ c' => exists syms, scan_stack base syms (stack c')
  | Fault f => f = out_of_fuel
  end.

(** The frames a [break] without label stops at: a switch or a loop. *)
Definition is_break_frame (i : stack_item_t) : bool :=
  match i with
  | item_switch _ _ | item_switch_no_default _ _ | item_do_while _ _
  | item_while _ _ | item_for _ _ | item_for_in _ _ => true
  | _ => false
  end.

(** The frames of the statements that hold a context at run time. *)
Definition is_context_frame (i : stack_item_t) : bool :=
  match i with
  | item_for_in _ _ | item_with _ | item_try _ => true
  | _ => false
  end.

Definition is_with_frame (i : stack_item_t) : bool :=
  match i with
  | item_with _ => true
  | _ => false
  end.

Definition is_with_or_try_frame (i : stack_item_t) : bool :=
  match i with
  | item_with _ | item_try _ => true
  | _ => false
  end.

(** The frame of a label named [ident]. *)
Definition is_label_named (ident : lexer_lit_location_t) (i : stack_item_t)
  : bool :=
  match i with
  | item_label label => lexer_same_identifiers ident (label_ident label)
  | _ => false
  end.

(** [t] is the first of the [frames] (top first) of which [P] holds;
    [above] are the frames on top of it and [below] those under it. *)
Definition first_frame (P : stack_item_t -> bool)
    (frames above : list stack_item_t) (t : stack_item_t)
    (below : list stack_item_t) : Prop :=
  frames = above ++ t :: below
  /\ forallb (fun i => negb (P i)) above = true
  /\ P t = true.

(** The opcode of a jump that leaves contexts, or leaves none. *)
Definition jump_opcode (exits : bool) : cbc_opcode_t :=
  if exits then CBC_JUMP_FORWARD_EXIT_CONTEXT else CBC_JUMP_FORWARD.

(** From [c] to [c2] a jump has been emitted and filed: what was
    pending is committed, the forward branch [op] follows it with its
    operand open, and a new branch node holds [offset] and [next_p];
    the lexer, the flags and the iterator of the last statement are as
    they were. *)
Definition jump_filed (c c2 : parser_context_t) (op : cbc_opcode_t)
    (offset : Z) (next_p : option nat) : Prop :=
  lex c2 = lex c /\ status_flags c2 = status_flags c
  /\ last_statement c2 = last_statement c
  /\ last_cbc_opcode (cbc c2) = PARSER_CBC_UNAVAILABLE
  /\ byte_code (cbc c2) = emitted_code c ++ [cbc_forward_branch op None]
  /\ branch_nodes c2
     = branch_nodes c ++ [Some (mk_branch_node (mk_branch offset) next_p)].

(** The lexer [l] stands at [range], with [t] as its current token. *)
Definition lexer_at (range : lexer_range_t) (t : lexer_token_t)
    (l : lexer_context_t) : Prop :=
  token l = t
  /\ source_p l = range_source_p range
  /\ source_end_p l = range_source_end_p range
  /\ line l = range_line range
  /\ column l = range_column range.

(** Whenever [m] returns, the lexer stands at [range] with the token
    [t]. *)
Definition ends_at (range : lexer_range_t) (t : lexer_token_t) (m : M unit)
  : Prop :=
  forall c c', m c = Done tt c' -> lexer_at range t (lex c').

(** *** The discipline of the statement stack *)

(** The stack and the iterator of the last statement are as they
    were. *)
Definition stack_kept (c c' : parser_context_t) : Prop :=
  stack c' = stack c /\ last_statement c' = last_statement c.

(** The stack [s] is a sequence of frames on top of the [START]
    sentinel that was pushed over [base]. *)
Definition frames_above (base s : list stack_item_t) : Prop :=
  exists frames,
    s = frames ++ item_uint8 PARSER_STATEMENT_START :: base
    /\ forallb is_frame frames = true.

(** Between two statements: the stack is a sequence of frames above
    the sentinel, and the iterator of the last statement points at its
    top. *)
Definition statements_open (base : list stack_item_t)
    (c : parser_context_t) : Prop :=
  frames_above base (stack c) /\ last_statement c = Some (length (stack c)).

(** After the statements: the sentinel is popped and the iterator is
    NULL. *)
Definition statements_closed (base : list stack_item_t)
    (c : parser_context_t) : Prop :=
  stack c = base /\ last_statement c = None.

(** What a scan that fails leaves on top of the stack: nothing, or
    its head symbol under the symbols of the brackets that were open;
    bytes, and no frame of a statement. *)
Definition scan_bytes (junk : list stack_item_t) : Prop :=
  junk = []
  \/ exists syms,
       junk = map item_uint8 syms ++ [item_uint8 SCAN_STACK_HEAD]
       /\ Forall (fun b => b <> SCAN_STACK_HEAD) syms.

(** Where an error may leave the context: the iterator of the last
    statement points at the top of a sequence of frames above the
    sentinel, on top of which there may be the bytes of a scan that was
    under way; or the statements are closed. *)
Definition statements_failed (base : list stack_item_t)
    (c : parser_context_t) : Prop :=
  (exists junk s,
     stack c = junk ++ s /\ scan_bytes junk /\ frames_above base s
     /\ last_statement c = Some (length s))
  \/ statements_closed base c.

(** [triple base P m Q]: from a context of which [P] holds, [m]
    returns in a context of which [Q] holds, or raises an error in a
    context that [parser_free_jumps] can walk. *)
Definition triple {A : Type} (base : list stack_item_t)
    (P : parser_context_t -> Prop) (m : M A)
    (Q : A -> parser_context_t -> Prop) : Prop :=
  forall c,
    P c ->
    match m c with
    | Done a c' => Q a c'
    | Raise _ c' => statements_failed base c'
    | Fault _ => True
    end.

(** [P] looks at the stack and at the iterator of the last statement
    only, and holds between statements only. *)
Definition stack_property (base : list stack_item_t)
    (P : parser_context_t -> Prop) : Prop :=
  (forall c c', stack_kept c c' -> P c -> P c')
  /\ forall c, P c -> statements_open base c.

(** The stack is a sequence of frames above the sentinel; the iterator
    of the last statement may lag behind. *)
Definition stack_framed (base : list stack_item_t) (c : parser_context_t)
  : Prop :=
  frames_above base (stack c).

(** [m] goes from one statement boundary to another. *)
Definition steady {A : Type} (base : list stack_item_t) (m : M A) : Prop :=
  triple base (statements_open base) m (fun _ => statements_open base).

(** Between two statements, with a frame of the kind [K] on top. *)
Definition top_open (base : list stack_item_t) (K : stack_item_t -> bool)
    (c : parser_context_t) : Prop :=
  statements_open base c
  /\ exists i s, stack c = i :: s /\ K i = true /\ is_frame i = true.

(** The same, where [iterator] points at the frame on top. *)
Definition top_open_at (base : list stack_item_t) (K : stack_item_t -> bool)
    (iterator : nat) (c : parser_context_t) : Prop :=
  top_open base K c /\ iterator = length (stack c).

(** Between two statements, where [iterator] points at one of the
    frames above the sentinel. *)
Definition iterator_in_frames (base : list stack_item_t) (iterator : nat)
    (c : parser_context_t) : Prop :=
  statements_open base c
  /\ exists above t below,
       stack c
       = above ++ t :: below ++ item_uint8 PARSER_STATEMENT_START :: base
       /\ forallb is_frame (above ++ t :: below) = true
       /\ iterator
          = length (t :: below ++ item_uint8 PARSER_STATEMENT_START :: base).

Definition is_switch_frame (i : stack_item_t) : bool :=
  match i with
  | item_switch _ _ | item_switch_no_default _ _ => true
  | _ => false
  end.

Definition is_try_frame (i : stack_item_t) : bool :=
  match i with
  | item_try _ => true
  | _ => false
  end.

Definition is_if_frame (i : stack_item_t) : bool :=
  match i with
  | item_if _ => true
  | _ => false
  end.

Definition is_else_frame (i : stack_item_t) : bool :=
  match i with
  | item_else _ => true
  | _ => false
  end.

(** How the terminator loop leaves the context: closed at its
    [return], between two statements otherwise. *)
Definition terminator_post (base : list stack_item_t) (t : terminator_t)
    (c : parser_context_t) : Prop :=
  match t with
  | terminator_return => statements_closed base c
  | terminator_done => statements_open base c
  end.

(** How a closing brace or a missing semicolon leaves the context:
    closed at the [return] of a function body, between two statements
    otherwise. *)
Definition returned_post (base : list stack_item_t) (returned : bool)
    (c : parser_context_t) : Prop :=
  if returned then statements_closed base c else statements_open base c.

(** How the main loop leaves the context: closed at its [return], with
    nothing but the sentinel above [base] at its end. *)
Definition statements_loop_post (base : list stack_item_t)
    (t : terminator_t) (c : parser_context_t) : Prop :=
  match t with
  | terminator_return => statements_closed base c
  | terminator_done =>
      statements_open base c
      /\ stack c = item_uint8 PARSER_STATEMENT_START :: base
  end.

(** The status flags of [c'] are those of [c], but for
    [PARSER_IS_STRICT], which may have been set. *)
Definition strict_or_same (c c' : parser_context_t) : Prop :=
  status_flags c' = status_flags c
  \/ status_flags c' = Z.lor (status_flags c) PARSER_IS_STRICT.

(** What one continue of a list receives when the continues of the
    list are patched: at its site (the mark taken off its offset) a
    forward branch to [len]. *)
Definition continue_patched (code : list cbc_instr_t) (len : Z)
    (m : parser_branch_node_t) : Prop :=
  ~ is_break_node m ->
  let site := Z.ldiff (branch_offset (node_branch m)) CBC_HIGHEST_BIT_MASK in
  0 <= site
  /\ exists op,
       code !! Z.to_nat site
       = Some (cbc_forward_branch op (Some (len - site))).

(* ===================================================================== *)
(** * Part III. Properties of the pre-scanner and the statement parser   *)
(* ===================================================================== *)

(** ** Reasoning about runs *)

Lemma bind_done {A B : Type} (m : M A) (f : A -> M B) c a c' :
  m c = Done a c' -> bind m f c = f a c'.
Proof. intros H. unfold bind. rewrite H. reflexivity. Qed.

Lemma bind_raise {A B : Type} (m : M A) (f : A -> M B) c e c' :
  m c = Raise e c' -> bind m f c = Raise e c'.
Proof. intros H. unfold bind. rewrite H. reflexivity. Qed.

Lemma bind_done_inv {A B : Type} (m : M A) (f : A -> M B) c b c'' :
  bind m f c = Done b c'' ->
  exists a c', m c = Done a c' /\ f a c' = Done b c''.
Proof.
  unfold bind. destruct (m c) as [a c' | e c' | ft]; try discriminate.
  intros H. exists a, c'. split; [reflexivity | exact H].
Qed.

Lemma bind_raise_inv {A B : Type} (m : M A) (f : A -> M B) c e c'' :
  bind m f c = Raise e c'' ->
  m c = Raise e c''
  \/ exists a c', m c = Done a c' /\ f a c' = Raise e c''.
Proof.
  unfold bind. destruct (m c) as [a c' | e' c' | ft]; try discriminate.
  - intros H. right. exists a, c'. split; [reflexivity | exact H].
  - intros H. left. injection H as -> ->. reflexivity.
Qed.

Lemma ret_done_inv {A : Type} (a b : A) c c' :
  ret a c = Done b c' -> a = b /\ c = c'.
Proof. unfold ret. intros H. injection H as -> ->. split; reflexivity. Qed.

Lemma gets_done_inv {A : Type} (f : parser_context_t -> A) c a c' :
  gets f c = Done a c' -> a = f c /\ c' = c.
Proof. unfold gets. intros H. injection H as <- <-. split; reflexivity. Qed.

Lemma modify_done_inv (f : parser_context_t -> parser_context_t) c u c' :
  modify f c = Done u c' -> c' = f c.
Proof. unfold modify. intros H. injection H as _ <-. reflexivity. Qed.

Lemma raise_if_done_inv (b : bool) e c u c' :
  raise_if b e c = Done u c' -> b = false /\ c' = c.
Proof.
  unfold raise_if. destruct b; [discriminate |].
  intros H. apply ret_done_inv in H as [_ <-]. split; reflexivity.
Qed.

(** One step of a run that ends in [Done]: the first action of a [bind]
    is split off and, where it is a primitive, resolved. *)
Ltac run_step H :=
  let a := fresh "a" in
  let c := fresh "c" in
  let H1 := fresh "Hstep" in
  apply bind_done_inv in H as (a & c & H1 & H);
  first
    [ apply gets_done_inv in H1 as [-> ->]
    | apply modify_done_inv in H1 as ->
    | apply raise_if_done_inv in H1 as [H1 ->]
    | apply ret_done_inv in H1 as [<- <-]
    | idtac ];
  try match goal with u : unit |- _ => destruct u end.

(** ** Relations that every step of a run keeps *)

Section keeps.

Variable R : relation parser_context_t.
Hypothesis R_refl : forall c, R c c.
Hypothesis R_trans : forall c1 c2 c3, R c1 c2 -> R c2 c3 -> R c1 c3.

Lemma keeps_ret {A : Type} (a : A) : keeps R (ret a).
Proof. intros c. apply R_refl. Qed.

Lemma keeps_raise {A : Type} e : keeps R (@parser_raise_error A e).
Proof. intros c. apply R_refl. Qed.

Lemma keeps_fault {A : Type} f : keeps R (@fault A f).
Proof. intros c. exact Logic.I. Qed.

Lemma keeps_gets {A : Type} (f : parser_context_t -> A) : keeps R (gets f).
Proof. intros c. apply R_refl. Qed.

Lemma keeps_modify (f : parser_context_t -> parser_context_t) :
  (forall c, R c (f c)) -> keeps R (modify f).
Proof. intros H c. apply H. Qed.

Lemma keeps_bind {A B : Type} (m : M A) (f : A -> M B) :
  keeps R m -> (forall a, keeps R (f a)) -> keeps R (bind m f).
Proof.
  intros Hm Hf c. unfold bind. specialize (Hm c).
  destruct (m c) as [a c1 | e c1 | ft]; [| exact Hm | exact Logic.I].
  specialize (Hf a c1).
  destruct (f a c1) as [b c2 | e c2 | ft]; [| | exact Logic.I];
    eapply R_trans; eassumption.
Qed.

Lemma keeps_raise_if (b : bool) e : keeps R (raise_if b e).
Proof. destruct b; [apply keeps_raise | apply keeps_ret]. Qed.

Lemma keeps_when (b : bool) (m : M unit) : keeps R m -> keeps R (when b m).
Proof. intros H. destruct b; [exact H | apply keeps_ret]. Qed.

Lemma keeps_if {A : Type} (b : bool) (m1 m2 : M A) :
  keeps R m1 -> keeps R m2 -> keeps R (if b then m1 else m2).
Proof. intros H1 H2. destruct b; assumption. Qed.

End keeps.

(** What a kept relation says of a run that is known. *)
Lemma keeps_done {A : Type} R (m : M A) c a c' :
  keeps R m -> m c = Done a c' -> R c c'.
Proof. intros H E. specialize (H c). rewrite E in H. exact H. Qed.

Lemma keeps_raised {A : Type} R (m : M A) c e c' :
  keeps R m -> m c = Raise e c' -> R c c'.
Proof. intros H E. specialize (H c). rewrite E in H. exact H. Qed.

(** The structural steps of a proof of [keeps R m], for a relation with
    the proofs [refl] and [trans]. *)
Ltac keeps_step refl trans :=
  first
    [ apply (keeps_bind _ trans); [| intros ?]
    | apply (keeps_gets _ refl)
    | apply (keeps_raise_if _ refl)
    | apply (keeps_ret _ refl)
    | apply (keeps_raise _ refl)
    | apply keeps_fault
    | apply (keeps_when _ refl)
    | apply keeps_if ].

(** ** The pre-scanner *)

Lemma continue_or_break_not_return (r : bool * scan_modes_t) :
  continue_or_break r <> scan_return.
Proof. unfold continue_or_break. destruct r.1; discriminate. Qed.

(** The [switch (mode)] returns only from the statement mode of a switch
    scan, with the [HEAD] symbol on top. *)
Lemma parser_scan_switch_return mode type stack_top end_type c c' :
  parser_scan_switch mode type stack_top end_type c = Done scan_return c' ->
  end_type = LEXER_SCAN_SWITCH /\ mode = SCAN_MODE_STATEMENT
  /\ stack_top = SCAN_STACK_HEAD
  /\ (type = LEXER_KEYW_DEFAULT \/ type = LEXER_KEYW_CASE
      \/ type = LEXER_RIGHT_BRACE)
  /\ parser_stack_pop_uint8 c = Done tt c'.
Proof.
  intros H. destruct mode; simpl in H.
  - destruct (_ || _ || _).
    + apply ret_done_inv in H as [[=] _].
    + run_step H. apply ret_done_inv in H as [H _].
      now apply continue_or_break_not_return in H.
  - run_step H. apply ret_done_inv in H as [H _].
    now apply continue_or_break_not_return in H.
  - run_step H. destruct a.1.
    + apply ret_done_inv in H as [[=] _].
    + run_step H. apply ret_done_inv in H as [H _].
      now apply continue_or_break_not_return in H.
  - run_step H. apply ret_done_inv in H as [H _].
    now apply continue_or_break_not_return in H.
  - destruct (bool_decide (end_type = LEXER_SCAN_SWITCH)) eqn:E1; simpl in H.
    2:{ run_step H. apply ret_done_inv in H as [H _].
        now apply continue_or_break_not_return in H. }
    destruct (stack_top =? SCAN_STACK_HEAD) eqn:E2; simpl in H.
    2:{ run_step H. apply ret_done_inv in H as [H _].
        now apply continue_or_break_not_return in H. }
    destruct (_ || _ || _) eqn:E3.
    2:{ run_step H. apply ret_done_inv in H as [H _].
        now apply continue_or_break_not_return in H. }
    apply bool_decide_eq_true in E1. apply Z.eqb_eq in E2.
    run_step H. apply ret_done_inv in H as [_ <-].
    repeat split; try assumption.
    apply orb_true_iff in E3 as [E3 | E3];
      [apply orb_true_iff in E3 as [E3 | E3] |];
      apply bool_decide_eq_true in E3; auto.
  - run_step H. apply ret_done_inv in H as [[=] _].
  - run_step H. apply ret_done_inv in H as [[=] _].
Qed.

(** One pass through the loop returns only with [HEAD] on top of the
    stack, at a token that is not [EOS]; it pops [HEAD] and does nothing
    else. *)
Lemma parser_scan_iteration_return end_type end_type_b mode c c' :
  parser_scan_iteration end_type end_type_b mode c = Done scan_return c' ->
  stack_top_uint8 c = SCAN_STACK_HEAD
  /\ token_type c <> LEXER_EOS
  /\ (token_type c = end_type \/ token_type c = end_type_b
      \/ (end_type = LEXER_SCAN_SWITCH
          /\ mode = SCAN_MODE_STATEMENT
          /\ (token_type c = LEXER_KEYW_DEFAULT
              \/ token_type c = LEXER_KEYW_CASE
              \/ token_type c = LEXER_RIGHT_BRACE)))
  /\ parser_stack_pop_uint8 c = Done tt c'.
Proof.
  intros H. unfold parser_scan_iteration in H.
  run_step H. run_step H. run_step H.
  apply bool_decide_eq_false in Hstep.
  destruct (stack_top_uint8 c =? SCAN_STACK_HEAD) eqn:E1; simpl in H.
  - destruct (_ || _) eqn:E2.
    + run_step H. apply ret_done_inv in H as [_ <-].
      apply Z.eqb_eq in E1. repeat split; try assumption.
      apply orb_true_iff in E2 as [E2 | E2];
        apply bool_decide_eq_true in E2; auto.
    + apply parser_scan_switch_return in H as (-> & Hm & Hs & Ht & Hp).
      repeat split; auto.
  - apply parser_scan_switch_return in H as (_ & _ & Hs & _).
    apply Z.eqb_neq in E1. contradiction.
Qed.

(** At [EOS] a pass through the loop raises
    [PARSER_ERR_EXPRESSION_EXPECTED]. *)
Lemma parser_scan_iteration_eos end_type end_type_b mode c :
  token_type c = LEXER_EOS ->
  parser_scan_iteration end_type end_type_b mode c
  = Raise PARSER_ERR_EXPRESSION_EXPECTED c.
Proof.
  intros H. unfold parser_scan_iteration, bind, gets, raise_if,
    parser_raise_error.
  rewrite H. reflexivity.
Qed.


(** ** The emitter *)

Lemma patched_to_refl len bc : patched_to len bc bc.
Proof. split; [reflexivity | intros i; left; reflexivity]. Qed.

Lemma patched_to_trans len bc1 bc2 bc3 :
  patched_to len bc1 bc2 -> patched_to len bc2 bc3 -> patched_to len bc1 bc3.
Proof.
  intros [Hl1 H1] [Hl2 H2]. split; [congruence |].
  intros i. destruct (H2 i) as [E2 | (op & old & E2 & E2')].
  - destruct (H1 i) as [E1 | (op & old & E1 & E1')].
    + left. congruence.
    + right. exists op, old. split; [exact E1 | congruence].
  - destruct (H1 i) as [E1 | (op1 & old1 & E1 & E1')].
    + right. exists op, old. split; [congruence | exact E2'].
    + right. exists op1, old1. split; [exact E1 |].
      rewrite E2'. rewrite E1' in E2. injection E2 as -> _. reflexivity.
Qed.

Lemma patched_to_length len bc bc' :
  patched_to len bc bc' -> length bc' = length bc.
Proof. intros [H _]. exact H. Qed.

(** A branch that is patched to [len] stays as it is. *)
Lemma patched_to_keeps_patch len bc bc' i op :
  patched_to len bc bc' ->
  bc !! i = Some (cbc_forward_branch op (Some (len - Z.of_nat i))) ->
  bc' !! i = Some (cbc_forward_branch op (Some (len - Z.of_nat i))).
Proof.
  intros [_ H] E. destruct (H i) as [E' | (op' & old & E1 & E2)].
  - congruence.
  - rewrite E in E1. injection E1 as -> _. exact E2.
Qed.

(** An instruction that is no forward branch stays as it is. *)
Lemma patched_to_keeps_other len bc bc' i x :
  patched_to len bc bc' ->
  bc !! i = Some x -> (forall op d, x <> cbc_forward_branch op d) ->
  bc' !! i = Some x.
Proof.
  intros [_ H] E Hx. destruct (H i) as [E' | (op' & old & E1 & E2)].
  - congruence.
  - rewrite E in E1. injection E1 as ->. now destruct (Hx op' old).
Qed.

Lemma patched_to_insert len bc i op old :
  bc !! i = Some (cbc_forward_branch op old) ->
  patched_to len bc
    (<[i := cbc_forward_branch op (Some (len - Z.of_nat i))]> bc).
Proof.
  intros E. split; [apply length_insert |].
  intros j. destruct (decide (i = j)) as [<- | Hne].
  - right. exists op, old. split; [exact E |].
    apply list_lookup_insert_eq. eapply lookup_lt_Some. exact E.
  - left. apply list_lookup_insert_ne. exact Hne.
Qed.

(** Code that ends in a backward branch still ends in it after patches. *)
Lemma patched_to_backward_branch_last len bc op d bc' :
  patched_to len (bc ++ [cbc_backward_branch op d]) bc' ->
  exists bc0, bc' = bc0 ++ [cbc_backward_branch op d]
              /\ length bc0 = length bc.
Proof.
  intros H. pose proof (patched_to_length _ _ _ H) as Hl.
  rewrite length_app in Hl. simpl in Hl.
  assert (E : bc' !! length bc = Some (cbc_backward_branch op d)).
  { eapply patched_to_keeps_other; [exact H | | discriminate].
    rewrite lookup_app_r by lia. rewrite Nat.sub_diag. reflexivity. }
  exists (take (length bc) bc'). split.
  - rewrite <- (take_drop (length bc) bc') at 1. f_equal.
    apply list_eq. intros [| j]; simpl.
    + rewrite lookup_drop, Nat.add_0_r. exact E.
    + rewrite lookup_drop. apply lookup_ge_None_2. lia.
  - rewrite length_take. lia.
Qed.

Lemma flush_emitter_last e :
  last_cbc_opcode (flush_emitter e) = PARSER_CBC_UNAVAILABLE.
Proof.
  unfold flush_emitter. destruct (last_cbc_opcode e) eqn:E; try reflexivity.
  exact E.
Qed.

Lemma flush_emitter_unavailable e :
  last_cbc_opcode e = PARSER_CBC_UNAVAILABLE -> flush_emitter e = e.
Proof. intros E. unfold flush_emitter. rewrite E. reflexivity. Qed.

Lemma flush_emitter_idem e : flush_emitter (flush_emitter e) = flush_emitter e.
Proof. apply flush_emitter_unavailable, flush_emitter_last. Qed.

Lemma emitted_code_unavailable c :
  last_cbc_opcode (cbc c) = PARSER_CBC_UNAVAILABLE ->
  emitted_code c = byte_code (cbc c).
Proof.
  intros E. unfold emitted_code. rewrite flush_emitter_unavailable by exact E.
  reflexivity.
Qed.

(** Committing the cache changes nothing that can be observed. *)
Lemma parser_flush_cbc_done c :
  parser_flush_cbc c = Done tt (set_cbc c (flush_emitter (cbc c))).
Proof. reflexivity. Qed.

Lemma emitted_code_flush c :
  emitted_code (set_cbc c (flush_emitter (cbc c))) = emitted_code c.
Proof. unfold emitted_code. simpl. rewrite flush_emitter_idem. reflexivity. Qed.

Lemma emitter_only_refl c : emitter_only c c.
Proof. repeat split. Qed.

Lemma emitter_only_trans c1 c2 c3 :
  emitter_only c1 c2 -> emitter_only c2 c3 -> emitter_only c1 c3.
Proof.
  intros (A1 & A2 & A3 & A4 & A5) (B1 & B2 & B3 & B4 & B5).
  repeat split; congruence.
Qed.

Lemma emitter_only_set_cbc c e : emitter_only c (set_cbc c e).
Proof. repeat split. Qed.

(** A backward branch becomes the last instruction of the code; its
    displacement is the distance from the target. *)
Lemma parser_emit_cbc_backward_branch_done op target c :
  exists c',
    parser_emit_cbc_backward_branch op target c = Done tt c'
    /\ emitter_only c c'
    /\ last_cbc_opcode (cbc c') = PARSER_CBC_UNAVAILABLE
    /\ byte_code (cbc c')
       = emitted_code c
         ++ [cbc_backward_branch op
               (Z.of_nat (length (emitted_code c)) - target)].
Proof.
  eexists. split; [reflexivity |]. split; [repeat split |].
  split; [apply flush_emitter_last | reflexivity].
Qed.

(** A forward branch becomes the last instruction of the code, without
    displacement; the branch records its position. *)
Lemma parser_emit_cbc_forward_branch_done op c :
  exists c',
    parser_emit_cbc_forward_branch op c
    = Done (mk_branch (Z.of_nat (length (emitted_code c)))) c'
    /\ emitter_only c c'
    /\ last_cbc_opcode (cbc c') = PARSER_CBC_UNAVAILABLE
    /\ byte_code (cbc c') = emitted_code c ++ [cbc_forward_branch op None].
Proof.
  eexists. split; [reflexivity |]. split; [repeat split |].
  split; [apply flush_emitter_last | reflexivity].
Qed.

(** The patch of a branch: the cache is committed, and the forward
    branch at the site of the branch receives the distance to the end
    of the code. *)
Lemma parser_set_branch_to_current_position_done branch c u c' :
  parser_set_branch_to_current_position branch c = Done u c' ->
  let site := Z.ldiff (branch_offset branch) CBC_HIGHEST_BIT_MASK in
  exists op old,
    0 <= site
    /\ emitted_code c !! Z.to_nat site = Some (cbc_forward_branch op old)
    /\ c' = set_cbc c
              (set_byte_code (flush_emitter (cbc c))
                 (<[Z.to_nat site :=
                      cbc_forward_branch op
                        (Some (Z.of_nat (length (emitted_code c)) - site))]>
                    (emitted_code c))).
Proof.
  intros H site. unfold parser_set_branch_to_current_position in H.
  run_step H.
  unfold patch_forward_branch in H. simpl in H. fold site in H.
  destruct (byte_code (flush_emitter (cbc c)) !! Z.to_nat site)
    as [[| op old |] |] eqn:E; try discriminate.
  destruct (0 <=? site) eqn:Hs; [| discriminate].
  apply Z.leb_le in Hs. injection H as _ <-.
  exists op, old. repeat split; try assumption.
Qed.

Lemma parser_set_branch_to_current_position_spec branch c u c' :
  parser_set_branch_to_current_position branch c = Done u c' ->
  let site := Z.ldiff (branch_offset branch) CBC_HIGHEST_BIT_MASK in
  emitter_only c c'
  /\ last_cbc_opcode (cbc c') = PARSER_CBC_UNAVAILABLE
  /\ patched_to_end (emitted_code c) (byte_code (cbc c'))
  /\ 0 <= site
  /\ exists op,
       byte_code (cbc c') !! Z.to_nat site
       = Some (cbc_forward_branch op
                 (Some (Z.of_nat (length (emitted_code c)) - site))).
Proof.
  intros H site.
  apply parser_set_branch_to_current_position_done in H
    as (op & old & Hs & E & ->).
  fold site in Hs, E |- *.
  split; [apply emitter_only_set_cbc |].
  split; [apply flush_emitter_last |]. simpl.
  assert (Hsite : Z.of_nat (Z.to_nat site) = site) by lia.
  split; [| split; [exact Hs |]].
  - unfold patched_to_end. rewrite <- Hsite at 2.
    eapply patched_to_insert. exact E.
  - exists op. apply list_lookup_insert_eq. eapply lookup_lt_Some. exact E.
Qed.

(** ** Branch lists *)

Lemma ldiff_unmarked (x m : Z) : Z.land x m = 0 -> Z.ldiff x m = x.
Proof.
  intros H. apply Z.bits_inj'. intros i Hi.
  rewrite Z.ldiff_spec.
  assert (Hb : Z.testbit (Z.land x m) i = false) by (rewrite H; apply Z.bits_0).
  rewrite Z.land_spec in Hb.
  destruct (Z.testbit x i), (Z.testbit m i); simpl in *; congruence.
Qed.

Lemma node_at_free h a q :
  node_at (<[a := None]> h) q = if decide (a = q) then None else node_at h q.
Proof.
  unfold node_at. destruct (decide (a = q)) as [<- | Hne].
  - destruct (decide (a < length h)%nat) as [Hlt | Hge].
    + rewrite list_lookup_insert_eq by exact Hlt. reflexivity.
    + rewrite list_insert_ge by lia.
      rewrite lookup_ge_None_2 by lia. reflexivity.
  - rewrite list_lookup_insert_ne by exact Hne. reflexivity.
Qed.

Lemma parser_free_done p c u c' :
  parser_free p c = Done u c' ->
  c' = set_branch_nodes c (<[p := None]> (branch_nodes c))
  /\ is_Some (node_at (branch_nodes c) p).
Proof.
  unfold parser_free. destruct (node_at (branch_nodes c) p) eqn:E;
    [| discriminate].
  intros H. injection H as _ <-. split; [reflexivity | eauto].
Qed.

Lemma node_read_done p c n c' :
  node_read p c = Done n c' -> c' = c /\ node_at (branch_nodes c) p = Some n.
Proof.
  unfold node_read. destruct (node_at (branch_nodes c) p) eqn:E;
    [| discriminate].
  intros H. injection H as <- <-. split; reflexivity.
Qed.

Lemma in_branch_list_null h q m : ~ in_branch_list h None q m.
Proof. intros H. inversion H. Qed.

(** The step of [set_breaks_loop] on one node. *)
Lemma set_breaks_patch_node nd c u c2 :
  when (Z.land (branch_offset (node_branch nd)) CBC_HIGHEST_BIT_MASK =? 0)
       (parser_set_branch_to_current_position (node_branch nd)) c
  = Done u c2 ->
  emitter_only c c2
  /\ patched_to_end (emitted_code c) (emitted_code c2)
  /\ (last_cbc_opcode (cbc c) = PARSER_CBC_UNAVAILABLE ->
      last_cbc_opcode (cbc c2) = PARSER_CBC_UNAVAILABLE)
  /\ break_patched (emitted_code c2) (Z.of_nat (length (emitted_code c))) nd.
Proof.
  intros H. unfold when in H. unfold break_patched, is_break_node.
  destruct (Z.land _ _ =? 0) eqn:Em.
  - apply Z.eqb_eq in Em.
    apply parser_set_branch_to_current_position_spec in H
      as (P1 & P2 & P3 & P4 & op & P5).
    rewrite (emitted_code_unavailable c2) by exact P2.
    rewrite ldiff_unmarked in P4, P5 by exact Em.
    split; [exact P1 |]. split; [exact P3 |]. split; [auto |].
    intros _. split; [exact P4 | eauto].
  - apply ret_done_inv in H as [_ <-]. apply Z.eqb_neq in Em.
    split; [apply emitter_only_refl |].
    split; [apply patched_to_refl |]. split; [auto |].
    intros Hm. contradiction.
Qed.

Lemma break_patched_kept code code' len m :
  patched_to len code code' ->
  break_patched code len m -> break_patched code' len m.
Proof.
  intros Hp Hb Hm. destruct (Hb Hm) as (Hz & op & Hop).
  split; [exact Hz |]. exists op.
  rewrite <- (Z2Nat.id (branch_offset (node_branch m))) at 2 by exact Hz.
  eapply patched_to_keeps_patch; [exact Hp |].
  rewrite Z2Nat.id by exact Hz. exact Hop.
Qed.

(** What [parser_set_breaks_to_current_position] does to a list: every
    node of the list is freed, every break among them is patched to the
    end of the code, and nothing else changes but for these patches.
    The list may be read in any store [h] that holds the nodes of the
    context. *)
Lemma set_breaks_loop_spec n list_p c u c' :
  set_breaks_loop n list_p c = Done u c' ->
  lex c' = lex c /\ status_flags c' = status_flags c /\ stack c' = stack c
  /\ last_statement c' = last_statement c
  /\ patched_to_end (emitted_code c) (emitted_code c')
  /\ (last_cbc_opcode (cbc c) = PARSER_CBC_UNAVAILABLE ->
      last_cbc_opcode (cbc c') = PARSER_CBC_UNAVAILABLE)
  /\ (forall q, node_at (branch_nodes c') q = node_at (branch_nodes c) q
                \/ node_at (branch_nodes c') q = None)
  /\ (forall h q m,
        (forall a x, node_at (branch_nodes c) a = Some x ->
                     node_at h a = Some x) ->
        in_branch_list h list_p q m ->
        node_at (branch_nodes c') q = None
        /\ break_patched (emitted_code c')
                         (Z.of_nat (length (emitted_code c))) m).
Proof.
  revert list_p c u c'. induction n as [| n IH]; intros list_p c u c' H.
  - destruct list_p as [p |]; simpl in H; [discriminate |].
    apply ret_done_inv in H as [_ <-].
    repeat split; auto using patched_to_refl;
      exfalso; eapply in_branch_list_null; eassumption.
  - destruct list_p as [p |]; simpl in H.
    2:{ apply ret_done_inv in H as [_ <-].
        repeat split; auto using patched_to_refl;
          exfalso; eapply in_branch_list_null; eassumption. }
    apply bind_done_inv in H as (nd & c1 & Hread & H).
    apply node_read_done in Hread as [-> Hnd].
    apply bind_done_inv in H as ([] & c2 & Hpatch & H).
    apply bind_done_inv in H as ([] & c3 & Hfree & H).
    apply parser_free_done in Hfree as [-> _].
    apply IH in H as (L1 & L2 & L3 & L4 & L5 & L6 & L7 & L8). clear IH.
    apply set_breaks_patch_node in Hpatch
      as ((E1 & E2 & E3 & E4 & E5) & Hp2 & Hl2 & Hb2).
    simpl in L1, L2, L3, L4, L6, L7, L8.
    change (emitted_code (set_branch_nodes c2 _)) with (emitted_code c2)
      in L5, L8.
    assert (Hlen : length (emitted_code c2) = length (emitted_code c))
      by (apply (patched_to_length _ _ _ Hp2)).
    assert (Hp : patched_to (Z.of_nat (length (emitted_code c)))
                   (emitted_code c2) (emitted_code c')).
    { unfold patched_to_end in L5. rewrite Hlen in L5. exact L5. }
    assert (Hfreed : node_at (branch_nodes c') p = None).
    { destruct (L7 p) as [Hq | Hq]; [| exact Hq].
      rewrite node_at_free in Hq. rewrite decide_True in Hq by reflexivity.
      exact Hq. }
    split; [congruence |]. split; [congruence |]. split; [congruence |].
    split; [congruence |].
    split; [eapply patched_to_trans; [exact Hp2 | exact Hp] |].
    split; [auto |].
    split.
    { intros q. destruct (L7 q) as [Hq | Hq]; [| right; exact Hq].
      rewrite node_at_free in Hq. rewrite E5 in Hq.
      destruct (decide (p = q)); [right | left]; exact Hq. }
    intros h q m Hsub Hin.
    assert (Hsub3 :
      forall a x,
        node_at (<[p := None]> (branch_nodes c2)) a = Some x ->
        node_at h a = Some x).
    { intros a x Ha. rewrite node_at_free in Ha.
      destruct (decide (p = a)); [discriminate |].
      rewrite E5 in Ha. auto. }
    apply Hsub in Hnd.
    inversion Hin as [p' n' Hn' | p' n' q' m' Hn' Htail]; subst;
      rewrite Hnd in Hn'; injection Hn' as <-.
    + split; [exact Hfreed |].
      eapply break_patched_kept; [exact Hp | exact Hb2].
    + destruct (L8 h q m Hsub3 Htail) as [Hq Hb]. split; [exact Hq |].
      rewrite Hlen in Hb. exact Hb.
Qed.

(** [parser_set_continues_to_current_position] patches and frees
    nothing else. *)
Lemma set_continues_loop_spec n list_p c u c' :
  set_continues_loop n list_p c = Done u c' ->
  emitter_only c c'
  /\ patched_to_end (emitted_code c) (emitted_code c')
  /\ (last_cbc_opcode (cbc c) = PARSER_CBC_UNAVAILABLE ->
      last_cbc_opcode (cbc c') = PARSER_CBC_UNAVAILABLE).
Proof.
  revert list_p c u c'. induction n as [| n IH]; intros list_p c u c' H.
  - destruct list_p as [p |]; simpl in H; [discriminate |].
    apply ret_done_inv in H as [_ <-].
    split; [apply emitter_only_refl |]. split; [apply patched_to_refl | auto].
  - destruct list_p as [p |]; simpl in H.
    2:{ apply ret_done_inv in H as [_ <-].
        split; [apply emitter_only_refl |].
        split; [apply patched_to_refl | auto]. }
    apply bind_done_inv in H as (nd & c1 & Hread & H).
    apply node_read_done in Hread as [-> Hnd].
    apply bind_done_inv in H as ([] & c2 & Hpatch & H).
    apply IH in H as (L1 & L2 & L3). clear IH.
    assert (Hc2 :
      emitter_only c c2
      /\ patched_to_end (emitted_code c) (emitted_code c2)
      /\ (last_cbc_opcode (cbc c) = PARSER_CBC_UNAVAILABLE ->
          last_cbc_opcode (cbc c2) = PARSER_CBC_UNAVAILABLE)).
    { unfold when in Hpatch. destruct (negb _).
      - apply parser_set_branch_to_current_position_spec in Hpatch
          as (P1 & P2 & P3 & _).
        rewrite (emitted_code_unavailable c2) by exact P2. auto.
      - apply ret_done_inv in Hpatch as [_ <-].
        split; [apply emitter_only_refl |].
        split; [apply patched_to_refl | auto]. }
    destruct Hc2 as (E1 & Hp2 & Hl2).
    split; [eapply emitter_only_trans; eassumption |].
    split; [| auto].
    eapply patched_to_trans; [exact Hp2 |].
    unfold patched_to_end in L2.
    rewrite (patched_to_length _ _ _ Hp2) in L2. exact L2.
Qed.

(** ** The end of the loops *)

Lemma frames_kept_refl c : frames_kept c c.
Proof. repeat split. Qed.

Lemma frames_kept_trans c1 c2 c3 :
  frames_kept c1 c2 -> frames_kept c2 c3 -> frames_kept c1 c3.
Proof.
  intros (A1 & A2 & A3) (B1 & B2 & B3). repeat split; congruence.
Qed.

Lemma keeps_lift_lexer f : keeps frames_kept (lift_lexer f).
Proof.
  intros c. unfold lift_lexer.
  destruct (f (status_flags c) (lex c)); repeat split.
Qed.

Lemma keeps_parser_parse_expression options :
  keeps frames_kept (parser_parse_expression options).
Proof.
  intros c. unfold parser_parse_expression.
  destruct (ext_parse_expression _ _ _ _) as [[[f l] e] | e]; repeat split.
Qed.

Lemma keeps_parser_parse_enclosed_expr :
  keeps frames_kept parser_parse_enclosed_expr.
Proof.
  unfold parser_parse_enclosed_expr.
  repeat first
    [ apply keeps_lift_lexer
    | apply keeps_parser_parse_expression
    | keeps_step frames_kept_refl frames_kept_trans ].
Qed.

Lemma parser_stack_pop_statement_done c i c1 :
  parser_stack_pop_statement c = Done i c1 ->
  exists rest, stack c = i :: rest /\ c1 = set_stack c rest.
Proof.
  unfold parser_stack_pop_statement. destruct (stack c) as [| j rest];
    [discriminate |].
  intros H. injection H as -> <-. exists rest. split; reflexivity.
Qed.

Lemma set_cbc_same c : set_cbc c (cbc c) = c.
Proof. destruct c. reflexivity. Qed.

(** The selection of the opcode, as the three loops write it out. *)
Lemma backward_branch_opcode_done c :
  backward_branch_opcode c
  = Done (select_backward_branch (last_cbc_opcode (cbc c)))
         (set_cbc c (fold_condition (cbc c))).
Proof.
  unfold backward_branch_opcode, bind, gets, last_opcode_is,
    select_backward_branch, fold_condition.
  destruct (last_cbc_opcode (cbc c)) eqn:E;
    repeat (case_bool_decide; try congruence);
    try reflexivity; unfold ret; rewrite set_cbc_same; reflexivity.
Qed.

(** The backward branch and the breaks: how a loop is closed. *)
Lemma loop_close_done op start list_p c1 c2 c' :
  parser_emit_cbc_backward_branch op start c1 = Done tt c2 ->
  parser_set_breaks_to_current_position list_p c2 = Done tt c' ->
  loop_closed (cbc c1) op start c'
  /\ lex c' = lex c1 /\ status_flags c' = status_flags c1
  /\ stack c' = stack c1 /\ last_statement c' = last_statement c1
  /\ forall q m,
       in_branch_list (branch_nodes c1) list_p q m ->
       node_at (branch_nodes c') q = None
       /\ break_patched (byte_code (cbc c'))
            (Z.of_nat (length (loop_tail_code (cbc c1) op start))) m.
Proof.
  intros Hemit Hbreaks.
  destruct (parser_emit_cbc_backward_branch_done op start c1)
    as (c2' & E & (E1 & E2 & E3 & E4 & E5) & Hlast & Hcode).
  rewrite Hemit in E. injection E as <-.
  apply set_breaks_loop_spec in Hbreaks
    as (L1 & L2 & L3 & L4 & L5 & L6 & _ & L8).
  specialize (L6 Hlast).
  rewrite (emitted_code_unavailable c2) in L5, L8 by exact Hlast.
  rewrite (emitted_code_unavailable c') in L5, L8 by exact L6.
  assert (Htail : byte_code (cbc c2) = loop_tail_code (cbc c1) op start)
    by exact Hcode.
  rewrite Htail in L5, L8.
  split; [split; [exact L6 | exact L5] |].
  split; [congruence |]. split; [congruence |]. split; [congruence |].
  split; [congruence |].
  intros q m Hin. apply (L8 (branch_nodes c1)); [| exact Hin].
  intros a x Ha. rewrite <- E5. exact Ha.
Qed.

(** The run of [parser_parse_do_while_statement_end], stage by stage. *)
Lemma parser_parse_do_while_statement_end_run c c' :
  parser_parse_do_while_statement_end c = Done tt c' ->
  exists do_while_statement loop rest c0 c1 c2,
    stack c = item_do_while do_while_statement loop :: rest
    /\ parser_set_continues_to_current_position (loop_branch_list_p loop)
         (set_last_statement (set_stack c rest) (Some (length rest)))
       = Done tt c0
    /\ parser_parse_enclosed_expr c0 = Done tt c1
    /\ (if last_opcode_is c1 CBC_PUSH_FALSE
        then c2 = set_cbc c1 (set_last_cbc_opcode (cbc c1)
                                PARSER_CBC_UNAVAILABLE)
        else parser_emit_cbc_backward_branch
               (select_backward_branch (last_cbc_opcode (cbc c1)))
               (do_while_start_offset do_while_statement)
               (set_cbc c1 (fold_condition (cbc c1))) = Done tt c2)
    /\ parser_set_breaks_to_current_position (loop_branch_list_p loop) c2
       = Done tt c'.
Proof.
  intros H. unfold parser_parse_do_while_statement_end in H.
  run_step H. run_step H.
  apply bind_done_inv in H as (i & cp & Hpop & H).
  apply parser_stack_pop_statement_done in Hpop as (rest & Hstack & ->).
  destruct i; try discriminate H.
  run_step H.
  apply bind_done_inv in H as ([] & c0 & Hcont & H).
  apply bind_done_inv in H as ([] & c1 & Hcond & H).
  run_step H.
  apply bind_done_inv in H as ([] & c2 & Hbranch & H).
  eexists _, _, rest, c0, c1, c2.
  split; [exact Hstack |]. split; [exact Hcont |]. split; [exact Hcond |].
  split; [| exact H].
  destruct (last_opcode_is c1 CBC_PUSH_FALSE); simpl in Hbranch.
  - unfold assign_last_cbc_opcode, modify_cbc in Hbranch.
    apply modify_done_inv in Hbranch. exact Hbranch.
  - apply bind_done_inv in Hbranch as (op & cf & Hop & Hbranch).
    rewrite backward_branch_opcode_done in Hop. injection Hop as <- <-.
    exact Hbranch.
Qed.

(** C8. A do-while statement whose condition leaves [CBC_PUSH_FALSE]
    pending gets no backward branch: at the end of
    [parser_parse_do_while_statement_end] nothing is pending and the
    code is the code that was emitted when the condition was parsed
    (the [PUSH_FALSE], which was pending only, is not in it), but for
    the forward branches that are patched to its end.  The breaks of
    the loop are among these: every node of the loop's list is freed,
    and every break of the list is patched to the current position,
    which is the end of this code. *)
Theorem parser_parse_do_while_statement_end_push_false c c' :
  parser_parse_do_while_statement_end c = Done tt c' ->
  exists do_while_statement loop rest c0 c1,
    stack c = item_do_while do_while_statement loop :: rest
    /\ parser_set_continues_to_current_position (loop_branch_list_p loop)
         (set_last_statement (set_stack c rest) (Some (length rest)))
       = Done tt c0
    /\ parser_parse_enclosed_expr c0 = Done tt c1
    /\ (last_cbc_opcode (cbc c1) = CBC_PUSH_FALSE ->
        last_cbc_opcode (cbc c') = PARSER_CBC_UNAVAILABLE
        /\ patched_to_end (byte_code (cbc c1)) (byte_code (cbc c'))
        /\ forall q m,
             in_branch_list (branch_nodes c) (loop_branch_list_p loop) q m ->
             node_at (branch_nodes c') q = None
             /\ break_patched (byte_code (cbc c'))
                  (Z.of_nat (length (byte_code (cbc c1)))) m).
Proof.
  intros H.
  apply parser_parse_do_while_statement_end_run in H
    as (dw & loop & rest & c0 & c1 & c2 & Hstack & Hcont & Hcond & Hsel
        & Hbreaks).
  exists dw, loop, rest, c0, c1.
  split; [exact Hstack |]. split; [exact Hcont |]. split; [exact Hcond |].
  intros Hfalse.
  unfold last_opcode_is in Hsel. rewrite bool_decide_eq_true_2 in Hsel
    by exact Hfalse.
  subst c2.
  pose proof (set_continues_loop_spec _ _ _ _ _ Hcont)
    as ((_ & _ & _ & _ & N0) & _).
  pose proof (keeps_done _ _ _ _ _ keeps_parser_parse_enclosed_expr Hcond)
    as (_ & _ & N1).
  simpl in N0.
  apply set_breaks_loop_spec in Hbreaks
    as (_ & _ & _ & _ & L5 & L6 & _ & L8).
  specialize (L6 eq_refl).
  rewrite (emitted_code_unavailable c') in L5, L8 by exact L6.
  change (emitted_code (set_cbc c1 _)) with (byte_code (cbc c1)) in L5, L8.
  split; [exact L6 |]. split; [exact L5 |].
  intros q m Hin. apply (L8 (branch_nodes c)); [| exact Hin].
  simpl. intros a x Ha. rewrite <- N0, <- N1. exact Ha.
Qed.

(** From the parsed condition to the closed loop, for the loops that
    select the opcode. *)
Lemma loop_select_close_done start list_p c1 c' :
  (opcode ← backward_branch_opcode;
   parser_emit_cbc_backward_branch opcode start;;
   parser_set_breaks_to_current_position list_p) c1 = Done tt c' ->
  loop_closed (fold_condition (cbc c1))
    (select_backward_branch (last_cbc_opcode (cbc c1))) start c'.
Proof.
  intros H.
  apply bind_done_inv in H as (op & cf & Hop & H).
  rewrite backward_branch_opcode_done in Hop. injection Hop as <- <-.
  apply bind_done_inv in H as ([] & c2 & Hemit & H).
  exact (proj1 (loop_close_done _ _ _ _ _ _ Hemit H)).
Qed.

Lemma loop_closed_set_lex e op start c l :
  loop_closed e op start c -> loop_closed e op start (set_lex c l).
Proof. intros H. exact H. Qed.

Lemma parser_parse_while_statement_end_closed c c' :
  parser_parse_while_statement_end c = Done tt c' ->
  exists while_statement loop rest c0 c1,
    stack c = item_while while_statement loop :: rest
    /\ patched_to_end (emitted_code c) (emitted_code c0)
    /\ parser_parse_expression PARSE_EXPR c0 = Done tt c1
    /\ loop_closed (fold_condition (cbc c1))
         (select_backward_branch (last_cbc_opcode (cbc c1)))
         (while_start_offset while_statement) c'.
Proof.
  intros H. unfold parser_parse_while_statement_end in H.
  apply bind_done_inv in H as (i & cp & Hpop & H).
  apply parser_stack_pop_statement_done in Hpop as (rest & Hstack & ->).
  destruct i; try discriminate H.
  run_step H. run_step H. run_step H. run_step H.
  apply bind_done_inv in H as ([] & ca & Hbranch & H).
  apply bind_done_inv in H as ([] & cb & Hcont & H).
  run_step H.
  apply bind_done_inv in H as ([] & c0 & Hnext & H).
  apply bind_done_inv in H as ([] & c1 & Hcond & H).
  run_step H. run_step H.
  apply bind_done_inv in H as (op & cf & Hop & H).
  apply bind_done_inv in H as ([] & c2 & Hemit & H).
  apply bind_done_inv in H as ([] & c3 & Hbreaks & H).
  run_step H. apply modify_done_inv in H as ->.
  eexists _, _, rest, c0, c1.
  split; [exact Hstack |].
  split.
  { apply parser_set_branch_to_current_position_spec in Hbranch
      as (_ & Pl & Pp & _).
    apply set_continues_loop_spec in Hcont as (_ & Cp & _).
    unfold lexer_next_token, lift_lexer in Hnext.
    destruct (ext_next_token _ _) as [lx |]; [| discriminate].
    injection Hnext as <-.
    change (emitted_code (set_lex _ lx)) with (emitted_code cb).
    rewrite <- (emitted_code_unavailable ca) in Pp by exact Pl.
    eapply patched_to_trans; [exact Pp |].
    unfold patched_to_end in Cp.
    rewrite (patched_to_length _ _ _ Pp) in Cp. exact Cp. }
  split; [exact Hcond |].
  apply loop_closed_set_lex, loop_closed_set_lex.
  eapply loop_select_close_done.
  erewrite (bind_done _ _ _ _ _ Hop).
  erewrite (bind_done _ _ _ _ _ Hemit). exact Hbreaks.
Qed.

Lemma parser_parse_for_statement_end_closed c c' :
  parser_parse_for_statement_end c = Done tt c' ->
  exists for_statement loop rest cb c1,
    stack c = item_for for_statement loop :: rest
    /\ (parser_set_range (for_condition_range for_statement);;
        lexer_next_token) cb = Done tt c1
    /\ if token_is c1 LEXER_EOS
       then loop_closed (cbc c1) CBC_JUMP_BACKWARD
              (for_start_offset for_statement) c'
       else exists c2,
              parser_parse_expression PARSE_EXPR c1 = Done tt c2
              /\ loop_closed (fold_condition (cbc c2))
                   (select_backward_branch (last_cbc_opcode (cbc c2)))
                   (for_start_offset for_statement) c'.
Proof.
  intros H. unfold parser_parse_for_statement_end in H.
  apply bind_done_inv in H as (i & cp & Hpop & H).
  apply parser_stack_pop_statement_done in Hpop as (rest & Hstack & ->).
  destruct i; try discriminate H.
  run_step H. run_step H. run_step H. run_step H. run_step H.
  apply bind_done_inv in H as ([] & ca & Hnext1 & H).
  apply bind_done_inv in H as ([] & cc & Hcont & H).
  run_step H.
  apply bind_done_inv in H as ([] & cd & Hincrement & H).
  apply bind_done_inv in H as ([] & cb & Hbranch & H).
  apply bind_done_inv in H as ([] & ce & Hrange & H).
  apply bind_done_inv in H as ([] & c1 & Hnext & H).
  run_step H.
  apply bind_done_inv in H as (op & cf & Hop & H).
  apply bind_done_inv in H as ([] & c2 & Hemit & H).
  apply bind_done_inv in H as ([] & c3 & Hbreaks & H).
  run_step H. apply modify_done_inv in H as ->.
  eexists _, _, rest, cb, c1.
  split; [exact Hstack |].
  split; [rewrite (bind_done _ _ _ _ _ Hrange); exact Hnext |].
  destruct (token_is c1 LEXER_EOS); simpl in Hop.
  - apply ret_done_inv in Hop as [<- <-].
    apply loop_closed_set_lex, loop_closed_set_lex.
    exact (proj1 (loop_close_done _ _ _ _ _ _ Hemit Hbreaks)).
  - apply bind_done_inv in Hop as ([] & cg & Hcond & Hop).
    run_step Hop. run_step Hop.
    exists cg. split; [exact Hcond |].
    apply loop_closed_set_lex, loop_closed_set_lex.
    eapply loop_select_close_done.
    erewrite (bind_done _ _ _ _ _ Hop).
    erewrite (bind_done _ _ _ _ _ Hemit). exact Hbreaks.
Qed.

Lemma parser_parse_do_while_statement_end_closed c c' :
  parser_parse_do_while_statement_end c = Done tt c' ->
  exists do_while_statement loop rest c0 c1,
    stack c = item_do_while do_while_statement loop :: rest
    /\ parser_parse_enclosed_expr c0 = Done tt c1
    /\ if last_opcode_is c1 CBC_PUSH_FALSE
       then last_cbc_opcode (cbc c') = PARSER_CBC_UNAVAILABLE
            /\ patched_to_end (byte_code (cbc c1)) (byte_code (cbc c'))
       else loop_closed (fold_condition (cbc c1))
              (select_backward_branch (last_cbc_opcode (cbc c1)))
              (do_while_start_offset do_while_statement) c'.
Proof.
  intros H.
  apply parser_parse_do_while_statement_end_run in H
    as (dw & loop & rest & c0 & c1 & c2 & Hstack & Hcont & Hcond & Hsel
        & Hbreaks).
  exists dw, loop, rest, c0, c1.
  split; [exact Hstack |]. split; [exact Hcond |].
  destruct (last_opcode_is c1 CBC_PUSH_FALSE).
  - subst c2.
    apply set_breaks_loop_spec in Hbreaks
      as (_ & _ & _ & _ & L5 & L6 & _).
    specialize (L6 eq_refl).
    rewrite (emitted_code_unavailable c') in L5 by exact L6.
    split; [exact L6 | exact L5].
  - exact (proj1 (loop_close_done _ _ _ _ _ _ Hsel Hbreaks)).
Qed.

(** C3, amended.  When the end of a while, for or do-while loop is
    parsed, the code of the deferred condition is followed by one
    backward branch to the start of the loop, and this is the last
    instruction of the code.  Its opcode is [CBC_BRANCH_IF_TRUE_BACKWARD],
    or [CBC_JUMP_BACKWARD] if [CBC_PUSH_TRUE] is pending after the
    condition, or [CBC_BRANCH_IF_FALSE_BACKWARD] if [CBC_LOGICAL_NOT]
    is; in these two cases the pending opcode is dropped.  There are
    two exceptions: a for loop with an empty condition gets
    [CBC_JUMP_BACKWARD] and what is pending is emitted, and a do-while
    loop after whose condition [CBC_PUSH_FALSE] is pending gets no
    backward branch. *)
Theorem loop_end_backward_branch :
  (forall c c',
     parser_parse_while_statement_end c = Done tt c' ->
     exists while_statement loop rest c0 c1,
       stack c = item_while while_statement loop :: rest
       /\ patched_to_end (emitted_code c) (emitted_code c0)
       /\ parser_parse_expression PARSE_EXPR c0 = Done tt c1
       /\ loop_closed (fold_condition (cbc c1))
            (select_backward_branch (last_cbc_opcode (cbc c1)))
            (while_start_offset while_statement) c')
  /\ (forall c c',
        parser_parse_for_statement_end c = Done tt c' ->
        exists for_statement loop rest cb c1,
          stack c = item_for for_statement loop :: rest
          /\ (parser_set_range (for_condition_range for_statement);;
              lexer_next_token) cb = Done tt c1
          /\ if token_is c1 LEXER_EOS
             then loop_closed (cbc c1) CBC_JUMP_BACKWARD
                    (for_start_offset for_statement) c'
             else exists c2,
                    parser_parse_expression PARSE_EXPR c1 = Done tt c2
                    /\ loop_closed (fold_condition (cbc c2))
                         (select_backward_branch (last_cbc_opcode (cbc c2)))
                         (for_start_offset for_statement) c')
  /\ (forall c c',
        parser_parse_do_while_statement_end c = Done tt c' ->
        exists do_while_statement loop rest c0 c1,
          stack c = item_do_while do_while_statement loop :: rest
          /\ parser_parse_enclosed_expr c0 = Done tt c1
          /\ if last_opcode_is c1 CBC_PUSH_FALSE
             then last_cbc_opcode (cbc c') = PARSER_CBC_UNAVAILABLE
                  /\ patched_to_end (byte_code (cbc c1)) (byte_code (cbc c'))
             else loop_closed (fold_condition (cbc c1))
                    (select_backward_branch (last_cbc_opcode (cbc c1)))
                    (do_while_start_offset do_while_statement) c').
Proof.
  split; [exact parser_parse_while_statement_end_closed |].
  split; [exact parser_parse_for_statement_end_closed
         | exact parser_parse_do_while_statement_end_closed].
Qed.

(** ** The try statement *)

Lemma stack_item_at_top i rest :
  stack_item_at (i :: rest) (length (i :: rest)) = Some i.
Proof.
  simpl. destruct (decide _) as [_ | Hn]; [| simpl in Hn; lia].
  rewrite Nat.sub_diag. reflexivity.
Qed.

Lemma lexer_next_token_done c u c' :
  lexer_next_token c = Done u c' -> exists l, c' = set_lex c l.
Proof.
  unfold lexer_next_token, lift_lexer.
  destruct (ext_next_token _ _) as [l |]; [| discriminate].
  intros H. injection H as _ <-. exists l. reflexivity.
Qed.

Lemma stack_depth_flush_emitter e :
  stack_depth (flush_emitter e) = stack_depth e.
Proof. unfold flush_emitter. destruct (last_cbc_opcode e); reflexivity. Qed.

Lemma parser_emit_cbc_forward_branch_stack_depth op c branch c' :
  parser_emit_cbc_forward_branch op c = Done branch c' ->
  stack_depth (cbc c') = stack_depth (cbc c).
Proof.
  intros H. injection H as _ <-. simpl. apply stack_depth_flush_emitter.
Qed.

(** C2, amended.  When [parser_parse_try_statement_end] is called at
    the end of a catch block and the next token is [finally], the old
    branch (the one of the catch) is patched to the current position
    and nothing else is emitted for the catch: no [CBC_CONTEXT_END],
    and the stack depth of the try context is not given back.  Then
    [CBC_EXT_FINALLY] is emitted as a new forward branch, and the frame
    holds this branch and the phase [parser_finally_block]. *)
Theorem parser_parse_try_statement_end_catch_finally
    c c1 c' try_statement rest :
  stack c = item_try try_statement :: rest ->
  try_type try_statement = parser_catch_block ->
  lexer_next_token c = Done tt c1 ->
  token_type c1 = LEXER_KEYW_FINALLY ->
  parser_parse_try_statement_end c = Done tt c' ->
  let site :=
    Z.ldiff (branch_offset (try_branch try_statement)) CBC_HIGHEST_BIT_MASK in
  exists code,
    patched_to_end (emitted_code c) code
    /\ (exists op,
          code !! Z.to_nat site
          = Some (cbc_forward_branch op
                    (Some (Z.of_nat (length code) - site))))
    /\ last_cbc_opcode (cbc c') = PARSER_CBC_UNAVAILABLE
    /\ byte_code (cbc c') = code ++ [cbc_forward_branch CBC_EXT_FINALLY None]
    /\ stack_depth (cbc c') = stack_depth (cbc c)
    /\ stack c'
       = item_try (mk_try parser_finally_block
                          (mk_branch (Z.of_nat (length code)))) :: rest.
Proof.
  intros Hstack Htype Hnext Htoken H site.
  unfold parser_parse_try_statement_end in H.
  run_step H.
  apply bind_done_inv in H as (i & cr & Hread & H).
  unfold parser_stack_iterator_read in Hread.
  rewrite Hstack, stack_item_at_top in Hread. injection Hread as <- <-.
  apply bind_done_inv in H as ([] & c1' & Hnext' & H).
  rewrite Hnext in Hnext'. injection Hnext' as <-.
  apply bind_done_inv in H as (type & c2 & Hend & H).
  unfold parser_try_block_end in Hend. rewrite Htype in Hend.
  apply bind_done_inv in Hend as ([] & cp & Hpatch & Hend).
  pose proof (parser_set_branch_to_current_position_done _ _ _ _ Hpatch)
    as (op & old & Hsite & Hold & Ecp).
  fold site in Hsite, Hold, Ecp.
  assert (Htoken_cp : token_is cp LEXER_KEYW_FINALLY = true).
  { subst cp. unfold token_is, token_type. simpl.
    apply bool_decide_eq_true_2. exact Htoken. }
  run_step Hend. rewrite Htoken_cp in Hend. simpl in Hend.
  apply ret_done_inv in Hend as [<- <-].
  run_step H.
  assert (Hcatch : token_is cp LEXER_KEYW_CATCH = false).
  { subst cp. unfold token_is, token_type. simpl.
    apply bool_decide_eq_false_2. unfold token_type in Htoken.
    rewrite Htoken. discriminate. }
  rewrite Hcatch in H.
  apply bind_done_inv in H as (ts' & c4 & Hfinally & H).
  unfold parser_parse_finally_clause in Hfinally.
  apply bind_done_inv in Hfinally as ([] & c3 & Hnext3 & Hfinally).
  apply lexer_next_token_done in Hnext3 as (l3 & ->).
  run_step Hfinally. run_step Hfinally.
  apply bind_done_inv in Hfinally as (branch & cb & Hemit & Hfinally).
  apply ret_done_inv in Hfinally as [<- <-].
  destruct (parser_emit_cbc_forward_branch_done CBC_EXT_FINALLY
              (set_lex cp l3))
    as (cb' & E & (B1 & B2 & B3 & B4 & B5) & Blast & Bcode).
  unfold parser_emit_cbc_ext_forward_branch in Hemit.
  pose proof (parser_emit_cbc_forward_branch_stack_depth _ _ _ _ Hemit)
    as Hdepth.
  rewrite Hemit in E. injection E as -> <-.
  apply bind_done_inv in H as ([] & c5 & Hnext5 & H).
  apply lexer_next_token_done in Hnext5 as (l5 & ->).
  unfold parser_stack_iterator_write in H. simpl in H.
  assert (Hstack_cb : stack cb = item_try try_statement :: rest).
  { rewrite B3. subst cp. simpl.
    apply lexer_next_token_done in Hnext as (l1 & ->). exact Hstack. }
  rewrite Hstack_cb in H. rewrite Hstack in H.
  rewrite stack_item_at_top in H. injection H as <-.
  simpl. rewrite Nat.sub_diag. simpl.
  assert (Hcode_cp : emitted_code (set_lex cp l3)
                     = <[Z.to_nat site :=
                           cbc_forward_branch op
                             (Some (Z.of_nat (length (emitted_code c1)) - site))]>
                         (emitted_code c1)).
  { subst cp. unfold emitted_code. simpl.
    rewrite flush_emitter_unavailable; [reflexivity |].
    simpl. apply flush_emitter_last. }
  assert (Hc1 : emitted_code c1 = emitted_code c
                /\ stack_depth (cbc c1) = stack_depth (cbc c)).
  { apply lexer_next_token_done in Hnext as (l1 & ->). split; reflexivity. }
  destruct Hc1 as [Hc1 Hd1]. rewrite Hc1 in Hcode_cp, Hold.
  exists (emitted_code (set_lex cp l3)).
  assert (Hsite' : Z.of_nat (Z.to_nat site) = site) by lia.
  assert (Hlen : length (emitted_code (set_lex cp l3))
                 = length (emitted_code c)).
  { rewrite Hcode_cp. apply length_insert. }
  split.
  { rewrite Hcode_cp. unfold patched_to_end. rewrite <- Hsite' at 2.
    eapply patched_to_insert. exact Hold. }
  split.
  { exists op. rewrite Hlen. rewrite Hcode_cp.
    apply list_lookup_insert_eq. eapply lookup_lt_Some. exact Hold. }
  split; [exact Blast |].
  split; [exact Bcode |].
  split; [| reflexivity].
  rewrite Hdepth. subst cp. simpl.
  rewrite stack_depth_flush_emitter. exact Hd1.
Qed.

(** ** The initializer of a for-in target *)

Lemma literal_status_flags_or_done flags c u c' :
  literal_status_flags_or flags c = Done u c' -> exists l, c' = set_lex c l.
Proof.
  unfold literal_status_flags_or.
  destruct (literal_pool (lex c) !! _); [| discriminate].
  intros H. injection H as _ <-. eexists. reflexivity.
Qed.

Lemma lift_lexer_done f c u c' :
  lift_lexer f c = Done u c' -> exists l, c' = set_lex c l.
Proof.
  unfold lift_lexer. destruct (f _ _) as [l |]; [| discriminate].
  intros H. injection H as _ <-. exists l. reflexivity.
Qed.

Lemma flush_emitter_extends e :
  exists more, byte_code (flush_emitter e) = byte_code e ++ more.
Proof.
  unfold flush_emitter.
  destruct (last_cbc_opcode e); simpl;
    solve [ exists []; rewrite app_nil_r; reflexivity
          | eexists; reflexivity ].
Qed.

Lemma emit_into_extends op a e :
  exists more, byte_code (emit_into op a e) = byte_code e ++ more.
Proof.
  assert (Hsame : exists more : list cbc_instr_t,
                    byte_code e = byte_code e ++ more)
    by (exists []; rewrite app_nil_r; reflexivity).
  unfold emit_into.
  destruct (last_cbc_opcode e) eqn:E; try exact Hsame;
    (destruct (cbc_fusion _ _ _ _) as [[op' a'] |];
     [exact Hsame | simpl; apply flush_emitter_extends]).
Qed.

(** The patch of the branch at the end of a code that has grown by
    [more] since the branch was emitted. *)
Lemma patch_last_branch (code more : list cbc_instr_t) op old x :
  (code ++ [cbc_forward_branch CBC_JUMP_FORWARD None] ++ more)
    !! length code = Some (cbc_forward_branch op old) ->
  op = CBC_JUMP_FORWARD
  /\ <[length code := x]>
       (code ++ [cbc_forward_branch CBC_JUMP_FORWARD None] ++ more)
     = code ++ [x] ++ more.
Proof.
  intros H. split.
  - rewrite lookup_app_r in H by lia. rewrite Nat.sub_diag in H.
    simpl in H. congruence.
  - rewrite <- (Nat.add_0_r (length code)) at 1.
    rewrite insert_app_r. reflexivity.
Qed.

(** The target [var ident = initializer] of a for-in statement (the
    token after the identifier is [=]): an unconditional
    [CBC_JUMP_FORWARD] is the last instruction of the code when the
    initializer is handed to the expression parser, and after the
    initializer this branch is patched to the current position. *)
Lemma parser_parse_for_in_var_target_done c c' :
  parser_parse_for_in_var_target c = Done tt c' ->
  exists ca,
    (lexer_expect_identifier LEXER_IDENT_LITERAL;;
     literal_status_flags_or LEXER_FLAG_VAR;;
     lexer_next_token) c = Done tt ca
    /\ (token_type ca = LEXER_ASSIGN ->
        exists cb c1 c2,
          (parser_emit_cbc_forward_branch CBC_JUMP_FORWARD;;
           lexer_next_token) ca = Done tt cb
          /\ byte_code (cbc cb)
             = emitted_code c ++ [cbc_forward_branch CBC_JUMP_FORWARD None]
          /\ last_cbc_opcode (cbc cb) = PARSER_CBC_UNAVAILABLE
          /\ parser_parse_expression
               (Z.lor PARSE_EXPR_STATEMENT PARSE_EXPR_NO_COMMA) cb
             = Done tt c1
          /\ parser_set_branch_to_current_position
               (mk_branch (Z.of_nat (length (emitted_code c)))) c1
             = Done tt c2
          /\ (forall init,
                Z.land (Z.of_nat (length (emitted_code c)))
                       CBC_HIGHEST_BIT_MASK = 0 ->
                emitted_code c1 = byte_code (cbc cb) ++ init ->
                byte_code (cbc c2)
                = emitted_code c
                  ++ [cbc_forward_branch CBC_JUMP_FORWARD
                        (Some (1 + Z.of_nat (length init)))]
                  ++ init)
          /\ exists more, emitted_code c' = byte_code (cbc c2) ++ more).
Proof.
  intros H. unfold parser_parse_for_in_var_target in H.
  apply bind_done_inv in H as ([] & c0 & Hident & H).
  apply bind_done_inv in H as ([] & cv & Hvar & H).
  run_step H.
  apply bind_done_inv in H as ([] & ca & Hnext & H).
  run_step H.
  apply bind_done_inv in H as ([] & cw & Hwhen & H).
  exists ca. split.
  { rewrite (bind_done _ _ _ _ _ Hident), (bind_done _ _ _ _ _ Hvar).
    exact Hnext. }
  intros Hassign.
  assert (Hcode_ca : emitted_code ca = emitted_code c).
  { apply lift_lexer_done in Hident as (l0 & ->).
    apply literal_status_flags_or_done in Hvar as (lv & ->).
    apply lexer_next_token_done in Hnext as (la & ->). reflexivity. }
  unfold token_is in Hwhen. rewrite bool_decide_eq_true_2 in Hwhen
    by exact Hassign.
  simpl in Hwhen.
  apply bind_done_inv in Hwhen as (branch & cf & Hbranch & Hwhen).
  destruct (parser_emit_cbc_forward_branch_done CBC_JUMP_FORWARD ca)
    as (cf' & E & _ & Flast & Fcode).
  rewrite Hbranch in E. injection E as -> <-.
  apply bind_done_inv in Hwhen as ([] & cb & Hnextb & Hwhen).
  pose proof Hnextb as Hcb.
  apply lexer_next_token_done in Hnextb as (lb & ->).
  apply bind_done_inv in Hwhen as ([] & c1 & Hinit & Hpatch).
  rewrite Hcode_ca in Fcode, Hpatch.
  exists (set_lex cf lb), c1, cw.
  split; [rewrite (bind_done _ _ _ _ _ Hbranch); exact Hcb |].
  split; [exact Fcode |]. split; [exact Flast |]. split; [exact Hinit |].
  split; [exact Hpatch |].
  split.
  - intros init Hmask Hgrown.
    apply parser_set_branch_to_current_position_done in Hpatch
      as (op & old & _ & Hold & ->).
    simpl in Hold |- *.
    rewrite ldiff_unmarked in Hold |- * by exact Hmask.
    rewrite Nat2Z.id in Hold |- *.
    rewrite Hgrown in Hold |- *. simpl in Hold |- *.
    rewrite Fcode in Hold |- *. rewrite <- app_assoc in Hold |- *.
    apply (patch_last_branch _ _ _ _
             (cbc_forward_branch op
                (Some (Z.of_nat
                         (length
                            (emitted_code c
                             ++ [cbc_forward_branch CBC_JUMP_FORWARD None]
                             ++ init))
                       - Z.of_nat (length (emitted_code c))))))
      in Hold as [-> ->].
    rewrite !length_app. simpl length.
    match goal with
    | |- context [Some (?a - ?b)] =>
        replace (a - b) with (1 + Z.of_nat (length init)) by lia
    end.
    reflexivity.
  - unfold parser_emit_cbc_ext, parser_emit_cbc_literal, emit_with_argument,
      modify_cbc in H.
    run_step H. apply modify_done_inv in H as ->.
    apply parser_set_branch_to_current_position_spec in Hpatch
      as (_ & Plast & _).
    unfold emitted_code. simpl.
    destruct (flush_emitter_extends
                (emit_into CBC_ASSIGN_IDENT
                   (mk_argument (lit_index (lit_object (lex cv))) 0)
                   (emit_into CBC_EXT_FOR_IN_GET_NEXT no_argument (cbc cw))))
      as (m3 & ->).
    destruct (emit_into_extends CBC_ASSIGN_IDENT
                (mk_argument (lit_index (lit_object (lex cv))) 0)
                (emit_into CBC_EXT_FOR_IN_GET_NEXT no_argument (cbc cw)))
      as (m2 & ->).
    destruct (emit_into_extends CBC_EXT_FOR_IN_GET_NEXT no_argument (cbc cw))
      as (m1 & ->).
    exists (m1 ++ m2 ++ m3). rewrite <- !app_assoc. reflexivity.
Qed.

(** ** [continue] with a label *)

Lemma is_frame_not_start i :
  is_frame i = true -> (item_type i =? PARSER_STATEMENT_START) = false.
Proof.
  unfold is_frame. intros H. apply andb_prop in H as [_ H].
  apply negb_true_iff in H. exact H.
Qed.

Lemma is_frame_statement_item i :
  is_frame i = true -> is_statement_item i = true.
Proof. unfold is_frame. intros H. apply andb_prop in H as [H _]. exact H. Qed.

Lemma is_loop_frame_type i :
  is_frame i = true -> is_loop_type (item_type i) = is_loop_frame i.
Proof.
  intros H. destruct i as [b | | | | | | | | | | |]; try reflexivity.
  unfold is_frame in H. simpl in H.
  apply andb_prop in H as [H1 H2].
  apply orb_prop in H1 as [H1 | H1]; apply Z.eqb_eq in H1; subst b;
    reflexivity.
Qed.

Lemma chain_label_nil ident : ~ chain_label ident [].
Proof.
  intros (labels & label & below & H & _). destruct labels; discriminate.
Qed.

Lemma chain_label_head ident a s :
  chain_label ident (a :: s) -> is_label_frame a = true.
Proof.
  intros (labels & label & below & H & Hl & _).
  destruct labels as [| b labels]; simpl in H; injection H as -> _.
  - reflexivity.
  - simpl in Hl. apply andb_prop in Hl as [Hl _]. exact Hl.
Qed.

Lemma chain_label_cons ident label s :
  chain_label ident s -> chain_label ident (item_label label :: s).
Proof.
  intros (labels & l & below & -> & Hl & Hs).
  exists (item_label label :: labels), l, below.
  split; [reflexivity |]. split; [exact Hl | exact Hs].
Qed.

Lemma chain_label_tail ident label s :
  chain_label ident (item_label label :: s) ->
  lexer_same_identifiers ident (label_ident label) = false ->
  chain_label ident s.
Proof.
  intros (labels & l & below & H & Hl & Hs) Hne.
  destruct labels as [| b labels]; simpl in H; injection H as H1 H2.
  - subst l. congruence.
  - subst s. simpl in Hl. apply andb_prop in Hl as [_ Hl].
    exists labels, l, below. split; [reflexivity |]. split; assumption.
Qed.

Lemma labelled_loop_at_nil ident rest it : ~ labelled_loop_at ident [] rest it.
Proof.
  intros (above & loop & tail & H & _). destruct above; discriminate.
Qed.

Lemma labelled_loop_at_cons ident a frames rest it :
  labelled_loop_at ident frames rest it ->
  labelled_loop_at ident (a :: frames) rest it.
Proof.
  intros (above & loop & tail & -> & Hloop & Hchain & ->).
  exists (a :: above), loop, tail. repeat split; assumption.
Qed.

Lemma labelled_loop_at_head ident a frames rest it :
  labelled_loop_at ident (a :: frames) rest it ->
  (is_loop_frame a = true /\ chain_label ident frames
   /\ it = length (a :: frames ++ item_uint8 PARSER_STATEMENT_START :: rest))
  \/ labelled_loop_at ident frames rest it.
Proof.
  intros (above & loop & tail & H & Hloop & Hchain & ->).
  destruct above as [| b above]; simpl in H; injection H as -> ->.
  - left. repeat split; assumption.
  - right. exists above, loop, tail. repeat split; assumption.
Qed.

(** What the search of the label finds, on a stack of frames above the
    sentinel. *)
Lemma continue_label_search_spec ident frames rest :
  forallb is_frame frames = true ->
  forall loop_iterator for_in_was_seen opcode,
    match continue_label_search ident
            (frames ++ item_uint8 PARSER_STATEMENT_START :: rest)
            loop_iterator for_in_was_seen opcode with
    | search_found it _ =>
        (loop_iterator = Some it /\ chain_label ident frames)
        \/ labelled_loop_at ident frames rest it
    | search_reached_start =>
        (loop_iterator <> None -> ~ chain_label ident frames)
        /\ forall it, ~ labelled_loop_at ident frames rest it
    | search_ill_formed => False
    end.
Proof.
  induction frames as [| a frames IH]; intros Hframes li fs op.
  - simpl. split; [intros _; apply chain_label_nil |].
    intros it. apply labelled_loop_at_nil.
  - simpl in Hframes. apply andb_prop in Hframes as [Ha Hframes].
    specialize (IH Hframes).
    assert (Hgeneral :
      forall fs' op',
        (li = None \/ is_label_frame a = false) ->
        match continue_label_search ident
                (frames ++ item_uint8 PARSER_STATEMENT_START :: rest)
                (if is_loop_frame a
                 then Some (S (length
                                 (frames
                                  ++ item_uint8 PARSER_STATEMENT_START
                                  :: rest)))
                 else None) fs' op' with
        | search_found it _ =>
            (li = Some it /\ chain_label ident (a :: frames))
            \/ labelled_loop_at ident (a :: frames) rest it
        | search_reached_start =>
            (li <> None -> ~ chain_label ident (a :: frames))
            /\ forall it, ~ labelled_loop_at ident (a :: frames) rest it
        | search_ill_formed => False
        end).
    { intros fs' op' Hcase.
      specialize (IH (if is_loop_frame a
                      then Some (S (length
                                      (frames
                                       ++ item_uint8 PARSER_STATEMENT_START
                                       :: rest)))
                      else None) fs' op').
      destruct (continue_label_search ident _ _ fs' op')
        as [it op'' | |]; [| | exact IH].
      - right. destruct IH as [[E Hchain] | Hloop].
        + destruct (is_loop_frame a) eqn:Eloop; [| discriminate].
          injection E as <-.
          exists [], a, frames. split; [reflexivity |].
          split; [exact Eloop |]. split; [exact Hchain | reflexivity].
        + apply labelled_loop_at_cons. exact Hloop.
      - destruct IH as [Hno_chain Hno_loop]. split.
        + intros Hli Hchain. apply chain_label_head in Hchain.
          destruct Hcase as [E | E]; congruence.
        + intros it Hit. apply labelled_loop_at_head in Hit
            as [(Hloop & Hchain & _) | Hit].
          * apply Hno_chain; [| exact Hchain].
            rewrite Hloop. discriminate.
          * exact (Hno_loop it Hit). }
    simpl. rewrite (is_frame_not_start a Ha).
    rewrite (is_frame_statement_item a Ha), (is_loop_frame_type a Ha).
    destruct li as [l |]; destruct a;
      try (apply Hgeneral; auto; fail).
    destruct (lexer_same_identifiers ident (label_ident s)) eqn:Es.
    + left. split; [reflexivity |].
      exists [], s, frames. repeat split. exact Es.
    + specialize (IH (Some l) fs op).
      destruct (continue_label_search ident _ (Some l) fs op)
        as [it op'' | |]; [| | exact IH].
      * destruct IH as [[E Hchain] | Hloop].
        -- left. split; [exact E | apply chain_label_cons; exact Hchain].
        -- right. apply labelled_loop_at_cons. exact Hloop.
      * destruct IH as [Hno_chain Hno_loop]. split.
        -- intros _ Hchain. apply Hno_chain; [discriminate |].
           eapply chain_label_tail; eassumption.
        -- intros it Hit. apply labelled_loop_at_head in Hit
             as [(Hloop & _) | Hit]; [discriminate |].
           exact (Hno_loop it Hit).
Qed.

Lemma stack_item_at_app above i below :
  stack_item_at (above ++ i :: below) (length (i :: below)) = Some i.
Proof.
  unfold stack_item_at. simpl length.
  destruct (decide _) as [_ | Hn];
    [| rewrite length_app in Hn; simpl in Hn; lia].
  rewrite length_app. simpl length.
  replace (length above + S (length below) - S (length below))%nat
    with (length above + 0)%nat by lia.
  rewrite lookup_app_r by lia.
  replace (length above + 0 - length above)%nat with 0%nat by lia.
  reflexivity.
Qed.

Lemma node_at_app_last (h : list (option parser_branch_node_t)) n :
  node_at (h ++ [Some n]) (length h) = Some n.
Proof.
  unfold node_at. rewrite lookup_app_r by lia.
  rewrite Nat.sub_diag. reflexivity.
Qed.

Lemma insert_app_last (h : list (option parser_branch_node_t)) x y :
  <[length h := y]> (h ++ [x]) = h ++ [y].
Proof.
  rewrite <- (Nat.add_0_r (length h)) at 1.
  rewrite insert_app_r. reflexivity.
Qed.

(** A continue is filed into the list of the loop at [iterator]: a
    forward branch is emitted, its node is allocated with the mark of a
    continue and the old list as its tail, and the loop in the frame
    holds the new node as the head of its list. *)
Lemma file_branch_into_loop_continue iterator op c i l :
  stack_item_at (stack c) iterator = Some i ->
  item_loop i = Some l ->
  exists c2,
    file_branch_into_loop iterator op true c = Done tt c2
    /\ lex c2 = lex c /\ status_flags c2 = status_flags c
    /\ last_statement c2 = last_statement c
    /\ last_cbc_opcode (cbc c2) = PARSER_CBC_UNAVAILABLE
    /\ byte_code (cbc c2) = emitted_code c ++ [cbc_forward_branch op None]
    /\ branch_nodes c2
       = branch_nodes c
         ++ [Some (mk_branch_node
                     (mk_branch
                        (Z.lor (Z.of_nat (length (emitted_code c)))
                               CBC_HIGHEST_BIT_MASK))
                     (loop_branch_list_p l))]
    /\ stack c2
       = <[(length (stack c) - iterator)%nat :=
             item_set_loop i (mk_loop (Some (length (branch_nodes c))))]>
           (stack c).
Proof.
  intros Hitem Hloop.
  unfold file_branch_into_loop.
  assert (Hread : parser_stack_iterator_read iterator c = Done i c).
  { unfold parser_stack_iterator_read. rewrite Hitem. reflexivity. }
  rewrite (bind_done _ _ _ _ _ Hread). rewrite Hloop.
  destruct (parser_emit_cbc_forward_branch_done op c)
    as (cf & Hemit & (E1 & E2 & E3 & E4 & E5) & Flast & Fcode).
  unfold parser_emit_cbc_forward_branch_item.
  unfold bind at 1. unfold bind at 1. rewrite Hemit.
  unfold bind at 1. unfold parser_malloc at 1. unfold ret at 1.
  unfold when, mark_continue.
  unfold bind at 1. unfold bind at 1. unfold node_read at 1.
  cbn [branch_nodes set_branch_nodes].
  rewrite node_at_app_last.
  unfold node_write. cbn [branch_nodes set_branch_nodes].
  rewrite node_at_app_last. rewrite insert_app_last.
  unfold parser_stack_iterator_write.
  cbn [stack set_branch_nodes]. rewrite E3, Hitem.
  eexists. split; [reflexivity |].
  cbn. rewrite E1, E2, E4, E5, Fcode.
  repeat split; try assumption.
Qed.

Lemma labelled_loop_at_item ident frames rest it :
  labelled_loop_at ident frames rest it ->
  exists loop l,
    stack_item_at (frames ++ item_uint8 PARSER_STATEMENT_START :: rest) it
    = Some loop
    /\ is_loop_frame loop = true
    /\ item_loop loop = Some l.
Proof.
  intros (above & loop & tail & -> & Hloop & _ & ->).
  assert (Hl : exists l, item_loop loop = Some l)
    by (destruct loop; try discriminate Hloop; eexists; reflexivity).
  destruct Hl as [l Hl]. exists loop, l.
  split; [| split; assumption].
  rewrite <- app_assoc. simpl app.
  apply (stack_item_at_app above loop
           (tail ++ item_uint8 PARSER_STATEMENT_START :: rest)).
Qed.

(** C4, amended.  [continue ident], in a context whose statement stack
    is a sequence of frames above the [START] sentinel.  If one of the
    frames is a loop frame that was pushed right after a label named
    [ident], or after labels one of which is named [ident], the
    statement is parsed: a forward branch is emitted, and a node for it,
    marked as a continue, is filed as the new head of the list of such
    a loop; what remains is to read the next token.  Otherwise the
    walk reaches the sentinel and [PARSER_ERR_INVALID_CONTINUE_LABEL]
    is raised. *)
Theorem parser_parse_continue_statement_label c c1 frames rest :
  lexer_next_token c = Done tt c1 ->
  label_follows c1 = true ->
  stack c = frames ++ item_uint8 PARSER_STATEMENT_START :: rest ->
  forallb is_frame frames = true ->
  let ident := tok_lit_location (token (lex c1)) in
  ((exists it, labelled_loop_at ident frames rest it) ->
   exists it op loop l c2,
     labelled_loop_at ident frames rest it
     /\ stack_item_at (stack c) it = Some loop
     /\ item_loop loop = Some l
     /\ file_branch_into_loop it op true c1 = Done tt c2
     /\ branch_nodes c2
        = branch_nodes c
          ++ [Some (mk_branch_node
                      (mk_branch
                         (Z.lor (Z.of_nat (length (emitted_code c)))
                                CBC_HIGHEST_BIT_MASK))
                      (loop_branch_list_p l))]
     /\ stack c2
        = <[(length (stack c) - it)%nat :=
              item_set_loop loop (mk_loop (Some (length (branch_nodes c))))]>
            (stack c)
     /\ parser_parse_continue_statement c = lexer_next_token c2)
  /\ (~ (exists it, labelled_loop_at ident frames rest it) ->
      parser_parse_continue_statement c
      = Raise PARSER_ERR_INVALID_CONTINUE_LABEL c1).
Proof.
  intros Hnext Hlabel Hstack Hframes ident.
  assert (Hrun :
    parser_parse_continue_statement c
    = match continue_label_search ident (stack c) None false
              CBC_JUMP_FORWARD with
      | search_reached_start => Raise PARSER_ERR_INVALID_CONTINUE_LABEL c1
      | search_ill_formed => Fault undefined_behaviour
      | search_found iterator opcode =>
          (file_branch_into_loop iterator opcode true;;
           lexer_next_token) c1
      end).
  { unfold parser_parse_continue_statement.
    rewrite (bind_done _ _ _ _ _ Hnext).
    unfold bind at 1, gets at 1. rewrite Hlabel.
    unfold bind at 1, gets at 1.
    apply lexer_next_token_done in Hnext as (l1 & ->).
    simpl stack. subst ident.
    destruct (continue_label_search _ _ _ _ _); reflexivity. }
  pose proof (continue_label_search_spec ident frames rest Hframes
                None false CBC_JUMP_FORWARD) as Hsearch.
  rewrite <- Hstack in Hsearch.
  assert (Hc1 : stack c1 = stack c /\ emitted_code c1 = emitted_code c
                /\ branch_nodes c1 = branch_nodes c).
  { apply lexer_next_token_done in Hnext as (l1 & ->). repeat split. }
  destruct Hc1 as (Hs1 & He1 & Hn1).
  destruct (continue_label_search ident (stack c) None false
              CBC_JUMP_FORWARD) as [it op | |]; [| | contradiction].
  - destruct Hsearch as [[E _] | Hloop]; [discriminate |].
    split; [| intros Hno; exfalso; apply Hno; eauto].
    intros _.
    destruct (labelled_loop_at_item _ _ _ _ Hloop)
      as (loop & l & Hitem & _ & Hl).
    rewrite <- Hstack in Hitem.
    destruct (file_branch_into_loop_continue it op c1 loop l)
      as (c2 & Hfile & _ & _ & _ & _ & _ & Hnodes & Hstack2);
      [rewrite Hs1; exact Hitem | exact Hl |].
    exists it, op, loop, l, c2.
    rewrite Hs1, He1, Hn1 in *.
    repeat (split; [assumption |]).
    rewrite Hrun. unfold bind. rewrite Hfile. reflexivity.
  - destruct Hsearch as [_ Hno_loop].
    split; [| intros _; exact Hrun].
    intros [it Hit]. exfalso. exact (Hno_loop it Hit).
Qed.

(** ** The directive prologue *)

Lemma is_use_strict_iff lit_location :
  is_use_strict lit_location = true
  <-> loc_length lit_location = 10
      /\ loc_has_escape lit_location = false
      /\ substring 0 10 (loc_char_p lit_location) = "use strict"%string.
Proof.
  unfold is_use_strict, memcmp_equal, PARSER_USE_STRICT_LENGTH,
    PARSER_USE_STRICT_LITERAL.
  change (substring 0 (Z.to_nat 10) "use strict")
    with "use strict"%string.
  change (Z.to_nat 10) with 10%nat.
  rewrite !andb_true_iff, Z.eqb_eq, negb_true_iff, String.eqb_eq.
  split.
  - intros [[H1 H2] H3]. repeat split; [exact H1 | exact H2 | congruence].
  - intros (H1 & H2 & H3). repeat split; [exact H1 | exact H2 | congruence].
Qed.

Lemma token_is_literal_type c t :
  token_is_literal c t = true ->
  token_type c = LEXER_LITERAL
  /\ loc_type (tok_lit_location (token (lex c))) = t.
Proof.
  unfold token_is_literal, token_is. intros H.
  apply andb_prop in H as [H1 H2].
  apply bool_decide_eq_true_1 in H1. apply bool_decide_eq_true_1 in H2.
  split; assumption.
Qed.

Lemma parser_parse_directive_flags c c1 :
  lexer_next_token c = Done tt c1 ->
  directive_is_expression c1 = false ->
  match parser_parse_directive c with
  | Done _ c' | Raise _ c' =>
      status_flags c'
      = if is_use_strict (tok_lit_location (token (lex c)))
        then Z.lor (status_flags c) PARSER_IS_STRICT
        else status_flags c
  | Fault _ => False
  end.
Proof.
  intros Hnext Hexpr.
  unfold parser_parse_directive, bind at 1, gets at 1.
  rewrite (bind_done _ _ _ _ _ Hnext).
  unfold bind at 1, gets at 1. rewrite Hexpr.
  apply lexer_next_token_done in Hnext as (l1 & ->).
  destruct (is_use_strict (tok_lit_location (token (lex c))));
    unfold when, bind, modify, gets, raise_if, parser_raise_error, ret,
      lexer_next_token, lift_lexer; simpl;
    repeat match goal with
           | |- context [if ?b then _ else _] => destruct b; simpl
           | |- context [match ext_next_token ?a ?b with _ => _ end] =>
               destruct (ext_next_token a b); simpl
           end;
    reflexivity.
Qed.

Lemma parser_parse_directive_expression c c1 :
  lexer_next_token c = Done tt c1 ->
  directive_is_expression c1 = true ->
  match parser_parse_directive c with
  | Done again c' => again = false /\ status_flags c' = status_flags c
  | Raise _ c' => status_flags c' = status_flags c
  | Fault _ => False
  end.
Proof.
  intros Hnext Hexpr.
  unfold parser_parse_directive, bind at 1, gets at 1.
  rewrite (bind_done _ _ _ _ _ Hnext).
  unfold bind at 1, gets at 1. rewrite Hexpr.
  apply lexer_next_token_done in Hnext as (l1 & ->).
  unfold bind, lexer_construct_literal_object, lift_lexer; simpl.
  destruct (ext_construct_literal_object _ _ _ _); simpl;
    [split |]; reflexivity.
Qed.

Lemma parser_parse_statement_string_literal c :
  token_is_literal c LEXER_STRING_LITERAL = true ->
  parser_parse_statement c
  = (parser_parse_expression_statement;; ret false) c.
Proof.
  intros H. apply token_is_literal_type in H as [Htype Hloc].
  unfold parser_parse_statement, bind at 1, gets at 1. rewrite Htype.
  unfold parser_parse_literal_statement, bind at 1, gets at 1.
  rewrite Hloc. reflexivity.
Qed.


(** ** [parser_free_jumps] *)

Lemma branch_list_agree h h' p ps :
  (forall a, a ∈ ps -> node_at h' a = node_at h a) ->
  branch_list h p ps -> branch_list h' p ps.
Proof.
  revert p. induction ps as [| a ps IH]; intros p Hagree H; simpl in *.
  - exact H.
  - destruct H as (-> & n & Hn & H). split; [reflexivity |].
    exists n. split.
    + rewrite Hagree by (left). exact Hn.
    + apply IH; [| exact H]. intros b Hb. apply Hagree. right. exact Hb.
Qed.

Lemma branch_list_allocated h p ps a :
  branch_list h p ps -> a ∈ ps -> (a < length h)%nat.
Proof.
  revert p. induction ps as [| b ps IH]; intros p H Ha.
  - inversion Ha.
  - simpl in H. destruct H as (_ & n & Hn & H).
    apply elem_of_cons in Ha as [-> | Ha]; [| exact (IH _ H Ha)].
    unfold node_at in Hn. destruct (h !! b) eqn:E; [| discriminate].
    eapply lookup_lt_Some. exact E.
Qed.

Lemma NoDup_bounded_length (ps : list nat) n :
  NoDup ps -> (forall a, a ∈ ps -> (a < n)%nat) -> (length ps <= n)%nat.
Proof.
  intros Hnd Hlt.
  apply Nat.le_trans with (length (seq 0 n));
    [| rewrite length_seq; reflexivity].
  apply submseteq_length, NoDup_submseteq; [exact Hnd |].
  intros a Ha. apply elem_of_seq. specialize (Hlt a Ha). lia.
Qed.

(** One list is freed: every node of the list, and no other. *)
Lemma free_branch_list_spec ps :
  forall n p c,
    branch_list (branch_nodes c) p ps -> NoDup ps ->
    (length ps < n)%nat ->
    exists h',
      free_branch_list n p c = Done tt (set_branch_nodes c h')
      /\ length h' = length (branch_nodes c)
      /\ (forall a, a ∈ ps -> node_at h' a = None)
      /\ (forall a, a ∉ ps -> node_at h' a = node_at (branch_nodes c) a).
Proof.
  induction ps as [| a ps IH]; intros n p c Hlist Hnd Hfuel; simpl in Hlist.
  - subst p. exists (branch_nodes c). destruct n; [simpl in Hfuel; lia |].
    simpl. split; [destruct c; reflexivity |]. split; [reflexivity |].
    split; [intros a Ha; inversion Ha | reflexivity].
  - destruct Hlist as (-> & nd & Hnd_a & Hlist).
    destruct n as [| n]; [simpl in Hfuel; lia |]. simpl in Hfuel.
    apply NoDup_cons in Hnd as [Hnotin Hnd].
    simpl. unfold bind at 1, node_read at 1. rewrite Hnd_a.
    unfold bind at 1, parser_free at 1. rewrite Hnd_a.
    destruct (IH n (node_next_p nd)
                (set_branch_nodes c (<[a := None]> (branch_nodes c))))
      as (h' & Hrun & Hlen & Hfreed & Hkept);
      [| exact Hnd | lia |].
    { simpl. eapply branch_list_agree; [| exact Hlist].
      intros b Hb. rewrite node_at_free.
      destruct (decide (a = b)) as [-> | _]; [contradiction | reflexivity]. }
    exists h'. split; [rewrite Hrun; reflexivity |].
    simpl in Hlen, Hkept. rewrite length_insert in Hlen.
    split; [exact Hlen |]. split.
    + intros b Hb. apply elem_of_cons in Hb as [-> | Hb];
        [| exact (Hfreed b Hb)].
      rewrite (Hkept a Hnotin), node_at_free.
      rewrite decide_True by reflexivity. reflexivity.
    + intros b Hb. apply not_elem_of_cons in Hb as [Hne Hb].
      rewrite (Hkept b Hb), node_at_free.
      rewrite decide_False by congruence. reflexivity.
Qed.

Lemma parser_free_branch_list_spec p ps c :
  branch_list (branch_nodes c) p ps -> NoDup ps ->
  exists h',
    parser_free_branch_list p c = Done tt (set_branch_nodes c h')
    /\ length h' = length (branch_nodes c)
    /\ (forall a, a ∈ ps -> node_at h' a = None)
    /\ (forall a, a ∉ ps -> node_at h' a = node_at (branch_nodes c) a).
Proof.
  intros Hlist Hnd. unfold parser_free_branch_list.
  apply free_branch_list_spec; [exact Hlist | exact Hnd |].
  apply Nat.lt_succ_r, NoDup_bounded_length; [exact Hnd |].
  intros a Ha. eapply branch_list_allocated; eassumption.
Qed.

Lemma Forall2_branch_list_agree h h' lists pss :
  (forall a, a ∈ concat pss -> node_at h' a = node_at h a) ->
  Forall2 (branch_list h) lists pss -> Forall2 (branch_list h') lists pss.
Proof.
  intros Hagree H. induction H as [| p ps lists pss Hp H IH];
    constructor.
  - eapply branch_list_agree; [| exact Hp].
    intros a Ha. apply Hagree. simpl. apply elem_of_app. left. exact Ha.
  - apply IH. intros a Ha. apply Hagree. simpl. apply elem_of_app.
    right. exact Ha.
Qed.

Lemma set_branch_nodes_same c : set_branch_nodes c (branch_nodes c) = c.
Proof. destruct c. reflexivity. Qed.

(** One list is freed and the walk goes on. *)
Lemma free_step p ps lists pss (k : M unit) c :
  branch_list (branch_nodes c) p ps ->
  Forall2 (branch_list (branch_nodes c)) lists pss ->
  NoDup (ps ++ concat pss) ->
  (forall c1,
     Forall2 (branch_list (branch_nodes c1)) lists pss ->
     NoDup (concat pss) ->
     exists h',
       k c1 = Done tt (set_branch_nodes c1 h')
       /\ frees_exactly (branch_nodes c1) h' (concat pss)) ->
  exists h',
    (parser_free_branch_list p;; k) c = Done tt (set_branch_nodes c h')
    /\ frees_exactly (branch_nodes c) h' (ps ++ concat pss).
Proof.
  intros Hp Hlists Hnd Hk.
  apply NoDup_app in Hnd as (Hnd_ps & Hdisjoint & Hnd_pss).
  destruct (parser_free_branch_list_spec p ps c Hp Hnd_ps)
    as (h1 & Hrun1 & Hlen1 & Hfreed1 & Hkept1).
  destruct (Hk (set_branch_nodes c h1)) as (h2 & Hrun2 & Hlen2 & Hfreed2
                                            & Hkept2);
    [| exact Hnd_pss |].
  { simpl. eapply Forall2_branch_list_agree; [| exact Hlists].
    intros a Ha. apply Hkept1. intros Hin. exact (Hdisjoint a Hin Ha). }
  simpl in Hlen2, Hkept2.
  exists h2. split; [| split; [congruence | split]].
  - unfold bind. rewrite Hrun1. rewrite Hrun2. reflexivity.
  - intros a Ha. destruct (decide (a ∈ concat pss)) as [Hin | Hout].
    + exact (Hfreed2 a Hin).
    + rewrite (Hkept2 a Hout). apply Hfreed1.
      apply elem_of_app in Ha as [Ha | Ha]; [exact Ha | contradiction].
  - intros a Ha. apply not_elem_of_app in Ha as [Ha1 Ha2].
    rewrite (Hkept2 a Ha2). exact (Hkept1 a Ha1).
Qed.

Lemma parser_free_jumps_walk_spec frames rest :
  forallb is_frame frames = true ->
  forall c pss,
    Forall2 (branch_list (branch_nodes c))
            (concat (map item_branch_lists frames)) pss ->
    NoDup (concat pss) ->
    exists h',
      parser_free_jumps_walk
        (frames ++ item_uint8 PARSER_STATEMENT_START :: rest) c
      = Done tt (set_branch_nodes c h')
      /\ frees_exactly (branch_nodes c) h' (concat pss).
Proof.
  induction frames as [| i frames IH]; intros Hframes c pss Hlists Hnd.
  - simpl in Hlists. apply Forall2_nil_inv_l in Hlists as ->.
    exists (branch_nodes c). simpl.
    split; [unfold ret; rewrite set_branch_nodes_same; reflexivity |].
    split; [reflexivity |].
    split; [intros a Ha; inversion Ha | reflexivity].
  - simpl in Hframes. apply andb_prop in Hframes as [Hi Hframes].
    specialize (IH Hframes).
    destruct i as [b | label | | | sw loop | sw loop | dw loop | ws loop
                   | fs loop | fi loop | |];
      simpl in Hlists;
      try (exact (IH c pss Hlists Hnd)).
    + (* a block *)
      unfold is_frame in Hi. simpl in Hi.
      apply andb_prop in Hi as [Hb Hstart].
      apply negb_true_iff in Hstart.
      simpl. rewrite Hstart.
      rewrite Hstart in Hb. simpl in Hb. rewrite Hb.
      exact (IH c pss Hlists Hnd).
    + apply Forall2_cons_inv_l in Hlists as (ps & pss' & Hp & Hlists & ->).
      simpl in Hnd |- *.
      apply (free_step _ _ _ _ _ _ Hp Hlists Hnd).
      intros c1 H1 H2. exact (IH c1 _ H1 H2).
    + apply Forall2_cons_inv_l in Hlists as (ps1 & pss1 & Hp1 & Hlists & ->).
      apply Forall2_cons_inv_l in Hlists as (ps2 & pss' & Hp2 & Hlists & ->).
      simpl in Hnd |- *.
      apply (free_step _ _ (loop_branch_list_p loop
                            :: concat (map item_branch_lists frames))
               (ps2 :: pss') _ _ Hp1);
        [constructor; assumption | exact Hnd |].
      intros c1 Hlists1 Hnd1.
      apply Forall2_cons_inv_l in Hlists1
        as (ps2' & pss'' & Hp2' & Hlists1 & E).
      injection E as <- <-.
      apply (free_step _ _ _ _ _ _ Hp2' Hlists1 Hnd1).
      intros c2 H1 H2. exact (IH c2 _ H1 H2).
    + apply Forall2_cons_inv_l in Hlists as (ps1 & pss1 & Hp1 & Hlists & ->).
      apply Forall2_cons_inv_l in Hlists as (ps2 & pss' & Hp2 & Hlists & ->).
      simpl in Hnd |- *.
      apply (free_step _ _ (loop_branch_list_p loop
                            :: concat (map item_branch_lists frames))
               (ps2 :: pss') _ _ Hp1);
        [constructor; assumption | exact Hnd |].
      intros c1 Hlists1 Hnd1.
      apply Forall2_cons_inv_l in Hlists1
        as (ps2' & pss'' & Hp2' & Hlists1 & E).
      injection E as <- <-.
      apply (free_step _ _ _ _ _ _ Hp2' Hlists1 Hnd1).
      intros c2 H1 H2. exact (IH c2 _ H1 H2).
    + apply Forall2_cons_inv_l in Hlists as (ps & pss' & Hp & Hlists & ->).
      simpl in Hnd |- *.
      apply (free_step _ _ _ _ _ _ Hp Hlists Hnd).
      intros c1 H1 H2. exact (IH c1 _ H1 H2).
    + apply Forall2_cons_inv_l in Hlists as (ps & pss' & Hp & Hlists & ->).
      simpl in Hnd |- *.
      apply (free_step _ _ _ _ _ _ Hp Hlists Hnd).
      intros c1 H1 H2. exact (IH c1 _ H1 H2).
    + apply Forall2_cons_inv_l in Hlists as (ps & pss' & Hp & Hlists & ->).
      simpl in Hnd |- *.
      apply (free_step _ _ _ _ _ _ Hp Hlists Hnd).
      intros c1 H1 H2. exact (IH c1 _ H1 H2).
    + apply Forall2_cons_inv_l in Hlists as (ps & pss' & Hp & Hlists & ->).
      simpl in Hnd |- *.
      apply (free_step _ _ _ _ _ _ Hp Hlists Hnd).
      intros c1 H1 H2. exact (IH c1 _ H1 H2).
Qed.

Lemma allocated_nodes_none (h : list (option parser_branch_node_t)) :
  (forall a, node_at h a = None) -> allocated_nodes h = 0%nat.
Proof.
  unfold allocated_nodes. induction h as [| x h IH]; intros H.
  - reflexivity.
  - pose proof (H 0%nat) as H0. unfold node_at in H0. simpl in H0.
    subst x. rewrite filter_cons_False by (intros [? ?]; discriminate).
    apply IH. intros a. exact (H (S a)).
Qed.

(** What [parser_free_jumps] does when it is started at an iterator
    below which the stack holds frames and then the [START] sentinel,
    and the lists of these frames are lists of distinct allocated
    nodes: it returns, every node of these lists is freed, and no other
    node is touched.  If the lists hold every node that is allocated
    (the invariant of the design document: a node is allocated only by
    a call that files it into the list of a frame), no node remains
    allocated. *)
Theorem parser_free_jumps_frees_lists c above frames rest pss :
  stack c = above ++ frames ++ item_uint8 PARSER_STATEMENT_START :: rest ->
  forallb is_frame frames = true ->
  Forall2 (branch_list (branch_nodes c))
          (concat (map item_branch_lists frames)) pss ->
  NoDup (concat pss) ->
  exists h',
    parser_free_jumps
      (length (frames ++ item_uint8 PARSER_STATEMENT_START :: rest)) c
    = Done tt (set_branch_nodes c h')
    /\ frees_exactly (branch_nodes c) h' (concat pss)
    /\ ((forall a n, node_at (branch_nodes c) a = Some n -> a ∈ concat pss) ->
        allocated_nodes h' = 0%nat).
Proof.
  intros Hstack Hframes Hlists Hnd.
  destruct (parser_free_jumps_walk_spec frames rest Hframes c pss Hlists Hnd)
    as (h' & Hrun & Hfrees).
  exists h'. split; [| split; [exact Hfrees |]].
  - unfold parser_free_jumps. rewrite Hstack, length_app.
    replace (length above
             + length (frames ++ item_uint8 PARSER_STATEMENT_START :: rest)
             - length (frames ++ item_uint8 PARSER_STATEMENT_START :: rest))%nat
      with (length above) by lia.
    rewrite drop_app_length. exact Hrun.
  - intros Hall. destruct Hfrees as (_ & Hfreed & Hkept).
    apply allocated_nodes_none. intros a.
    destruct (decide (a ∈ concat pss)) as [Hin | Hout];
      [exact (Hfreed a Hin) |].
    rewrite (Hkept a Hout).
    destruct (node_at (branch_nodes c) a) as [n |] eqn:E; [| reflexivity].
    exfalso. exact (Hout (Hall a n E)).
Qed.

(** ** What the pre-scanner leaves alone *)

Lemma scanner_only_refl c : scanner_only c c.
Proof. repeat split. Qed.

Lemma scanner_only_trans c1 c2 c3 :
  scanner_only c1 c2 -> scanner_only c2 c3 -> scanner_only c1 c3.
Proof.
  intros (A1 & A2 & A3 & A4) (B1 & B2 & B3 & B4). repeat split; congruence.
Qed.

Lemma scanner_only_lift_lexer f : keeps scanner_only (lift_lexer f).
Proof.
  intros c. unfold lift_lexer.
  destruct (f (status_flags c) (lex c)); repeat split.
Qed.

Lemma scanner_only_push b : keeps scanner_only (parser_stack_push_uint8 b).
Proof. intros c. repeat split. Qed.

Lemma scanner_only_pop : keeps scanner_only parser_stack_pop_uint8.
Proof.
  intros c. unfold parser_stack_pop_uint8.
  destruct (stack c) as [| [] s]; simpl; try exact Logic.I; repeat split.
Qed.

(** The steps of a proof that a part of the scanner keeps
    [scanner_only]. *)
Ltac scanner_only_step :=
  first
    [ apply scanner_only_lift_lexer
    | apply scanner_only_push
    | apply scanner_only_pop
    | keeps_step scanner_only_refl scanner_only_trans
    | match goal with
      | |- keeps _ (match ?x with _ => _ end) => destruct x
      end ].

Lemma scanner_only_primary_expression type stack_top mode :
  keeps scanner_only (parser_scan_primary_expression type stack_top mode).
Proof.
  unfold parser_scan_primary_expression, lexer_construct_regexp_object.
  repeat scanner_only_step.
Qed.

Lemma scanner_only_post_primary_expression type mode :
  keeps scanner_only (parser_scan_post_primary_expression type mode).
Proof.
  unfold parser_scan_post_primary_expression, lexer_scan_identifier.
  repeat scanner_only_step.
Qed.

Lemma scanner_only_primary_expression_end type stack_top end_type :
  keeps scanner_only
        (parser_scan_primary_expression_end type stack_top end_type).
Proof.
  unfold parser_scan_primary_expression_end,
    parser_scan_primary_expression_end_tail.
  repeat scanner_only_step.
Qed.

Lemma scanner_only_statement type stack_top mode :
  keeps scanner_only (parser_scan_statement type stack_top mode).
Proof.
  unfold parser_scan_statement, parser_scan_statement_tail, lexer_next_token.
  repeat scanner_only_step.
Qed.

Lemma scanner_only_argument_list n :
  keeps scanner_only (parser_scan_argument_list n).
Proof.
  induction n as [| n IH]; simpl; [apply keeps_fault |].
  unfold lexer_next_token.
  repeat first [exact IH | scanner_only_step].
Qed.

Lemma scanner_only_function_arguments :
  keeps scanner_only parser_scan_function_arguments.
Proof.
  unfold parser_scan_function_arguments, lexer_next_token.
  repeat first [apply scanner_only_argument_list | scanner_only_step].
Qed.

Lemma scanner_only_property_name :
  keeps scanner_only parser_scan_property_name.
Proof.
  unfold parser_scan_property_name, lexer_next_token, lexer_scan_identifier.
  repeat scanner_only_step.
Qed.

Lemma scanner_only_switch mode type stack_top end_type :
  keeps scanner_only (parser_scan_switch mode type stack_top end_type).
Proof.
  unfold parser_scan_switch.
  destruct mode;
    repeat first
      [ apply scanner_only_primary_expression
      | apply scanner_only_post_primary_expression
      | apply scanner_only_primary_expression_end
      | apply scanner_only_statement
      | apply scanner_only_function_arguments
      | apply scanner_only_property_name
      | scanner_only_step ].
Qed.

Lemma scanner_only_iteration end_type end_type_b mode :
  keeps scanner_only (parser_scan_iteration end_type end_type_b mode).
Proof.
  unfold parser_scan_iteration.
  repeat first [apply scanner_only_switch | scanner_only_step].
Qed.

Lemma scanner_only_loop n :
  forall end_type end_type_b mode range,
    keeps scanner_only (parser_scan_loop n end_type end_type_b mode range).
Proof.
  induction n as [| n IH]; intros end_type end_type_b mode range; simpl;
    [apply keeps_fault |].
  unfold lexer_next_token.
  repeat first [apply IH | apply scanner_only_iteration | scanner_only_step].
Qed.

Lemma scanner_only_prepare end_type :
  keeps scanner_only (parser_scan_prepare end_type).
Proof.
  unfold parser_scan_prepare, lexer_next_token.
  repeat scanner_only_step.
Qed.

Lemma scanner_only_until end_type :
  keeps scanner_only (parser_scan_until end_type).
Proof.
  unfold parser_scan_until.
  apply (keeps_bind _ scanner_only_trans); [apply scanner_only_prepare |].
  intros [mode range]. apply scanner_only_loop.
Qed.

(** [parser_scan_until] is a scan: whether it returns or raises an
    error, it has emitted no byte code, changed no status flag,
    allocated or freed no branch node and left the iterator of the last
    statement alone.  Only the lexer and the stack can differ. *)
Theorem parser_scan_until_scans_only end_type c :
  match parser_scan_until end_type c with
  | Done _ c' | Raise _ c' =>
      cbc c' = cbc c /\ status_flags c' = status_flags c
      /\ last_statement c' = last_statement c
      /\ branch_nodes c' = branch_nodes c
  | Fault _ => True
  end.
Proof.
  assert (H : keeps scanner_only (parser_scan_until end_type)).
  { unfold parser_scan_until.
    repeat first [apply scanner_only_loop | apply scanner_only_prepare
                 | scanner_only_step]. }
  exact (H c).
Qed.

(** ** The stack discipline of the pre-scanner *)

(** The symbols on the stack after a step, read off the stack. *)
Ltac scan_symbols :=
  lazymatch goal with
  | |- exists _, scan_stack _ _
                   (item_uint8 ?k :: item_uint8 ?x
                    :: map item_uint8 ?l ++ _) /\ _ => exists (k :: x :: l)
  | |- exists _, scan_stack _ _
                   (item_uint8 ?x :: map item_uint8 ?l ++ _) /\ _ =>
      exists (x :: l)
  | |- exists _, scan_stack _ _ (map item_uint8 ?l ++ _) /\ _ => exists l
  | |- exists _, scan_stack _ _
                   (item_uint8 ?k :: item_uint8 ?h :: ?b) /\ _ =>
      exists [k]
  | |- exists _, scan_stack _ _ (item_uint8 ?h :: ?b) /\ _ =>
      exists (@nil Z)
  | |- exists _, scan_stack _ _
                   (item_uint8 ?k :: item_uint8 ?x
                    :: map item_uint8 ?l ++ _) => exists (k :: x :: l)
  | |- exists _, scan_stack _ _
                   (item_uint8 ?x :: map item_uint8 ?l ++ _) =>
      exists (x :: l)
  | |- exists _, scan_stack _ _ (map item_uint8 ?l ++ _) => exists l
  | |- exists _, scan_stack _ _ (item_uint8 ?k :: item_uint8 ?h :: ?b) =>
      exists [k]
  | |- exists _, scan_stack _ _ (item_uint8 ?h :: ?b) => exists (@nil Z)
  end.

Ltac scan_stack_ok :=
  split;
  [ reflexivity
  | repeat (apply Forall_cons; split);
    first [ assumption | apply Forall_nil
          | intros ?; discriminate
          | idtac ] ].

(** One case of a part of the scanner: every test is decided, the
    lexer's answer is taken as it comes, and the stack is read off. *)
Ltac scan_case :=
  repeat
    (simpl;
     match goal with
     | |- context [match ?r with ext_ok _ => _ | ext_error _ => _ end] =>
         destruct r
     | |- context [if ?b then _ else _] => destruct b eqn:?
     end);
  simpl;
  try reflexivity;
  try (scan_symbols;
       first [ scan_stack_ok
             | split; [scan_stack_ok
                      | unfold property_name_inside; simpl;
                        intros ?; congruence ] ]).

Lemma scan_run_primary_expression base type mode c syms :
  scan_stack base syms (stack c) ->
  scan_run base (fun r syms' => property_name_inside r.2 syms')
    (parser_scan_primary_expression type (stack_top_uint8 c) mode c).
Proof.
  intros [Hs Hall]. destruct c as [lx e fl s ls bn]. simpl in Hs. subst s.
  unfold parser_scan_primary_expression, scan_run, stack_top_uint8, bind,
    ret, raise_if, parser_raise_error, parser_stack_push_uint8,
    parser_stack_pop_uint8, modify, lexer_construct_regexp_object,
    lift_lexer.
  destruct syms as [| x syms];
    [| apply Forall_cons in Hall as [Hx Hall]];
    destruct type; scan_case.
Qed.

(** A part of the scanner, opened up on a context whose stack is known. *)
Ltac scan_open :=
  unfold scan_run, stack_top_uint8, bind, ret, gets, when, raise_if,
    parser_raise_error, parser_stack_push_uint8, parser_stack_pop_uint8,
    modify, lexer_construct_regexp_object, lexer_scan_identifier,
    lexer_next_token, lift_lexer.

Lemma scan_run_post_primary_expression base type mode c syms :
  mode <> SCAN_MODE_PROPERTY_NAME ->
  scan_stack base syms (stack c) ->
  scan_run base (fun r syms' => property_name_inside r.2 syms')
    (parser_scan_post_primary_expression type mode c).
Proof.
  intros Hmode [Hs Hall]. destruct c as [lx e fl s ls bn]. simpl in Hs.
  subst s. unfold parser_scan_post_primary_expression. scan_open.
  destruct syms as [| x syms];
    [| apply Forall_cons in Hall as [Hx Hall]];
    destruct type; scan_case.
Qed.

Lemma scan_run_primary_expression_end base type end_type c syms :
  scan_stack base syms (stack c) ->
  scan_run base (fun r syms' => property_name_inside r.2 syms')
    (parser_scan_primary_expression_end type (stack_top_uint8 c) end_type c).
Proof.
  intros [Hs Hall]. destruct c as [lx e fl s ls bn]. simpl in Hs. subst s.
  unfold parser_scan_primary_expression_end,
    parser_scan_primary_expression_end_tail.
  scan_open.
  destruct syms as [| x syms];
    [| apply Forall_cons in Hall as [Hx Hall]];
    destruct type; scan_case.
Qed.

Lemma scan_run_statement base type mode c syms :
  mode <> SCAN_MODE_PROPERTY_NAME ->
  scan_stack base syms (stack c) ->
  scan_run base (fun r syms' => property_name_inside r.2 syms')
    (parser_scan_statement type (stack_top_uint8 c) mode c).
Proof.
  intros Hmode [Hs Hall]. destruct c as [lx e fl s ls bn]. simpl in Hs.
  subst s. unfold parser_scan_statement, parser_scan_statement_tail.
  scan_open.
  destruct syms as [| x syms];
    [| apply Forall_cons in Hall as [Hx Hall]];
    destruct type; scan_case.
Qed.

Lemma reads_tokens_ret {A : Type} (Q : A -> Prop) a :
  Q a -> reads_tokens Q (ret a).
Proof. intros H c. split; [reflexivity | exact H]. Qed.

Lemma reads_tokens_bind {A B : Type} (P : A -> Prop) (Q : B -> Prop)
    (m : M A) (k : A -> M B) :
  reads_tokens P m -> (forall a, P a -> reads_tokens Q (k a)) ->
  reads_tokens Q (bind m k).
Proof.
  intros Hm Hk c. unfold bind. specialize (Hm c).
  destruct (m c) as [a c1 | e c1 | f]; [| exact Hm | exact Hm].
  destruct Hm as [Hs Ha]. specialize (Hk a Ha c1).
  destruct (k a c1) as [b c2 | e c2 | f]; [| | exact Hk].
  - destruct Hk as [Hs2 Hb]. split; [congruence | exact Hb].
  - congruence.
Qed.

Lemma reads_tokens_gets {A : Type} (f : parser_context_t -> A) :
  reads_tokens (fun _ => True) (gets f).
Proof. intros c. split; [reflexivity | exact Logic.I]. Qed.

Lemma reads_tokens_raise_if b e : reads_tokens (fun _ => True) (raise_if b e).
Proof. intros c. destruct b; simpl; [reflexivity | split; reflexivity]. Qed.

Lemma reads_tokens_lift_lexer f :
  reads_tokens (fun _ => True) (lift_lexer f).
Proof.
  intros c. unfold lift_lexer. destruct (f _ _); simpl;
    [split; reflexivity | reflexivity].
Qed.

Lemma reads_tokens_when b (m : M unit) :
  reads_tokens (fun _ => True) m -> reads_tokens (fun _ => True) (when b m).
Proof.
  intros H. destruct b; [exact H |].
  apply reads_tokens_ret. exact Logic.I.
Qed.

Ltac reads_tokens_step :=
  first
    [ apply reads_tokens_lift_lexer
    | apply reads_tokens_gets
    | apply reads_tokens_raise_if
    | apply reads_tokens_when
    | eapply reads_tokens_bind; [| intros ? _] ].

Lemma reads_tokens_argument_list n :
  reads_tokens (fun _ => True) (parser_scan_argument_list n).
Proof.
  induction n as [| n IH]; simpl; [intros c; reflexivity |].
  unfold lexer_next_token.
  repeat first
    [ exact IH
    | apply reads_tokens_ret; exact Logic.I
    | match goal with
      | |- reads_tokens _ (if ?b then _ else _) => destruct b
      end
    | reads_tokens_step ].
Qed.

Lemma reads_tokens_function_arguments :
  reads_tokens (fun mode => mode = SCAN_MODE_STATEMENT)
               parser_scan_function_arguments.
Proof.
  unfold parser_scan_function_arguments, lexer_next_token.
  repeat first
    [ apply reads_tokens_argument_list
    | apply reads_tokens_ret; reflexivity
    | reads_tokens_step ].
Qed.

Lemma scan_run_function_arguments base c syms :
  scan_stack base syms (stack c) ->
  scan_run base (fun mode syms' => property_name_inside mode syms')
    (parser_scan_function_arguments c).
Proof.
  intros Hs. pose proof (reads_tokens_function_arguments c) as H.
  unfold scan_run.
  destruct (parser_scan_function_arguments c) as [m c' | e c' | f];
    [| | exact H].
  - destruct H as [E ->]. exists syms. rewrite E.
    split; [exact Hs |]. intros H. discriminate H.
  - exists syms. rewrite H. exact Hs.
Qed.

Lemma scan_run_property_name base c syms :
  syms <> [] ->
  scan_stack base syms (stack c) ->
  scan_run base (fun mode syms' => property_name_inside mode syms')
    (parser_scan_property_name c).
Proof.
  intros Hne [Hs Hall]. destruct c as [lx e fl s ls bn]. simpl in Hs.
  subst s. unfold parser_scan_property_name. scan_open.
  destruct syms as [| x syms]; [congruence |].
  apply Forall_cons in Hall as [Hx Hall].
  scan_case.
Qed.

Lemma scan_stack_head_top base syms c :
  scan_stack base syms (stack c) ->
  (stack_top_uint8 c =? SCAN_STACK_HEAD) = true ->
  syms = [] /\ stack c = item_uint8 SCAN_STACK_HEAD :: base.
Proof.
  intros [Hs Hall] Htop. unfold stack_top_uint8 in Htop. rewrite Hs in Htop.
  destruct syms as [| x syms]; [split; [reflexivity | exact Hs] |].
  apply Forall_cons in Hall as [Hx _]. simpl in Htop.
  apply Z.eqb_eq in Htop. contradiction.
Qed.

Lemma scan_step_of_helper base (h : M (bool * scan_modes_t)) c :
  scan_run base (fun r syms => property_name_inside r.2 syms) (h c) ->
  scan_step_run base ((r ← h; ret (continue_or_break r)) c).
Proof.
  unfold bind, scan_run, scan_step_run.
  destruct (h c) as [[b m] c' | e c' | f]; simpl; [| auto | auto].
  intros H. unfold continue_or_break. simpl. destruct b; exact H.
Qed.

Lemma scan_step_of_mode base (h : M scan_modes_t) c :
  scan_run base (fun mode syms => property_name_inside mode syms) (h c) ->
  scan_step_run base ((mode ← h; ret (scan_break mode)) c).
Proof.
  unfold bind, scan_run, scan_step_run.
  destruct (h c) as [m c' | e c' | f]; simpl; auto.
Qed.

(** Where [parser_scan_post_primary_expression] falls through, it has
    done nothing. *)
Lemma parser_scan_post_primary_expression_through type mode c m c' :
  parser_scan_post_primary_expression type mode c = Done (false, m) c' ->
  c' = c /\ m = mode.
Proof.
  unfold parser_scan_post_primary_expression. scan_open.
  destruct type; simpl;
    repeat match goal with
           | |- context [match ?r with ext_ok _ => _ | ext_error _ => _ end] =>
               destruct r
           | |- context [if ?b then _ else _] => destruct b
           end;
    simpl; intros H; try discriminate H;
      injection H as <- <-; split; reflexivity.
Qed.

Lemma scan_step_run_switch base mode type end_type c syms :
  scan_stack base syms (stack c) ->
  property_name_inside mode syms ->
  scan_step_run base
    (parser_scan_switch mode type (stack_top_uint8 c) end_type c).
Proof.
  intros Hs Hmode. unfold parser_scan_switch.
  destruct mode.
  - destruct (_ || _);
      [exists syms; split; [exact Hs | intros H; discriminate H] |].
    apply scan_step_of_helper, (scan_run_primary_expression _ _ _ _ syms Hs).
  - apply scan_step_of_helper, (scan_run_primary_expression _ _ _ _ syms Hs).
  - assert (Hpost := scan_run_post_primary_expression base type
                       SCAN_MODE_POST_PRIMARY_EXPRESSION c syms).
    specialize (Hpost ltac:(discriminate) Hs).
    unfold bind at 1.
    destruct (parser_scan_post_primary_expression type
                SCAN_MODE_POST_PRIMARY_EXPRESSION c)
      as [[b m] c1 | e c1 | f] eqn:E; [| exact Hpost | exact Hpost].
    destruct b; simpl.
    + exact Hpost.
    + apply parser_scan_post_primary_expression_through in E as [-> ->].
      apply scan_step_of_helper,
        (scan_run_primary_expression_end _ _ _ _ syms Hs).
  - apply scan_step_of_helper,
      (scan_run_primary_expression_end _ _ _ _ syms Hs).
  - destruct (bool_decide (end_type = LEXER_SCAN_SWITCH)
              && (stack_top_uint8 c =? SCAN_STACK_HEAD)
              && _) eqn:Eexit.
    + apply andb_prop in Eexit as [Eexit _].
      apply andb_prop in Eexit as [_ Etop].
      destruct (scan_stack_head_top _ _ _ Hs Etop) as [_ Hstack].
      unfold bind, parser_stack_pop_uint8. rewrite Hstack. reflexivity.
    + apply scan_step_of_helper.
      apply (scan_run_statement _ _ _ _ syms); [discriminate | exact Hs].
  - apply scan_step_of_mode, (scan_run_function_arguments _ _ syms Hs).
  - apply scan_step_of_mode, (scan_run_property_name _ _ syms);
      [apply Hmode; reflexivity | exact Hs].
Qed.

Lemma scan_step_run_iteration base end_type end_type_b mode c syms :
  scan_stack base syms (stack c) ->
  property_name_inside mode syms ->
  scan_step_run base (parser_scan_iteration end_type end_type_b mode c).
Proof.
  intros Hs Hmode. unfold parser_scan_iteration.
  unfold bind at 1, gets at 1. unfold bind at 1, gets at 1.
  unfold bind at 1. unfold raise_if.
  destruct (bool_decide (token_type c = LEXER_EOS)); simpl;
    [exists syms; exact Hs |].
  destruct ((stack_top_uint8 c =? SCAN_STACK_HEAD) && _) eqn:Eend.
  - apply andb_prop in Eend as [Etop _].
    destruct (scan_stack_head_top _ _ _ Hs Etop) as [_ Hstack].
    unfold bind, parser_stack_pop_uint8. rewrite Hstack. reflexivity.
  - apply (scan_step_run_switch _ _ _ _ _ syms Hs Hmode).
Qed.

Lemma parser_scan_loop_balanced base end_type end_type_b n :
  forall mode range c syms,
    scan_stack base syms (stack c) ->
    property_name_inside mode syms ->
    match parser_scan_loop n end_type end_type_b mode range c with
    | Done r c' =>
        stack c' = base
        /\ range_source_p r = range_source_p range
        /\ range_line r = range_line range
        /\ range_column r = range_column range
    | Raise _ c' => exists syms', scan_stack base syms' (stack c')
    | Fault f => f = out_of_fuel
    end.
Proof.
  induction n as [| n IH]; intros mode range c syms Hs Hmode; simpl;
    [reflexivity |].
  pose proof (scan_step_run_iteration base end_type end_type_b mode c syms
                Hs Hmode) as Hstep.
  unfold bind at 1.
  destruct (parser_scan_iteration end_type end_type_b mode c)
    as [[| m | m] c1 | e c1 | f]; simpl in Hstep;
    [| | | exact Hstep | exact Hstep].
  - simpl. repeat split. exact Hstep.
  - destruct Hstep as (syms1 & Hs1 & Hm1). exact (IH _ _ _ _ Hs1 Hm1).
  - destruct Hstep as (syms1 & Hs1 & Hm1).
    unfold bind at 1, gets at 1. unfold bind at 1.
    pose proof (reads_tokens_lift_lexer ext_next_token c1) as Hnext.
    fold lexer_next_token in Hnext.
    destruct (lexer_next_token c1) as [[] c2 | e c2 | f];
      [| exists syms1; rewrite Hnext; exact Hs1 | exact Hnext].
    destruct Hnext as [E _]. rewrite <- E in Hs1.
    exact (IH _ (set_range_source_end_p range (source_p (lex c1))) _ _
              Hs1 Hm1).
Qed.

Lemma parser_scan_prepare_stack end_type c :
  match parser_scan_prepare end_type c with
  | Done (mode, range) c1 =>
      stack c1 = item_uint8 SCAN_STACK_HEAD :: stack c
      /\ mode <> SCAN_MODE_PROPERTY_NAME
      /\ range_source_p range = source_p (lex c)
      /\ range_line range = line (lex c)
      /\ range_column range = column (lex c)
  | Raise _ c1 => stack c1 = stack c
  | Fault f => f = out_of_fuel
  end.
Proof.
  unfold parser_scan_prepare. scan_open.
  repeat match goal with
         | |- context [if ?b then _ else _] => destruct b; simpl
         | |- context [match ?r with ext_ok _ => _ | ext_error _ => _ end] =>
             destruct r; simpl
         end;
    repeat split; discriminate.
Qed.

(** What a scan does to the stack, for the proofs about its callers. *)
Lemma parser_scan_until_stack end_type c :
  match parser_scan_until end_type c with
  | Done _ c' => stack c' = stack c
  | Raise _ c' =>
      exists junk, stack c' = junk ++ stack c /\ scan_bytes junk
  | Fault f => f = out_of_fuel
  end.
Proof.
  unfold parser_scan_until. unfold bind at 1.
  pose proof (parser_scan_prepare_stack end_type c) as Hprepare.
  destruct (parser_scan_prepare end_type c) as [[mode range] c1 | e c1 | f];
    [| exists []; split; [exact Hprepare | left; reflexivity]
     | exact Hprepare].
  destruct Hprepare as (Hs1 & Hmode & _).
  pose proof (parser_scan_loop_balanced (stack c)
                (scan_end_types end_type).1 (scan_end_types end_type).2
                fuel mode range c1 []) as Hloop.
  assert (Hs : scan_stack (stack c) [] (stack c1))
    by (split; [exact Hs1 | constructor]).
  assert (Hm : property_name_inside mode []) by (intros H; contradiction).
  specialize (Hloop Hs Hm).
  destruct (parser_scan_loop fuel _ _ mode range c1) as [r c' | e c' | f].
  - exact (proj1 Hloop).
  - destruct Hloop as (syms & Hstack & Hsyms).
    exists (map item_uint8 syms ++ [item_uint8 SCAN_STACK_HEAD]).
    split; [rewrite Hstack, <- app_assoc; reflexivity |].
    right. exists syms. split; [reflexivity | exact Hsyms].
  - exact Hloop.
Qed.

(** [parser_scan_until] keeps the stack discipline.  When it returns,
    the stack is what it was at the entry; the scan has popped nothing
    but symbols of its own, and the range it hands back starts where
    the lexer stood at the entry.  When it raises an error, the stack of
    the entry is still there, below the head symbol and the symbols of
    the brackets that were open (or untouched, when the first token
    could not be read).  Nothing else but running out of fuel can
    happen. *)
Theorem parser_scan_until_balanced end_type c :
  match parser_scan_until end_type c with
  | Done range c' =>
      stack c' = stack c
      /\ range_source_p range = source_p (lex c)
      /\ range_line range = line (lex c)
      /\ range_column range = column (lex c)
  | Raise _ c' =>
      stack c' = stack c
      \/ exists syms,
           stack c'
           = map item_uint8 syms ++ item_uint8 SCAN_STACK_HEAD :: stack c
           /\ Forall (fun b => b <> SCAN_STACK_HEAD) syms
  | Fault f => f = out_of_fuel
  end.
Proof.
  unfold parser_scan_until. unfold bind at 1.
  pose proof (parser_scan_prepare_stack end_type c) as Hprepare.
  destruct (parser_scan_prepare end_type c) as [[mode range] c1 | e c1 | f];
    [| left; exact Hprepare | exact Hprepare].
  destruct Hprepare as (Hs1 & Hmode & R1 & R2 & R3).
  pose proof (parser_scan_loop_balanced (stack c)
                (scan_end_types end_type).1 (scan_end_types end_type).2
                fuel mode range c1 []) as Hloop.
  destruct (parser_scan_loop fuel _ _ mode range c1) as [r c' | e c' | f].
  - destruct Hloop as (L1 & L2 & L3 & L4);
      [split; [exact Hs1 | constructor] | intros H; contradiction |].
    repeat split; congruence.
  - right. apply Hloop;
      [split; [exact Hs1 | constructor] | intros H; contradiction].
  - apply Hloop;
      [split; [exact Hs1 | constructor] | intros H; contradiction].
Qed.

(** ** Where the pre-scanner returns *)

(** A loop that returns has gone through some passes to the head of
    the pass that returns. *)
Lemma parser_scan_loop_passes n end_type end_type_b :
  forall mode range c r c',
    parser_scan_loop n end_type end_type_b mode range c = Done r c' ->
    exists k mode' ce,
      (k < n)%nat
      /\ scan_passes end_type end_type_b k mode c mode' ce
      /\ parser_scan_iteration end_type end_type_b mode' ce
         = Done scan_return c'.
Proof.
  induction n as [| n IH]; intros mode range c r c' H; [discriminate |].
  simpl in H. apply bind_done_inv in H as (step & c1 & Hit & H).
  destruct step as [| mode1 | mode1].
  - apply ret_done_inv in H as [_ <-].
    exists 0%nat, mode, c. split; [lia |].
    split; [constructor | exact Hit].
  - destruct (IH _ _ _ _ _ H) as (k & mode' & ce & Hk & Hpasses & Hret).
    exists (S k), mode', ce. split; [lia |].
    split; [| exact Hret].
    eapply scan_passes_continue; [exact Hit | exact Hpasses].
  - run_step H.
    apply bind_done_inv in H as ([] & c2 & Hnext & H).
    destruct (IH _ _ _ _ _ H) as (k & mode' & ce & Hk & Hpasses & Hret).
    exists (S k), mode', ce. split; [lia |].
    split; [| exact Hret].
    eapply scan_passes_break; [exact Hit | exact Hnext | exact Hpasses].
Qed.

(** The passes of a scan keep its symbols on top of the stack of the
    entry. *)
Lemma scan_passes_stack base end_type end_type_b n mode c mode' c' :
  scan_passes end_type end_type_b n mode c mode' c' ->
  forall syms,
    scan_stack base syms (stack c) ->
    property_name_inside mode syms ->
    exists syms',
      scan_stack base syms' (stack c') /\ property_name_inside mode' syms'.
Proof.
  induction 1 as [mode c | n mode c mode1 c1 mode' c' Hit _ IH
                  | n mode c mode1 c1 c2 mode' c' Hit Hnext _ IH];
    intros syms Hs Hmode.
  - exists syms. split; assumption.
  - pose proof (scan_step_run_iteration base end_type end_type_b mode c syms
                  Hs Hmode) as Hstep.
    rewrite Hit in Hstep. destruct Hstep as (syms1 & Hs1 & Hm1).
    exact (IH _ Hs1 Hm1).
  - pose proof (scan_step_run_iteration base end_type end_type_b mode c syms
                  Hs Hmode) as Hstep.
    rewrite Hit in Hstep. destruct Hstep as (syms1 & Hs1 & Hm1).
    apply lexer_next_token_done in Hnext as (l & ->).
    exact (IH _ Hs1 Hm1).
Qed.

(** A loop with fuel for the passes that lead to a head at [EOS]
    fails there. *)
Lemma scan_passes_eos end_type end_type_b k mode c mode' ce :
  scan_passes end_type end_type_b k mode c mode' ce ->
  token_type ce = LEXER_EOS ->
  forall n range,
    (k < n)%nat ->
    parser_scan_loop n end_type end_type_b mode range c
    = Raise PARSER_ERR_EXPRESSION_EXPECTED ce.
Proof.
  induction 1 as [mode c | k mode c mode1 c1 mode' c' Hit _ IH
                  | k mode c mode1 c1 c2 mode' c' Hit Hnext _ IH];
    intros Heos n range Hk;
    (destruct n as [| n]; [lia |]); simpl.
  - apply bind_raise. apply parser_scan_iteration_eos. exact Heos.
  - rewrite (bind_done _ _ _ _ _ Hit). apply IH; [exact Heos | lia].
  - rewrite (bind_done _ _ _ _ _ Hit).
    unfold bind at 1, gets at 1.
    rewrite (bind_done _ _ _ _ _ Hnext). apply IH; [exact Heos | lia].
Qed.


(** ** [break], [continue] without label, and labels *)

Lemma frame_type_facts i :
  is_frame i = true ->
  (item_type i =? PARSER_STATEMENT_START) = false
  /\ is_statement_item i = true
  /\ crosses_context (item_type i) = is_context_frame i
  /\ is_break_target (item_type i) = is_break_frame i
  /\ is_loop_type (item_type i) = is_loop_frame i
  /\ (item_type i =? PARSER_STATEMENT_WITH)
     || (item_type i =? PARSER_STATEMENT_TRY) = is_with_or_try_frame i
  /\ (item_type i =? PARSER_STATEMENT_WITH) = is_with_frame i.
Proof.
  intros H. destruct i as [b | | | | | | | | | | |];
    try (repeat split; reflexivity).
  unfold is_frame, is_statement_item in H. simpl in H.
  apply andb_prop in H as [H1 H2]. apply negb_true_iff in H2.
  rewrite H2 in H1. simpl in H1. apply Z.eqb_eq in H1. subst b.
  repeat split; reflexivity.
Qed.

Lemma first_frame_nil P above t below : ~ first_frame P [] above t below.
Proof. intros [H _]. destruct above; discriminate. Qed.

Lemma first_frame_head P a frames above t below :
  first_frame P (a :: frames) above t below ->
  (above = [] /\ t = a /\ below = frames /\ P a = true)
  \/ exists above',
       above = a :: above' /\ P a = false
       /\ first_frame P frames above' t below.
Proof.
  intros (H & Hall & Ht).
  destruct above as [| b above]; simpl in H; injection H as -> ->.
  - left. repeat split. exact Ht.
  - right. simpl in Hall. apply andb_prop in Hall as [Hb Hall].
    apply negb_true_iff in Hb.
    exists above. repeat split; assumption.
Qed.

Lemma first_frame_none P frames above t below :
  forallb (fun i => negb (P i)) frames = true ->
  ~ first_frame P frames above t below.
Proof.
  intros Hall (-> & _ & Ht). rewrite forallb_app in Hall.
  apply andb_prop in Hall as [_ Hall]. simpl in Hall.
  rewrite Ht in Hall. discriminate.
Qed.

Lemma first_frame_item P frames above t below rest :
  first_frame P frames above t below ->
  stack_item_at (frames ++ item_uint8 PARSER_STATEMENT_START :: rest)
    (length (t :: below ++ item_uint8 PARSER_STATEMENT_START :: rest))
  = Some t.
Proof.
  intros (-> & _). rewrite <- app_assoc. simpl app.
  apply (stack_item_at_app above t
           (below ++ item_uint8 PARSER_STATEMENT_START :: rest)).
Qed.

Lemma insert_at_iterator (above : list stack_item_t) t x below :
  <[(length (above ++ t :: below) - length (t :: below))%nat := x]>
    (above ++ t :: below)
  = above ++ x :: below.
Proof.
  rewrite length_app.
  replace (length above + length (t :: below) - length (t :: below))%nat
    with (length above + 0)%nat by lia.
  rewrite insert_app_r. reflexivity.
Qed.

(** What the search for the target of a [break] finds, on a stack of
    frames above the sentinel. *)
Lemma break_target_search_spec frames rest :
  forallb is_frame frames = true ->
  forall opcode,
    (forallb (fun i => negb (is_break_frame i)) frames = true ->
     break_target_search
       (frames ++ item_uint8 PARSER_STATEMENT_START :: rest) opcode
     = search_reached_start)
    /\ (forall above t below,
          first_frame is_break_frame frames above t below ->
          break_target_search
            (frames ++ item_uint8 PARSER_STATEMENT_START :: rest) opcode
          = search_found
              (length (t :: below
                       ++ item_uint8 PARSER_STATEMENT_START :: rest))
              (if existsb is_context_frame (above ++ [t])
               then CBC_JUMP_FORWARD_EXIT_CONTEXT else opcode)).
Proof.
  induction frames as [| a frames IH]; intros Hframes opcode.
  - split; [reflexivity |].
    intros above t below H. destruct (first_frame_nil _ _ _ _ H).
  - simpl in Hframes. apply andb_prop in Hframes as [Ha Hframes].
    destruct (frame_type_facts a Ha) as (T1 & T2 & T3 & T4 & _).
    specialize (IH Hframes).
    simpl. rewrite T1, T2, T3, T4. split.
    + intros Hall. apply andb_prop in Hall as [Hb Hall].
      apply negb_true_iff in Hb. rewrite Hb.
      apply (IH _), Hall.
    + intros above t below H.
      apply first_frame_head in H
        as [(-> & -> & -> & Hb) | (above' & -> & Hb & H)]; rewrite Hb.
      * simpl. rewrite orb_false_r. reflexivity.
      * rewrite (proj2 (IH _) _ _ _ H). simpl.
        destruct (is_context_frame a); simpl; [| reflexivity].
        destruct (existsb _ _); reflexivity.
Qed.

(** What the search for the target of a [continue] without label
    finds. *)
Lemma continue_target_search_spec frames rest :
  forallb is_frame frames = true ->
  forall opcode,
    (forallb (fun i => negb (is_loop_frame i)) frames = true ->
     continue_target_search
       (frames ++ item_uint8 PARSER_STATEMENT_START :: rest) opcode
     = search_reached_start)
    /\ (forall above t below,
          first_frame is_loop_frame frames above t below ->
          continue_target_search
            (frames ++ item_uint8 PARSER_STATEMENT_START :: rest) opcode
          = search_found
              (length (t :: below
                       ++ item_uint8 PARSER_STATEMENT_START :: rest))
              (if existsb is_with_or_try_frame above
               then CBC_JUMP_FORWARD_EXIT_CONTEXT else opcode)).
Proof.
  induction frames as [| a frames IH]; intros Hframes opcode.
  - split; [reflexivity |].
    intros above t below H. destruct (first_frame_nil _ _ _ _ H).
  - simpl in Hframes. apply andb_prop in Hframes as [Ha Hframes].
    destruct (frame_type_facts a Ha) as (T1 & T2 & _ & _ & T5 & T6 & _).
    specialize (IH Hframes).
    simpl. rewrite T1, T2, T5, T6. split.
    + intros Hall. apply andb_prop in Hall as [Hb Hall].
      apply negb_true_iff in Hb. rewrite Hb.
      apply (IH _), Hall.
    + intros above t below H.
      apply first_frame_head in H
        as [(-> & -> & -> & Hb) | (above' & -> & Hb & H)]; rewrite Hb.
      * reflexivity.
      * rewrite (proj2 (IH _) _ _ _ H). simpl.
        destruct (is_with_or_try_frame a); simpl; [| reflexivity].
        destruct (existsb _ _); reflexivity.
Qed.

(** What the search for the label of a [break] finds. *)
Lemma break_label_search_spec ident frames rest :
  forallb is_frame frames = true ->
  forall opcode,
    (forallb (fun i => negb (is_label_named ident i)) frames = true ->
     break_label_search ident
       (frames ++ item_uint8 PARSER_STATEMENT_START :: rest) opcode
     = search_reached_start)
    /\ (forall above t below,
          first_frame (is_label_named ident) frames above t below ->
          break_label_search ident
            (frames ++ item_uint8 PARSER_STATEMENT_START :: rest) opcode
          = search_found
              (length (t :: below
                       ++ item_uint8 PARSER_STATEMENT_START :: rest))
              (if existsb is_context_frame above
               then CBC_JUMP_FORWARD_EXIT_CONTEXT else opcode)).
Proof.
  induction frames as [| a frames IH]; intros Hframes opcode.
  - split; [reflexivity |].
    intros above t below H. destruct (first_frame_nil _ _ _ _ H).
  - simpl in Hframes. apply andb_prop in Hframes as [Ha Hframes].
    destruct (frame_type_facts a Ha) as (T1 & T2 & T3 & _).
    specialize (IH Hframes).
    simpl. rewrite T1, T2, T3. split.
    + intros Hall. apply andb_prop in Hall as [Hb Hall].
      apply negb_true_iff in Hb.
      destruct a; try (apply (IH _), Hall).
      simpl in Hb. rewrite Hb. apply (IH _), Hall.
    + intros above t below H.
      apply first_frame_head in H
        as [(-> & -> & -> & Hb) | (above' & -> & Hb & H)].
      * destruct a; try discriminate Hb. simpl in Hb. rewrite Hb.
        reflexivity.
      * assert (Hrec :
          break_label_search ident
            (frames ++ item_uint8 PARSER_STATEMENT_START :: rest)
            (if is_context_frame a then CBC_JUMP_FORWARD_EXIT_CONTEXT
             else opcode)
          = search_found
              (length (t :: below
                       ++ item_uint8 PARSER_STATEMENT_START :: rest))
              (if existsb is_context_frame (a :: above')
               then CBC_JUMP_FORWARD_EXIT_CONTEXT else opcode)).
        { rewrite (proj2 (IH _) _ _ _ H). simpl.
          destruct (is_context_frame a); simpl; [| reflexivity].
          destruct (existsb _ _); reflexivity. }
        destruct a; try exact Hrec.
        simpl in Hb. rewrite Hb. exact Hrec.
Qed.

(** A jump is filed into the list of the loop (or switch) at
    [iterator]: its node has the old list as its tail, carries the mark
    when the jump is a continue, and is the new head of the list in the
    frame. *)
Lemma file_branch_into_loop_done iterator op is_continue c i l :
  stack_item_at (stack c) iterator = Some i ->
  item_loop i = Some l ->
  exists c2,
    file_branch_into_loop iterator op is_continue c = Done tt c2
    /\ jump_filed c c2 op
         (if is_continue
          then Z.lor (Z.of_nat (length (emitted_code c))) CBC_HIGHEST_BIT_MASK
          else Z.of_nat (length (emitted_code c)))
         (loop_branch_list_p l)
    /\ stack c2
       = <[(length (stack c) - iterator)%nat :=
             item_set_loop i (mk_loop (Some (length (branch_nodes c))))]>
           (stack c).
Proof.
  intros Hitem Hloop.
  unfold file_branch_into_loop.
  assert (Hread : parser_stack_iterator_read iterator c = Done i c).
  { unfold parser_stack_iterator_read. rewrite Hitem. reflexivity. }
  rewrite (bind_done _ _ _ _ _ Hread). rewrite Hloop.
  destruct (parser_emit_cbc_forward_branch_done op c)
    as (cf & Hemit & (E1 & E2 & E3 & E4 & E5) & Flast & Fcode).
  unfold parser_emit_cbc_forward_branch_item.
  unfold bind at 1. unfold bind at 1. rewrite Hemit.
  unfold bind at 1. unfold parser_malloc at 1. unfold ret at 1.
  unfold jump_filed.
  destruct is_continue; unfold when, mark_continue.
  - unfold bind at 1. unfold bind at 1. unfold node_read at 1.
    cbn [branch_nodes set_branch_nodes].
    rewrite node_at_app_last.
    unfold node_write. cbn [branch_nodes set_branch_nodes].
    rewrite node_at_app_last. rewrite insert_app_last.
    unfold parser_stack_iterator_write.
    cbn [stack set_branch_nodes]. rewrite E3, Hitem.
    eexists. split; [reflexivity |].
    cbn. rewrite E1, E2, E4, E5, Fcode.
    repeat split; try assumption.
  - unfold bind at 1. unfold ret at 1.
    unfold parser_stack_iterator_write.
    cbn [stack set_branch_nodes]. rewrite E3, Hitem.
    eexists. split; [reflexivity |].
    cbn. rewrite E1, E2, E4, E5, Fcode.
    repeat split; try assumption.
Qed.

(** A jump is filed into the break list of the label at [iterator]. *)
Lemma file_branch_into_label_done iterator op c label :
  stack_item_at (stack c) iterator = Some (item_label label) ->
  exists c2,
    file_branch_into_label iterator op c = Done tt c2
    /\ jump_filed c c2 op (Z.of_nat (length (emitted_code c)))
         (label_break_list_p label)
    /\ stack c2
       = <[(length (stack c) - iterator)%nat :=
             item_label (mk_label (label_ident label)
                                  (Some (length (branch_nodes c))))]>
           (stack c).
Proof.
  intros Hitem.
  unfold file_branch_into_label.
  assert (Hread : parser_stack_iterator_read iterator c
                  = Done (item_label label) c).
  { unfold parser_stack_iterator_read. rewrite Hitem. reflexivity. }
  rewrite (bind_done _ _ _ _ _ Hread).
  destruct (parser_emit_cbc_forward_branch_done op c)
    as (cf & Hemit & (E1 & E2 & E3 & E4 & E5) & Flast & Fcode).
  unfold parser_emit_cbc_forward_branch_item.
  unfold bind at 1. unfold bind at 1. rewrite Hemit.
  unfold bind at 1. unfold parser_malloc at 1. unfold ret at 1.
  unfold parser_stack_iterator_write.
  cbn [stack set_branch_nodes]. rewrite E3, Hitem.
  eexists. split; [reflexivity |].
  unfold jump_filed. cbn. rewrite E1, E2, E4, E5, Fcode.
  repeat split; try assumption.
Qed.

Lemma lexer_next_token_frames c c1 :
  lexer_next_token c = Done tt c1 ->
  stack c1 = stack c /\ emitted_code c1 = emitted_code c
  /\ branch_nodes c1 = branch_nodes c /\ status_flags c1 = status_flags c
  /\ last_statement c1 = last_statement c.
Proof.
  intros H. apply lexer_next_token_done in H as (l1 & ->). repeat split.
Qed.

(** [break] without label, in a context whose statement stack is a
    sequence of frames above the [START] sentinel.  The target is the
    innermost switch or loop: a forward branch is emitted and its node,
    without the mark of a continue, becomes the head of the list of
    that frame; the opcode is [CBC_JUMP_FORWARD_EXIT_CONTEXT] when a
    for-in, a with or a try is among the frames from the top down to
    the target, the target included, and [CBC_JUMP_FORWARD] otherwise.
    No token is read after the one that follows [break].  When no frame
    is a switch or a loop, [PARSER_ERR_INVALID_BREAK] is raised. *)
Theorem parser_parse_break_statement_target c c1 frames rest :
  lexer_next_token c = Done tt c1 ->
  label_follows c1 = false ->
  stack c = frames ++ item_uint8 PARSER_STATEMENT_START :: rest ->
  forallb is_frame frames = true ->
  (forallb (fun i => negb (is_break_frame i)) frames = true ->
   parser_parse_break_statement c = Raise PARSER_ERR_INVALID_BREAK c1)
  /\ (forall above t below,
        first_frame is_break_frame frames above t below ->
        exists l c2,
          item_loop t = Some l
          /\ parser_parse_break_statement c = Done tt c2
          /\ jump_filed c1 c2
               (jump_opcode (existsb is_context_frame (above ++ [t])))
               (Z.of_nat (length (emitted_code c)))
               (loop_branch_list_p l)
          /\ stack c2
             = above
               ++ item_set_loop t (mk_loop (Some (length (branch_nodes c))))
               :: below ++ item_uint8 PARSER_STATEMENT_START :: rest).
Proof.
  intros Hnext Hlabel Hstack Hframes.
  assert (Hrun :
    parser_parse_break_statement c
    = match break_target_search (stack c) CBC_JUMP_FORWARD with
      | search_reached_start => Raise PARSER_ERR_INVALID_BREAK c1
      | search_ill_formed => Fault undefined_behaviour
      | search_found iterator opcode =>
          file_branch_into_loop iterator opcode false c1
      end).
  { unfold parser_parse_break_statement.
    rewrite (bind_done _ _ _ _ _ Hnext).
    unfold bind at 1, gets at 1. rewrite Hlabel.
    unfold bind at 1, gets at 1.
    rewrite (proj1 (lexer_next_token_frames _ _ Hnext)).
    destruct (break_target_search _ _); reflexivity. }
  destruct (lexer_next_token_frames _ _ Hnext) as (Hs1 & He1 & Hn1 & _).
  destruct (break_target_search_spec frames rest Hframes CBC_JUMP_FORWARD)
    as [Hnone Hsome].
  rewrite <- Hstack in Hnone, Hsome.
  split.
  - intros Hall. rewrite Hrun, (Hnone Hall). reflexivity.
  - intros above t below Hfirst.
    rewrite Hrun, (Hsome _ _ _ Hfirst).
    assert (Hl : exists l, item_loop t = Some l).
    { destruct Hfirst as (_ & _ & Ht).
      destruct t; try discriminate Ht; eexists; reflexivity. }
    destruct Hl as [l Hl].
    pose proof (first_frame_item _ _ _ _ _ rest Hfirst) as Hitem.
    rewrite <- Hstack, <- Hs1 in Hitem.
    destruct (file_branch_into_loop_done _
                (if existsb is_context_frame (above ++ [t])
                 then CBC_JUMP_FORWARD_EXIT_CONTEXT else CBC_JUMP_FORWARD)
                false c1 t l Hitem Hl)
      as (c2 & Hfile & Hfiled & Hstack2).
    exists l, c2. split; [exact Hl |]. split; [exact Hfile |].
    rewrite He1 in Hfiled. split; [exact Hfiled |].
    rewrite Hstack2, Hs1, Hn1, Hstack.
    destruct Hfirst as (-> & _). rewrite <- app_assoc. simpl app.
    apply (insert_at_iterator above t _
             (below ++ item_uint8 PARSER_STATEMENT_START :: rest)).
Qed.

(** [break ident], on a stack of frames above the sentinel.  The target
    is the innermost label named [ident], whatever statement it labels:
    the jump is filed into the break list of that label, with
    [CBC_JUMP_FORWARD_EXIT_CONTEXT] when a for-in, a with or a try is
    among the frames on top of the label; what remains is to read the
    next token.  When no label of the frames has this name,
    [PARSER_ERR_INVALID_BREAK_LABEL] is raised. *)
Theorem parser_parse_break_statement_label c c1 frames rest :
  lexer_next_token c = Done tt c1 ->
  label_follows c1 = true ->
  stack c = frames ++ item_uint8 PARSER_STATEMENT_START :: rest ->
  forallb is_frame frames = true ->
  let ident := tok_lit_location (token (lex c1)) in
  (forallb (fun i => negb (is_label_named ident i)) frames = true ->
   parser_parse_break_statement c = Raise PARSER_ERR_INVALID_BREAK_LABEL c1)
  /\ (forall above label below,
        first_frame (is_label_named ident) frames above (item_label label)
          below ->
        exists c2,
          parser_parse_break_statement c = lexer_next_token c2
          /\ jump_filed c1 c2
               (jump_opcode (existsb is_context_frame above))
               (Z.of_nat (length (emitted_code c)))
               (label_break_list_p label)
          /\ stack c2
             = above
               ++ item_label (mk_label (label_ident label)
                                       (Some (length (branch_nodes c))))
               :: below ++ item_uint8 PARSER_STATEMENT_START :: rest).
Proof.
  intros Hnext Hlabel Hstack Hframes ident.
  assert (Hrun :
    parser_parse_break_statement c
    = match break_label_search ident (stack c) CBC_JUMP_FORWARD with
      | search_reached_start => Raise PARSER_ERR_INVALID_BREAK_LABEL c1
      | search_ill_formed => Fault undefined_behaviour
      | search_found iterator opcode =>
          (file_branch_into_label iterator opcode;; lexer_next_token) c1
      end).
  { unfold parser_parse_break_statement.
    rewrite (bind_done _ _ _ _ _ Hnext).
    unfold bind at 1, gets at 1. rewrite Hlabel.
    unfold bind at 1, gets at 1.
    rewrite (proj1 (lexer_next_token_frames _ _ Hnext)). subst ident.
    destruct (break_label_search _ _ _); reflexivity. }
  destruct (lexer_next_token_frames _ _ Hnext) as (Hs1 & He1 & Hn1 & _).
  destruct (break_label_search_spec ident frames rest Hframes
              CBC_JUMP_FORWARD) as [Hnone Hsome].
  rewrite <- Hstack in Hnone, Hsome.
  split.
  - intros Hall. rewrite Hrun, (Hnone Hall). reflexivity.
  - intros above label below Hfirst.
    rewrite Hrun, (Hsome _ _ _ Hfirst).
    pose proof (first_frame_item _ _ _ _ _ rest Hfirst) as Hitem.
    rewrite <- Hstack, <- Hs1 in Hitem.
    destruct (file_branch_into_label_done _
                (if existsb is_context_frame above
                 then CBC_JUMP_FORWARD_EXIT_CONTEXT else CBC_JUMP_FORWARD)
                c1 label Hitem)
      as (c2 & Hfile & Hfiled & Hstack2).
    exists c2. split; [unfold bind; rewrite Hfile; reflexivity |].
    rewrite He1 in Hfiled. split; [exact Hfiled |].
    rewrite Hstack2, Hs1, Hn1, Hstack.
    destruct Hfirst as (-> & _). rewrite <- app_assoc. simpl app.
    apply (insert_at_iterator above (item_label label) _
             (below ++ item_uint8 PARSER_STATEMENT_START :: rest)).
Qed.

(** [continue] without label, on a stack of frames above the sentinel.
    The target is the innermost loop; switch frames are passed over.
    The jump is filed into the list of the loop with the mark of a
    continue on its offset; the opcode is
    [CBC_JUMP_FORWARD_EXIT_CONTEXT] when a with or a try is among the
    frames on top of the loop, and [CBC_JUMP_FORWARD] otherwise, also
    when the loop is a for-in.  When no frame is a loop,
    [PARSER_ERR_INVALID_CONTINUE] is raised. *)
Theorem parser_parse_continue_statement_target c c1 frames rest :
  lexer_next_token c = Done tt c1 ->
  label_follows c1 = false ->
  stack c = frames ++ item_uint8 PARSER_STATEMENT_START :: rest ->
  forallb is_frame frames = true ->
  (forallb (fun i => negb (is_loop_frame i)) frames = true ->
   parser_parse_continue_statement c = Raise PARSER_ERR_INVALID_CONTINUE c1)
  /\ (forall above t below,
        first_frame is_loop_frame frames above t below ->
        exists l c2,
          item_loop t = Some l
          /\ parser_parse_continue_statement c = Done tt c2
          /\ jump_filed c1 c2
               (jump_opcode (existsb is_with_or_try_frame above))
               (Z.lor (Z.of_nat (length (emitted_code c)))
                      CBC_HIGHEST_BIT_MASK)
               (loop_branch_list_p l)
          /\ stack c2
             = above
               ++ item_set_loop t (mk_loop (Some (length (branch_nodes c))))
               :: below ++ item_uint8 PARSER_STATEMENT_START :: rest).
Proof.
  intros Hnext Hlabel Hstack Hframes.
  assert (Hrun :
    parser_parse_continue_statement c
    = match continue_target_search (stack c) CBC_JUMP_FORWARD with
      | search_reached_start => Raise PARSER_ERR_INVALID_CONTINUE c1
      | search_ill_formed => Fault undefined_behaviour
      | search_found iterator opcode =>
          file_branch_into_loop iterator opcode true c1
      end).
  { unfold parser_parse_continue_statement.
    rewrite (bind_done _ _ _ _ _ Hnext).
    unfold bind at 1, gets at 1. rewrite Hlabel.
    unfold bind at 1, gets at 1.
    rewrite (proj1 (lexer_next_token_frames _ _ Hnext)).
    destruct (continue_target_search _ _); reflexivity. }
  destruct (lexer_next_token_frames _ _ Hnext) as (Hs1 & He1 & Hn1 & _).
  destruct (continue_target_search_spec frames rest Hframes CBC_JUMP_FORWARD)
    as [Hnone Hsome].
  rewrite <- Hstack in Hnone, Hsome.
  split.
  - intros Hall. rewrite Hrun, (Hnone Hall). reflexivity.
  - intros above t below Hfirst.
    rewrite Hrun, (Hsome _ _ _ Hfirst).
    assert (Hl : exists l, item_loop t = Some l).
    { destruct Hfirst as (_ & _ & Ht).
      destruct t; try discriminate Ht; eexists; reflexivity. }
    destruct Hl as [l Hl].
    pose proof (first_frame_item _ _ _ _ _ rest Hfirst) as Hitem.
    rewrite <- Hstack, <- Hs1 in Hitem.
    destruct (file_branch_into_loop_done _
                (if existsb is_with_or_try_frame above
                 then CBC_JUMP_FORWARD_EXIT_CONTEXT else CBC_JUMP_FORWARD)
                true c1 t l Hitem Hl)
      as (c2 & Hfile & Hfiled & Hstack2).
    exists l, c2. split; [exact Hl |]. split; [exact Hfile |].
    rewrite He1 in Hfiled. split; [exact Hfiled |].
    rewrite Hstack2, Hs1, Hn1, Hstack.
    destruct Hfirst as (-> & _). rewrite <- app_assoc. simpl app.
    apply (insert_at_iterator above t _
             (below ++ item_uint8 PARSER_STATEMENT_START :: rest)).
Qed.

Lemma label_search_spec ident frames rest :
  forallb is_frame frames = true ->
  label_search ident (frames ++ item_uint8 PARSER_STATEMENT_START :: rest)
  = Some (existsb (is_label_named ident) frames).
Proof.
  induction frames as [| a frames IH]; intros Hframes; [reflexivity |].
  simpl in Hframes. apply andb_prop in Hframes as [Ha Hframes].
  destruct (frame_type_facts a Ha) as (T1 & T2 & _).
  simpl. rewrite T1, T2.
  destruct a; try (apply IH, Hframes).
  simpl. destruct (lexer_same_identifiers _ _); [reflexivity |].
  apply IH, Hframes.
Qed.

(** [parser_parse_label], on a stack of frames above the sentinel.  If
    one of the frames is a label of this name,
    [PARSER_ERR_DUPLICATED_LABEL] is raised and the context is as it
    was.  Otherwise the frame of the label, with an empty break list,
    is pushed and the iterator of the last statement points at it;
    labels below the sentinel do not count. *)
Theorem parser_parse_label_duplicate label_literal c frames rest :
  stack c = frames ++ item_uint8 PARSER_STATEMENT_START :: rest ->
  forallb is_frame frames = true ->
  parser_parse_label label_literal c
  = if existsb (is_label_named label_literal) frames
    then Raise PARSER_ERR_DUPLICATED_LABEL c
    else Done tt
           (set_last_statement
              (set_stack c (item_label (mk_label label_literal None)
                            :: stack c))
              (Some (S (length (stack c))))).
Proof.
  intros Hstack Hframes. unfold parser_parse_label.
  unfold bind at 1, gets at 1.
  pose proof (label_search_spec label_literal _ rest Hframes) as Hsearch.
  rewrite <- Hstack in Hsearch. rewrite Hsearch.
  destruct (existsb _ _); reflexivity.
Qed.

(** ** The [with] statement and the end of an [if] *)

(** The lines that close a context: what is pending is committed, the
    stack depth of the context is given back, and [CBC_CONTEXT_END]
    is the pending opcode. *)
Lemma context_end_done allocation c :
  exists c1,
    (parser_flush_cbc;;
     stack_depth_minus_equal allocation;;
     parser_emit_cbc CBC_CONTEXT_END) c = Done tt c1
    /\ emitter_only c c1
    /\ byte_code (cbc c1) = emitted_code c
    /\ last_cbc_opcode (cbc c1) = CBC_CONTEXT_END
    /\ emitted_code c1
       = emitted_code c ++ [cbc_plain CBC_CONTEXT_END no_argument]
    /\ stack_depth (cbc c1) = (stack_depth (cbc c) - allocation) mod 2 ^ 16.
Proof.
  eexists. split; [reflexivity |]. split; [repeat split |].
  unfold emitted_code. cbn [cbc set_cbc].
  unfold emit_into. cbn [last_cbc_opcode set_stack_depth].
  rewrite flush_emitter_last. cbn.
  rewrite stack_depth_flush_emitter. repeat split.
Qed.

(** The same lines in front of what follows them. *)
Lemma context_end_bind {B : Type} allocation (k : M B) c :
  exists c1,
    (parser_flush_cbc;;
     stack_depth_minus_equal allocation;;
     parser_emit_cbc CBC_CONTEXT_END;;
     k) c = k c1
    /\ emitter_only c c1
    /\ emitted_code c1
       = emitted_code c ++ [cbc_plain CBC_CONTEXT_END no_argument]
    /\ stack_depth (cbc c1) = (stack_depth (cbc c) - allocation) mod 2 ^ 16.
Proof.
  destruct (context_end_done allocation c)
    as (c1 & Hend & Honly & _ & _ & Hemit & Hdepth).
  exists c1. split; [| split; [exact Honly | split; assumption]].
  unfold bind in Hend |- *.
  destruct (parser_flush_cbc c) as [[] cf | |]; try discriminate Hend.
  destruct (stack_depth_minus_equal allocation cf) as [[] cd | |];
    try discriminate Hend.
  rewrite Hend. reflexivity.
Qed.

Lemma parser_set_branch_to_current_position_stack_depth branch c u c' :
  parser_set_branch_to_current_position branch c = Done u c' ->
  stack_depth (cbc c') = stack_depth (cbc c).
Proof.
  intros H. apply parser_set_branch_to_current_position_done in H
    as (op & old & _ & _ & ->).
  simpl. apply stack_depth_flush_emitter.
Qed.

Lemma with_statement_search_spec frames rest :
  forallb is_frame frames = true ->
  with_statement_search (frames ++ item_uint8 PARSER_STATEMENT_START :: rest)
  = Some (negb (existsb is_with_frame frames)).
Proof.
  induction frames as [| a frames IH]; intros Hframes; [reflexivity |].
  simpl in Hframes. apply andb_prop in Hframes as [Ha Hframes].
  destruct (frame_type_facts a Ha) as (T1 & T2 & _ & _ & _ & _ & T7).
  simpl. rewrite T1, T2, T7.
  destruct (is_with_frame a); [reflexivity |]. apply IH, Hframes.
Qed.

(** The [with] statement and the flag [PARSER_IN_WIDTH].  In strict
    mode the statement is refused with [PARSER_ERR_WITH_NOT_ALLOWED]
    before any token is read.  At its end, on a stack of frames above
    the sentinel, the frame is popped, [CBC_CONTEXT_END] is emitted
    after what was pending, the branch of the statement is patched to
    the position after it, and the stack depth of the context is given
    back; the flag [PARSER_IN_WIDTH] is cleared exactly when none of
    the frames that remain above the sentinel is a [with], and nothing
    else of the status flags changes. *)
Theorem parser_parse_with_statement_flag :
  (forall c,
     has_flag (status_flags c) PARSER_IS_STRICT = true ->
     parser_parse_with_statement_start c
     = Raise PARSER_ERR_WITH_NOT_ALLOWED c)
  /\ (forall c c' with_statement frames rest,
        stack c
        = item_with with_statement
          :: frames ++ item_uint8 PARSER_STATEMENT_START :: rest ->
        forallb is_frame frames = true ->
        parser_parse_with_statement_end c = Done tt c' ->
        let site := Z.ldiff (branch_offset (with_branch with_statement))
                            CBC_HIGHEST_BIT_MASK in
        stack c' = frames ++ item_uint8 PARSER_STATEMENT_START :: rest
        /\ last_statement c' = Some (length (stack c'))
        /\ status_flags c'
           = (if existsb is_with_frame frames
              then status_flags c
              else Z.land (status_flags c) (Z.lnot PARSER_IN_WIDTH))
        /\ lex c' = lex c
        /\ branch_nodes c' = branch_nodes c
        /\ stack_depth (cbc c')
           = (stack_depth (cbc c) - PARSER_WITH_CONTEXT_STACK_ALLOCATION)
             mod 2 ^ 16
        /\ last_cbc_opcode (cbc c') = PARSER_CBC_UNAVAILABLE
        /\ patched_to_end
             (emitted_code c ++ [cbc_plain CBC_CONTEXT_END no_argument])
             (byte_code (cbc c'))
        /\ exists op,
             byte_code (cbc c') !! Z.to_nat site
             = Some (cbc_forward_branch op
                       (Some (Z.of_nat (length (emitted_code c)) + 1
                              - site)))).
Proof.
  split.
  - intros c Hstrict. unfold parser_parse_with_statement_start.
    unfold bind at 1, gets at 1. rewrite Hstrict. reflexivity.
  - intros c c' w frames rest Hstack Hframes H site.
    unfold parser_parse_with_statement_end in H.
    unfold bind at 1, parser_stack_pop_statement at 1 in H.
    rewrite Hstack in H.
    run_step H.
    set (c0 := set_last_statement _ _) in H.
    match type of H with
    | bind _ (fun _ => bind _ (fun _ => bind _ (fun _ => ?k))) _ = _ =>
        destruct (context_end_bind PARSER_WITH_CONTEXT_STACK_ALLOCATION k c0)
          as (c1 & Hend & (E1 & E2 & E3 & E4 & E5) & Eemit & Edepth)
    end.
    rewrite Hend in H. clear Hend.
    apply bind_done_inv in H as ([] & cp & Hpatch & H).
    pose proof (parser_set_branch_to_current_position_stack_depth
                  _ _ _ _ Hpatch) as Pdepth.
    apply parser_set_branch_to_current_position_spec in Hpatch
      as ((P1 & P2 & P3 & P4 & P5) & Plast & Ppatched & Psite & Pop).
    fold site in Psite, Pop.
    assert (Hc' :
      stack c' = stack cp /\ last_statement c' = last_statement cp
      /\ lex c' = lex cp /\ cbc c' = cbc cp
      /\ branch_nodes c' = branch_nodes cp
      /\ status_flags c'
         = (if existsb is_with_frame frames
            then status_flags cp
            else Z.land (status_flags cp) (Z.lnot PARSER_IN_WIDTH))).
    { unfold bind, gets in H. rewrite P3, E3 in H. subst c0.
      cbn [stack set_last_statement set_stack] in H.
      rewrite (with_statement_search_spec _ _ Hframes) in H.
      destruct (existsb is_with_frame frames); simpl in H;
        injection H as <-; repeat split. }
    destruct Hc' as (S1 & S2 & S3 & S4 & S5 & S6).
    rewrite Eemit in Ppatched, Pop.
    change (emitted_code c0) with (emitted_code c) in Ppatched, Pop.
    rewrite length_app in Pop. simpl length in Pop.
    replace (Z.of_nat (length (emitted_code c) + 1))
      with (Z.of_nat (length (emitted_code c)) + 1) in Pop by lia.
    split; [rewrite S1, P3, E3; reflexivity |].
    split; [rewrite S1, S2, P4, P3, E4, E3; reflexivity |].
    split; [rewrite S6, P2, E2; reflexivity |].
    split; [rewrite S3, P1, E1; reflexivity |].
    split; [rewrite S5, P5, E5; reflexivity |].
    split; [rewrite S4, Pdepth, Edepth; reflexivity |].
    rewrite S4. split; [exact Plast |]. split; [exact Ppatched | exact Pop].
Qed.

(** The end of the statement of an [if], with the frame of the [if] on
    top of the stack.  Without [else], the frame is popped and the
    branch of the [if] is patched to the end of the code; the token is
    not consumed.  With [else], a [CBC_JUMP_FORWARD] with an open
    operand is appended first, the branch of the [if] is patched to
    the position after this jump, the frame becomes the frame of an
    [else] that holds the new jump, and the next token is read.  The
    result tells which of the two it was. *)
Theorem parser_parse_if_statement_end_branches
    c c' has_else if_statement rest :
  stack c = item_if if_statement :: rest ->
  parser_parse_if_statement_end c = Done has_else c' ->
  let site := Z.ldiff (branch_offset (if_else_branch if_statement))
                      CBC_HIGHEST_BIT_MASK in
  let size := Z.of_nat (length (emitted_code c)) in
  has_else = token_is c LEXER_KEYW_ELSE
  /\ exists op old,
       0 <= site
       /\ (emitted_code c
           ++ (if has_else then [cbc_forward_branch CBC_JUMP_FORWARD None]
               else [])) !! Z.to_nat site
          = Some (cbc_forward_branch op old)
       /\ last_cbc_opcode (cbc c') = PARSER_CBC_UNAVAILABLE
       /\ branch_nodes c' = branch_nodes c
       /\ status_flags c' = status_flags c
       /\ if has_else
          then
            byte_code (cbc c')
            = <[Z.to_nat site :=
                  cbc_forward_branch op (Some (size + 1 - site))]>
                (emitted_code c ++ [cbc_forward_branch CBC_JUMP_FORWARD None])
            /\ stack c' = item_else (mk_if_else (mk_branch size)) :: rest
            /\ last_statement c' = last_statement c
            /\ exists c2,
                 lexer_next_token c2 = Done tt c' /\ lex c2 = lex c
          else
            byte_code (cbc c')
            = <[Z.to_nat site :=
                  cbc_forward_branch op (Some (size - site))]>
                (emitted_code c)
            /\ stack c' = rest
            /\ last_statement c' = Some (length rest)
            /\ lex c' = lex c.
Proof.
  intros Hstack H site size.
  unfold parser_parse_if_statement_end in H.
  run_step H.
  destruct (token_is c LEXER_KEYW_ELSE) eqn:Etoken; simpl in H.
  - unfold bind at 1, parser_stack_change_last_uint8 at 1 in H.
    rewrite Hstack in H. simpl in H.
    run_step H.
    unfold bind at 1, parser_stack_iterator_read at 1 in H.
    cbn [stack set_stack] in H. rewrite stack_item_at_top in H.
    set (c0 := set_stack c _) in H.
    destruct (parser_emit_cbc_forward_branch_done CBC_JUMP_FORWARD c0)
      as (cf & Hemit & (E1 & E2 & E3 & E4 & E5) & Flast & Fcode).
    rewrite (bind_done _ _ _ _ _ Hemit) in H.
    apply bind_done_inv in H as ([] & cp & Hpatch & H).
    apply parser_set_branch_to_current_position_done in Hpatch
      as (op & old & Hsite & Hat & ->).
    fold site in Hsite, Hat.
    rewrite (emitted_code_unavailable cf Flast), Fcode in Hat, H.
    rewrite (flush_emitter_unavailable _ Flast) in H.
    change (emitted_code c0) with (emitted_code c) in Hat, H.
    apply bind_done_inv in H as ([] & cw & Hwrite & H).
    unfold parser_stack_iterator_write in Hwrite.
    cbn [stack set_cbc] in Hwrite. rewrite E3 in Hwrite.
    subst c0. cbn [stack set_stack] in Hwrite.
    rewrite stack_item_at_top in Hwrite.
    rewrite Nat.sub_diag in Hwrite. simpl in Hwrite.
    injection Hwrite as <-.
    run_step H. apply ret_done_inv in H as [<- <-].
    split; [reflexivity |]. exists op, old.
    split; [exact Hsite |]. split; [exact Hat |].
    pose proof (lexer_next_token_done _ _ _ Hstep) as (l1 & Hl).
    cbn in E1, E2, E4, E5.
    assert (Hsize :
      Z.of_nat (length (emitted_code c
                        ++ [cbc_forward_branch CBC_JUMP_FORWARD None]))
      = size + 1) by (rewrite length_app; subst size; simpl; lia).
    rewrite Hsize in Hl, Hstep.
    split; [rewrite Hl; exact Flast |].
    split; [rewrite Hl; exact E5 |].
    split; [rewrite Hl; exact E2 |].
    split; [rewrite Hl; reflexivity |].
    split; [rewrite Hl; reflexivity |].
    split; [rewrite Hl; exact E4 |].
    eexists. split; [exact Hstep |]. exact E1.
  - apply bind_done_inv in H as (i & cp & Hpop & H).
    unfold parser_stack_pop_statement in Hpop. rewrite Hstack in Hpop.
    injection Hpop as <- <-.
    run_step H.
    apply bind_done_inv in H as ([] & cq & Hpatch & H).
    apply ret_done_inv in H as [<- <-].
    apply parser_set_branch_to_current_position_done in Hpatch
      as (op & old & Hsite & Hat & ->).
    fold site in Hsite, Hat.
    split; [reflexivity |]. exists op, old.
    rewrite app_nil_r.
    split; [exact Hsite |]. split; [exact Hat |].
    cbn. split; [apply flush_emitter_last |]. repeat split.
Qed.

(** ** The lexer after the end of a loop, and the phases of [try] *)

Lemma ends_at_bind {A : Type} range t (m : M A) (k : A -> M unit) :
  (forall a, ends_at range t (k a)) -> ends_at range t (bind m k).
Proof.
  intros Hk c c' H. apply bind_done_inv in H as (a & c1 & _ & H).
  exact (Hk a c1 c' H).
Qed.

Lemma ends_at_restore range t :
  ends_at range t (parser_set_range range;; assign_token t).
Proof.
  intros c c' H. run_step H. apply modify_done_inv in H as ->.
  repeat split.
Qed.

Ltac ends_at_steps :=
  repeat first [ apply ends_at_restore | apply ends_at_bind; intros ? ].

Lemma parser_parse_while_statement_end_lexer c c' :
  parser_parse_while_statement_end c = Done tt c' ->
  token (lex c') = token (lex c)
  /\ source_p (lex c') = source_p (lex c)
  /\ source_end_p (lex c') = source_end_p (lex c)
  /\ line (lex c') = line (lex c)
  /\ column (lex c') = column (lex c).
Proof.
  intros H. unfold parser_parse_while_statement_end in H.
  apply bind_done_inv in H as (i & cp & Hpop & H).
  apply parser_stack_pop_statement_done in Hpop as (rest & Hstack & ->).
  destruct i; try discriminate H.
  run_step H. run_step H. run_step H. run_step H.
  match type of H with
  | ?m ?c1 = Done tt _ =>
      assert (Hends :
        ends_at (mk_range (source_p (lex c)) (source_end_p (lex c))
                          (line (lex c)) (column (lex c)))
                (token (lex c)) m) by ends_at_steps
  end.
  exact (Hends _ _ H).
Qed.

Lemma parser_parse_for_statement_end_lexer c c' :
  parser_parse_for_statement_end c = Done tt c' ->
  token (lex c') = token (lex c)
  /\ source_p (lex c') = source_p (lex c)
  /\ source_end_p (lex c') = source_end_p (lex c)
  /\ line (lex c') = line (lex c)
  /\ column (lex c') = column (lex c).
Proof.
  intros H. unfold parser_parse_for_statement_end in H.
  apply bind_done_inv in H as (i & cp & Hpop & H).
  apply parser_stack_pop_statement_done in Hpop as (rest & Hstack & ->).
  destruct i; try discriminate H.
  run_step H. run_step H. run_step H. run_step H.
  match type of H with
  | ?m ?c1 = Done tt _ =>
      assert (Hends :
        ends_at (mk_range (source_p (lex c)) (source_end_p (lex c))
                          (line (lex c)) (column (lex c)))
                (token (lex c)) m) by ends_at_steps
  end.
  exact (Hends _ _ H).
Qed.

(** The conditions of [while] and [for] loops, and the increment of a
    [for], are compiled after the body, from the ranges that the head
    of the loop saved.  When the end of such a loop returns, the lexer
    is back where it was after the body: the current token, the source
    position and its end, the line and the column are those of the
    entry. *)
Theorem loop_end_restores_lexer c c' :
  parser_parse_while_statement_end c = Done tt c'
  \/ parser_parse_for_statement_end c = Done tt c' ->
  token (lex c') = token (lex c)
  /\ source_p (lex c') = source_p (lex c)
  /\ source_end_p (lex c') = source_end_p (lex c)
  /\ line (lex c') = line (lex c)
  /\ column (lex c') = column (lex c).
Proof.
  intros [H | H].
  - exact (parser_parse_while_statement_end_lexer c c' H).
  - exact (parser_parse_for_statement_end_lexer c c' H).
Qed.

(** The end of a block of a try statement, with the frame of the
    statement on top of the stack; [c1] is the context after the token
    that follows the closing brace is read.  At the end of a finally
    block, [CBC_CONTEXT_END] is appended, the branch of the block is
    patched to the position after it, and the frame is popped.  At the
    end of a catch block that no [finally] follows, the branch of the
    block is patched first, to the position of the [CBC_CONTEXT_END]
    that is appended after it, and the frame is popped.  In both cases
    the stack depth of the context is given back.  At the end of a try
    block that neither [catch] nor [finally] follows,
    [PARSER_ERR_CATCH_FINALLY_EXPECTED] is raised once the branch is
    patched, with the frame still on the stack. *)
Theorem parser_parse_try_statement_end_phases c c1 try_statement rest :
  stack c = item_try try_statement :: rest ->
  lexer_next_token c = Done tt c1 ->
  let site := Z.ldiff (branch_offset (try_branch try_statement))
                      CBC_HIGHEST_BIT_MASK in
  let size := Z.of_nat (length (emitted_code c)) in
  let closed c' :=
    stack c' = rest /\ last_statement c' = Some (length rest)
    /\ lex c' = lex c1 /\ branch_nodes c' = branch_nodes c
    /\ last_cbc_opcode (cbc c') = PARSER_CBC_UNAVAILABLE
    /\ stack_depth (cbc c')
       = (stack_depth (cbc c) - PARSER_TRY_CONTEXT_STACK_ALLOCATION)
         mod 2 ^ 16 in
  (try_type try_statement = parser_finally_block ->
   forall c',
     parser_parse_try_statement_end c = Done tt c' ->
     closed c'
     /\ exists op old,
          (emitted_code c ++ [cbc_plain CBC_CONTEXT_END no_argument])
          !! Z.to_nat site = Some (cbc_forward_branch op old)
          /\ byte_code (cbc c')
             = <[Z.to_nat site :=
                   cbc_forward_branch op (Some (size + 1 - site))]>
                 (emitted_code c ++ [cbc_plain CBC_CONTEXT_END no_argument]))
  /\ (try_type try_statement = parser_catch_block ->
      token_type c1 <> LEXER_KEYW_FINALLY ->
      forall c',
        parser_parse_try_statement_end c = Done tt c' ->
        closed c'
        /\ exists op old,
             emitted_code c !! Z.to_nat site
             = Some (cbc_forward_branch op old)
             /\ byte_code (cbc c')
                = <[Z.to_nat site :=
                      cbc_forward_branch op (Some (size - site))]>
                    (emitted_code c)
                  ++ [cbc_plain CBC_CONTEXT_END no_argument])
  /\ (try_type try_statement = parser_try_block ->
      token_type c1 <> LEXER_KEYW_CATCH ->
      token_type c1 <> LEXER_KEYW_FINALLY ->
      forall cp,
        parser_set_branch_to_current_position (try_branch try_statement) c1
        = Done tt cp ->
        parser_parse_try_statement_end c
        = Raise PARSER_ERR_CATCH_FINALLY_EXPECTED cp
        /\ stack cp = stack c).
Proof.
  intros Hstack Hnext site size closed.
  assert (Hrun :
    parser_parse_try_statement_end c
    = (type ← parser_try_block_end try_statement;
       match type with
       | parser_finally_block =>
           parser_stack_pop_statement;;
           parser_stack_iterator_init_last_statement
       | _ =>
           is_catch ← gets (fun c => token_is c LEXER_KEYW_CATCH);
           try_statement' ← (if is_catch
                             then parser_parse_catch_clause
                             else parser_parse_finally_clause);
           lexer_next_token;;
           parser_stack_iterator_write (length (stack c))
             (item_try try_statement')
       end) c1).
  { unfold parser_parse_try_statement_end.
    unfold bind at 1, parser_stack_iterator_init at 1, gets at 1.
    unfold bind at 1, parser_stack_iterator_read at 1.
    rewrite Hstack, stack_item_at_top.
    rewrite (bind_done _ _ _ _ _ Hnext). reflexivity. }
  destruct (lexer_next_token_done _ _ _ Hnext) as (l1 & Hc1).
  assert (Hcode1 : emitted_code c1 = emitted_code c) by (subst c1; reflexivity).
  split; [| split].
  - intros Htype c' H. rewrite Hrun in H.
    apply bind_done_inv in H as (type & c2 & Hend & H).
    unfold parser_try_block_end in Hend. rewrite Htype in Hend.
    unfold parser_try_context_end in Hend.
    destruct (context_end_done PARSER_TRY_CONTEXT_STACK_ALLOCATION c1)
      as (ce & Hce & (E1 & E2 & E3 & E4 & E5) & Ecode & Elast & Eemit
          & Edepth).
    rewrite (bind_done _ _ _ _ _ Hce) in Hend.
    apply bind_done_inv in Hend as ([] & cp & Hpatch & Hend).
    apply ret_done_inv in Hend as [<- <-].
    pose proof (parser_set_branch_to_current_position_stack_depth
                  _ _ _ _ Hpatch) as Pdepth.
    apply parser_set_branch_to_current_position_done in Hpatch
      as (op & old & Hsite & Hat & Hcp).
    fold site in Hsite, Hat, Hcp.
    rewrite Eemit, Hcode1 in Hat, Hcp.
    apply bind_done_inv in H as (i & cq & Hpop & H).
    apply parser_stack_pop_statement_done in Hpop as (rest' & Hstack' & ->).
    apply modify_done_inv in H as ->.
    assert (Hrest : rest' = rest).
    { rewrite Hcp in Hstack'. cbn in Hstack'. rewrite E3 in Hstack'.
      subst c1. cbn in Hstack'. congruence. }
    subst rest'.
    split.
    + unfold closed. cbn. rewrite Pdepth, Edepth.
      rewrite Hcp. cbn. rewrite E1, E5. subst c1. cbn.
      repeat split. apply flush_emitter_last.
    + exists op, old. split; [exact Hat |].
      cbn. rewrite Hcp. cbn. rewrite length_app. simpl length.
      replace (Z.of_nat (length (emitted_code c) + 1)) with (size + 1)
        by (subst size; lia).
      reflexivity.
  - intros Htype Htoken c' H. rewrite Hrun in H.
    apply bind_done_inv in H as (type & c2 & Hend & H).
    unfold parser_try_block_end in Hend. rewrite Htype in Hend.
    apply bind_done_inv in Hend as ([] & cp & Hpatch & Hend).
    pose proof (parser_set_branch_to_current_position_stack_depth
                  _ _ _ _ Hpatch) as Pdepth.
    pose proof (parser_set_branch_to_current_position_spec
                  _ _ _ _ Hpatch) as ((P1 & P2 & P3 & P4 & P5) & Plast & _).
    apply parser_set_branch_to_current_position_done in Hpatch
      as (op & old & Hsite & Hat & Hcp).
    fold site in Hsite, Hat, Hcp.
    rewrite Hcode1 in Hat, Hcp.
    run_step Hend.
    assert (Hfinally : token_is cp LEXER_KEYW_FINALLY = false).
    { unfold token_is, token_type. rewrite P1.
      apply bool_decide_eq_false_2. exact Htoken. }
    rewrite Hfinally in Hend. simpl in Hend.
    unfold parser_try_context_end in Hend.
    destruct (context_end_done PARSER_TRY_CONTEXT_STACK_ALLOCATION cp)
      as (ce & Hce & (E1 & E2 & E3 & E4 & E5) & Ecode & Elast & Eemit
          & Edepth).
    rewrite (bind_done _ _ _ _ _ Hce) in Hend.
    run_step Hend. apply ret_done_inv in Hend as [<- <-].
    apply bind_done_inv in H as (i & cq & Hpop & H).
    apply parser_stack_pop_statement_done in Hpop as (rest' & Hstack' & ->).
    apply modify_done_inv in H as ->.
    assert (Hrest : rest' = rest).
    { cbn in Hstack'. rewrite E3, P3 in Hstack'.
      subst c1. cbn in Hstack'. congruence. }
    subst rest'.
    split.
    + unfold closed. cbn. rewrite stack_depth_flush_emitter, Edepth, Pdepth.
      rewrite E1, E5, P1, P5. subst c1. cbn.
      repeat split. apply flush_emitter_last.
    + exists op, old. split; [exact Hat |].
      cbn. change (byte_code (flush_emitter (cbc ce))) with (emitted_code ce).
      rewrite Eemit, (emitted_code_unavailable cp Plast), Hcp.
      reflexivity.
  - intros Htype Hcatch Hfinally cp Hpatch.
    pose proof (parser_set_branch_to_current_position_spec
                  _ _ _ _ Hpatch) as ((P1 & P2 & P3 & P4 & P5) & _).
    split; [| rewrite P3; subst c1; reflexivity].
    rewrite Hrun. unfold bind at 1.
    unfold parser_try_block_end. rewrite Htype.
    rewrite (bind_done _ _ _ _ _ Hpatch).
    unfold bind at 1, gets at 1.
    assert (Hfollows :
      token_is cp LEXER_KEYW_CATCH || token_is cp LEXER_KEYW_FINALLY = false).
    { unfold token_is, token_type. rewrite P1.
      rewrite !bool_decide_eq_false_2 by assumption. reflexivity. }
    rewrite Hfollows. reflexivity.
Qed.

(** ** The discipline of the statement stack *)

Lemma stack_kept_refl c : stack_kept c c.
Proof. split; reflexivity. Qed.

Lemma stack_kept_trans c1 c2 c3 :
  stack_kept c1 c2 -> stack_kept c2 c3 -> stack_kept c1 c3.
Proof. intros [A1 A2] [B1 B2]. split; congruence. Qed.

Section triples.

Variable base : list stack_item_t.

Lemma statements_open_failed c :
  statements_open base c -> statements_failed base c.
Proof.
  intros [Hs Hl]. left. exists [], (stack c).
  split; [reflexivity |]. split; [left; reflexivity |].
  split; assumption.
Qed.

Lemma statements_open_kept c c' :
  stack_kept c c' -> statements_open base c -> statements_open base c'.
Proof.
  intros [Hs Hl] [Ha Hb]. split; [rewrite Hs; exact Ha |].
  rewrite Hl, Hs. exact Hb.
Qed.

Lemma stack_property_open : stack_property base (statements_open base).
Proof. split; [exact statements_open_kept | auto]. Qed.

Lemma stack_property_failed P c :
  stack_property base P -> P c -> statements_failed base c.
Proof. intros [_ H] Hc. apply statements_open_failed, H, Hc. Qed.

Lemma triple_ret {A : Type} (P : parser_context_t -> Prop) (a : A)
    (Q : A -> parser_context_t -> Prop) :
  (forall c, P c -> Q a c) -> triple base P (ret a) Q.
Proof. intros H c Hc. apply H, Hc. Qed.

Lemma triple_fault {A : Type} P f (Q : A -> parser_context_t -> Prop) :
  triple base P (fault f) Q.
Proof. intros c _. exact Logic.I. Qed.

Lemma triple_bind {A B : Type} P (m : M A) Q (k : A -> M B) R :
  triple base P m Q -> (forall a, triple base (Q a) (k a) R) ->
  triple base P (bind m k) R.
Proof.
  intros Hm Hk c Hc. unfold bind. specialize (Hm c Hc).
  destruct (m c) as [a c1 | e c1 | f]; [| exact Hm | exact Logic.I].
  exact (Hk a c1 Hm).
Qed.

Lemma triple_conseq {A : Type} (P P' : parser_context_t -> Prop) (m : M A)
    (Q Q' : A -> parser_context_t -> Prop) :
  triple base P m Q ->
  (forall c, P' c -> P c) -> (forall a c, Q a c -> Q' a c) ->
  triple base P' m Q'.
Proof.
  intros Hm Hp Hq c Hc. specialize (Hm c (Hp c Hc)).
  destruct (m c) as [a c1 | e c1 | f]; [apply Hq |..]; exact Hm.
Qed.

Lemma triple_pre {A : Type} (P P' : parser_context_t -> Prop) (m : M A) Q :
  triple base P m Q -> (forall c, P' c -> P c) -> triple base P' m Q.
Proof. intros Hm Hp. apply (triple_conseq P P' m Q Q Hm Hp). auto. Qed.

Lemma triple_post {A : Type} P (m : M A)
    (Q Q' : A -> parser_context_t -> Prop) :
  triple base P m Q -> (forall a c, Q a c -> Q' a c) -> triple base P m Q'.
Proof. intros Hm Hq. apply (triple_conseq P P m Q Q' Hm); auto. Qed.

Lemma triple_gets {A : Type} P (f : parser_context_t -> A) :
  triple base P (gets f) (fun a c => P c /\ a = f c).
Proof. intros c Hc. split; [exact Hc | reflexivity]. Qed.

Lemma triple_gets_drop {A : Type} P (f : parser_context_t -> A) :
  triple base P (gets f) (fun _ => P).
Proof. intros c Hc. exact Hc. Qed.

Lemma triple_raise {A : Type} P e (Q : A -> parser_context_t -> Prop) :
  (forall c, P c -> statements_failed base c) ->
  triple base P (parser_raise_error e) Q.
Proof. intros H c Hc. apply H, Hc. Qed.

Lemma triple_raise_if P b e :
  (forall c, P c -> statements_failed base c) ->
  triple base P (raise_if b e) (fun _ => P).
Proof.
  intros H. destruct b; [apply triple_raise, H | apply triple_ret; auto].
Qed.

Lemma triple_when P b (m : M unit) :
  triple base P m (fun _ => P) -> triple base P (when b m) (fun _ => P).
Proof. intros H. destruct b; [exact H | apply triple_ret; auto]. Qed.

Lemma triple_if {A : Type} P (b : bool) (m1 m2 : M A) Q :
  triple base P m1 Q -> triple base P m2 Q ->
  triple base P (if b then m1 else m2) Q.
Proof. intros H1 H2. destruct b; assumption. Qed.

(** An action that leaves the stack and the iterator alone keeps every
    property of them. *)
Lemma triple_kept {A : Type} P (m : M A) :
  stack_property base P -> keeps stack_kept m ->
  triple base P m (fun _ => P).
Proof.
  intros [Hstable Hopen] Hm c Hc. specialize (Hm c).
  destruct (m c) as [a c1 | e c1 | f]; [| | exact Logic.I].
  - exact (Hstable c c1 Hm Hc).
  - apply statements_open_failed, Hopen. exact (Hstable c c1 Hm Hc).
Qed.

End triples.

(** *** Actions that leave the stack alone *)

Lemma kept_lift_lexer f : keeps stack_kept (lift_lexer f).
Proof.
  intros c. unfold lift_lexer.
  destruct (f (status_flags c) (lex c)); split; reflexivity.
Qed.

Lemma kept_parser_parse_expression options :
  keeps stack_kept (parser_parse_expression options).
Proof.
  intros c. unfold parser_parse_expression.
  destruct (ext_parse_expression _ _ _ _) as [[[f l] e] | e];
    split; reflexivity.
Qed.

Lemma kept_lexer_construct_function_object index flags :
  keeps stack_kept (lexer_construct_function_object index flags).
Proof.
  intros c. unfold lexer_construct_function_object.
  destruct (ext_construct_function_object _ _ _ _) as [[f l] | e];
    split; reflexivity.
Qed.

Lemma kept_literal_status_flags_or flags :
  keeps stack_kept (literal_status_flags_or flags).
Proof.
  intros c. unfold literal_status_flags_or.
  destruct (literal_pool (lex c) !! _); [split; reflexivity | exact Logic.I].
Qed.

Lemma kept_parser_malloc n : keeps stack_kept (parser_malloc n).
Proof. intros c. split; reflexivity. Qed.

Lemma kept_parser_free p : keeps stack_kept (parser_free p).
Proof.
  intros c. unfold parser_free.
  destruct (node_at _ _); [split; reflexivity | exact Logic.I].
Qed.

Lemma kept_node_read p : keeps stack_kept (node_read p).
Proof.
  intros c. unfold node_read.
  destruct (node_at _ _); [split; reflexivity | exact Logic.I].
Qed.

Lemma kept_node_write p n : keeps stack_kept (node_write p n).
Proof.
  intros c. unfold node_write.
  destruct (node_at _ _); [split; reflexivity | exact Logic.I].
Qed.

Lemma kept_patch_forward_branch branch :
  keeps stack_kept (patch_forward_branch branch).
Proof.
  intros c. unfold patch_forward_branch.
  destruct (byte_code (cbc c) !! _) as [[| op old |] |];
    try exact Logic.I.
  destruct (0 <=? _); [split; reflexivity | exact Logic.I].
Qed.

Lemma kept_parser_stack_iterator_read iterator :
  keeps stack_kept (parser_stack_iterator_read iterator).
Proof.
  intros c. unfold parser_stack_iterator_read.
  destruct (stack_item_at _ _); [split; reflexivity | exact Logic.I].
Qed.

(** The steps of a proof that an action leaves the stack alone. *)
Ltac kept_step :=
  first
    [ apply kept_lift_lexer
    | apply kept_parser_parse_expression
    | apply kept_lexer_construct_function_object
    | apply kept_literal_status_flags_or
    | apply kept_parser_malloc
    | apply kept_parser_free
    | apply kept_node_read
    | apply kept_node_write
    | apply kept_patch_forward_branch
    | apply kept_parser_stack_iterator_read
    | apply (keeps_modify stack_kept); intros ?; split; reflexivity
    | keeps_step stack_kept_refl stack_kept_trans
    | match goal with
      | |- keeps _ (match ?x with _ => _ end) => destruct x
      end ].

Lemma kept_parser_set_branch_to_current_position branch :
  keeps stack_kept (parser_set_branch_to_current_position branch).
Proof. unfold parser_set_branch_to_current_position. repeat kept_step. Qed.

Lemma kept_set_breaks_loop n :
  forall p, keeps stack_kept (set_breaks_loop n p).
Proof.
  induction n as [| n IH]; intros [p |]; simpl;
    try apply keeps_fault;
    try (apply (keeps_ret _ stack_kept_refl)).
  repeat first
    [ apply IH | apply kept_parser_set_branch_to_current_position
    | kept_step ].
Qed.

Lemma kept_parser_set_breaks_to_current_position p :
  keeps stack_kept (parser_set_breaks_to_current_position p).
Proof.
  intros c. unfold parser_set_breaks_to_current_position.
  apply kept_set_breaks_loop.
Qed.

Lemma kept_set_continues_loop n :
  forall p, keeps stack_kept (set_continues_loop n p).
Proof.
  induction n as [| n IH]; intros [p |]; simpl;
    try apply keeps_fault;
    try (apply (keeps_ret _ stack_kept_refl)).
  repeat first
    [ apply IH | apply kept_parser_set_branch_to_current_position
    | kept_step ].
Qed.

Lemma kept_parser_set_continues_to_current_position p :
  keeps stack_kept (parser_set_continues_to_current_position p).
Proof.
  intros c. unfold parser_set_continues_to_current_position.
  apply kept_set_continues_loop.
Qed.

Ltac kept :=
  repeat first
    [ apply kept_parser_set_branch_to_current_position
    | apply kept_parser_set_breaks_to_current_position
    | apply kept_parser_set_continues_to_current_position
    | kept_step ].

Lemma kept_parser_parse_enclosed_expr :
  keeps stack_kept parser_parse_enclosed_expr.
Proof. unfold parser_parse_enclosed_expr. kept. Qed.

Lemma kept_parser_emit_cbc_forward_branch op :
  keeps stack_kept (parser_emit_cbc_forward_branch op).
Proof. unfold parser_emit_cbc_forward_branch. kept. Qed.

Lemma kept_parser_emit_cbc_forward_branch_item op next_p :
  keeps stack_kept (parser_emit_cbc_forward_branch_item op next_p).
Proof. unfold parser_emit_cbc_forward_branch_item. kept. Qed.

Lemma kept_parser_emit_cbc_backward_branch op target :
  keeps stack_kept (parser_emit_cbc_backward_branch op target).
Proof. unfold parser_emit_cbc_backward_branch. kept. Qed.

Lemma kept_backward_branch_opcode : keeps stack_kept backward_branch_opcode.
Proof. unfold backward_branch_opcode. kept. Qed.

Lemma kept_parser_parse_var_loop n : keeps stack_kept (parser_parse_var_loop n).
Proof.
  induction n as [| n IH]; simpl; [apply keeps_fault |].
  repeat first [exact IH | kept_step].
Qed.

Lemma kept_parser_parse_function_statement :
  keeps stack_kept parser_parse_function_statement.
Proof. unfold parser_parse_function_statement. kept. Qed.

Lemma kept_parser_parse_expression_statement :
  keeps stack_kept parser_parse_expression_statement.
Proof. unfold parser_parse_expression_statement. kept. Qed.

Lemma kept_parser_parse_catch_clause :
  keeps stack_kept parser_parse_catch_clause.
Proof. unfold parser_parse_catch_clause. kept. Qed.

Lemma kept_parser_parse_finally_clause :
  keeps stack_kept parser_parse_finally_clause.
Proof. unfold parser_parse_finally_clause. kept. Qed.

Lemma kept_parser_try_block_end try_statement :
  keeps stack_kept (parser_try_block_end try_statement).
Proof.
  unfold parser_try_block_end, parser_try_context_end.
  destruct (try_type try_statement); kept.
Qed.

Lemma kept_parser_parse_for_in_var_target :
  keeps stack_kept parser_parse_for_in_var_target.
Proof. unfold parser_parse_for_in_var_target. kept. Qed.

Lemma kept_parser_parse_for_in_expression_target :
  keeps stack_kept parser_parse_for_in_expression_target.
Proof. unfold parser_parse_for_in_expression_target. kept. Qed.

Lemma kept_parser_parse_directive : keeps stack_kept parser_parse_directive.
Proof. unfold parser_parse_directive. kept. Qed.

Lemma kept_parser_parse_directive_prologue n :
  keeps stack_kept (parser_parse_directive_prologue n).
Proof.
  induction n as [| n IH]; simpl; [apply keeps_fault |].
  repeat first [exact IH | apply kept_parser_parse_directive | kept_step].
Qed.

(** *** The statements, one by one *)

Section statement_stack.

Variable base : list stack_item_t.

Lemma frames_above_push i s :
  is_frame i = true -> frames_above base s -> frames_above base (i :: s).
Proof.
  intros Hi (frames & -> & Hframes). exists (i :: frames).
  split; [reflexivity |]. simpl. rewrite Hi. exact Hframes.
Qed.

Lemma frames_above_cases s :
  frames_above base s ->
  s = item_uint8 PARSER_STATEMENT_START :: base
  \/ exists i s', s = i :: s' /\ is_frame i = true /\ frames_above base s'.
Proof.
  intros ([| i frames] & -> & Hframes); [left; reflexivity |].
  simpl in Hframes. apply andb_prop in Hframes as [Hi Hframes].
  right. exists i, (frames ++ item_uint8 PARSER_STATEMENT_START :: base).
  split; [reflexivity |]. split; [exact Hi |].
  exists frames. split; [reflexivity | exact Hframes].
Qed.

Lemma frames_above_pop i s :
  is_frame i = true -> frames_above base (i :: s) -> frames_above base s.
Proof.
  intros Hi H. apply frames_above_cases in H as [H | (j & s' & H & _ & Hs)].
  - injection H as -> ->. discriminate Hi.
  - injection H as -> ->. exact Hs.
Qed.

Lemma frames_above_start : frames_above base (item_uint8 PARSER_STATEMENT_START :: base).
Proof. exists []. split; reflexivity. Qed.

(** With the sentinel on top, nothing but the sentinel is above
    [base]. *)
Lemma frames_above_top_start c :
  frames_above base (stack c) ->
  stack_top_uint8 c = PARSER_STATEMENT_START ->
  stack c = item_uint8 PARSER_STATEMENT_START :: base.
Proof.
  intros H Htop. apply frames_above_cases in H as [H | (i & s' & H & Hi & _)];
    [exact H |].
  unfold stack_top_uint8 in Htop. rewrite H in Htop.
  apply is_frame_not_start in Hi. apply Z.eqb_neq in Hi. contradiction.
Qed.

Lemma triple_init :
  triple base (stack_framed base) parser_stack_iterator_init_last_statement
    (fun _ => statements_open base).
Proof. intros c Hc. split; [exact Hc | reflexivity]. Qed.

Lemma triple_push_statement i :
  is_frame i = true ->
  triple base (statements_open base) (parser_stack_push_statement i)
    (fun _ => stack_framed base).
Proof. intros Hi c [Hc _]. apply frames_above_push; assumption. Qed.

Lemma triple_push_block :
  triple base (statements_open base)
    (parser_stack_push_uint8 PARSER_STATEMENT_BLOCK)
    (fun _ => stack_framed base).
Proof. intros c [Hc _]. apply frames_above_push; [reflexivity | exact Hc]. Qed.

Lemma triple_pop_statement :
  triple base (statements_open base) parser_stack_pop_statement
    (fun i c => is_frame i = true -> stack_framed base c).
Proof.
  intros c [Hc _]. unfold parser_stack_pop_statement.
  destruct (stack c) as [| i s] eqn:E; [exact Logic.I |].
  intros Hi. exact (frames_above_pop i s Hi Hc).
Qed.

(** A scan comes back with the stack as it was, or fails with its own
    bytes on top of it. *)
Lemma triple_scan_until P end_type :
  stack_property base P ->
  triple base P (parser_scan_until end_type) (fun _ => P).
Proof.
  intros [Hstable Hopen] c Hc.
  pose proof (parser_scan_until_stack end_type c) as Hstack.
  pose proof (scanner_only_until end_type c) as Honly.
  destruct (parser_scan_until end_type c) as [r c' | e c' | f];
    [| | exact Logic.I].
  - destruct Honly as (_ & _ & Hlast & _).
    apply (Hstable c c'); [split; assumption | exact Hc].
  - destruct Honly as (_ & _ & Hlast & _).
    destruct Hstack as (junk & Hstack & Hjunk).
    destruct (Hopen c Hc) as [Hframes Hiter].
    left. exists junk, (stack c).
    split; [exact Hstack |]. split; [exact Hjunk |].
    split; [exact Hframes |].
    rewrite Hlast. exact Hiter.
Qed.

Lemma steady_scan_until end_type :
  triple base (statements_open base) (parser_scan_until end_type)
    (fun _ => statements_open base).
Proof. apply triple_scan_until, stack_property_open. Qed.

Create HintDb steady discriminated.

#[local] Hint Resolve steady_scan_until : steady.

(** One step of a proof that an action goes from one statement
    boundary to another. *)
Ltac open_action :=
  first
    [ apply triple_gets_drop
    | apply triple_raise_if; exact (statements_open_failed base)
    | apply triple_raise; exact (statements_open_failed base)
    | solve [auto with steady]
    | apply triple_kept; [exact (stack_property_open base) | solve [kept]] ].

Ltac push_init :=
  eapply triple_bind;
  [ first [ apply triple_push_statement; reflexivity
          | apply triple_push_block ]
  | intros ?; first [ exact triple_init
                    | eapply triple_bind; [exact triple_init | intros ?] ] ].

Ltac open_step :=
  cbv beta;
  first
    [ apply triple_fault
    | apply triple_ret; intros ? ?; assumption
    | open_action
    | push_init
    | apply triple_when
    | apply triple_if
    | apply (triple_bind base _ _ (fun _ => statements_open base));
      [| intros ?] ].

Lemma steady_parser_parse_var_statement :
  triple base (statements_open base) parser_parse_var_statement
    (fun _ => statements_open base).
Proof.
  apply triple_kept; [exact (stack_property_open base) |].
  apply kept_parser_parse_var_loop.
Qed.

Lemma steady_parser_parse_function_statement :
  triple base (statements_open base) parser_parse_function_statement
    (fun _ => statements_open base).
Proof.
  apply triple_kept; [exact (stack_property_open base) |].
  apply kept_parser_parse_function_statement.
Qed.

#[local] Hint Resolve steady_parser_parse_var_statement
  steady_parser_parse_function_statement : steady.

Lemma steady_parser_parse_if_statement_start :
  triple base (statements_open base) parser_parse_if_statement_start
    (fun _ => statements_open base).
Proof. unfold parser_parse_if_statement_start. repeat open_step. Qed.

Lemma steady_parser_parse_with_statement_start :
  triple base (statements_open base) parser_parse_with_statement_start
    (fun _ => statements_open base).
Proof. unfold parser_parse_with_statement_start. repeat open_step. Qed.

Lemma steady_parser_parse_while_statement_start :
  triple base (statements_open base) parser_parse_while_statement_start
    (fun _ => statements_open base).
Proof. unfold parser_parse_while_statement_start. repeat open_step. Qed.

Lemma steady_parser_parse_for_statement_start :
  triple base (statements_open base) parser_parse_for_statement_start
    (fun _ => statements_open base).
Proof.
  unfold parser_parse_for_statement_start,
    parser_parse_for_in_statement_start,
    parser_parse_classic_for_statement_start.
  repeat open_step.
Qed.

#[local] Hint Resolve steady_parser_parse_if_statement_start
  steady_parser_parse_with_statement_start
  steady_parser_parse_while_statement_start
  steady_parser_parse_for_statement_start : steady.

(** *** A frame of a known kind on top *)

Lemma stack_property_top_open K : stack_property base (top_open base K).
Proof.
  split; [| intros c [H _]; exact H].
  intros c c' Hkept [Hopen (i & s & Hs & Hk)].
  split; [exact (statements_open_kept base c c' Hkept Hopen) |].
  exists i, s. rewrite (proj1 Hkept). split; assumption.
Qed.

Lemma stack_property_top_open_at K iterator :
  stack_property base (top_open_at base K iterator).
Proof.
  destruct (stack_property_top_open K) as [Hstable Hopen].
  split; [| intros c [H _]; exact (Hopen c H)].
  intros c c' Hkept [Htop Hit].
  split; [exact (Hstable c c' Hkept Htop) |].
  rewrite (proj1 Hkept). exact Hit.
Qed.

Lemma stack_property_iterator_in_frames iterator :
  stack_property base (iterator_in_frames base iterator).
Proof.
  split; [| intros c [H _]; exact H].
  intros c c' Hkept [Hopen H].
  split; [exact (statements_open_kept base c c' Hkept Hopen) |].
  rewrite (proj1 Hkept). exact H.
Qed.

Lemma triple_false {A : Type} (P : parser_context_t -> Prop) (m : M A) Q :
  (forall c, P c -> False) -> triple base P m Q.
Proof. intros H c Hc. destruct (H c Hc). Qed.

(** The iterator taken at a statement boundary points at the top. *)
Lemma triple_iterator_init_top K :
  triple base (top_open base K) parser_stack_iterator_init
    (fun iterator => top_open_at base K iterator).
Proof. intros c Hc. split; [exact Hc | reflexivity]. Qed.

Lemma stack_item_at_length (s : list stack_item_t) :
  stack_item_at s (length s) = head s.
Proof.
  destruct s as [| i s]; [reflexivity |]. apply stack_item_at_top.
Qed.

(** What is read there is the frame on top. *)
Lemma triple_iterator_read_top K iterator :
  triple base (top_open_at base K iterator)
    (parser_stack_iterator_read iterator)
    (fun i c => top_open_at base K iterator c /\ K i = true).
Proof.
  intros c [[Hopen (i & s & Hs & Hk & Hi)] ->].
  unfold parser_stack_iterator_read.
  rewrite stack_item_at_length, Hs. simpl.
  split; [| exact Hk].
  split; [| rewrite Hs; reflexivity]. split; [exact Hopen |].
  exists i, s. repeat split; assumption.
Qed.

(** Another frame is written over the frame on top. *)
Lemma triple_iterator_write_top K K' iterator j :
  K' j = true -> is_frame j = true ->
  triple base (top_open_at base K iterator)
    (parser_stack_iterator_write iterator j)
    (fun _ => top_open_at base K' iterator).
Proof.
  intros Hk' Hj c [[[Hframes Hlast] (i & s & Hs & Hk & Hi)] ->].
  unfold parser_stack_iterator_write.
  rewrite stack_item_at_length, Hs. simpl.
  rewrite Nat.sub_diag. cbn [insert list_insert].
  rewrite Hs in Hframes, Hlast.
  assert (Hnew : frames_above base (j :: s)).
  { apply frames_above_push; [exact Hj |].
    exact (frames_above_pop i s Hi Hframes). }
  split; [| reflexivity].
  split; [split; [exact Hnew | exact Hlast] |].
  exists j, s. repeat split; assumption.
Qed.

(** The frame on top is popped. *)
Lemma triple_pop_top K :
  triple base (top_open base K) parser_stack_pop_statement
    (fun _ => stack_framed base).
Proof.
  intros c [[Hframes _] (i & s & Hs & _ & Hi)].
  unfold parser_stack_pop_statement. rewrite Hs.
  rewrite Hs in Hframes. exact (frames_above_pop i s Hi Hframes).
Qed.

(** A block is popped. *)
Lemma triple_pop_block :
  triple base
    (fun c => statements_open base c
              /\ stack_top_uint8 c = PARSER_STATEMENT_BLOCK)
    parser_stack_pop_uint8 (fun _ => stack_framed base).
Proof.
  intros c [[Hframes _] Htop]. unfold parser_stack_pop_uint8.
  destruct (frames_above_cases _ Hframes) as [Hs | (i & s & Hs & Hi & Hf)].
  - unfold stack_top_uint8 in Htop. rewrite Hs in Htop. discriminate Htop.
  - rewrite Hs. destruct i; try exact Logic.I. exact Hf.
Qed.

(** The sentinel is popped. *)
Lemma triple_pop_start :
  triple base
    (fun c => statements_open base c
              /\ stack_top_uint8 c = PARSER_STATEMENT_START)
    parser_stack_pop_uint8 (fun _ c => stack c = base).
Proof.
  intros c [[Hframes _] Htop]. unfold parser_stack_pop_uint8.
  rewrite (frames_above_top_start c Hframes Htop). reflexivity.
Qed.

(** The steps of a proof about an action that runs between two
    statements while [P] holds. *)
Ltac prop_action HP :=
  first
    [ apply triple_gets_drop
    | apply triple_raise_if; intros ? ?;
      eapply stack_property_failed; [exact HP | eassumption]
    | apply triple_raise; intros ? ?;
      eapply stack_property_failed; [exact HP | eassumption]
    | apply triple_kept; [exact HP | solve [kept]]
    | apply triple_scan_until; exact HP ].

Ltac prop_step P HP :=
  cbv beta;
  first
    [ apply triple_fault
    | apply triple_ret; intros ? ?; assumption
    | prop_action HP
    | apply triple_when
    | apply triple_if
    | apply (triple_bind base _ _ (fun _ => P)); [| intros ?] ].

(** From a frame of a kind on top to a statement boundary. *)
Lemma triple_top_open K (m : M unit) :
  triple base (statements_open base) m (fun _ => statements_open base) ->
  triple base (top_open base K) m (fun _ => statements_open base).
Proof. intros H. apply (triple_pre base _ _ _ _ H). intros c [Hc _]. exact Hc. Qed.

(** The lines that pop the frame on top and reset the iterator. *)
Ltac pop_init :=
  eapply triple_bind;
  [ first [ apply triple_pop_top
          | apply (triple_pre base (top_open base _));
            [apply triple_pop_top | intros ? [? _]; eassumption] ]
  | intros ?; cbv beta;
    first [ exact triple_init
          | eapply triple_bind; [exact triple_init | intros ?] ] ].

(** *** The ends of the statements *)

(** After [parser_stack_pop_statement] on a boundary, in the branch of
    a statement with payload. *)
Ltac popped_frame :=
  apply (triple_pre base (stack_framed base));
  [| intros ? H; apply H; reflexivity].

Ltac pop_match :=
  apply (triple_bind base _ _
           (fun i c => is_frame i = true -> stack_framed base c));
  [ exact triple_pop_statement
  | intros i; destruct i; try apply triple_fault; popped_frame;
    eapply triple_bind; [exact triple_init | intros ?] ].

Lemma steady_parser_parse_with_statement_end :
  triple base (statements_open base) parser_parse_with_statement_end
    (fun _ => statements_open base).
Proof.
  unfold parser_parse_with_statement_end. pop_match.
  repeat first
    [ open_step
    | match goal with
      | |- triple _ _ (match ?x with _ => _ end) _ => destruct x
      end ].
Qed.

Lemma steady_parser_parse_do_while_statement_end :
  triple base (statements_open base) parser_parse_do_while_statement_end
    (fun _ => statements_open base).
Proof.
  unfold parser_parse_do_while_statement_end.
  open_step; [open_step |]. open_step; [open_step |].
  pop_match. repeat open_step.
Qed.

Lemma steady_parser_parse_while_statement_end :
  triple base (statements_open base) parser_parse_while_statement_end
    (fun _ => statements_open base).
Proof.
  unfold parser_parse_while_statement_end, parser_save_range,
    parser_set_range, assign_token.
  pop_match. repeat open_step.
Qed.

Lemma steady_parser_parse_for_statement_end :
  triple base (statements_open base) parser_parse_for_statement_end
    (fun _ => statements_open base).
Proof.
  unfold parser_parse_for_statement_end, parser_save_range,
    parser_set_range, assign_token.
  pop_match. repeat open_step.
Qed.

(** What an iterator taken at a statement boundary reads is the item
    on top; if it is a frame, the boundary has this frame on top. *)
Lemma triple_iterator_read_boundary iterator :
  triple base
    (fun c => statements_open base c /\ iterator = length (stack c))
    (parser_stack_iterator_read iterator)
    (fun i c =>
       forall K, K i = true -> is_frame i = true ->
                 top_open_at base K iterator c).
Proof.
  intros c [Hopen ->]. unfold parser_stack_iterator_read.
  rewrite stack_item_at_length.
  destruct (stack c) as [| i s] eqn:Hs; [exact Logic.I |]. simpl.
  intros K Hk Hi. split; [| rewrite Hs; reflexivity].
  split; [exact Hopen |]. exists i, s. repeat split; assumption.
Qed.

Lemma top_open_at_open K iterator c :
  top_open_at base K iterator c -> statements_open base c.
Proof. intros [[H _] _]. exact H. Qed.

(** **** [if] *)

Lemma triple_change_last_else :
  triple base (top_open base is_if_frame)
    (parser_stack_change_last_uint8 PARSER_STATEMENT_ELSE)
    (fun _ => top_open base is_else_frame).
Proof.
  intros c [[Hframes Hlast] (i & s & Hs & Hk & Hi)].
  unfold parser_stack_change_last_uint8. rewrite Hs.
  destruct i; try discriminate Hk. simpl.
  rewrite Hs in Hframes, Hlast.
  split.
  - split; [| exact Hlast].
    apply frames_above_push; [reflexivity |].
    exact (frames_above_pop _ s Hi Hframes).
  - eexists _, s. repeat split.
Qed.

Lemma steady_parser_parse_if_statement_end :
  triple base (top_open base is_if_frame) parser_parse_if_statement_end
    (fun _ => statements_open base).
Proof.
  unfold parser_parse_if_statement_end.
  apply (triple_bind base _ _ (fun _ => top_open base is_if_frame));
    [apply triple_gets_drop |].
  intros is_else. apply triple_if.
  - eapply triple_bind; [apply triple_pop_top |].
    intros i. destruct i; try apply triple_fault.
    eapply triple_bind; [exact triple_init | intros ?].
    repeat open_step.
  - eapply triple_bind; [exact triple_change_last_else | intros ?].
    eapply triple_bind; [apply triple_iterator_init_top | intros iterator].
    eapply triple_bind; [apply triple_iterator_read_top | intros i].
    destruct i; try apply triple_fault.
    apply (triple_conseq base
             (top_open_at base is_else_frame iterator) _ _
             (fun _ => top_open_at base is_else_frame iterator));
      [| intros c [H _]; exact H
       | intros ? c H; exact (top_open_at_open _ _ _ H)].
    pose proof (stack_property_top_open_at is_else_frame iterator) as HP.
    repeat first
      [ apply triple_iterator_write_top; reflexivity
      | prop_step (top_open_at base is_else_frame iterator) HP ].
Qed.

(** **** [try] *)

Lemma steady_parser_parse_try_statement_end :
  triple base (statements_open base) parser_parse_try_statement_end
    (fun _ => statements_open base).
Proof.
  unfold parser_parse_try_statement_end.
  eapply triple_bind; [apply triple_gets | intros iterator].
  eapply triple_bind; [apply triple_iterator_read_boundary | intros i].
  destruct i; try apply triple_fault. cbv beta.
  apply (triple_pre base (top_open_at base is_frame iterator));
    [| intros c H; apply H; reflexivity].
  pose proof (stack_property_top_open_at is_frame iterator) as HP.
  apply (triple_bind base _ _ (fun _ => top_open_at base is_frame iterator));
    [prop_action HP | intros ?].
  apply (triple_bind base _ _ (fun _ => top_open_at base is_frame iterator));
    [apply triple_kept; [exact HP | apply kept_parser_try_block_end] |].
  intros type.
  assert (Hrest :
    triple base (top_open_at base is_frame iterator)
      (is_catch ← gets (fun c => token_is c LEXER_KEYW_CATCH);
       try_statement' ← (if is_catch
                         then parser_parse_catch_clause
                         else parser_parse_finally_clause);
       lexer_next_token;;
       parser_stack_iterator_write iterator (item_try try_statement'))
      (fun _ => statements_open base)).
  { apply (triple_post base _ _
             (fun _ => top_open_at base is_frame iterator));
      [| intros ? c H; exact (top_open_at_open _ _ _ H)].
    repeat first
      [ apply triple_iterator_write_top; reflexivity
      | apply triple_kept;
        [exact HP
        | first [apply kept_parser_parse_catch_clause
                | apply kept_parser_parse_finally_clause]]
      | prop_step (top_open_at base is_frame iterator) HP ]. }
  destruct type; try exact Hrest.
  eapply triple_bind; [| intros ?; exact triple_init].
  apply (triple_pre base (top_open base is_frame));
    [apply triple_pop_top | intros c [H _]; exact H].
Qed.

(** **** [switch] *)

Ltac open_prefix :=
  repeat (apply (triple_bind base _ _ (fun _ => statements_open base));
          [open_action | intros ?]).

Lemma triple_write_switch_statement iterator switch_statement :
  triple base (top_open_at base is_switch_frame iterator)
    (write_switch_statement iterator switch_statement)
    (fun _ => top_open_at base is_switch_frame iterator).
Proof.
  unfold write_switch_statement.
  eapply triple_bind; [apply triple_iterator_read_top | intros i].
  destruct i; try apply triple_fault;
    (apply (triple_pre base (top_open_at base is_switch_frame iterator));
     [apply triple_iterator_write_top; reflexivity
     | intros c [H _]; exact H]).
Qed.

Lemma triple_read_switch_statement iterator :
  triple base
    (fun c => statements_open base c /\ iterator = length (stack c))
    (read_switch_statement iterator)
    (fun _ => top_open_at base is_switch_frame iterator).
Proof.
  unfold read_switch_statement.
  eapply triple_bind; [apply triple_iterator_read_boundary | intros i].
  destruct i; try apply triple_fault;
    (apply triple_ret; intros c H; apply H; reflexivity).
Qed.

Lemma triple_change_last_switch_no_default iterator :
  triple base (top_open_at base is_switch_frame iterator)
    (parser_stack_change_last_uint8 PARSER_STATEMENT_SWITCH_NO_DEFAULT)
    (fun _ => top_open_at base is_switch_frame iterator).
Proof.
  intros c [[[Hframes Hlast] (i & s & Hs & Hk & Hi)] Hit].
  unfold parser_stack_change_last_uint8. rewrite Hs.
  destruct i; try discriminate Hk; try exact Logic.I. simpl.
  rewrite Hs in Hframes, Hlast, Hit.
  split; [| exact Hit]. split.
  - split; [| exact Hlast].
    apply frames_above_push; [reflexivity |].
    exact (frames_above_pop _ s Hi Hframes).
  - eexists _, s. repeat split.
Qed.

Ltac switch_step iterator HP :=
  first
    [ apply triple_write_switch_statement
    | apply triple_change_last_switch_no_default
    | prop_step (top_open_at base is_switch_frame iterator) HP
    | match goal with
      | |- triple _ _ (match ?x with _ => _ end) _ => destruct x
      end ].

Lemma triple_parser_switch_emit_case iterator st :
  triple base (top_open_at base is_switch_frame iterator)
    (parser_switch_emit_case iterator st)
    (fun _ => top_open_at base is_switch_frame iterator).
Proof.
  pose proof (stack_property_top_open_at is_switch_frame iterator) as HP.
  unfold parser_switch_emit_case.
  repeat switch_step iterator HP.
Qed.

Lemma triple_parser_switch_scan_loop iterator n :
  forall st,
    triple base (top_open_at base is_switch_frame iterator)
      (parser_switch_scan_loop n iterator st)
      (fun _ => top_open_at base is_switch_frame iterator).
Proof.
  pose proof (stack_property_top_open_at is_switch_frame iterator) as HP.
  induction n as [| n IH]; intros st; simpl; [apply triple_fault |].
  repeat first
    [ apply IH
    | apply triple_parser_switch_emit_case
    | switch_step iterator HP ].
Qed.

Lemma steady_parser_parse_switch_statement_start :
  triple base (statements_open base) parser_parse_switch_statement_start
    (fun _ => statements_open base).
Proof.
  unfold parser_parse_switch_statement_start, parser_save_range.
  open_prefix.
  apply triple_if; [repeat open_step |].
  open_prefix.
  apply (triple_bind base _ _
           (fun _ c => stack_framed base c
                       /\ exists i s, stack c = i :: s
                                      /\ is_switch_frame i = true
                                      /\ is_frame i = true)).
  { intros c [Hc _]. split.
    - apply frames_above_push; [reflexivity | exact Hc].
    - eexists _, _. repeat split. }
  intros ?. eapply triple_bind; [apply triple_gets | intros iterator].
  apply (triple_bind base _ _
           (fun _ => top_open_at base is_switch_frame iterator)).
  { intros c [[Hc Htop] ->]. split; [| reflexivity].
    split; [split; [exact Hc | reflexivity] | exact Htop]. }
  intros ?.
  pose proof (stack_property_top_open_at is_switch_frame iterator) as HP.
  apply (triple_post base _ _
           (fun _ => top_open_at base is_switch_frame iterator));
    [| intros ? c H; exact (top_open_at_open _ _ _ H)].
  unfold parser_set_range.
  repeat first
    [ apply triple_parser_switch_scan_loop
    | switch_step iterator HP ].
Qed.

Lemma steady_parser_parse_default_statement :
  triple base (statements_open base) parser_parse_default_statement
    (fun _ => statements_open base).
Proof. unfold parser_parse_default_statement. repeat open_step. Qed.

Lemma steady_parser_parse_case_statement :
  triple base (statements_open base) parser_parse_case_statement
    (fun _ => statements_open base).
Proof.
  unfold parser_parse_case_statement.
  do 4 (apply (triple_bind base _ _ (fun _ => statements_open base));
        [open_action | intros ?]).
  eapply triple_bind; [apply triple_gets | intros iterator].
  eapply triple_bind; [apply triple_read_switch_statement | intros ?].
  pose proof (stack_property_top_open_at is_switch_frame iterator) as HP.
  apply (triple_post base _ _
           (fun _ => top_open_at base is_switch_frame iterator));
    [| intros ? c H; exact (top_open_at_open _ _ _ H)].
  repeat switch_step iterator HP.
Qed.

Lemma steady_parser_parse_switch_statement_end has_default sw loop :
  triple base (top_open base is_frame)
    (parser_parse_switch_statement_end has_default sw loop)
    (fun _ => statements_open base).
Proof.
  unfold parser_parse_switch_statement_end.
  pop_init. repeat open_step.
Qed.

Lemma steady_parser_parse_for_in_statement_end for_in_statement loop :
  triple base (top_open base is_frame)
    (parser_parse_for_in_statement_end for_in_statement loop)
    (fun _ => statements_open base).
Proof.
  unfold parser_parse_for_in_statement_end.
  pop_init. repeat open_step.
Qed.

(** **** [break], [continue] and labels *)

Lemma break_target_search_found frames rest :
  forallb is_frame frames = true ->
  forall opcode it opcode',
    break_target_search
      (frames ++ item_uint8 PARSER_STATEMENT_START :: rest) opcode
    = search_found it opcode' ->
    exists above t below,
      frames = above ++ t :: below
      /\ it = length (t :: below
                      ++ item_uint8 PARSER_STATEMENT_START :: rest).
Proof.
  induction frames as [| a frames IH]; intros Hframes opcode it opcode' H;
    [discriminate H |].
  simpl in Hframes. apply andb_prop in Hframes as [Ha Hframes].
  destruct (frame_type_facts a Ha) as (T1 & T2 & _).
  simpl in H. rewrite T1, T2 in H.
  destruct (is_break_target (item_type a)).
  - injection H as <- _. exists [], a, frames. split; reflexivity.
  - destruct (IH Hframes _ _ _ H) as (above & t & below & -> & ->).
    exists (a :: above), t, below. split; reflexivity.
Qed.

Lemma continue_target_search_found frames rest :
  forallb is_frame frames = true ->
  forall opcode it opcode',
    continue_target_search
      (frames ++ item_uint8 PARSER_STATEMENT_START :: rest) opcode
    = search_found it opcode' ->
    exists above t below,
      frames = above ++ t :: below
      /\ it = length (t :: below
                      ++ item_uint8 PARSER_STATEMENT_START :: rest).
Proof.
  induction frames as [| a frames IH]; intros Hframes opcode it opcode' H;
    [discriminate H |].
  simpl in Hframes. apply andb_prop in Hframes as [Ha Hframes].
  destruct (frame_type_facts a Ha) as (T1 & T2 & _).
  simpl in H. rewrite T1, T2 in H.
  destruct (is_loop_type (item_type a)).
  - injection H as <- _. exists [], a, frames. split; reflexivity.
  - destruct (IH Hframes _ _ _ H) as (above & t & below & -> & ->).
    exists (a :: above), t, below. split; reflexivity.
Qed.

Lemma break_label_search_found ident frames rest :
  forallb is_frame frames = true ->
  forall opcode it opcode',
    break_label_search ident
      (frames ++ item_uint8 PARSER_STATEMENT_START :: rest) opcode
    = search_found it opcode' ->
    exists above t below,
      frames = above ++ t :: below
      /\ it = length (t :: below
                      ++ item_uint8 PARSER_STATEMENT_START :: rest).
Proof.
  induction frames as [| a frames IH]; intros Hframes opcode it opcode' H;
    [discriminate H |].
  simpl in Hframes. apply andb_prop in Hframes as [Ha Hframes].
  destruct (frame_type_facts a Ha) as (T1 & T2 & _).
  simpl in H. rewrite T1, T2 in H.
  assert (Hrec :
    forall op,
      break_label_search ident
        (frames ++ item_uint8 PARSER_STATEMENT_START :: rest) op
      = search_found it opcode' ->
      exists above t below,
        a :: frames = above ++ t :: below
        /\ it = length (t :: below
                        ++ item_uint8 PARSER_STATEMENT_START :: rest)).
  { intros op Hop.
    destruct (IH Hframes _ _ _ Hop) as (above & t & below & -> & ->).
    exists (a :: above), t, below. split; reflexivity. }
  destruct a; try exact (Hrec _ H).
  destruct (lexer_same_identifiers _ _); [| exact (Hrec _ H)].
  injection H as <- _. eexists [], _, frames. split; reflexivity.
Qed.

Lemma continue_label_search_found ident frames rest it opcode :
  forallb is_frame frames = true ->
  continue_label_search ident
    (frames ++ item_uint8 PARSER_STATEMENT_START :: rest)
    None false CBC_JUMP_FORWARD
  = search_found it opcode ->
  exists above t below,
    frames = above ++ t :: below
    /\ it = length (t :: below
                    ++ item_uint8 PARSER_STATEMENT_START :: rest).
Proof.
  intros Hframes H.
  pose proof (continue_label_search_spec ident frames rest Hframes
                None false CBC_JUMP_FORWARD) as Hspec.
  rewrite H in Hspec. destruct Hspec as [[E _] | Hloop]; [discriminate |].
  destruct Hloop as (above & loop & tail & -> & _ & _ & ->).
  exists above, loop, tail. split; reflexivity.
Qed.

(** The iterator that a search has found points into the frames. *)
Lemma search_found_in_frames c it :
  statements_open base c ->
  (forall frames,
     stack c = frames ++ item_uint8 PARSER_STATEMENT_START :: base ->
     forallb is_frame frames = true ->
     exists above t below,
       frames = above ++ t :: below
       /\ it = length (t :: below
                       ++ item_uint8 PARSER_STATEMENT_START :: base)) ->
  iterator_in_frames base it c.
Proof.
  intros Hopen H. split; [exact Hopen |].
  destruct Hopen as [(frames & Hs & Hframes) _].
  destruct (H frames Hs Hframes) as (above & t & below & -> & ->).
  exists above, t, below. rewrite Hs, <- app_assoc.
  repeat split. exact Hframes.
Qed.

Lemma is_frame_item_set_loop t l :
  is_frame (item_set_loop t l) = is_frame t.
Proof. destruct t; reflexivity. Qed.

Lemma iterator_in_frames_insert it c c2 t' :
  iterator_in_frames base it c ->
  (forall t, stack_item_at (stack c) it = Some t ->
             is_frame t' = is_frame t) ->
  stack c2 = <[(length (stack c) - it)%nat := t']> (stack c) ->
  last_statement c2 = last_statement c ->
  statements_open base c2.
Proof.
  intros [[_ Hlast] (above & t & below & Hs & Hframes & ->)] Ht Hs2 Hl2.
  assert (Hitem : stack_item_at (stack c)
                    (length (t :: below
                             ++ item_uint8 PARSER_STATEMENT_START :: base))
                  = Some t).
  { rewrite Hs.
    apply (stack_item_at_app above t
             (below ++ item_uint8 PARSER_STATEMENT_START :: base)). }
  specialize (Ht t Hitem).
  rewrite Hs in Hs2.
  rewrite (insert_at_iterator above t t'
             (below ++ item_uint8 PARSER_STATEMENT_START :: base)) in Hs2.
  split.
  - exists (above ++ t' :: below). rewrite Hs2, <- app_assoc.
    split; [reflexivity |].
    rewrite forallb_app in Hframes |- *. simpl in Hframes |- *.
    rewrite Ht. exact Hframes.
  - rewrite Hl2, Hlast, Hs2, Hs, !length_app. reflexivity.
Qed.

Lemma triple_file_branch_into_loop it op is_continue :
  triple base (iterator_in_frames base it)
    (file_branch_into_loop it op is_continue)
    (fun _ => statements_open base).
Proof.
  intros c Hc.
  destruct (stack_item_at (stack c) it) as [i |] eqn:Hitem;
    [| unfold file_branch_into_loop, bind, parser_stack_iterator_read;
       rewrite Hitem; exact Logic.I].
  destruct (item_loop i) as [l |] eqn:Hloop;
    [| unfold file_branch_into_loop, bind, parser_stack_iterator_read;
       rewrite Hitem, Hloop; exact Logic.I].
  destruct (file_branch_into_loop_done it op is_continue c i l Hitem Hloop)
    as (c2 & Hrun & (_ & _ & Hlast & _) & Hstack).
  rewrite Hrun. cbv beta iota.
  eapply (iterator_in_frames_insert it c c2);
    [exact Hc | | exact Hstack | exact Hlast].
  intros t Ht. rewrite Hitem in Ht. injection Ht as <-.
  apply is_frame_item_set_loop.
Qed.

Lemma triple_file_branch_into_label it op :
  triple base (iterator_in_frames base it)
    (file_branch_into_label it op)
    (fun _ => statements_open base).
Proof.
  intros c Hc.
  destruct (stack_item_at (stack c) it) as [i |] eqn:Hitem;
    [| unfold file_branch_into_label, bind, parser_stack_iterator_read;
       rewrite Hitem; exact Logic.I].
  destruct i;
    try (unfold file_branch_into_label, bind, parser_stack_iterator_read;
         rewrite Hitem; exact Logic.I).
  destruct (file_branch_into_label_done it op c _ Hitem)
    as (c2 & Hrun & (_ & _ & Hlast & _) & Hstack).
  rewrite Hrun. cbv beta iota.
  eapply (iterator_in_frames_insert it c c2);
    [exact Hc | | exact Hstack | exact Hlast].
  intros t Ht. rewrite Hitem in Ht. injection Ht as <-. reflexivity.
Qed.

Lemma steady_parser_parse_break_statement :
  triple base (statements_open base) parser_parse_break_statement
    (fun _ => statements_open base).
Proof.
  unfold parser_parse_break_statement.
  open_step; [open_step |]. open_step; [open_step |].
  apply triple_if.
  - eapply triple_bind; [apply triple_gets | intros r].
    destruct r as [it op | |].
    + apply (triple_pre base (iterator_in_frames base it)).
      * eapply triple_bind; [apply triple_file_branch_into_label |].
        intros ?. open_step.
      * intros c [Hopen Hr]. apply (search_found_in_frames c it Hopen).
        intros frames Hs Hframes. rewrite Hs in Hr. symmetry in Hr.
        exact (break_label_search_found _ _ _ Hframes _ _ _ Hr).
    + apply triple_raise. intros c [Hc _].
      exact (statements_open_failed base c Hc).
    + apply triple_fault.
  - eapply triple_bind; [apply triple_gets | intros r].
    destruct r as [it op | |].
    + apply (triple_pre base (iterator_in_frames base it));
        [apply triple_file_branch_into_loop |].
      intros c [Hopen Hr]. apply (search_found_in_frames c it Hopen).
      intros frames Hs Hframes. rewrite Hs in Hr. symmetry in Hr.
      exact (break_target_search_found _ _ Hframes _ _ _ Hr).
    + apply triple_raise. intros c [Hc _].
      exact (statements_open_failed base c Hc).
    + apply triple_fault.
Qed.

Lemma steady_parser_parse_continue_statement :
  triple base (statements_open base) parser_parse_continue_statement
    (fun _ => statements_open base).
Proof.
  unfold parser_parse_continue_statement.
  open_step; [open_step |]. open_step; [open_step |].
  apply triple_if.
  - eapply triple_bind; [apply triple_gets | intros r].
    destruct r as [it op | |].
    + apply (triple_pre base (iterator_in_frames base it)).
      * eapply triple_bind; [apply triple_file_branch_into_loop |].
        intros ?. open_step.
      * intros c [Hopen Hr]. apply (search_found_in_frames c it Hopen).
        intros frames Hs Hframes. rewrite Hs in Hr. symmetry in Hr.
        exact (continue_label_search_found _ _ _ _ _ Hframes Hr).
    + apply triple_raise. intros c [Hc _].
      exact (statements_open_failed base c Hc).
    + apply triple_fault.
  - eapply triple_bind; [apply triple_gets | intros r].
    destruct r as [it op | |].
    + apply (triple_pre base (iterator_in_frames base it));
        [apply triple_file_branch_into_loop |].
      intros c [Hopen Hr]. apply (search_found_in_frames c it Hopen).
      intros frames Hs Hframes. rewrite Hs in Hr. symmetry in Hr.
      exact (continue_target_search_found _ _ Hframes _ _ _ Hr).
    + apply triple_raise. intros c [Hc _].
      exact (statements_open_failed base c Hc).
    + apply triple_fault.
Qed.

Lemma steady_parser_parse_label label_literal :
  triple base (statements_open base) (parser_parse_label label_literal)
    (fun _ => statements_open base).
Proof.
  unfold parser_parse_label.
  open_step; [open_step |]. destruct a as [[] |]; repeat open_step.
Qed.

#[local] Hint Resolve steady_parser_parse_switch_statement_start
  steady_parser_parse_default_statement steady_parser_parse_case_statement
  steady_parser_parse_break_statement steady_parser_parse_continue_statement
  steady_parser_parse_label steady_parser_parse_try_statement_end
  steady_parser_parse_with_statement_end
  steady_parser_parse_do_while_statement_end
  steady_parser_parse_while_statement_end
  steady_parser_parse_for_statement_end : steady.

(** **** One statement *)

Lemma steady_parser_parse_literal_statement :
  triple base (statements_open base) parser_parse_literal_statement
    (fun _ => statements_open base).
Proof.
  unfold parser_parse_literal_statement, save_token_as_expression_start.
  repeat first
    [ apply triple_kept;
      [exact (stack_property_open base)
      | apply kept_parser_parse_expression_statement]
    | open_step ].
Qed.

Lemma steady_parser_parse_statement :
  triple base (statements_open base) parser_parse_statement
    (fun _ => statements_open base).
Proof.
  unfold parser_parse_statement.
  apply (triple_bind base _ _ (fun _ => statements_open base));
    [apply triple_gets_drop | intros type].
  assert (Hexpression :
    triple base (statements_open base)
      (parser_parse_expression_statement;; ret false)
      (fun _ => statements_open base)).
  { apply (triple_bind base _ _ (fun _ => statements_open base)).
    - apply triple_kept; [exact (stack_property_open base) |].
      apply kept_parser_parse_expression_statement.
    - intros ?. apply triple_ret. intros c H. exact H. }
  destruct type; try exact Hexpression;
    try exact steady_parser_parse_literal_statement;
    repeat open_step.
Qed.

(** **** The statement terminators *)

Lemma triple_parser_parse_right_brace_uint8 b :
  triple base
    (fun c => statements_open base c /\ b = stack_top_uint8 c)
    (parser_parse_right_brace_uint8 b) (returned_post base).
Proof.
  unfold parser_parse_right_brace_uint8.
  destruct (b =? PARSER_STATEMENT_BLOCK) eqn:Eblock.
  { apply Z.eqb_eq in Eblock. subst b.
    eapply triple_bind.
    - apply (triple_pre base _ _ _ _ triple_pop_block).
      intros c [H E]. split; [exact H | symmetry; exact E].
    - intros ?. eapply triple_bind; [exact triple_init | intros ?].
      apply (triple_bind base _ _ (fun _ => statements_open base));
        [open_action | intros ?].
      apply triple_ret. intros c H. exact H. }
  destruct (b =? PARSER_STATEMENT_START) eqn:Estart.
  { apply Z.eqb_eq in Estart. subst b.
    eapply triple_bind; [apply triple_gets_drop | intros closure].
    destruct closure.
    - eapply triple_bind.
      + apply (triple_pre base _ _ _ _ triple_pop_start).
        intros c [H E]. split; [exact H | symmetry; exact E].
      + intros ?.
        apply (triple_bind base _ _ (fun _ => statements_closed base)).
        * intros c Hc. split; [exact Hc | reflexivity].
        * intros ?. apply triple_ret. intros c H. exact H.
    - apply triple_raise. intros c [H _].
      exact (statements_open_failed base c H). }
  destruct (_ || _); [apply triple_fault |].
  apply triple_ret. intros c [H _]. exact H.
Qed.

Lemma top_open_of_stack c i s :
  statements_open base c -> i :: s = stack c -> is_frame i = true ->
  top_open base is_frame c.
Proof.
  intros Hopen Hs Hi. split; [exact Hopen |].
  exists i, s. repeat split; [symmetry; exact Hs | exact Hi | exact Hi].
Qed.

Lemma triple_parser_parse_right_brace :
  triple base (statements_open base) parser_parse_right_brace
    (returned_post base).
Proof.
  unfold parser_parse_right_brace.
  eapply triple_bind; [apply triple_gets | intros s].
  assert (Huint8 :
    triple base (fun c => statements_open base c /\ s = stack c)
      (b ← gets stack_top_uint8; parser_parse_right_brace_uint8 b)
      (returned_post base)).
  { eapply triple_bind; [apply triple_gets | intros b].
    apply (triple_pre base _ _ _ _
             (triple_parser_parse_right_brace_uint8 b)).
    intros c [[H _] E]. split; assumption. }
  assert (Hfalse :
    triple base (fun c => statements_open base c /\ s = stack c)
      (ret false) (returned_post base)).
  { apply triple_ret. intros c [H _]. exact H. }
  destruct s as [| i s]; [exact Huint8 |].
  destruct i; try exact Huint8; try exact Hfalse.
  - apply (triple_bind base _ _ (fun _ => statements_open base)).
    + apply (triple_pre base _ _ _ _
               (steady_parser_parse_switch_statement_end _ _ _)).
      intros c [H E]. exact (top_open_of_stack c _ _ H E eq_refl).
    + intros ?. apply triple_ret. intros c H. exact H.
  - apply (triple_bind base _ _ (fun _ => statements_open base)).
    + apply (triple_pre base _ _ _ _
               (steady_parser_parse_switch_statement_end _ _ _)).
      intros c [H E]. exact (top_open_of_stack c _ _ H E eq_refl).
    + intros ?. apply triple_ret. intros c H. exact H.
  - apply (triple_bind base _ _ (fun _ => statements_open base)).
    + apply (triple_pre base _ _ _ _ steady_parser_parse_try_statement_end).
      intros c [H _]. exact H.
    + intros ?. apply triple_ret. intros c H. exact H.
Qed.

Lemma triple_parser_parse_statement_terminator :
  triple base (statements_open base) parser_parse_statement_terminator
    (returned_post base).
Proof.
  unfold parser_parse_statement_terminator.
  apply (triple_bind base _ _ (fun _ => statements_open base));
    [open_action | intros brace].
  apply triple_if; [exact triple_parser_parse_right_brace |].
  apply (triple_bind base _ _ (fun _ => statements_open base));
    [open_action | intros semicolon].
  apply triple_if;
    repeat (apply (triple_bind base _ _ (fun _ => statements_open base));
            [open_action | intros ?]);
    apply triple_ret; intros c H; exact H.
Qed.

Lemma steady_parser_close_statement :
  triple base (statements_open base) parser_close_statement
    (fun _ => statements_open base).
Proof.
  unfold parser_close_statement.
  eapply triple_bind; [apply triple_gets | intros s].
  assert (Hnone :
    triple base (fun c => statements_open base c /\ s = stack c)
      (ret None) (fun _ : option bool => statements_open base)).
  { apply triple_ret. intros c [H _]. exact H. }
  assert (Hsteady :
    forall (m : M unit) (r : option bool),
      triple base (statements_open base) m (fun _ => statements_open base) ->
      triple base (fun c => statements_open base c /\ s = stack c)
        (m;; ret r) (fun _ => statements_open base)).
  { intros m r Hm.
    apply (triple_bind base _ _ (fun _ => statements_open base)).
    - apply (triple_pre base _ _ _ _ Hm). intros c [H _]. exact H.
    - intros ?. apply triple_ret. intros c H. exact H. }
  destruct s as [| i s]; [exact Hnone |].
  destruct i; try exact Hnone; try (apply Hsteady; auto with steady; fail).
  - destruct (_ || _); [apply triple_fault | exact Hnone].
  - apply (triple_pre base (top_open base is_frame));
      [| intros c [H E]; exact (top_open_of_stack c _ _ H E eq_refl)].
    pop_init. repeat open_step.
  - apply (triple_bind base _ _ (fun _ => statements_open base)).
    + apply (triple_pre base _ _ _ _ steady_parser_parse_if_statement_end).
      intros c [H E]. split; [exact H |].
      eexists _, _. split; [symmetry; exact E |]. split; reflexivity.
    + intros has_else. destruct has_else; apply triple_ret; auto.
  - apply (triple_pre base (top_open base is_frame));
      [| intros c [H E]; exact (top_open_of_stack c _ _ H E eq_refl)].
    pop_init. repeat open_step.
  - apply (triple_bind base _ _ (fun _ => statements_open base)).
    + apply (triple_pre base _ _ _ _
               (steady_parser_parse_for_in_statement_end _ _)).
      intros c [H E]. exact (top_open_of_stack c _ _ H E eq_refl).
    + intros ?. apply triple_ret. intros c H. exact H.
Qed.

Lemma triple_parser_terminator_loop n :
  forall required,
    triple base (statements_open base) (parser_terminator_loop n required)
      (terminator_post base).
Proof.
  induction n as [| n IH]; intros required; simpl; [apply triple_fault |].
  apply (triple_bind base _ _ (returned_post base)).
  - destruct required;
      [exact triple_parser_parse_statement_terminator |].
    apply triple_ret. intros c H. exact H.
  - intros returned. destruct returned.
    + apply triple_ret. intros c H. exact H.
    + apply (triple_bind base _ _ (fun _ => statements_open base));
        [exact steady_parser_close_statement |].
      intros next. destruct next as [required' |]; [apply IH |].
      apply triple_ret. intros c H. exact H.
Qed.

Lemma triple_parser_statements_loop n :
  triple base (statements_open base) (parser_statements_loop n)
    (statements_loop_post base).
Proof.
  induction n as [| n IH]; simpl; [apply triple_fault |].
  eapply triple_bind; [apply triple_gets | intros more].
  destruct more.
  - apply (triple_bind base _ _ (fun _ => statements_open base)).
    + apply (triple_pre base _ _ _ _ steady_parser_parse_statement).
      intros c [H _]. exact H.
    + intros continue. destruct continue; [exact IH |].
      apply (triple_bind base _ _ (fun _ => statements_open base));
        [open_action | intros ?].
      apply (triple_bind base _ _ (terminator_post base));
        [apply triple_parser_terminator_loop |].
      intros t. destruct t; [| exact IH].
      apply triple_ret. intros c H. exact H.
  - apply triple_ret. intros c [Hopen Hmore].
    split; [exact Hopen |].
    apply (frames_above_top_start c (proj1 Hopen)).
    symmetry in Hmore. apply orb_false_elim in Hmore as [_ Htop].
    apply negb_false_iff, Z.eqb_eq in Htop. exact Htop.
Qed.

Lemma triple_parser_parse_statements_body :
  triple base (statements_open base) parser_parse_statements_body
    (fun _ => statements_closed base).
Proof.
  unfold parser_parse_statements_body.
  apply (triple_bind base _ _ (statements_loop_post base));
    [apply triple_parser_statements_loop |].
  intros t. destruct t.
  - apply triple_ret. intros c H. exact H.
  - eapply triple_bind.
    + apply (triple_pre base _ _ _ _ triple_pop_start).
      intros c [H E]. split; [exact H |].
      unfold stack_top_uint8. rewrite E. reflexivity.
    + intros ?.
      apply (triple_bind base _ _ (fun _ => statements_closed base)).
      * intros c Hc. split; [exact Hc | reflexivity].
      * intros ?.
        apply (triple_bind base _ _ (fun _ => statements_closed base));
          [apply triple_gets_drop | intros closure].
        apply triple_raise_if. intros c H. right. exact H.
Qed.

Lemma triple_parser_parse_statements :
  triple base (fun c => stack c = base) parser_parse_statements
    (fun _ => statements_closed base).
Proof.
  unfold parser_parse_statements.
  apply (triple_bind base _ _ (fun _ => stack_framed base)).
  { intros c Hc. unfold stack_framed. simpl. rewrite Hc.
    apply frames_above_start. }
  intros ?. eapply triple_bind; [exact triple_init | intros ?].
  apply (triple_bind base _ _ (fun _ => statements_open base)).
  { apply triple_kept; [exact (stack_property_open base) |].
    apply kept_parser_parse_directive_prologue. }
  intros ?.
  apply (triple_bind base _ _ (fun _ => statements_open base));
    [open_action | intros ?].
  apply (triple_bind base _ _ (fun _ => statements_open base));
    [open_action | intros ?].
  exact triple_parser_parse_statements_body.
Qed.

End statement_stack.

(** [parser_parse_statements] keeps the discipline of the statement
    stack.  When it returns, the stack is what it was at the entry and
    the iterator of the last statement is NULL.  When it raises an
    error, the stack of the entry is still there, below the [START]
    sentinel and a sequence of frames of open statements; the iterator
    of the last statement points at the top of these frames, which is
    where [parser_free_jumps] starts.  On top of these frames there is
    nothing, or what a scan that was under way has left: its head
    symbol, under the symbols of the brackets that were open; these are
    bytes, no frame and no part of a frame.  (The one error that is
    raised after the sentinel is popped leaves the stack of the entry
    and a NULL iterator.)  This holds for every lexer and expression
    parser that works on its own part of the context.  Nothing is said
    of a run that faults. *)
Theorem parser_parse_statements_stack_discipline c :
  match parser_parse_statements c with
  | Done _ c' => stack c' = stack c /\ last_statement c' = None
  | Raise _ c' =>
      (exists junk frames,
         stack c'
         = junk ++ frames ++ item_uint8 PARSER_STATEMENT_START :: stack c
         /\ (junk = []
             \/ exists syms,
                  junk = map item_uint8 syms ++ [item_uint8 SCAN_STACK_HEAD]
                  /\ Forall (fun b => b <> SCAN_STACK_HEAD) syms)
         /\ forallb is_frame frames = true
         /\ last_statement c'
            = Some (length (frames
                            ++ item_uint8 PARSER_STATEMENT_START :: stack c)))
      \/ (stack c' = stack c /\ last_statement c' = None)
  | Fault _ => True
  end.
Proof.
  pose proof (triple_parser_parse_statements (stack c) c eq_refl) as H.
  destruct (parser_parse_statements c) as [[] c' | e c' | f];
    [exact H | | exact Logic.I].
  destruct H as [(junk & s & Hs & Hjunk & (frames & -> & Hframes) & Hlast) | H];
    [left | right; exact H].
  exists junk, frames.
  split; [exact Hs |]. split; [exact Hjunk |]. split; assumption.
Qed.

(** ** The directive prologue as a whole, and [case] *)

Lemma strict_or_same_trans c1 c2 c3 :
  strict_or_same c1 c2 -> strict_or_same c2 c3 -> strict_or_same c1 c3.
Proof.
  unfold strict_or_same. intros [H1 | H1] [H2 | H2]; rewrite H2, H1.
  - left. reflexivity.
  - right. reflexivity.
  - right. reflexivity.
  - right. rewrite <- Z.lor_assoc, Z.lor_diag. reflexivity.
Qed.

Lemma parser_parse_directive_outcome c :
  match parser_parse_directive c with
  | Done again c' =>
      strict_or_same c c' /\ stack_kept c c'
      /\ branch_nodes c' = branch_nodes c
      /\ (again = false -> token_type c' = LEXER_EXPRESSION_START)
  | Raise _ c' =>
      strict_or_same c c' /\ stack_kept c c'
      /\ branch_nodes c' = branch_nodes c
  | Fault _ => False
  end.
Proof.
  unfold parser_parse_directive, bind, gets, lexer_next_token,
    when, modify, raise_if, parser_raise_error, ret,
    lexer_construct_literal_object, parser_emit_cbc_literal_from_token,
    parser_emit_cbc_literal, emit_with_argument, modify_cbc,
    save_token_as_expression_start, strict_or_same, stack_kept.
  unfold lift_lexer.
  repeat match goal with
         | |- context [match ?r with ext_ok _ => _ | ext_error _ => _ end] =>
             destruct r; simpl
         | |- context [if ?b then _ else _] => destruct b; simpl
         end;
    repeat split; auto; try (intros H; discriminate H).
Qed.

(** The directive prologue as a whole.  When it is over, the current
    token is no string literal: either the loop met another token, or
    the string literal started an expression and the token has become
    [LEXER_EXPRESSION_START].  The status flags are those of the entry,
    but for [PARSER_IS_STRICT], which is never cleared; the statement
    stack, the iterator of the last statement and the branch nodes are
    untouched, also when an error is raised.  Nothing but running out
    of fuel stops the loop otherwise. *)
Theorem parser_parse_directive_prologue_end n c :
  match parser_parse_directive_prologue n c with
  | Done _ c' =>
      token_is_literal c' LEXER_STRING_LITERAL = false
      /\ (status_flags c' = status_flags c
          \/ status_flags c' = Z.lor (status_flags c) PARSER_IS_STRICT)
      /\ stack c' = stack c /\ last_statement c' = last_statement c
      /\ branch_nodes c' = branch_nodes c
  | Raise _ c' =>
      (status_flags c' = status_flags c
       \/ status_flags c' = Z.lor (status_flags c) PARSER_IS_STRICT)
      /\ stack c' = stack c /\ last_statement c' = last_statement c
      /\ branch_nodes c' = branch_nodes c
  | Fault f => f = out_of_fuel
  end.
Proof.
  revert c. induction n as [| n IH]; intros c; simpl; [reflexivity |].
  unfold bind at 1, gets at 1.
  destruct (token_is_literal c LEXER_STRING_LITERAL) eqn:Eliteral;
    [| simpl; repeat split; auto].
  unfold bind at 1.
  pose proof (parser_parse_directive_outcome c) as Hdirective.
  destruct (parser_parse_directive c) as [again c1 | e c1 | f];
    [| | contradiction].
  - destruct Hdirective as (Hflags & [Hs Hl] & Hnodes & Htoken).
    destruct again.
    + specialize (IH c1).
      destruct (parser_parse_directive_prologue n c1) as [[] c2 | e c2 | f];
        [| | exact IH].
      * destruct IH as (T & F & S2 & L2 & N2).
        split; [exact T |].
        split; [exact (strict_or_same_trans c c1 c2 Hflags F) |].
        repeat split; congruence.
      * destruct IH as (F & S2 & L2 & N2).
        split; [exact (strict_or_same_trans c c1 c2 Hflags F) |].
        repeat split; congruence.
    + simpl. split; [| repeat split; assumption].
      unfold token_is_literal, token_is. rewrite (Htoken eq_refl).
      reflexivity.
  - destruct Hdirective as (Hflags & [Hs Hl] & Hnodes).
    repeat split; assumption.
Qed.

Lemma parser_scan_until_done end_type c range c1 :
  parser_scan_until end_type c = Done range c1 ->
  stack c1 = stack c /\ cbc c1 = cbc c /\ status_flags c1 = status_flags c
  /\ last_statement c1 = last_statement c
  /\ branch_nodes c1 = branch_nodes c.
Proof.
  intros H.
  pose proof (parser_scan_until_stack end_type c) as Hstack.
  pose proof (scanner_only_until end_type c) as Honly.
  rewrite H in Hstack, Honly. destruct Honly as (H1 & H2 & H3 & H4).
  repeat split; assumption.
Qed.

(** The frame of a switch with another switch part. *)
Lemma read_switch_statement_done iterator c sw c1 :
  read_switch_statement iterator c = Done sw c1 ->
  c1 = c
  /\ exists loop,
       stack_item_at (stack c) iterator = Some (item_switch sw loop)
       \/ stack_item_at (stack c) iterator
          = Some (item_switch_no_default sw loop).
Proof.
  unfold read_switch_statement, bind, parser_stack_iterator_read.
  destruct (stack_item_at (stack c) iterator) as [i |]; [| discriminate].
  destruct i; try discriminate; intros H; injection H as <- <-;
    (split; [reflexivity |]); eexists; [left | right]; reflexivity.
Qed.

(** [case], when it returns.  The frame on top is the frame of a
    switch whose list of case branches is not empty.  The branch at the
    head of the list, emitted by the head of the switch for this
    [case], is patched to the current position; its node is freed, and
    the frame holds the rest of the list.  The scan over the
    expression of the [case] emits nothing. *)
Theorem parser_parse_case_statement_consumes c c' :
  parser_parse_case_statement c = Done tt c' ->
  exists frame sw loop rest p n,
    stack c = frame sw loop :: rest
    /\ (frame = item_switch \/ frame = item_switch_no_default)
    /\ switch_branch_list_p sw = Some p
    /\ node_at (branch_nodes c) p = Some n
    /\ stack c'
       = frame (mk_switch (switch_default_branch sw) (node_next_p n)) loop
         :: rest
    /\ branch_nodes c' = <[p := None]> (branch_nodes c)
    /\ last_statement c' = last_statement c
    /\ status_flags c' = status_flags c
    /\ last_cbc_opcode (cbc c') = PARSER_CBC_UNAVAILABLE
    /\ let site := Z.ldiff (branch_offset (node_branch n))
                           CBC_HIGHEST_BIT_MASK in
       exists op old,
         0 <= site
         /\ emitted_code c !! Z.to_nat site
            = Some (cbc_forward_branch op old)
         /\ byte_code (cbc c')
            = <[Z.to_nat site :=
                  cbc_forward_branch op
                    (Some (Z.of_nat (length (emitted_code c)) - site))]>
                (emitted_code c).
Proof.
  intros H. unfold parser_parse_case_statement in H.
  run_step H. run_step H.
  apply bind_done_inv in H as (range & c1 & Hscan & H).
  apply parser_scan_until_done in Hscan as (S1 & C1 & F1 & L1 & N1).
  apply bind_done_inv in H as ([] & c2 & Hnext & H).
  apply lexer_next_token_done in Hnext as (l2 & ->).
  run_step H.
  apply bind_done_inv in H as (sw & c3 & Hread & H).
  apply read_switch_statement_done in Hread as (-> & loop & Hitem).
  cbn [stack set_lex] in Hitem, H.
  destruct (switch_branch_list_p sw) as [p |] eqn:Hlist; [| discriminate H].
  apply bind_done_inv in H as (n & c4 & Hnode & H).
  apply node_read_done in Hnode as (-> & Hn).
  cbn [branch_nodes set_lex] in Hn.
  rewrite stack_item_at_length in Hitem.
  destruct (stack c1) as [| i rest] eqn:Hs1; [destruct Hitem; discriminate |].
  simpl in Hitem.
  assert (Hframe :
    exists frame,
      i = frame sw loop
      /\ (frame = item_switch \/ frame = item_switch_no_default)).
  { destruct Hitem as [E | E]; injection E as ->; eexists;
      (split; [reflexivity |]); [left | right]; reflexivity. }
  destruct Hframe as (frame & -> & Hframe).
  apply bind_done_inv in H as ([] & c5 & Hwrite & H).
  assert (Hc5 :
    c5 = set_stack (set_lex c1 l2)
           (frame (mk_switch (switch_default_branch sw) (node_next_p n)) loop
            :: rest)).
  { unfold write_switch_statement, bind, parser_stack_iterator_read,
      parser_stack_iterator_write in Hwrite.
    cbn [stack set_lex] in Hwrite.
    rewrite Hs1, stack_item_at_top in Hwrite.
    destruct Hframe as [-> | ->]; cbn [stack set_lex] in Hwrite;
      rewrite Hs1, stack_item_at_top, Nat.sub_diag in Hwrite;
      injection Hwrite as <-; reflexivity. }
  subst c5.
  apply bind_done_inv in H as ([] & c6 & Hpatch & H).
  apply parser_set_branch_to_current_position_done in Hpatch
    as (op & old & Hsite & Hat & ->).
  apply parser_free_done in H as (-> & _).
  exists frame, sw, loop, rest, p, n.
  split; [symmetry; exact S1 |]. split; [exact Hframe |].
  split; [exact Hlist |]. split; [rewrite <- N1; exact Hn |].
  cbn. rewrite N1, L1, F1.
  repeat (split; [reflexivity |]).
  split; [apply flush_emitter_last |].
  unfold emitted_code in Hat |- *.
  cbn [cbc set_stack set_lex] in Hat |- *. rewrite C1 in *.
  exists op, old. repeat split; assumption.
Qed.

(** ** The head of a for-in statement *)

Lemma bind_gets {A B : Type} (g : parser_context_t -> A) (f : A -> M B) c :
  bind (gets g) f c = f (g c) c.
Proof. reflexivity. Qed.

Lemma bind_modify {B : Type} (g : parser_context_t -> parser_context_t)
    (f : unit -> M B) c :
  bind (modify g) f c = f tt (g c).
Proof. reflexivity. Qed.

Lemma bind_raise_if_false {B : Type} (b : bool) e (f : unit -> M B) c :
  b = false -> bind (raise_if b e) f c = f tt c.
Proof. intros ->. reflexivity. Qed.

Lemma emitted_code_flush_emitter c :
  emitted_code (set_cbc c (flush_emitter (cbc c))) = emitted_code c.
Proof. unfold emitted_code. simpl. rewrite flush_emitter_idem. reflexivity. Qed.

(** C9.  Whenever [parser_parse_for_statement_start] returns, it has
    read the parenthesis and scanned the head up to a token [cs]; when
    this token is [in], it has compiled the object, created the for-in
    context and gone back to the start of the head, where the target is
    parsed from a context [ct].  When the target starts with [var] and
    the token after its identifier is [=] (the statement is
    [for (var ident = initializer in expr)]), an unconditional
    [CBC_JUMP_FORWARD] is the last instruction of the code when the
    initializer is handed to the expression parser, and after the
    initializer this branch is patched to the current position: if the
    initializer has added the instructions [init] to the code, the code
    is then the code from before the target, the jump with the
    displacement [1 + length init], and [init]; so the jump lands just
    past the initializer.  The code of the statement, when the function
    returns, starts with this code, and the frame of the for-in loop is
    pushed on the stack. *)
Theorem parser_parse_for_statement_start_var_initializer c c' :
  parser_parse_for_statement_start c = Done tt c' ->
  exists start_range cs,
    (lexer_next_token;;
     paren ← gets (fun c => token_is c LEXER_LEFT_PAREN);
     raise_if (negb paren) PARSER_ERR_LEFT_PAREN_EXPECTED;;
     parser_scan_until LEXER_KEYW_IN) c = Done start_range cs
    /\ (token_type cs = LEXER_KEYW_IN ->
        exists branch start_offset range ct,
          (lexer_next_token;;
           parser_parse_expression PARSE_EXPR;;
           paren ← gets (fun c => token_is c LEXER_RIGHT_PAREN);
           raise_if (negb paren) PARSER_ERR_RIGHT_PAREN_EXPECTED;;
           branch ← parser_emit_cbc_ext_forward_branch
                      CBC_EXT_FOR_IN_CREATE_CONTEXT;
           start_offset ← gets byte_code_size;
           source_end ← gets (fun c => source_end_p (lex c));
           range ← parser_save_range source_end;
           parser_set_range start_range;;
           lexer_next_token;;
           ret (branch, start_offset, range)) cs
          = Done (branch, start_offset, range) ct
          /\ stack c'
             = item_for_in (mk_for_in branch start_offset) (mk_loop None)
               :: stack c
          /\ (token_type ct = LEXER_KEYW_VAR ->
              exists ca,
                (lexer_expect_identifier LEXER_IDENT_LITERAL;;
                 literal_status_flags_or LEXER_FLAG_VAR;;
                 lexer_next_token) ct = Done tt ca
                /\ (token_type ca = LEXER_ASSIGN ->
                    exists cb c1 c2,
                      (parser_emit_cbc_forward_branch CBC_JUMP_FORWARD;;
                       lexer_next_token) ca = Done tt cb
                      /\ byte_code (cbc cb)
                         = emitted_code ct
                           ++ [cbc_forward_branch CBC_JUMP_FORWARD None]
                      /\ last_cbc_opcode (cbc cb) = PARSER_CBC_UNAVAILABLE
                      /\ parser_parse_expression
                           (Z.lor PARSE_EXPR_STATEMENT PARSE_EXPR_NO_COMMA) cb
                         = Done tt c1
                      /\ parser_set_branch_to_current_position
                           (mk_branch (Z.of_nat (length (emitted_code ct))))
                           c1
                         = Done tt c2
                      /\ (forall init,
                            Z.land (Z.of_nat (length (emitted_code ct)))
                                   CBC_HIGHEST_BIT_MASK = 0 ->
                            emitted_code c1 = byte_code (cbc cb) ++ init ->
                            byte_code (cbc c2)
                            = emitted_code ct
                              ++ [cbc_forward_branch CBC_JUMP_FORWARD
                                    (Some (1 + Z.of_nat (length init)))]
                              ++ init)
                      /\ exists more,
                           emitted_code c' = byte_code (cbc c2) ++ more))).
Proof.
  intros H. unfold parser_parse_for_statement_start in H.
  apply bind_done_inv in H as ([] & c1 & Hnext1 & H).
  run_step H. run_step H.
  apply bind_done_inv in H as (start_range & cs & Hscan & H).
  run_step H.
  exists start_range, cs.
  split.
  { rewrite (bind_done _ _ _ _ _ Hnext1), bind_gets.
    rewrite bind_raise_if_false by exact Hstep. exact Hscan. }
  intros Hin. unfold token_is in H.
  rewrite bool_decide_eq_true_2 in H by exact Hin.
  unfold parser_parse_for_in_statement_start in H.
  apply bind_done_inv in H as ([] & c2 & Hnext2 & H).
  apply bind_done_inv in H as ([] & c3 & Hobject & H).
  run_step H. run_step H.
  apply bind_done_inv in H as (branch & c4 & Hbranch & H).
  run_step H. run_step H. run_step H. run_step H.
  apply bind_done_inv in H as ([] & ct & Hnext3 & H).
  run_step H.
  apply bind_done_inv in H as ([] & cu & Htarget & H).
  run_step H. run_step H. run_step H. run_step H.
  apply bind_done_inv in H as ([] & c5 & Hnext4 & H).
  run_step H. apply modify_done_inv in H as ->.
  exists branch, (byte_code_size c4),
    (mk_range (source_p (lex c4)) (source_end_p (lex c4)) (line (lex c4))
              (column (lex c4))), ct.
  split.
  { rewrite (bind_done _ _ _ _ _ Hnext2), (bind_done _ _ _ _ _ Hobject).
    rewrite bind_gets, bind_raise_if_false by exact Hstep0.
    rewrite (bind_done _ _ _ _ _ Hbranch), !bind_gets.
    unfold parser_save_range at 1. rewrite bind_gets.
    unfold parser_set_range at 1. rewrite bind_modify.
    rewrite (bind_done _ _ _ _ _ Hnext3). reflexivity. }
  assert (Hcode : emitted_code c5 = emitted_code cu).
  { apply lexer_next_token_done in Hnext4 as (l5 & ->).
    apply emitted_code_flush_emitter. }
  split.
  { simpl. f_equal.
    apply lexer_next_token_done in Hnext4 as (l5 & ->). simpl.
    assert (Hcu : stack cu = stack ct).
    { destruct (token_is ct LEXER_KEYW_VAR).
      - exact (proj1 (keeps_done _ _ _ _ _
                        kept_parser_parse_for_in_var_target Htarget)).
      - exact (proj1 (keeps_done _ _ _ _ _
                        kept_parser_parse_for_in_expression_target Htarget)). }
    rewrite Hcu.
    apply lexer_next_token_done in Hnext3 as (l3 & ->). simpl.
    destruct (parser_emit_cbc_forward_branch_done
                CBC_EXT_FOR_IN_CREATE_CONTEXT c3)
      as (c4' & E & (_ & _ & S4 & _) & _).
    unfold parser_emit_cbc_ext_forward_branch in Hbranch.
    rewrite Hbranch in E. injection E as _ <-. rewrite S4.
    rewrite (proj1 (keeps_done _ _ _ _ _
                      (keeps_parser_parse_expression _) Hobject)).
    apply lexer_next_token_done in Hnext2 as (l2 & ->). simpl.
    rewrite (proj1 (parser_scan_until_done _ _ _ _ Hscan)).
    apply lexer_next_token_done in Hnext1 as (l1 & ->). reflexivity. }
  intros Hvar. unfold token_is in Htarget.
  rewrite bool_decide_eq_true_2 in Htarget by exact Hvar.
  destruct (parser_parse_for_in_var_target_done _ _ Htarget)
    as (ca & Hca & Hrest).
  exists ca. split; [exact Hca |].
  intros Hassign.
  destruct (Hrest Hassign)
    as (cb & ci & cp & Hcb & Hjump & Hlast & Hinit & Hpatch & Hpatched
        & more & Hmore).
  exists cb, ci, cp.
  split; [exact Hcb |]. split; [exact Hjump |]. split; [exact Hlast |].
  split; [exact Hinit |]. split; [exact Hpatch |].
  split; [exact Hpatched |].
  exists more. unfold emitted_code at 1. simpl.
  fold (emitted_code c5). rewrite Hcode. exact Hmore.
Qed.

(** ** The strict flag *)

Lemma strict_kept_refl c : strict_kept c c.
Proof. reflexivity. Qed.

Lemma strict_kept_trans c1 c2 c3 :
  strict_kept c1 c2 -> strict_kept c2 c3 -> strict_kept c1 c3.
Proof. unfold strict_kept. congruence. Qed.

Lemma keeps_weaken {A : Type} (R R' : relation parser_context_t) (m : M A) :
  (forall c c', R c c' -> R' c c') -> keeps R m -> keeps R' m.
Proof.
  intros HR Hm c. specialize (Hm c).
  destruct (m c); [apply HR, Hm | apply HR, Hm | exact Logic.I].
Qed.

(** *** The loop over the directive prologue *)

(** The flags after the loop over the directive prologue:
    [PARSER_IS_STRICT] is set when one of the directives that the loop
    has gone through is ["use strict"], and nothing else changes. *)
Lemma parser_parse_directive_prologue_flags n :
  forall c,
    match parser_parse_directive_prologue n c with
    | Done _ c' | Raise _ c' =>
        status_flags c'
        = if existsb is_use_strict (prologue_directives n c)
          then Z.lor (status_flags c) PARSER_IS_STRICT
          else status_flags c
    | Fault f => f = out_of_fuel
    end.
Proof.
  induction n as [| n IH]; intros c; [reflexivity |].
  simpl. unfold bind at 1, gets at 1.
  destruct (token_is_literal c LEXER_STRING_LITERAL); [| reflexivity].
  unfold bind at 1.
  destruct (lexer_next_token c) as [[] c1 | e c1 | f] eqn:Hnext.
  - destruct (directive_is_expression c1) eqn:Hexpr.
    + pose proof (parser_parse_directive_expression c c1 Hnext Hexpr) as H.
      destruct (parser_parse_directive c) as [again c' | e c' | f];
        [| exact H | destruct H].
      destruct H as [-> H]. exact H.
    + pose proof (parser_parse_directive_flags c c1 Hnext Hexpr) as H.
      destruct (parser_parse_directive c) as [again c' | e c' | f];
        [| | destruct H].
      * destruct again.
        -- specialize (IH c'). simpl existsb.
           destruct (parser_parse_directive_prologue n c')
             as [[] c2 | e c2 | f]; [| | exact IH];
             rewrite IH, H;
             destruct (is_use_strict (tok_lit_location (token (lex c))));
             destruct (existsb is_use_strict (prologue_directives n c'));
             simpl; try reflexivity;
             rewrite <- Z.lor_assoc, Z.lor_diag; reflexivity.
        -- simpl. rewrite orb_false_r. exact H.
      * simpl. rewrite orb_false_r. exact H.
  - unfold parser_parse_directive, bind at 1, gets at 1.
    rewrite (bind_raise _ _ _ _ _ Hnext).
    unfold lexer_next_token, lift_lexer in Hnext.
    destruct (ext_next_token _ _); [discriminate Hnext |].
    injection Hnext as _ <-. reflexivity.
  - unfold parser_parse_directive, bind at 1, gets at 1.
    unfold bind at 1. rewrite Hnext.
    unfold lexer_next_token, lift_lexer in Hnext.
    destruct (ext_next_token _ _); discriminate Hnext.
Qed.

(** *** The statements after the prologue *)

Section strict_flag.

Hypothesis expression_keeps : expression_parser_keeps PARSER_IS_STRICT.
Hypothesis function_keeps : function_object_keeps PARSER_IS_STRICT.
Hypothesis in_width_apart : Z.land PARSER_IN_WIDTH PARSER_IS_STRICT = 0.

Lemma strict_parser_parse_expression options :
  keeps strict_kept (parser_parse_expression options).
Proof.
  intros c. unfold parser_parse_expression.
  destruct (ext_parse_expression _ _ _ _) as [[[f l] e] | e] eqn:E;
    [| reflexivity].
  exact (expression_keeps _ _ _ _ _ _ _ E).
Qed.

Lemma strict_lexer_construct_function_object index flags :
  keeps strict_kept (lexer_construct_function_object index flags).
Proof.
  intros c. unfold lexer_construct_function_object.
  destruct (ext_construct_function_object _ _ _ _) as [[f l] | e] eqn:E;
    [| reflexivity].
  exact (function_keeps _ _ _ _ _ _ E).
Qed.

Lemma strict_set_in_width :
  keeps strict_kept
    (modify (fun c =>
       set_status_flags c (Z.lor (status_flags c) PARSER_IN_WIDTH))).
Proof.
  intros c. unfold strict_kept. simpl.
  rewrite Z.land_lor_distr_l, in_width_apart, Z.lor_0_r. reflexivity.
Qed.

Lemma strict_clear_in_width :
  keeps strict_kept
    (modify (fun c =>
       set_status_flags c
         (Z.land (status_flags c) (Z.lnot PARSER_IN_WIDTH)))).
Proof.
  intros c. unfold strict_kept. simpl.
  apply Z.bits_inj'. intros n Hn.
  rewrite !Z.land_spec, Z.lnot_spec by exact Hn.
  assert (H : Z.testbit (Z.land PARSER_IN_WIDTH PARSER_IS_STRICT) n = false)
    by (rewrite in_width_apart; apply Z.bits_0).
  rewrite Z.land_spec in H.
  destruct (Z.testbit (status_flags c) n),
    (Z.testbit PARSER_IN_WIDTH n), (Z.testbit PARSER_IS_STRICT n);
    simpl in *; congruence.
Qed.

(** An action written out on the context that leaves the flags
    alone. *)
Ltac strict_raw :=
  let c := fresh "c" in
  intros c;
  repeat match goal with
         | |- context [match ?x with _ => _ end] =>
             lazymatch x with
             | context [match _ with _ => _ end] => fail
             | _ => destruct x
             end
         end;
  first [exact Logic.I | reflexivity].

Lemma strict_lift_lexer f : keeps strict_kept (lift_lexer f).
Proof. unfold lift_lexer. strict_raw. Qed.

Lemma strict_parser_stack_pop_uint8 : keeps strict_kept parser_stack_pop_uint8.
Proof. unfold parser_stack_pop_uint8. strict_raw. Qed.

Lemma strict_parser_stack_pop_statement :
  keeps strict_kept parser_stack_pop_statement.
Proof. unfold parser_stack_pop_statement. strict_raw. Qed.

Lemma strict_parser_stack_iterator_read iterator :
  keeps strict_kept (parser_stack_iterator_read iterator).
Proof. unfold parser_stack_iterator_read. strict_raw. Qed.

Lemma strict_parser_stack_iterator_write iterator i :
  keeps strict_kept (parser_stack_iterator_write iterator i).
Proof. unfold parser_stack_iterator_write. strict_raw. Qed.

Lemma strict_parser_stack_change_last_uint8 b :
  keeps strict_kept (parser_stack_change_last_uint8 b).
Proof. unfold parser_stack_change_last_uint8. strict_raw. Qed.

Lemma strict_parser_malloc n : keeps strict_kept (parser_malloc n).
Proof. intros c. reflexivity. Qed.

Lemma strict_parser_free p : keeps strict_kept (parser_free p).
Proof. unfold parser_free. strict_raw. Qed.

Lemma strict_node_read p : keeps strict_kept (node_read p).
Proof. unfold node_read. strict_raw. Qed.

Lemma strict_node_write p n : keeps strict_kept (node_write p n).
Proof. unfold node_write. strict_raw. Qed.

Lemma strict_patch_forward_branch branch :
  keeps strict_kept (patch_forward_branch branch).
Proof. unfold patch_forward_branch. strict_raw. Qed.

Lemma strict_literal_status_flags_or flags :
  keeps strict_kept (literal_status_flags_or flags).
Proof. unfold literal_status_flags_or. strict_raw. Qed.

Lemma strict_parser_scan_until end_type :
  keeps strict_kept (parser_scan_until end_type).
Proof.
  apply (keeps_weaken scanner_only); [| apply scanner_only_until].
  intros c c' (_ & H & _). unfold strict_kept. rewrite H. reflexivity.
Qed.

Lemma strict_lexer_next_token : keeps strict_kept lexer_next_token.
Proof. apply strict_lift_lexer. Qed.

Lemma strict_lexer_expect_identifier t :
  keeps strict_kept (lexer_expect_identifier t).
Proof. apply strict_lift_lexer. Qed.

Lemma strict_lexer_scan_identifier b :
  keeps strict_kept (lexer_scan_identifier b).
Proof. apply strict_lift_lexer. Qed.

Lemma strict_lexer_construct_regexp_object b :
  keeps strict_kept (lexer_construct_regexp_object b).
Proof. apply strict_lift_lexer. Qed.

Lemma strict_lexer_construct_literal_object lit_location t :
  keeps strict_kept (lexer_construct_literal_object lit_location t).
Proof. apply strict_lift_lexer. Qed.

Create HintDb strict_flag discriminated.

#[local] Hint Resolve strict_parser_parse_expression
  strict_lexer_construct_function_object strict_lift_lexer
  strict_lexer_next_token strict_lexer_expect_identifier
  strict_lexer_scan_identifier strict_lexer_construct_regexp_object
  strict_lexer_construct_literal_object strict_parser_stack_pop_uint8
  strict_parser_stack_pop_statement strict_parser_stack_iterator_read
  strict_parser_stack_iterator_write strict_parser_stack_change_last_uint8
  strict_parser_malloc strict_parser_free strict_node_read strict_node_write
  strict_patch_forward_branch strict_literal_status_flags_or
  strict_parser_scan_until : strict_flag.

(** The head of an application. *)
Ltac head_of t :=
  lazymatch t with
  | ?f _ => head_of f
  | _ => t
  end.

(** The steps of a proof that an action keeps the strict flag: by the
    shape of the action; an action that has a name is looked up among
    the lemmas or unfolded. *)
Ltac strict_step :=
  lazymatch goal with
  | |- keeps _ (bind _ _) =>
      apply (keeps_bind _ strict_kept_trans); [| intros ?]
  | |- keeps _ (gets _) => apply (keeps_gets _ strict_kept_refl)
  | |- keeps _ (ret _) => apply (keeps_ret _ strict_kept_refl)
  | |- keeps _ (raise_if _ _) => apply (keeps_raise_if _ strict_kept_refl)
  | |- keeps _ (parser_raise_error _) =>
      apply (keeps_raise _ strict_kept_refl)
  | |- keeps _ (fault _) => apply keeps_fault
  | |- keeps _ (when _ _) => apply (keeps_when _ strict_kept_refl)
  | |- keeps _ (if ?x then _ else _) => first [apply keeps_if | destruct x]
  | |- keeps _ (match ?x with _ => _ end) => destruct x
  | |- keeps _ (modify _) =>
      first
        [ apply strict_set_in_width
        | apply strict_clear_in_width
        | apply (keeps_modify strict_kept); intros ?; reflexivity ]
  | |- keeps _ ?m =>
      first
        [ solve [auto 1 with strict_flag nocore]
        | let h := head_of m in progress unfold h ]
  end.

Ltac strict := repeat strict_step.

Lemma strict_parser_set_branch_to_current_position branch :
  keeps strict_kept (parser_set_branch_to_current_position branch).
Proof. unfold parser_set_branch_to_current_position. strict. Qed.

#[local] Hint Resolve strict_parser_set_branch_to_current_position
  : strict_flag.

Lemma strict_set_breaks_loop n :
  forall p, keeps strict_kept (set_breaks_loop n p).
Proof.
  induction n as [| n IH]; intros [p |]; simpl;
    try apply keeps_fault;
    try (apply (keeps_ret _ strict_kept_refl)).
  repeat first [apply IH | strict_step].
Qed.

Lemma strict_parser_set_breaks_to_current_position p :
  keeps strict_kept (parser_set_breaks_to_current_position p).
Proof.
  intros c. unfold parser_set_breaks_to_current_position.
  apply strict_set_breaks_loop.
Qed.

Lemma strict_set_continues_loop n :
  forall p, keeps strict_kept (set_continues_loop n p).
Proof.
  induction n as [| n IH]; intros [p |]; simpl;
    try apply keeps_fault;
    try (apply (keeps_ret _ strict_kept_refl)).
  repeat first [apply IH | strict_step].
Qed.

Lemma strict_parser_set_continues_to_current_position p :
  keeps strict_kept (parser_set_continues_to_current_position p).
Proof.
  intros c. unfold parser_set_continues_to_current_position.
  apply strict_set_continues_loop.
Qed.

#[local] Hint Resolve strict_parser_set_breaks_to_current_position
  strict_parser_set_continues_to_current_position : strict_flag.

Lemma strict_parser_parse_var_loop n :
  keeps strict_kept (parser_parse_var_loop n).
Proof.
  induction n as [| n IH]; simpl; [apply keeps_fault |].
  repeat first [exact IH | strict_step].
Qed.

#[local] Hint Resolve strict_parser_parse_var_loop : strict_flag.

Lemma strict_parser_parse_enclosed_expr :
  keeps strict_kept parser_parse_enclosed_expr.
Proof. unfold parser_parse_enclosed_expr. strict. Qed.

#[local] Hint Resolve strict_parser_parse_enclosed_expr : strict_flag.

Lemma strict_parser_emit_cbc_forward_branch op :
  keeps strict_kept (parser_emit_cbc_forward_branch op).
Proof. unfold parser_emit_cbc_forward_branch. strict. Qed.

#[local] Hint Resolve strict_parser_emit_cbc_forward_branch : strict_flag.

Lemma strict_parser_emit_cbc_forward_branch_item op next_p :
  keeps strict_kept (parser_emit_cbc_forward_branch_item op next_p).
Proof. unfold parser_emit_cbc_forward_branch_item. strict. Qed.

#[local] Hint Resolve strict_parser_emit_cbc_forward_branch_item : strict_flag.

Lemma strict_parser_emit_cbc_backward_branch op target :
  keeps strict_kept (parser_emit_cbc_backward_branch op target).
Proof. unfold parser_emit_cbc_backward_branch. strict. Qed.

#[local] Hint Resolve strict_parser_emit_cbc_backward_branch : strict_flag.

Lemma strict_backward_branch_opcode :
  keeps strict_kept backward_branch_opcode.
Proof. unfold backward_branch_opcode. strict. Qed.

#[local] Hint Resolve strict_backward_branch_opcode : strict_flag.

Lemma strict_parser_parse_var_statement :
  keeps strict_kept parser_parse_var_statement.
Proof. unfold parser_parse_var_statement. strict. Qed.

#[local] Hint Resolve strict_parser_parse_var_statement : strict_flag.

Lemma strict_parser_parse_function_statement :
  keeps strict_kept parser_parse_function_statement.
Proof. unfold parser_parse_function_statement. strict. Qed.

#[local] Hint Resolve strict_parser_parse_function_statement : strict_flag.

Lemma strict_parser_parse_if_statement_start :
  keeps strict_kept parser_parse_if_statement_start.
Proof. unfold parser_parse_if_statement_start. strict. Qed.

#[local] Hint Resolve strict_parser_parse_if_statement_start : strict_flag.

Lemma strict_parser_parse_if_statement_end :
  keeps strict_kept parser_parse_if_statement_end.
Proof. unfold parser_parse_if_statement_end. strict. Qed.

#[local] Hint Resolve strict_parser_parse_if_statement_end : strict_flag.

Lemma strict_parser_parse_with_statement_start :
  keeps strict_kept parser_parse_with_statement_start.
Proof. unfold parser_parse_with_statement_start. strict. Qed.

#[local] Hint Resolve strict_parser_parse_with_statement_start : strict_flag.

Lemma strict_parser_parse_with_statement_end :
  keeps strict_kept parser_parse_with_statement_end.
Proof. unfold parser_parse_with_statement_end. strict. Qed.

#[local] Hint Resolve strict_parser_parse_with_statement_end : strict_flag.

Lemma strict_parser_parse_do_while_statement_end :
  keeps strict_kept parser_parse_do_while_statement_end.
Proof. unfold parser_parse_do_while_statement_end. strict. Qed.

#[local] Hint Resolve strict_parser_parse_do_while_statement_end : strict_flag.

Lemma strict_parser_parse_while_statement_start :
  keeps strict_kept parser_parse_while_statement_start.
Proof. unfold parser_parse_while_statement_start. strict. Qed.

#[local] Hint Resolve strict_parser_parse_while_statement_start : strict_flag.

Lemma strict_parser_parse_while_statement_end :
  keeps strict_kept parser_parse_while_statement_end.
Proof. unfold parser_parse_while_statement_end. strict. Qed.

#[local] Hint Resolve strict_parser_parse_while_statement_end : strict_flag.

Lemma strict_parser_parse_for_in_var_target :
  keeps strict_kept parser_parse_for_in_var_target.
Proof. unfold parser_parse_for_in_var_target. strict. Qed.

#[local] Hint Resolve strict_parser_parse_for_in_var_target : strict_flag.

Lemma strict_parser_parse_for_in_expression_target :
  keeps strict_kept parser_parse_for_in_expression_target.
Proof. unfold parser_parse_for_in_expression_target. strict. Qed.

#[local] Hint Resolve strict_parser_parse_for_in_expression_target : strict_flag.

Lemma strict_parser_parse_for_in_statement_start start_range :
  keeps strict_kept (parser_parse_for_in_statement_start start_range).
Proof. unfold parser_parse_for_in_statement_start. strict. Qed.

#[local] Hint Resolve strict_parser_parse_for_in_statement_start : strict_flag.

Lemma strict_parser_parse_classic_for_statement_start start_range :
  keeps strict_kept (parser_parse_classic_for_statement_start start_range).
Proof. unfold parser_parse_classic_for_statement_start. strict. Qed.

#[local] Hint Resolve strict_parser_parse_classic_for_statement_start : strict_flag.

Lemma strict_parser_parse_for_statement_start :
  keeps strict_kept parser_parse_for_statement_start.
Proof. unfold parser_parse_for_statement_start. strict. Qed.

#[local] Hint Resolve strict_parser_parse_for_statement_start : strict_flag.

Lemma strict_parser_parse_for_statement_end :
  keeps strict_kept parser_parse_for_statement_end.
Proof. unfold parser_parse_for_statement_end. strict. Qed.

#[local] Hint Resolve strict_parser_parse_for_statement_end : strict_flag.

Lemma strict_write_switch_statement iterator sw :
  keeps strict_kept (write_switch_statement iterator sw).
Proof. unfold write_switch_statement. strict. Qed.

#[local] Hint Resolve strict_write_switch_statement : strict_flag.

Lemma strict_read_switch_statement iterator :
  keeps strict_kept (read_switch_statement iterator).
Proof. unfold read_switch_statement. strict. Qed.

#[local] Hint Resolve strict_read_switch_statement : strict_flag.

Lemma strict_parser_switch_emit_case iterator st :
  keeps strict_kept (parser_switch_emit_case iterator st).
Proof. unfold parser_switch_emit_case. strict. Qed.

#[local] Hint Resolve strict_parser_switch_emit_case : strict_flag.

Lemma strict_parser_switch_scan_loop n :
  forall iterator st,
    keeps strict_kept (parser_switch_scan_loop n iterator st).
Proof.
  induction n as [| n IH]; intros iterator st; simpl;
    [apply keeps_fault |].
  repeat first [apply IH | strict_step].
Qed.

#[local] Hint Resolve strict_parser_switch_scan_loop : strict_flag.

Lemma strict_parser_parse_switch_statement_start :
  keeps strict_kept parser_parse_switch_statement_start.
Proof. unfold parser_parse_switch_statement_start. strict. Qed.

#[local] Hint Resolve strict_parser_parse_switch_statement_start : strict_flag.

Lemma strict_parser_try_context_end :
  keeps strict_kept parser_try_context_end.
Proof. unfold parser_try_context_end. strict. Qed.

#[local] Hint Resolve strict_parser_try_context_end : strict_flag.

Lemma strict_parser_parse_catch_clause :
  keeps strict_kept parser_parse_catch_clause.
Proof. unfold parser_parse_catch_clause. strict. Qed.

#[local] Hint Resolve strict_parser_parse_catch_clause : strict_flag.

Lemma strict_parser_parse_finally_clause :
  keeps strict_kept parser_parse_finally_clause.
Proof. unfold parser_parse_finally_clause. strict. Qed.

#[local] Hint Resolve strict_parser_parse_finally_clause : strict_flag.

Lemma strict_parser_try_block_end try_statement :
  keeps strict_kept (parser_try_block_end try_statement).
Proof. unfold parser_try_block_end. strict. Qed.

#[local] Hint Resolve strict_parser_try_block_end : strict_flag.

Lemma strict_parser_parse_try_statement_end :
  keeps strict_kept parser_parse_try_statement_end.
Proof. unfold parser_parse_try_statement_end. strict. Qed.

#[local] Hint Resolve strict_parser_parse_try_statement_end : strict_flag.

Lemma strict_parser_parse_default_statement :
  keeps strict_kept parser_parse_default_statement.
Proof. unfold parser_parse_default_statement. strict. Qed.

#[local] Hint Resolve strict_parser_parse_default_statement : strict_flag.

Lemma strict_parser_parse_case_statement :
  keeps strict_kept parser_parse_case_statement.
Proof. unfold parser_parse_case_statement. strict. Qed.

#[local] Hint Resolve strict_parser_parse_case_statement : strict_flag.

Lemma strict_mark_continue p : keeps strict_kept (mark_continue p).
Proof. unfold mark_continue. destruct p; strict. Qed.

#[local] Hint Resolve strict_mark_continue : strict_flag.

Lemma strict_file_branch_into_loop iterator branch is_continue :
  keeps strict_kept (file_branch_into_loop iterator branch is_continue).
Proof. unfold file_branch_into_loop. strict. Qed.

#[local] Hint Resolve strict_file_branch_into_loop : strict_flag.

Lemma strict_file_branch_into_label iterator branch :
  keeps strict_kept (file_branch_into_label iterator branch).
Proof. unfold file_branch_into_label. strict. Qed.

#[local] Hint Resolve strict_file_branch_into_label : strict_flag.

Lemma strict_parser_parse_break_statement :
  keeps strict_kept parser_parse_break_statement.
Proof. unfold parser_parse_break_statement. strict. Qed.

#[local] Hint Resolve strict_parser_parse_break_statement : strict_flag.

Lemma strict_parser_parse_continue_statement :
  keeps strict_kept parser_parse_continue_statement.
Proof. unfold parser_parse_continue_statement. strict. Qed.

#[local] Hint Resolve strict_parser_parse_continue_statement : strict_flag.

Lemma strict_parser_parse_label label_literal :
  keeps strict_kept (parser_parse_label label_literal).
Proof. unfold parser_parse_label. strict. Qed.

#[local] Hint Resolve strict_parser_parse_label : strict_flag.

Lemma strict_parser_parse_expression_statement :
  keeps strict_kept parser_parse_expression_statement.
Proof. unfold parser_parse_expression_statement. strict. Qed.

#[local] Hint Resolve strict_parser_parse_expression_statement : strict_flag.

Lemma strict_parser_parse_literal_statement :
  keeps strict_kept parser_parse_literal_statement.
Proof. unfold parser_parse_literal_statement. strict. Qed.

#[local] Hint Resolve strict_parser_parse_literal_statement : strict_flag.

Lemma strict_parser_parse_statement :
  keeps strict_kept parser_parse_statement.
Proof. unfold parser_parse_statement. strict. Qed.

#[local] Hint Resolve strict_parser_parse_statement : strict_flag.

Lemma strict_parser_parse_switch_statement_end has_default switch_statement loop :
  keeps strict_kept (parser_parse_switch_statement_end has_default switch_statement loop).
Proof. unfold parser_parse_switch_statement_end. strict. Qed.

#[local] Hint Resolve strict_parser_parse_switch_statement_end : strict_flag.

Lemma strict_parser_parse_right_brace_uint8 b :
  keeps strict_kept (parser_parse_right_brace_uint8 b).
Proof. unfold parser_parse_right_brace_uint8. strict. Qed.

#[local] Hint Resolve strict_parser_parse_right_brace_uint8 : strict_flag.

Lemma strict_parser_parse_right_brace :
  keeps strict_kept parser_parse_right_brace.
Proof. unfold parser_parse_right_brace. strict. Qed.

#[local] Hint Resolve strict_parser_parse_right_brace : strict_flag.

Lemma strict_parser_parse_statement_terminator :
  keeps strict_kept parser_parse_statement_terminator.
Proof. unfold parser_parse_statement_terminator. strict. Qed.

#[local] Hint Resolve strict_parser_parse_statement_terminator : strict_flag.

Lemma strict_parser_parse_for_in_statement_end for_in_statement loop :
  keeps strict_kept (parser_parse_for_in_statement_end for_in_statement loop).
Proof. unfold parser_parse_for_in_statement_end. strict. Qed.

#[local] Hint Resolve strict_parser_parse_for_in_statement_end : strict_flag.

Lemma strict_parser_close_statement :
  keeps strict_kept parser_close_statement.
Proof. unfold parser_close_statement. strict. Qed.

#[local] Hint Resolve strict_parser_close_statement : strict_flag.

Lemma strict_parser_terminator_loop n :
  forall required, keeps strict_kept (parser_terminator_loop n required).
Proof.
  induction n as [| n IH]; intros required; simpl; [apply keeps_fault |].
  repeat first [apply IH | strict_step].
Qed.

#[local] Hint Resolve strict_parser_terminator_loop : strict_flag.

Lemma strict_parser_statements_loop n :
  keeps strict_kept (parser_statements_loop n).
Proof.
  induction n as [| n IH]; simpl; [apply keeps_fault |].
  repeat first [exact IH | strict_step].
Qed.

#[local] Hint Resolve strict_parser_statements_loop : strict_flag.

Lemma strict_parser_parse_statements_body :
  keeps strict_kept parser_parse_statements_body.
Proof. unfold parser_parse_statements_body. strict. Qed.

End strict_flag.

Lemma land_lor_same f s : Z.land (Z.lor f s) s = s.
Proof.
  apply Z.bits_inj'. intros n Hn.
  rewrite Z.land_spec, Z.lor_spec.
  destruct (Z.testbit f n), (Z.testbit s n); reflexivity.
Qed.

(** The strict flag after [parser_parse_statements]. *)
Lemma parser_parse_statements_strict :
  expression_parser_keeps PARSER_IS_STRICT ->
  function_object_keeps PARSER_IS_STRICT ->
  Z.land PARSER_IN_WIDTH PARSER_IS_STRICT = 0 ->
  forall c,
    match parser_parse_statements c with
    | Done _ c' | Raise _ c' =>
        Z.land (status_flags c') PARSER_IS_STRICT
        = if existsb is_use_strict
               (prologue_directives fuel (statements_entered c))
          then PARSER_IS_STRICT
          else Z.land (status_flags c) PARSER_IS_STRICT
    | Fault _ => True
    end.
Proof.
  intros Hexpr Hfun Hwidth c.
  unfold parser_parse_statements.
  unfold parser_stack_push_uint8 at 1. rewrite bind_modify.
  unfold parser_stack_iterator_init_last_statement at 1.
  rewrite bind_modify.
  fold (statements_entered c).
  pose proof (parser_parse_directive_prologue_flags fuel
                (statements_entered c)) as Hprologue.
  change (status_flags (statements_entered c)) with (status_flags c)
    in Hprologue.
  assert (Hflags : forall c1,
            status_flags c1
            = (if existsb is_use_strict
                    (prologue_directives fuel (statements_entered c))
               then Z.lor (status_flags c) PARSER_IS_STRICT
               else status_flags c) ->
            Z.land (status_flags c1) PARSER_IS_STRICT
            = if existsb is_use_strict
                   (prologue_directives fuel (statements_entered c))
              then PARSER_IS_STRICT
              else Z.land (status_flags c) PARSER_IS_STRICT).
  { intros c1 ->. destruct (existsb _ _); [apply land_lor_same | reflexivity]. }
  unfold bind at 1.
  destruct (parser_parse_directive_prologue fuel (statements_entered c))
    as [[] c1 | e c1 | f]; [| exact (Hflags _ Hprologue) | exact Logic.I].
  apply Hflags in Hprologue.
  assert (Hrest : keeps strict_kept
            (conflict ← gets (fun c =>
               has_flag (status_flags c) PARSER_IS_STRICT
               && has_flag (status_flags c) PARSER_HAS_NON_STRICT_ARG);
             raise_if conflict PARSER_ERR_NON_STRICT_ARG_DEFINITION;;
             parser_parse_statements_body)).
  { repeat first
      [ apply (strict_parser_parse_statements_body Hexpr Hfun Hwidth)
      | keeps_step strict_kept_refl strict_kept_trans ]. }
  specialize (Hrest c1). unfold strict_kept in Hrest.
  match goal with
  | |- match ?o with _ => _ end =>
      destruct o as [[] c2 | e c2 | f]; [| | exact Logic.I];
      rewrite Hrest; exact Hprologue
  end.
Qed.


(** ** Where the jumps of a loop go *)

Lemma continue_patched_kept code code' len m :
  patched_to len code code' ->
  continue_patched code len m -> continue_patched code' len m.
Proof.
  intros Hp Hc Hm. destruct (Hc Hm) as (Hz & op & Hop).
  split; [exact Hz |]. exists op.
  set (site := Z.ldiff _ _) in *.
  rewrite <- (Z2Nat.id site) at 2 by exact Hz.
  eapply patched_to_keeps_patch; [exact Hp |].
  rewrite Z2Nat.id by exact Hz. exact Hop.
Qed.

(** What [parser_set_continues_to_current_position] does to a list:
    every continue of the list is patched to the end of the code. *)
Lemma set_continues_loop_patched n :
  forall list_p c u c',
    set_continues_loop n list_p c = Done u c' ->
    forall q m,
      in_branch_list (branch_nodes c) list_p q m ->
      continue_patched (emitted_code c')
                       (Z.of_nat (length (emitted_code c))) m.
Proof.
  induction n as [| n IH]; intros list_p c u c' H q m Hin.
  - destruct list_p as [p |]; simpl in H; [discriminate |].
    destruct (in_branch_list_null _ _ _ Hin).
  - destruct list_p as [p |]; simpl in H;
      [| destruct (in_branch_list_null _ _ _ Hin)].
    apply bind_done_inv in H as (nd & c1 & Hread & H).
    apply node_read_done in Hread as [-> Hnd].
    apply bind_done_inv in H as ([] & c2 & Hpatch & H).
    pose proof (set_continues_loop_spec _ _ _ _ _ H) as (_ & Hrest & _).
    assert (Hc2 :
      branch_nodes c2 = branch_nodes c
      /\ patched_to_end (emitted_code c) (emitted_code c2)
      /\ continue_patched (emitted_code c2)
           (Z.of_nat (length (emitted_code c))) nd).
    { unfold when in Hpatch.
      destruct (Z.land _ _ =? 0) eqn:Em; simpl in Hpatch.
      - apply ret_done_inv in Hpatch as [_ <-].
        split; [reflexivity |]. split; [apply patched_to_refl |].
        intros Hm. apply Z.eqb_eq in Em. contradiction.
      - apply parser_set_branch_to_current_position_spec in Hpatch
          as ((_ & _ & _ & _ & P5) & Plast & Pp & Psite & Pop).
        rewrite (emitted_code_unavailable c2) by exact Plast.
        split; [exact P5 |]. split; [exact Pp |].
        intros _. split; [exact Psite | exact Pop]. }
    destruct Hc2 as (N2 & Hp2 & Hnd2).
    assert (Hlen : length (emitted_code c2) = length (emitted_code c))
      by (apply (patched_to_length _ _ _ Hp2)).
    unfold patched_to_end in Hrest. rewrite Hlen in Hrest.
    inversion Hin as [p' n' Hn' | p' n' q' m' Hn' Htail]; subst;
      rewrite Hnd in Hn'; injection Hn' as <-.
    + exact (continue_patched_kept _ _ _ _ Hrest Hnd2).
    + rewrite <- N2 in Htail.
      pose proof (IH _ _ _ _ H q m Htail) as Hq.
      rewrite Hlen in Hq. exact Hq.
Qed.

Lemma parser_set_continues_to_current_position_done list_p c c0 :
  parser_set_continues_to_current_position list_p c = Done tt c0 ->
  emitter_only c c0
  /\ length (emitted_code c0) = length (emitted_code c)
  /\ forall q m,
       in_branch_list (branch_nodes c) list_p q m ->
       continue_patched (emitted_code c0)
                        (Z.of_nat (length (emitted_code c))) m.
Proof.
  intros H. unfold parser_set_continues_to_current_position in H.
  pose proof (set_continues_loop_spec _ _ _ _ _ H) as (Honly & Hp & _).
  split; [exact Honly |].
  split; [exact (patched_to_length _ _ _ Hp) |].
  exact (set_continues_loop_patched _ _ _ _ _ H).
Qed.

(** The run of [parser_parse_while_statement_end], stage by stage. *)
Lemma parser_parse_while_statement_end_run c c' :
  parser_parse_while_statement_end c = Done tt c' ->
  exists while_statement loop rest ca c0 c1 c2,
    stack c = item_while while_statement loop :: rest
    /\ parser_set_branch_to_current_position
         (while_branch while_statement)
         (set_last_statement (set_stack c rest) (Some (length rest)))
       = Done tt ca
    /\ parser_set_continues_to_current_position (loop_branch_list_p loop) ca
       = Done tt c0
    /\ emitted_code c1 = emitted_code c0
    /\ branch_nodes c1 = branch_nodes c0
    /\ (exists cn, parser_parse_expression PARSE_EXPR c1 = Done tt cn
                   /\ branch_nodes cn = branch_nodes c0
                   /\ parser_emit_cbc_backward_branch
                        (select_backward_branch (last_cbc_opcode (cbc cn)))
                        (while_start_offset while_statement)
                        (set_cbc cn (fold_condition (cbc cn)))
                      = Done tt c2)
    /\ exists cb,
         parser_set_breaks_to_current_position (loop_branch_list_p loop) c2
         = Done tt cb
         /\ cbc c' = cbc cb /\ branch_nodes c' = branch_nodes cb.
Proof.
  intros H. unfold parser_parse_while_statement_end in H.
  apply bind_done_inv in H as (i & cp & Hpop & H).
  apply parser_stack_pop_statement_done in Hpop as (rest & Hstack & ->).
  destruct i; try discriminate H.
  run_step H. run_step H. run_step H. run_step H.
  apply bind_done_inv in H as ([] & ca & Hbranch & H).
  apply bind_done_inv in H as ([] & c0 & Hcont & H).
  run_step H.
  apply bind_done_inv in H as ([] & c1 & Hnext & H).
  apply bind_done_inv in H as ([] & cn & Hcond & H).
  run_step H. run_step H.
  apply bind_done_inv in H as (op & cf & Hop & H).
  rewrite backward_branch_opcode_done in Hop. injection Hop as <- <-.
  apply bind_done_inv in H as ([] & c2 & Hemit & H).
  apply bind_done_inv in H as ([] & cb & Hbreaks & H).
  run_step H. apply modify_done_inv in H as ->.
  apply lexer_next_token_done in Hnext as (l1 & ->).
  match type of Hcond with
  | parser_parse_expression _ ?x = _ => exists s, l, rest, ca, c0, x, c2
  end.
  split; [exact Hstack |]. split; [exact Hbranch |].
  split; [exact Hcont |]. split; [reflexivity |]. split; [reflexivity |].
  split.
  - exists cn. split; [exact Hcond |]. split; [| exact Hemit].
    exact (proj2 (proj2 (keeps_done _ _ _ _ _
                           (keeps_parser_parse_expression _) Hcond))).
  - exists cb. split; [exact Hbreaks |]. split; reflexivity.
Qed.

Lemma parser_parse_while_statement_end_links c c' :
  parser_parse_while_statement_end c = Done tt c' ->
  exists while_statement loop rest c1 cn,
    stack c = item_while while_statement loop :: rest
    /\ parser_parse_expression PARSE_EXPR c1 = Done tt cn
    /\ length (emitted_code c1) = length (emitted_code c)
    /\ forall q m,
         in_branch_list (branch_nodes c) (loop_branch_list_p loop) q m ->
         continue_patched (emitted_code c1)
                          (Z.of_nat (length (emitted_code c))) m
         /\ break_patched (byte_code (cbc c'))
                          (Z.of_nat (length (byte_code (cbc c')))) m
         /\ node_at (branch_nodes c') q = None.
Proof.
  intros H.
  apply parser_parse_while_statement_end_run in H
    as (ws & loop & rest & ca & c0 & c1 & c2 & Hstack & Hbranch & Hcont
        & Hcode1 & Hnodes1 & (cn & Hcond & Hnodesn & Hemit)
        & cb & Hbreaks & Hcbc & Hnodes).
  pose proof (parser_set_branch_to_current_position_spec _ _ _ _ Hbranch)
    as ((_ & _ & _ & _ & Na) & _ & Pa & _).
  pose proof (patched_to_length _ _ _ Pa) as Hlena.
  change (emitted_code (set_last_statement (set_stack c rest) _))
    with (emitted_code c) in Hlena.
  rewrite <- (emitted_code_unavailable ca) in Hlena
    by (apply (parser_set_branch_to_current_position_spec _ _ _ _ Hbranch)).
  simpl in Na.
  apply parser_set_continues_to_current_position_done in Hcont
    as ((_ & _ & _ & _ & N0) & Hlen0 & Hcontinues).
  destruct (loop_close_done _ _ _ _ _ _ Hemit Hbreaks)
    as ((Hlast & Hpatched) & _ & _ & _ & _ & Hbroken).
  exists ws, loop, rest, c1, cn.
  split; [exact Hstack |]. split; [exact Hcond |].
  split; [rewrite Hcode1, Hlen0, Hlena; reflexivity |].
  intros q m Hin.
  split; [| split].
  - rewrite Hcode1, <- Hlena. apply (Hcontinues q). rewrite Na. exact Hin.
  - rewrite Hcbc.
    rewrite (patched_to_length _ _ _ Hpatched).
    apply (Hbroken q m). simpl. rewrite Hnodesn, N0, Na. exact Hin.
  - rewrite Hnodes.
    apply (Hbroken q m). simpl. rewrite Hnodesn, N0, Na. exact Hin.
Qed.

Lemma keeps_for_increment b :
  keeps frames_kept
    (when b
       (parser_parse_expression PARSE_EXPR_STATEMENT;;
        eos ← gets (fun c => token_is c LEXER_EOS);
        raise_if (negb eos) PARSER_ERR_INVALID_EXPRESSION)).
Proof.
  repeat first
    [ apply keeps_parser_parse_expression
    | keeps_step frames_kept_refl frames_kept_trans ].
Qed.

Lemma parser_parse_for_statement_end_links c c' :
  parser_parse_for_statement_end c = Done tt c' ->
  exists for_statement loop rest c1 cn,
    stack c = item_for for_statement loop :: rest
    /\ when (negb (token_is c1 LEXER_EOS))
         (parser_parse_expression PARSE_EXPR_STATEMENT;;
          eos ← gets (fun c => token_is c LEXER_EOS);
          raise_if (negb eos) PARSER_ERR_INVALID_EXPRESSION) c1
       = Done tt cn
    /\ length (emitted_code c1) = length (emitted_code c)
    /\ forall q m,
         in_branch_list (branch_nodes c) (loop_branch_list_p loop) q m ->
         continue_patched (emitted_code c1)
                          (Z.of_nat (length (emitted_code c))) m
         /\ break_patched (byte_code (cbc c'))
                          (Z.of_nat (length (byte_code (cbc c')))) m
         /\ node_at (branch_nodes c') q = None.
Proof.
  intros H. unfold parser_parse_for_statement_end in H.
  apply bind_done_inv in H as (i & cp & Hpop & H).
  apply parser_stack_pop_statement_done in Hpop as (rest & Hstack & ->).
  destruct i; try discriminate H.
  run_step H. run_step H. run_step H. run_step H. run_step H.
  apply bind_done_inv in H as ([] & ca & Hnext1 & H).
  apply bind_done_inv in H as ([] & cc & Hcont & H).
  run_step H.
  apply bind_done_inv in H as ([] & cd & Hincrement & H).
  apply bind_done_inv in H as ([] & cb & Hbranch & H).
  apply bind_done_inv in H as ([] & ce & Hrange & H).
  apply bind_done_inv in H as ([] & c1 & Hnext & H).
  run_step H.
  apply bind_done_inv in H as (op & cf & Hop & H).
  apply bind_done_inv in H as ([] & c2 & Hemit & H).
  apply bind_done_inv in H as ([] & c3 & Hbreaks & H).
  run_step H. apply modify_done_inv in H as ->.
  apply lexer_next_token_done in Hnext1 as (l1 & ->).
  apply parser_set_continues_to_current_position_done in Hcont
    as ((_ & _ & _ & _ & Nc) & Hlenc & Hcontinues).
  simpl in Nc.
  change (emitted_code (set_lex _ l1)) with (emitted_code c)
    in Hlenc, Hcontinues.
  pose proof (keeps_done _ _ _ _ _ (keeps_for_increment _) Hincrement)
    as (_ & _ & Nd).
  pose proof (parser_set_branch_to_current_position_spec _ _ _ _ Hbranch)
    as ((_ & _ & _ & _ & Nb) & _).
  apply modify_done_inv in Hrange as ->.
  apply lexer_next_token_done in Hnext as (l2 & ->).
  assert (Nf : branch_nodes cf = branch_nodes c).
  { match type of Hop with
    | (if negb ?b then _ else _) _ = _ => destruct b; simpl in Hop
    end.
    - apply ret_done_inv in Hop as [_ <-]. simpl.
      rewrite Nb, Nd, Nc. reflexivity.
    - apply bind_done_inv in Hop as ([] & cg & Hcond & Hop).
      run_step Hop. run_step Hop.
      rewrite backward_branch_opcode_done in Hop. injection Hop as _ <-.
      pose proof (keeps_done _ _ _ _ _
                    (keeps_parser_parse_expression _) Hcond) as (_ & _ & Ng).
      simpl in Ng |- *. rewrite Ng, Nb, Nd, Nc. reflexivity. }
  destruct (loop_close_done _ _ _ _ _ _ Hemit Hbreaks)
    as ((Hlast & Hpatched) & _ & _ & _ & _ & Hbroken).
  eexists _, _, rest, cc, cd.
  split; [exact Hstack |]. split; [exact Hincrement |].
  split; [exact Hlenc |].
  intros q m Hin.
  split; [| split].
  - apply (Hcontinues q). exact Hin.
  - simpl. rewrite (patched_to_length _ _ _ Hpatched).
    apply (Hbroken q m). rewrite Nf. exact Hin.
  - simpl. apply (Hbroken q m). rewrite Nf. exact Hin.
Qed.

(** Where the jumps of a loop go.  At the end of a [while] loop, the
    continues of its list are patched while the code is still as long
    as the code of the body: they go to the instruction that comes
    next, the first of the condition.  At the end of a [for] loop they
    are patched before the increment is compiled: they go to the
    increment.  In both loops the breaks of the list are patched after
    the backward branch is emitted, to the end of the code of the loop,
    and every node of the list is freed. *)
Theorem loop_end_links_jumps :
  (forall c c',
     parser_parse_while_statement_end c = Done tt c' ->
     exists while_statement loop rest c1 cn,
       stack c = item_while while_statement loop :: rest
       /\ parser_parse_expression PARSE_EXPR c1 = Done tt cn
       /\ length (emitted_code c1) = length (emitted_code c)
       /\ forall q m,
            in_branch_list (branch_nodes c) (loop_branch_list_p loop) q m ->
            continue_patched (emitted_code c1)
                             (Z.of_nat (length (emitted_code c))) m
            /\ break_patched (byte_code (cbc c'))
                             (Z.of_nat (length (byte_code (cbc c')))) m
            /\ node_at (branch_nodes c') q = None)
  /\ (forall c c',
        parser_parse_for_statement_end c = Done tt c' ->
        exists for_statement loop rest c1 cn,
          stack c = item_for for_statement loop :: rest
          /\ when (negb (token_is c1 LEXER_EOS))
               (parser_parse_expression PARSE_EXPR_STATEMENT;;
                eos ← gets (fun c => token_is c LEXER_EOS);
                raise_if (negb eos) PARSER_ERR_INVALID_EXPRESSION) c1
             = Done tt cn
          /\ length (emitted_code c1) = length (emitted_code c)
          /\ forall q m,
               in_branch_list (branch_nodes c) (loop_branch_list_p loop) q m ->
               continue_patched (emitted_code c1)
                                (Z.of_nat (length (emitted_code c))) m
               /\ break_patched (byte_code (cbc c'))
                                (Z.of_nat (length (byte_code (cbc c')))) m
               /\ node_at (branch_nodes c') q = None).
Proof.
  split.
  - exact parser_parse_while_statement_end_links.
  - exact parser_parse_for_statement_end_links.
Qed.

End with_interface.

(** ** Runs of the small implementation *)



(** At the [while] of [do break; while (false)] the end of the loop
    runs as [parser_parse_do_while_statement_end_push_false] says: the
    code is still the one jump of the [break], now patched, and the
    node of the [break] is freed. *)
Lemma parser_parse_do_while_statement_end_push_false_witness :
  match parser_parse_do_while_statement_end
          (I := toy_interface source_do_while_false) context_do_while_false
  with
  | Done _ c' =>
      last_cbc_opcode (cbc c') = PARSER_CBC_UNAVAILABLE
      /\ patched_to_end [cbc_forward_branch CBC_JUMP_FORWARD None]
           (byte_code (cbc c'))
      /\ node_at (branch_nodes c') 0 = None
  | _ => False
  end.
Proof.
  destruct (parser_parse_do_while_statement_end context_do_while_false)
    as [[] c' | e c' | f] eqn:E.
  - destruct (parser_parse_do_while_statement_end_push_false _ _ E)
      as (dw & loop & rest & c0 & c1 & Hs & Hc & He & H).
    vm_compute in Hs. injection Hs as <- <- <-.
    vm_compute in Hc. injection Hc as <-.
    vm_compute in He. injection He as <-.
    destruct (H eq_refl) as (H1 & H2 & H3).
    split; [exact H1 |]. split; [exact H2 |].
    apply (H3 0%nat (mk_branch_node (mk_branch 0) None)).
    apply in_branch_list_head. reflexivity.
  - vm_compute in E. discriminate.
  - vm_compute in E. discriminate.
Defined.

(** C3, as stated, fails: [for (;;) ;] has no condition, nothing is
    pending when its end is parsed, and the backward branch is
    [CBC_JUMP_BACKWARD], where the rule of the claim gives
    [CBC_BRANCH_IF_TRUE_BACKWARD]; the whole program compiles to the
    same code.  And [do break; while (false)] gets no backward branch
    at all. *)
Lemma for_without_condition_jumps_backward :
  (exists c',
     parser_parse_for_statement_end (I := toy_interface source_for_ever)
       context_for_ever = Done tt c'
     /\ last_cbc_opcode (cbc context_for_ever) = PARSER_CBC_UNAVAILABLE
     /\ emitted_code c'
        = [cbc_forward_branch CBC_JUMP_FORWARD (Some 1);
           cbc_backward_branch CBC_JUMP_BACKWARD 0]
     /\ select_backward_branch PARSER_CBC_UNAVAILABLE
        = CBC_BRANCH_IF_TRUE_BACKWARD)
  /\ (exists c',
        parser_parse_statements (I := toy_interface source_for_ever) 8
          (toy_context source_for_ever 0) = Done tt c'
        /\ emitted_code c'
           = [cbc_forward_branch CBC_JUMP_FORWARD (Some 1);
              cbc_backward_branch CBC_JUMP_BACKWARD 0])
  /\ (exists c',
        parser_parse_do_while_statement_end
          (I := toy_interface source_do_while_false) context_do_while_false
        = Done tt c'
        /\ emitted_code c' = [cbc_forward_branch CBC_JUMP_FORWARD (Some 1)]).
Proof.
  split; [| split]; eexists; (split; [vm_compute; reflexivity |]);
    repeat split.
Qed.

(** The end of [while (!x) ;] runs as [loop_end_backward_branch] says:
    the [LOGICAL_NOT] is folded into [CBC_BRANCH_IF_FALSE_BACKWARD]. *)
Lemma loop_end_backward_branch_witness :
  exists c',
    parser_parse_while_statement_end (I := toy_interface source_while_not)
      context_while_not = Done tt c'
    /\ emitted_code c'
       = [cbc_forward_branch CBC_JUMP_FORWARD (Some 1);
          cbc_plain CBC_PUSH_IDENT (mk_argument 0 0);
          cbc_backward_branch CBC_BRANCH_IF_FALSE_BACKWARD 1]
    /\ exists while_statement loop rest c0 c1,
         stack context_while_not = item_while while_statement loop :: rest
         /\ patched_to_end (emitted_code context_while_not) (emitted_code c0)
         /\ parser_parse_expression (I := toy_interface source_while_not)
              (PARSE_EXPR (ParserInterface := toy_interface source_while_not))
              c0 = Done tt c1
         /\ loop_closed (fold_condition (cbc c1))
              (select_backward_branch (last_cbc_opcode (cbc c1)))
              (while_start_offset while_statement) c'.
Proof.
  eexists. split; [vm_compute; reflexivity |].
  split; [reflexivity |].
  apply (proj1 (loop_end_backward_branch
                  (I := toy_interface source_while_not))).
  vm_compute. reflexivity.
Defined.

(** C2, as stated, fails: at the end of the catch block of
    [try { } catch (e) { } finally { }] the next token is [finally],
    and [parser_parse_try_statement_end] emits [CBC_EXT_FINALLY] right
    after the code of the catch block; there is no [CBC_CONTEXT_END] in
    the code.  In the code of the whole program the only
    [CBC_CONTEXT_END] is the one at the end of the finally block, after
    [CBC_EXT_FINALLY]. *)
Lemma catch_finally_without_context_end :
  (exists c1 c',
     lexer_next_token (I := toy_interface source_try_catch_finally)
       context_catch_end = Done tt c1
     /\ token_type c1 = LEXER_KEYW_FINALLY
     /\ parser_parse_try_statement_end
          (I := toy_interface source_try_catch_finally) context_catch_end
        = Done tt c'
     /\ emitted_code c'
        = [cbc_forward_branch CBC_EXT_TRY_CREATE_CONTEXT (Some 1);
           cbc_forward_branch CBC_EXT_CATCH (Some 2);
           cbc_plain CBC_ASSIGN_IDENT (mk_argument 0 0);
           cbc_forward_branch CBC_EXT_FINALLY None]
     /\ Forall (fun i => forall a, i <> cbc_plain CBC_CONTEXT_END a)
          (emitted_code c')
     /\ stack c'
        = [item_try (mk_try parser_finally_block (mk_branch 3));
           item_uint8 PARSER_STATEMENT_START])
  /\ (exists c',
        parser_parse_statements
          (I := toy_interface source_try_catch_finally) 8
          (toy_context source_try_catch_finally 0) = Done tt c'
        /\ emitted_code c'
           = [cbc_forward_branch CBC_EXT_TRY_CREATE_CONTEXT (Some 1);
              cbc_forward_branch CBC_EXT_CATCH (Some 2);
              cbc_plain CBC_ASSIGN_IDENT (mk_argument 0 0);
              cbc_forward_branch CBC_EXT_FINALLY (Some 2);
              cbc_plain CBC_CONTEXT_END (mk_argument 0 0)]).
Proof.
  split.
  - eexists _, _. split; [vm_compute; reflexivity |].
    split; [reflexivity |]. split; [vm_compute; reflexivity |].
    split; [reflexivity |]. split; [| reflexivity].
    repeat constructor; discriminate.
  - eexists. split; [vm_compute; reflexivity | reflexivity].
Qed.

(** The same run, as [parser_parse_try_statement_end_catch_finally]
    describes it. *)
Lemma parser_parse_try_statement_end_catch_finally_witness :
  exists c1 c',
    lexer_next_token (I := toy_interface source_try_catch_finally)
      context_catch_end = Done tt c1
    /\ token_type c1 = LEXER_KEYW_FINALLY
    /\ parser_parse_try_statement_end
         (I := toy_interface source_try_catch_finally) context_catch_end
       = Done tt c'
    /\ exists code,
         patched_to_end (emitted_code context_catch_end) code
         /\ (exists op,
               code !! 1%nat
               = Some (cbc_forward_branch op
                         (Some (Z.of_nat (length code) - 1))))
         /\ last_cbc_opcode (cbc c') = PARSER_CBC_UNAVAILABLE
         /\ byte_code (cbc c')
            = code ++ [cbc_forward_branch CBC_EXT_FINALLY None]
         /\ stack_depth (cbc c') = stack_depth (cbc context_catch_end)
         /\ stack c'
            = [item_try (mk_try parser_finally_block
                                (mk_branch (Z.of_nat (length code))));
               item_uint8 PARSER_STATEMENT_START].
Proof.
  eexists _, _. split; [vm_compute; reflexivity |].
  split; [reflexivity |]. split; [vm_compute; reflexivity |].
  eapply (parser_parse_try_statement_end_catch_finally
            (I := toy_interface source_try_catch_finally)
            context_catch_end _ _
           (mk_try parser_catch_block (mk_branch 1))
           [item_uint8 PARSER_STATEMENT_START]);
    [reflexivity | reflexivity | vm_compute; reflexivity | reflexivity
    | vm_compute; reflexivity].
Defined.

(** The head of [for (var x = true in y) ;] runs as
    [parser_parse_for_statement_start_var_initializer] says: the scan
    of the head ends at [in], the target starts with [var] and has the
    initializer [true]; the jump over the initializer has the
    displacement 2, past the one instruction of [true], and the code of
    the head starts with the object, the creation of the context, the
    jump and the initializer. *)
Lemma parser_parse_for_statement_start_var_initializer_witness :
  match parser_parse_for_statement_start
          (I := toy_interface source_for_in_var) 8
          (toy_context source_for_in_var 0)
  with
  | Done _ c' =>
      exists c2 more,
        byte_code (cbc c2)
        = [cbc_plain CBC_PUSH_IDENT (mk_argument 0 0);
           cbc_forward_branch CBC_EXT_FOR_IN_CREATE_CONTEXT None;
           cbc_forward_branch CBC_JUMP_FORWARD (Some 2);
           cbc_plain CBC_PUSH_TRUE (mk_argument 0 0)]
        /\ emitted_code c' = byte_code (cbc c2) ++ more
        /\ stack c' = [item_for_in (mk_for_in (mk_branch 1) 2) (mk_loop None)]
  | _ => False
  end.
Proof.
  destruct (parser_parse_for_statement_start 8
              (toy_context source_for_in_var 0))
    as [[] c' | e c' | f] eqn:E.
  - destruct (parser_parse_for_statement_start_var_initializer
                (I := toy_interface source_for_in_var) 8 _ _ E)
      as (start_range & cs & Hcs & H).
    vm_compute in Hcs. injection Hcs as <- <-.
    destruct (H eq_refl)
      as (branch & start_offset & range & ct & Hct & Hstack & H1).
    vm_compute in Hct. injection Hct as <- <- <- <-.
    destruct (H1 eq_refl) as (ca & Hca & H2).
    vm_compute in Hca. injection Hca as <-.
    destruct (H2 eq_refl)
      as (cb & c1 & c2 & Hcb & _ & _ & Hc1 & _ & Hinit & more & Hmore).
    vm_compute in Hcb. injection Hcb as <-.
    vm_compute in Hc1. injection Hc1 as <-.
    exists c2, more. split; [| split; [exact Hmore | exact Hstack]].
    exact (Hinit [cbc_plain CBC_PUSH_TRUE (mk_argument 0 0)]
             eq_refl eq_refl).
  - vm_compute in E. discriminate.
  - vm_compute in E. discriminate.
Defined.

(** C7 fails on [do break; while ( )].  The parse fails in the
    condition, after [parser_parse_do_while_statement_end] has popped
    the frame of the loop; the list with the node of the [break] is
    then held by a local variable only.  [parser_free_jumps], started
    from the iterator of the last statement, finds the [START] sentinel
    alone and returns, and the node remains allocated. *)
Lemma parser_free_jumps_misses_popped_loop :
  exists c1 c2,
    parser_parse_statements
      (I := toy_interface source_do_break_while_empty) 8
      (toy_context source_do_break_while_empty 0)
    = Raise PARSER_ERR_PRIMARY_EXP_EXPECTED c1
    /\ stack c1 = [item_uint8 PARSER_STATEMENT_START]
    /\ last_statement c1 = Some 1%nat
    /\ parser_free_jumps 1 c1 = Done tt c2
    /\ branch_nodes c2 = [Some (mk_branch_node (mk_branch 0) None)]
    /\ allocated_nodes (branch_nodes c2) = 1%nat
    /\ parser_compile (I := toy_interface source_do_break_while_empty) 8
         (toy_context source_do_break_while_empty 0)
       = Raise PARSER_ERR_PRIMARY_EXP_EXPECTED c2.
Proof.
  eexists _, _. split; [vm_compute; reflexivity |].
  split; [reflexivity |]. split; [reflexivity |].
  split; [vm_compute; reflexivity |].
  split; [reflexivity |]. split; reflexivity.
Qed.

(** C4, as stated, fails: in [A: B: while (true) continue A;] the frame
    of the label [A] is not next to the frame of the loop, the frame of
    [B] lies between them, and [continue A] is parsed: the branch is
    filed into the list of the loop.  The whole program is parsed as
    well. *)
Lemma continue_label_behind_another_label :
  (exists c',
     parser_parse_continue_statement
       (I := toy_interface source_continue_outer_label)
       context_continue_outer_label = Done tt c'
     /\ stack context_continue_outer_label
        = [item_while (mk_while (mk_branch 0) (mk_range 6 7 1 6) 1)
                      (mk_loop None);
           item_label (mk_label label_B None);
           item_label (mk_label label_A None);
           item_uint8 PARSER_STATEMENT_START]
     /\ lexer_same_identifiers
          (ParserInterface := toy_interface source_continue_outer_label)
          label_A label_B = false
     /\ stack c'
        = [item_while (mk_while (mk_branch 0) (mk_range 6 7 1 6) 1)
                      (mk_loop (Some 0%nat));
           item_label (mk_label label_B None);
           item_label (mk_label label_A None);
           item_uint8 PARSER_STATEMENT_START]
     /\ branch_nodes c'
        = [Some (mk_branch_node (mk_branch (Z.lor 1 0x80000000)) None)])
  /\ (exists c',
        parser_parse_statements
          (I := toy_interface source_continue_outer_label) 8
          (toy_context source_continue_outer_label 0) = Done tt c').
Proof.
  split.
  - eexists. split; [vm_compute; reflexivity |]. repeat split.
  - eexists. vm_compute. reflexivity.
Qed.

(** The same [continue A], as [parser_parse_continue_statement_label]
    describes it: the loop at the iterator 4 is a loop with the label
    [A]. *)
Lemma parser_parse_continue_statement_label_witness :
  exists c1,
    lexer_next_token (I := toy_interface source_continue_outer_label)
      context_continue_outer_label = Done tt c1
    /\ label_follows c1 = true
    /\ exists it op loop l c2,
         labelled_loop_at
           (I := toy_interface source_continue_outer_label)
           (tok_lit_location (token (lex c1)))
           frames_continue_outer_label [] it
         /\ stack_item_at (stack context_continue_outer_label) it = Some loop
         /\ item_loop loop = Some l
         /\ file_branch_into_loop
              (I := toy_interface source_continue_outer_label)
              it op true c1 = Done tt c2
         /\ branch_nodes c2
            = branch_nodes context_continue_outer_label
              ++ [Some (mk_branch_node
                          (mk_branch
                             (Z.lor
                                (Z.of_nat
                                   (length
                                      (emitted_code
                                         context_continue_outer_label)))
                                0x80000000))
                          (loop_branch_list_p l))]
         /\ stack c2
            = <[(length (stack context_continue_outer_label) - it)%nat :=
                  item_set_loop loop
                    (mk_loop
                       (Some (length
                                (branch_nodes
                                   context_continue_outer_label))))]>
                (stack context_continue_outer_label)
         /\ parser_parse_continue_statement
              (I := toy_interface source_continue_outer_label)
              context_continue_outer_label
            = lexer_next_token
                (I := toy_interface source_continue_outer_label) c2.
Proof.
  eexists. split; [vm_compute; reflexivity |].
  split; [reflexivity |].
  apply (proj1 (parser_parse_continue_statement_label
                  (I := toy_interface source_continue_outer_label)
                  context_continue_outer_label _
                  frames_continue_outer_label []
                  eq_refl eq_refl eq_refl eq_refl)).
  exists 4%nat, [], (item_while (mk_while (mk_branch 0) (mk_range 6 7 1 6) 1)
                                 (mk_loop None)),
    [item_label (mk_label label_B None); item_label (mk_label label_A None)].
  split; [reflexivity |]. split; [reflexivity |]. split; [| reflexivity].
  exists [item_label (mk_label label_B None)], (mk_label label_A None), [].
  repeat split.
Defined.

(** The small expression parser hands back the status flags as it
    received them. *)
Lemma toy_parse_expression_flags source options flags l e f l' e' :
  toy_parse_expression source options flags l e = ext_ok (f, l', e') ->
  f = flags.
Proof.
  unfold toy_parse_expression, toy_primary, toy_next_token.
  repeat match goal with
         | |- context [if ?b then _ else _] => destruct b
         | |- context [match tok_type ?t with _ => _ end] =>
             destruct (tok_type t)
         end;
    intros H; try discriminate H; injection H as <- _ _; reflexivity.
Qed.

(** The constructor of function objects of the small implementation
    yields no flags. *)
Lemma toy_function_object_keeps source flag :
  function_object_keeps (I := toy_interface source) flag.
Proof. intros index fl flags l f l' E. discriminate E. Qed.

Lemma toy_expression_parser_keeps source flag :
  expression_parser_keeps (I := toy_interface source) flag.
Proof.
  intros options flags l e f l' e' E.
  apply toy_parse_expression_flags in E. subst f. reflexivity.
Qed.


(** Had the parse of [do break; while (false)] failed at the [while],
    with the frame of the loop still on the stack,
    [parser_free_jumps] would have freed the node of the [break], as
    [parser_free_jumps_frees_lists] says. *)
Lemma parser_free_jumps_frees_lists_witness :
  exists h',
    parser_free_jumps 2 context_do_while_false
    = Done tt (set_branch_nodes context_do_while_false h')
    /\ allocated_nodes h' = 0%nat.
Proof.
  destruct (parser_free_jumps_frees_lists
              context_do_while_false []
              [item_do_while (mk_do_while 0) (mk_loop (Some 0%nat))] []
              [[0%nat]])
    as (h' & Hrun & _ & Hnone).
  - reflexivity.
  - reflexivity.
  - constructor; [| constructor].
    split; [reflexivity |]. eexists. split; reflexivity.
  - apply NoDup_singleton.
  - exists h'. split; [exact Hrun |]. apply Hnone.
    intros [| a] n H; [left |].
    exfalso. destruct a; discriminate H.
Defined.

(** At the [break] of [for (x in y) { break; }] the jump leaves the
    context of the for-in, which is its target, as
    [parser_parse_break_statement_target] says. *)
Lemma parser_parse_break_statement_target_witness :
  exists c2,
    parser_parse_break_statement (I := toy_interface source_for_in_break)
      context_for_in_break = Done tt c2
    /\ byte_code (cbc c2)
       = code_for_in_head
         ++ [cbc_forward_branch CBC_JUMP_FORWARD_EXIT_CONTEXT None]
    /\ branch_nodes c2 = [Some (mk_branch_node (mk_branch 4) None)]
    /\ stack c2
       = [item_uint8 PARSER_STATEMENT_BLOCK;
          item_for_in (mk_for_in (mk_branch 1) 2) (mk_loop (Some 0%nat));
          item_uint8 PARSER_STATEMENT_START].
Proof.
  destruct (proj2 (parser_parse_break_statement_target
                     (I := toy_interface source_for_in_break)
                     context_for_in_break _
                     [item_uint8 PARSER_STATEMENT_BLOCK; frame_for_in] []
                     eq_refl eq_refl eq_refl eq_refl)
              [item_uint8 PARSER_STATEMENT_BLOCK] frame_for_in [])
    as (l & c2 & Hl & Hrun & (_ & _ & _ & _ & Hcode & Hnodes) & Hstack).
  - repeat split.
  - injection Hl as <-.
    exists c2. repeat split; assumption.
Defined.

(** At the [break A] of [A: while (x) { break A; }] the jump goes into
    the list of the label, not of the loop, as
    [parser_parse_break_statement_label] says. *)
Lemma parser_parse_break_statement_label_witness :
  exists c2,
    parser_parse_break_statement (I := toy_interface source_break_label)
      context_break_label
    = lexer_next_token (I := toy_interface source_break_label) c2
    /\ byte_code (cbc c2)
       = [cbc_forward_branch CBC_JUMP_FORWARD None;
          cbc_forward_branch CBC_JUMP_FORWARD None]
    /\ stack c2
       = [item_uint8 PARSER_STATEMENT_BLOCK; frame_while_x;
          item_label (mk_label label_A (Some 0%nat));
          item_uint8 PARSER_STATEMENT_START].
Proof.
  destruct (proj2 (parser_parse_break_statement_label
                     (I := toy_interface source_break_label)
                     context_break_label _
                     [item_uint8 PARSER_STATEMENT_BLOCK; frame_while_x;
                      item_label (mk_label label_A None)] []
                     eq_refl eq_refl eq_refl eq_refl)
              [item_uint8 PARSER_STATEMENT_BLOCK; frame_while_x]
              (mk_label label_A None) [])
    as (c2 & Hrun & (_ & _ & _ & _ & Hcode & _) & Hstack).
  - repeat split.
  - exists c2. repeat split; assumption.
Defined.

(** At the [continue] of [while (x) switch (y) { default: continue; }]
    the switch is passed over and the jump goes into the list of the
    loop, marked as a continue, as
    [parser_parse_continue_statement_target] says. *)
Lemma parser_parse_continue_statement_target_witness :
  exists c2,
    parser_parse_continue_statement
      (I := toy_interface source_switch_continue) context_switch_continue
    = Done tt c2
    /\ branch_nodes c2
       = [Some (mk_branch_node (mk_branch (Z.lor 4 0x80000000)) None)]
    /\ stack c2
       = [frame_switch_default;
          item_while (mk_while (mk_branch 0) (mk_range 2 3 1 2) 1)
                     (mk_loop (Some 0%nat));
          item_uint8 PARSER_STATEMENT_START].
Proof.
  destruct (proj2 (parser_parse_continue_statement_target
                     (I := toy_interface source_switch_continue)
                     context_switch_continue _
                     [frame_switch_default; frame_while_outer] []
                     eq_refl eq_refl eq_refl eq_refl)
              [frame_switch_default] frame_while_outer [])
    as (l & c2 & Hl & Hrun & (_ & _ & _ & _ & _ & Hnodes) & Hstack).
  - repeat split.
  - injection Hl as <-.
    exists c2. repeat split; assumption.
Defined.

(** The second label of [A: A: ;] is refused, as
    [parser_parse_label_duplicate] says. *)
Lemma parser_parse_label_duplicate_witness :
  parser_parse_label (I := toy_interface source_label_twice) label_A
    context_label_twice
  = Raise PARSER_ERR_DUPLICATED_LABEL context_label_twice.
Proof.
  exact (parser_parse_label_duplicate
           (I := toy_interface source_label_twice) label_A
           context_label_twice [item_label (mk_label label_A None)] []
           eq_refl eq_refl).
Defined.

(** After the body of [with (a) with (b) ;] the end of the inner
    statement leaves [PARSER_IN_WIDTH] set, and the end of the outer
    one clears it, as [parser_parse_with_statement_flag] says. *)
Lemma parser_parse_with_statement_flag_witness :
  exists c1 c2,
    parser_parse_with_statement_end (I := toy_interface source_with_nested)
      context_with_nested = Done tt c1
    /\ status_flags c1 = 16
    /\ parser_parse_with_statement_end (I := toy_interface source_with_nested)
         c1 = Done tt c2
    /\ status_flags c2 = 0
    /\ stack c2 = [item_uint8 PARSER_STATEMENT_START].
Proof.
  destruct (parser_parse_with_statement_end
              (I := toy_interface source_with_nested) context_with_nested)
    as [[] c1 | e c1 | f] eqn:E1;
    [| vm_compute in E1; discriminate | vm_compute in E1; discriminate].
  destruct (proj2 (parser_parse_with_statement_flag
                     (I := toy_interface source_with_nested))
              context_with_nested c1 (mk_with (mk_branch 3))
              [item_with (mk_with (mk_branch 1))] [] eq_refl eq_refl E1)
    as (S1 & _ & F1 & _).
  destruct (parser_parse_with_statement_end
              (I := toy_interface source_with_nested) c1)
    as [[] c2 | e c2 | f] eqn:E2;
    [| vm_compute in E1; injection E1 as <-; vm_compute in E2; discriminate
     | vm_compute in E1; injection E1 as <-; vm_compute in E2; discriminate].
  destruct (proj2 (parser_parse_with_statement_flag
                     (I := toy_interface source_with_nested))
              c1 c2 (mk_with (mk_branch 1)) [] [] S1 eq_refl E2)
    as (S2 & _ & F2 & _).
  exists c1, c2. split; [reflexivity |]. split; [exact F1 |].
  split; [exact E2 |]. split; [| exact S2].
  rewrite F2, F1. reflexivity.
Defined.

(** At the [else] of [if (x) ; else ;] the jump over the else branch is
    appended and the branch of the [if] is patched to the position
    after it, as [parser_parse_if_statement_end_branches] says. *)
Lemma parser_parse_if_statement_end_branches_witness :
  exists c',
    parser_parse_if_statement_end (I := toy_interface source_if_else)
      context_if_else = Done true c'
    /\ byte_code (cbc c')
       = [cbc_plain CBC_PUSH_IDENT (mk_argument 0 0);
          cbc_forward_branch CBC_BRANCH_IF_FALSE_FORWARD (Some 2);
          cbc_forward_branch CBC_JUMP_FORWARD None]
    /\ stack c'
       = [item_else (mk_if_else (mk_branch 2));
          item_uint8 PARSER_STATEMENT_START].
Proof.
  destruct (parser_parse_if_statement_end
              (I := toy_interface source_if_else) context_if_else)
    as [has_else c' | e c' | f] eqn:E;
    [| vm_compute in E; discriminate | vm_compute in E; discriminate].
  destruct (parser_parse_if_statement_end_branches
              (I := toy_interface source_if_else)
              context_if_else c' has_else (mk_if_else (mk_branch 1))
              [item_uint8 PARSER_STATEMENT_START] eq_refl E)
    as (-> & op & old & _ & Hat & _ & _ & _ & Hcode & Hstack & _).
  injection Hat as <- <-.
  exists c'. split; [reflexivity |]. split; [exact Hcode | exact Hstack].
Defined.

(** After the end of [while (!x) ;] the lexer is behind the body again,
    at the end of the source, as [loop_end_restores_lexer] says. *)
Lemma loop_end_restores_lexer_witness :
  exists c',
    parser_parse_while_statement_end (I := toy_interface source_while_not)
      context_while_not = Done tt c'
    /\ token (lex c') = toy_eos
    /\ source_p (lex c') = 6.
Proof.
  destruct (parser_parse_while_statement_end
              (I := toy_interface source_while_not) context_while_not)
    as [[] c' | e c' | f] eqn:E;
    [| vm_compute in E; discriminate | vm_compute in E; discriminate].
  destruct (loop_end_restores_lexer
              (I := toy_interface source_while_not)
              context_while_not c' (or_introl E)) as (Htoken & Hp & _).
  exists c'. split; [reflexivity |]. split; [exact Htoken | exact Hp].
Defined.

(** At the end of the finally block of [try { } finally { }] the
    branch of the block is patched to the position after
    [CBC_CONTEXT_END], as [parser_parse_try_statement_end_phases]
    says. *)
Lemma parser_parse_try_statement_end_phases_witness :
  exists c',
    parser_parse_try_statement_end (I := toy_interface source_try_finally)
      context_finally_end = Done tt c'
    /\ byte_code (cbc c')
       = [cbc_forward_branch CBC_EXT_TRY_CREATE_CONTEXT (Some 1);
          cbc_forward_branch CBC_EXT_FINALLY (Some 2);
          cbc_plain CBC_CONTEXT_END (mk_argument 0 0)]
    /\ stack c' = [item_uint8 PARSER_STATEMENT_START].
Proof.
  destruct (parser_parse_try_statement_end
              (I := toy_interface source_try_finally) context_finally_end)
    as [[] c' | e c' | f] eqn:E;
    [| vm_compute in E; discriminate | vm_compute in E; discriminate].
  destruct (proj1 (parser_parse_try_statement_end_phases
                     (I := toy_interface source_try_finally)
                     context_finally_end _
                     (mk_try parser_finally_block (mk_branch 1))
                     [item_uint8 PARSER_STATEMENT_START] eq_refl eq_refl)
              eq_refl c' E)
    as ((Hstack & _) & op & old & Hat & Hcode).
  injection Hat as <- <-.
  exists c'. split; [reflexivity |]. split; [exact Hcode | exact Hstack].
Defined.

(** The parse of [{ for ( (] fails inside the scan of the head of the
    [for]; the error leaves the context as
    [parser_parse_statements_stack_discipline] says: the iterator of
    the last statement points at the frame of the block, below the
    bytes of the scan. *)
Lemma parser_parse_statements_stack_discipline_witness :
  match parser_parse_statements (I := toy_interface source_for_unfinished)
          8 (toy_context source_for_unfinished 0) with
  | Raise _ c' =>
      ((exists junk frames,
          stack c' = junk ++ frames ++ [item_uint8 PARSER_STATEMENT_START]
          /\ (junk = []
              \/ exists syms,
                   junk = map item_uint8 syms ++ [item_uint8 SCAN_STACK_HEAD]
                   /\ Forall (fun b => b <> SCAN_STACK_HEAD) syms)
          /\ forallb is_frame frames = true
          /\ last_statement c'
             = Some (length (frames ++ [item_uint8 PARSER_STATEMENT_START])))
       \/ (stack c' = [] /\ last_statement c' = None))
      /\ stack c'
         = [item_uint8 SCAN_STACK_PAREN_EXPRESSION; item_uint8 SCAN_STACK_HEAD;
            item_uint8 PARSER_STATEMENT_BLOCK;
            item_uint8 PARSER_STATEMENT_START]
      /\ last_statement c' = Some 2%nat
  | _ => False
  end.
Proof.
  pose proof (parser_parse_statements_stack_discipline
                (I := toy_interface source_for_unfinished) 8
                (toy_context source_for_unfinished 0)) as H.
  destruct (parser_parse_statements 8 (toy_context source_for_unfinished 0))
    as [[] c' | e c' | f] eqn:E.
  - vm_compute in E. discriminate.
  - split; [exact H |]. vm_compute in E. injection E as _ <-.
    split; reflexivity.
  - vm_compute in E. discriminate.
Defined.

(** The prologue of ["use strict"; x] sets [PARSER_IS_STRICT] and ends
    at the identifier, as [parser_parse_directive_prologue_end]
    says. *)
Lemma parser_parse_directive_prologue_end_witness :
  match parser_parse_directive_prologue
          (I := toy_interface source_use_strict) 8
          (toy_context source_use_strict 0) with
  | Done _ c' =>
      token_is_literal c' LEXER_STRING_LITERAL = false
      /\ status_flags c' = 1
      /\ stack c' = [] /\ branch_nodes c' = []
  | _ => False
  end.
Proof.
  pose proof (parser_parse_directive_prologue_end
                (I := toy_interface source_use_strict) 8
                (toy_context source_use_strict 0)) as H.
  destruct (parser_parse_directive_prologue 8
              (toy_context source_use_strict 0))
    as [[] c' | e c' | f] eqn:E.
  - destruct H as (Htoken & _ & Hstack & _ & Hnodes).
    split; [exact Htoken |].
    split; [vm_compute in E; injection E as <-; reflexivity |].
    split; [exact Hstack | exact Hnodes].
  - vm_compute in E. discriminate.
  - vm_compute in E. discriminate.
Defined.

(** At the [case] of [switch (y) { case true: ; }] the branch that the
    head of the switch emitted for the case is patched and its node is
    freed, as [parser_parse_case_statement_consumes] says. *)
Lemma parser_parse_case_statement_consumes_witness :
  exists c',
    parser_parse_case_statement (I := toy_interface source_switch_case) 8
      context_switch_case = Done tt c'
    /\ stack c'
       = [item_switch_no_default (mk_switch (mk_branch 4) None)
                                 (mk_loop None);
          item_uint8 PARSER_STATEMENT_START]
    /\ branch_nodes c' = [None]
    /\ byte_code (cbc c')
       = [cbc_plain CBC_PUSH_IDENT (mk_argument 0 0);
          cbc_plain CBC_PUSH_TRUE (mk_argument 0 0);
          cbc_plain CBC_STRICT_EQUAL (mk_argument 0 0);
          cbc_forward_branch CBC_BRANCH_IF_TRUE_FORWARD (Some 2);
          cbc_forward_branch CBC_JUMP_FORWARD None].
Proof.
  destruct (parser_parse_case_statement
              (I := toy_interface source_switch_case) 8 context_switch_case)
    as [[] c' | e c' | f] eqn:E;
    [| vm_compute in E; discriminate | vm_compute in E; discriminate].
  destruct (parser_parse_case_statement_consumes
              (I := toy_interface source_switch_case) 8
              context_switch_case c' E)
    as (frame & sw & loop & rest & p & n & Hs & Hframe & Hlist & Hn & Hs'
        & Hnodes & _ & _ & _ & op & old & _ & Hat & Hcode).
  injection Hs as Hi <-.
  destruct Hframe as [-> | ->]; [discriminate Hi |].
  injection Hi as <- <-.
  injection Hlist as <-. injection Hn as <-.
  injection Hat as <- <-.
  exists c'. split; [reflexivity |].
  split; [exact Hs' |]. split; [exact Hnodes | exact Hcode].
Defined.

(** The end of [while (x) { continue; break; }] runs as
    [loop_end_links_jumps] says: the jump of the
    [continue] goes to the condition at 3, the jump of the [break] to
    the end of the code at 5. *)
Lemma loop_end_links_jumps_witness :
  exists c',
    parser_parse_while_statement_end (I := toy_interface source_while_jumps)
      context_while_jumps = Done tt c'
    /\ emitted_code c'
       = [cbc_forward_branch CBC_JUMP_FORWARD (Some 3);
          cbc_forward_branch CBC_JUMP_FORWARD (Some 2);
          cbc_forward_branch CBC_JUMP_FORWARD (Some 3);
          cbc_plain CBC_PUSH_IDENT (mk_argument 0 0);
          cbc_backward_branch CBC_BRANCH_IF_TRUE_BACKWARD 3]
    /\ exists while_statement loop rest c1 cn,
         stack context_while_jumps = item_while while_statement loop :: rest
         /\ parser_parse_expression (I := toy_interface source_while_jumps)
              (PARSE_EXPR (ParserInterface := toy_interface source_while_jumps))
              c1 = Done tt cn
         /\ length (emitted_code c1)
            = length (emitted_code context_while_jumps)
         /\ forall q m,
              in_branch_list (branch_nodes context_while_jumps)
                (loop_branch_list_p loop) q m ->
              continue_patched (I := toy_interface source_while_jumps)
                (emitted_code c1)
                (Z.of_nat (length (emitted_code context_while_jumps))) m
              /\ break_patched (I := toy_interface source_while_jumps)
                   (byte_code (cbc c'))
                   (Z.of_nat (length (byte_code (cbc c')))) m
              /\ node_at (branch_nodes c') q = None.
Proof.
  eexists. split; [vm_compute; reflexivity |].
  split; [reflexivity |].
  apply (proj1 (loop_end_links_jumps
                  (I := toy_interface source_while_jumps))).
  vm_compute. reflexivity.
Defined.

End Parser.

(* ===================================================================== *)
(** * Part IV. Properties of the interpreter fragments                   *)
(* ===================================================================== *)

Module VmProperties.

Import Vm.

(** The condition of [vm_loop] never looks at the flag: it tests bit 0
    of the status flags when the two constants happen to be equal, and
    nothing at all otherwise. *)
Lemma vm_loop_encoding_test_spec (full small status_flags : Z) :
  vm_loop_encoding_test full small status_flags
  = (full =? small) && Z.odd status_flags.
Proof.
  unfold vm_loop_encoding_test, c_equal.
  destruct (full =? small); simpl.
  - rewrite <- (Z.bit0_odd status_flags).
    replace (Z.land status_flags 1) with (Z.b2z (Z.testbit status_flags 0)).
    + destruct (Z.testbit status_flags 0); reflexivity.
    + change 1 with (Z.ones 1). rewrite Z.land_ones by lia.
      rewrite Z.bit0_mod. reflexivity.
  - rewrite Z.land_0_r. reflexivity.
Qed.

(** With distinct constants the small encoding is never selected,
    whatever the header says. *)
Lemma vm_loop_prepare_distinct_constants (full small status_flags : Z) :
  full <> small -> vm_loop_prepare full small status_flags = (128, 0x8000).
Proof.
  intros Hne. unfold vm_loop_prepare.
  rewrite vm_loop_encoding_test_spec.
  apply Z.eqb_neq in Hne. rewrite Hne. reflexivity.
Qed.

(** C1 (as the code has it).  For a code blob whose header has no status
    flag set, hence not [CBC_CODE_FLAGS_FULL_LITERAL_ENCODING], [vm_loop]
    sets [encoding_limit] to 128 and [encoding_delta] to [0x8000], the
    parameters of the full literal encoding; this holds for every value
    of the two header constants. *)
Theorem vm_loop_prepare_flags_zero (full small : Z) :
  vm_loop_prepare full small 0 = (128, 0x8000)
  /\ Z.land 0 full = 0.
Proof.
  split; [| reflexivity].
  unfold vm_loop_prepare. rewrite vm_loop_encoding_test_spec.
  rewrite andb_false_r. reflexivity.
Qed.

(** The test that the design document asks for selects the small
    encoding there, when small encoding is the value 0 of the masked
    flags. *)
Lemma intended_encoding_test_flags_zero (full : Z) :
  intended_encoding_test full 0 0 = true.
Proof. reflexivity. Qed.

(** Under the limits of the small encoding, a first operand byte of 255
    opens a two-byte index, and the indices 255 to 510 are what two
    bytes decode to. *)
Lemma vm_decode_literal_index_small (b1 : Z) :
  0 <= b1 < 256 ->
  vm_decode_literal_index 255 0xfe01 255 b1 = (255 + b1, 2).
Proof.
  intros Hb. unfold vm_decode_literal_index. simpl (255 <=? 255).
  cbv iota. f_equal.
  assert (Hlor : Z.lor (Z.shiftl 255 8) b1 = 65280 + b1).
  { rewrite <- Z.add_nocarry_lor; [reflexivity |].
    apply Z.bits_inj'. intros n Hn.
    rewrite Z.land_spec, Z.bits_0.
    destruct (Z.lt_ge_cases n 8).
    - rewrite Z.shiftl_spec_low by lia. reflexivity.
    - rewrite (Z.bits_above_log2 b1 n); [apply andb_false_r | lia |].
      destruct (Z.eq_dec b1 0) as [-> | Hnz]; [simpl; lia |].
      apply Z.lt_le_trans with 8; [| lia].
      apply Z.log2_lt_pow2; lia. }
  rewrite Hlor. rewrite Z.mod_small; lia.
Qed.

Section op_add_properties.

Variable ecma_number_t : Type.
Variable ecma_number_add : ecma_number_t -> ecma_number_t -> ecma_number_t.

Abbreviation op_add := (vm_op_add ecma_number_t ecma_number_add).

Definition undefined_value : ecma_value_t :=
  ecma_make_simple_value ECMA_SIMPLE_VALUE_UNDEFINED.

(** C10.  [vm_op_add] yields the undefined simple value when the type
    fields of its operands differ.  For operands of one type: [lhs]
    itself when [lhs] is undefined or null; undefined when [lhs] is a
    boolean, a string or an object; and, for two numbers, a number in a
    cell that was not allocated before and that holds the sum.  A number
    comes back only from two numbers. *)
Theorem vm_op_add_cases (h : list (option ecma_number_t))
    (lhs rhs : ecma_value_t) :
  (ecma_get_value_type_field lhs <> ecma_get_value_type_field rhs ->
   op_add h lhs rhs = Some (undefined_value, h))
  /\ (ecma_get_value_type_field lhs = ecma_get_value_type_field rhs ->
      ecma_is_value_undefined lhs || ecma_is_value_null lhs = true ->
      op_add h lhs rhs = Some (lhs, h))
  /\ (ecma_get_value_type_field lhs = ecma_get_value_type_field rhs ->
      ecma_is_value_boolean lhs || ecma_is_value_string lhs
      || ecma_is_value_object lhs = true ->
      op_add h lhs rhs = Some (undefined_value, h))
  /\ (forall p q a b,
        lhs = ecma_number_value p -> rhs = ecma_number_value q ->
        h !! p = Some (Some a) -> h !! q = Some (Some b) ->
        op_add h lhs rhs
        = Some (ecma_number_value (length h),
                h ++ [Some (ecma_number_add a b)])
        /\ h !! length h = None)
  /\ (forall r h',
        op_add h lhs rhs = Some (ecma_number_value r, h') ->
        ecma_is_value_number lhs = true /\ ecma_is_value_number rhs = true
        /\ h !! r = None
        /\ exists a b,
             ecma_get_number_from_value ecma_number_t h lhs = Some a
             /\ ecma_get_number_from_value ecma_number_t h rhs = Some b
             /\ h' !! r = Some (Some (ecma_number_add a b))).
Proof.
  repeat split.
  - intros Hne. unfold vm_op_add.
    rewrite bool_decide_eq_false_2 by exact Hne. reflexivity.
  - intros Heq Hl. unfold vm_op_add.
    rewrite bool_decide_eq_true_2 by exact Heq.
    destruct lhs as [[] | | |]; simpl in *; try discriminate; reflexivity.
  - intros Heq Hl. unfold vm_op_add.
    rewrite bool_decide_eq_true_2 by exact Heq.
    destruct lhs as [[] | | |]; simpl in *; try discriminate; reflexivity.
  - subst lhs rhs. unfold vm_op_add. simpl.
    rewrite H1, H2. simpl. reflexivity.
  - apply lookup_ge_None_2. lia.
  - unfold vm_op_add in H.
    destruct lhs as [[] | | |], rhs as [[] | | |]; simpl in H;
      try discriminate; reflexivity.
  - unfold vm_op_add in H.
    destruct lhs as [[] | | |], rhs as [[] | | |]; simpl in H;
      try discriminate; reflexivity.
  - unfold vm_op_add in H.
    destruct lhs as [[] | | |], rhs as [[] | | |]; simpl in H;
      try discriminate.
    destruct (mjoin (h !! p)), (mjoin (h !! p0)); simpl in H;
      try discriminate.
    injection H as <- <-. apply lookup_ge_None_2. lia.
  - unfold vm_op_add in H.
    destruct lhs as [[] | | |], rhs as [[] | | |]; simpl in H;
      try discriminate.
    simpl.
    destruct (mjoin (h !! p)) as [a |], (mjoin (h !! p0)) as [b |];
      simpl in H; try discriminate.
    injection H as <- <-. exists a, b. repeat split.
    rewrite lookup_app_r by lia. rewrite Nat.sub_diag. reflexivity.
Qed.

End op_add_properties.

(** *** Literal indices and the operand stack *)

Lemma lor_shiftl_byte (b0 b1 : Z) :
  0 <= b0 -> 0 <= b1 < 256 -> Z.lor (Z.shiftl b0 8) b1 = b0 * 256 + b1.
Proof.
  intros H0 H1. rewrite Z.shiftl_mul_pow2 by lia.
  change (2 ^ 8) with 256.
  rewrite <- Z.add_nocarry_lor; [reflexivity |].
  apply Z.bits_inj'. intros n Hn.
  rewrite Z.land_spec, Z.bits_0.
  destruct (Z.lt_ge_cases n 8).
  - replace (b0 * 256) with (b0 * 2 ^ 8) by reflexivity.
    rewrite Z.mul_pow2_bits_low by lia. reflexivity.
  - rewrite (Z.bits_above_log2 b1 n); [apply andb_false_r | lia |].
    destruct (Z.eq_dec b1 0) as [-> | Hnz]; [simpl; lia |].
    apply Z.lt_le_trans with 8; [| lia].
    apply Z.log2_lt_pow2; lia.
Qed.

(** The decoding of one literal index, for operand bytes [b0] and
    [b1].  With the limits of the small encoding, a first byte below
    255 is the index, and 255 opens a two-byte index, from 255 to 510.
    With the limits of the full encoding, a first byte below 128 is
    the index, and a byte from 128 on opens a two-byte index, the
    low fifteen bits of the two bytes read as one big-endian number.
    With distinct header constants, [vm_loop] decodes with the limits
    of the full encoding whatever the flags of the code say: an
    operand byte from 128 to 254 of a code in the small encoding is
    then read as the first of two bytes. *)
Theorem vm_decode_literal_index_ranges (b0 b1 : Z) :
  0 <= b0 < 256 -> 0 <= b1 < 256 ->
  vm_decode_literal_index 255 0xfe01 b0 b1
  = (if b0 <? 255 then (b0, 1) else (255 + b1, 2))
  /\ vm_decode_literal_index 128 0x8000 b0 b1
     = (if b0 <? 128 then (b0, 1) else ((b0 - 128) * 256 + b1, 2))
  /\ forall full small status_flags,
       full <> small ->
       vm_decode_literal_index
         (vm_loop_prepare full small status_flags).1
         (vm_loop_prepare full small status_flags).2 b0 b1
       = (if b0 <? 128 then (b0, 1) else ((b0 - 128) * 256 + b1, 2)).
Proof.
  intros H0 H1.
  assert (Hfull :
    vm_decode_literal_index 128 0x8000 b0 b1
    = (if b0 <? 128 then (b0, 1) else ((b0 - 128) * 256 + b1, 2))).
  { unfold vm_decode_literal_index.
    destruct (Z.ltb_spec b0 128) as [Hlt | Hge].
    - rewrite (proj2 (Z.leb_gt 128 b0)) by exact Hlt. reflexivity.
    - rewrite (proj2 (Z.leb_le 128 b0)) by exact Hge.
      rewrite lor_shiftl_byte by lia. f_equal.
      rewrite Z.mod_small; lia. }
  split; [| split; [exact Hfull |]].
  - unfold vm_decode_literal_index.
    destruct (Z.ltb_spec b0 255) as [Hlt | Hge].
    + rewrite (proj2 (Z.leb_gt 255 b0)) by exact Hlt. reflexivity.
    + rewrite (proj2 (Z.leb_le 255 b0)) by exact Hge.
      rewrite lor_shiftl_byte by lia. f_equal.
      replace b0 with 255 by lia. rewrite Z.mod_small; lia.
  - intros full small status_flags Hne.
    rewrite (vm_loop_prepare_distinct_constants full small status_flags Hne).
    exact Hfull.
Qed.

(** The code of a blob in the small encoding whose operand byte is 200,
    followed by the byte 7, is the literal 200; [vm_loop] reads the
    literal 18439 and takes both bytes. *)
Lemma vm_decode_literal_index_ranges_witness :
  vm_decode_literal_index 255 0xfe01 200 7 = (200, 1)
  /\ vm_decode_literal_index 128 0x8000 200 7 = (18439, 2)
  /\ vm_decode_literal_index (vm_loop_prepare 1 0 0).1
       (vm_loop_prepare 1 0 0).2 200 7 = (18439, 2).
Proof.
  destruct (vm_decode_literal_index_ranges 200 7 ltac:(lia) ltac:(lia))
    as (Hsmall & Hfull & Hloop).
  split; [exact Hsmall |]. split; [exact Hfull |].
  apply (Hloop 1 0 0). discriminate.
Defined.

(** The operand stack of [vm_loop].  A result is stored in the slot
    that the pointer names, and the pointer moves up; an operand is
    read from the slot that the pointer names, and the pointer moves
    down.  So the operand taken after a result [v] is pushed is not
    [v]: it is what the slot above [v] held before, and it is out of
    the array when [v] went into the last slot; [v] stays where it
    is, in the slot that the pointer names afterwards. *)
Theorem vm_stack_push_then_operand (v : ecma_value_t) (s s1 : vm_stack_t) :
  vm_push_result v s = Some s1 ->
  vm_stack s1 !! vm_stack_top_p s = Some v
  /\ vm_operand_from_stack s1
     = match vm_stack s !! S (vm_stack_top_p s) with
       | Some above =>
           Some (above,
                 mk_vm_stack (<[vm_stack_top_p s := v]> (vm_stack s))
                             (vm_stack_top_p s))
       | None => None
       end.
Proof.
  unfold vm_push_result. destruct (decide _) as [Hlt |]; [| discriminate].
  intros H. injection H as <-. simpl. split.
  - apply list_lookup_insert_eq. exact Hlt.
  - unfold vm_operand_from_stack. simpl.
    rewrite list_lookup_insert_ne by lia.
    destruct (vm_stack s !! S (vm_stack_top_p s)); [| reflexivity].
    rewrite Nat.sub_0_r. reflexivity.
Qed.

(** On a stack of three slots that hold the simple values [null],
    [true] and [false], after [undefined] is pushed the operand that
    is read is [true]. *)
Lemma vm_stack_push_then_operand_witness :
  exists s1 s2,
    vm_push_result (ecma_simple ECMA_SIMPLE_VALUE_UNDEFINED)
      (mk_vm_stack [ecma_simple ECMA_SIMPLE_VALUE_NULL;
                    ecma_simple ECMA_SIMPLE_VALUE_TRUE;
                    ecma_simple ECMA_SIMPLE_VALUE_FALSE] 0)
    = Some s1
    /\ vm_operand_from_stack s1
       = Some (ecma_simple ECMA_SIMPLE_VALUE_TRUE, s2)
    /\ vm_stack_top_p s2 = 0%nat.
Proof.
  destruct (vm_stack_push_then_operand
              (ecma_simple ECMA_SIMPLE_VALUE_UNDEFINED)
              (mk_vm_stack [ecma_simple ECMA_SIMPLE_VALUE_NULL;
                            ecma_simple ECMA_SIMPLE_VALUE_TRUE;
                            ecma_simple ECMA_SIMPLE_VALUE_FALSE] 0)
              _ eq_refl)
    as [_ H].
  eexists _, _. split; [reflexivity |]. split; [exact H | reflexivity].
Defined.

End VmProperties.
